(* ===== verification/_CoqProject ===== *)
-Q . S2P
Prelude.v
JsString.v
Regex.v
RegexSpec.v
Parser.v
Forms.v
Contract.v
Path.v
Fs.v
World.v
Extract.v
Unpack.v
Download.v
Machine.v
Delivery.v
Footprint.v
Rerun.v
Cli.v
Program.v
Docs.v
Variant.v
