(* ===== verification/Prelude.v ===== *)
(** * A verification development for github-folder-downloader

    The program (src/src/index.ts, with an earlier state of the same
    file kept as src/unnamed/part_001) is a command-line tool that
    extracts one sub-folder of a GitHub repository: it parses a
    repository reference, resolves the branch, downloads the branch
    archive, walks the archive entry by entry and writes the entries
    that lie under the requested sub-folder into an output directory.

    ** The parts of the program and the files that model them

    - [Prelude] (this file): the shared vocabulary.  JavaScript strings
      are lists of code units ([jstring], a [list ascii]; the alphabet
      is the 256 one-byte code units, so the line terminators U+2028
      and U+2029 are outside the model), a thrown exception is the
      [Throw] constructor of [exn], and [first_some] is the
      backtracking combinator the matcher is specified with.
    - [JsString]: the string primitives the source calls
      ([startsWith], [replace] with a string pattern, [===], [||] on
      possibly-undefined strings, template interpolation).
    - [Regex]: the fragment of ECMAScript regular expressions that the
      three patterns of [parseGitHubUrl] and the pattern [/\/$/] use:
      the backtracking matcher with continuations of ECMA-262
      (22.2.2), [exec] and the non-global [replace].
    - [RegexSpec]: what a pattern matches, as a relation between
      states that knows nothing of backtracking ([matches]), and what
      can be read off a pattern: that a group is defined and not empty
      after every match, that a literal has to occur in the input.
    - [Parser]: [parseGitHubUrl] of index.ts (lines 42 to 77; the
      patterns are tried in the order tree URL, shorthand, full URL)
      and, in [Parser.Legacy], the two parsers of part_001.
    - [Forms]: no code of its own: the three forms of a reference as
      sets of strings ([is_tree_url], [is_shorthand], [is_repo_url]).
    - [Contract]: no code of its own: what the callers of a parser rely
      on, as the class [RefParser], with the parsers that keep it as
      its instances.
    - [Path]: the POSIX flavour of Node's [path] module as index.ts
      calls it ([join], [resolve], [basename], [dirname]).
    - [Fs]: the file system, a finite map from absolute paths (lists
      of segments) to files and directories, with the calls [stat],
      [readdir], [ensureDir], the write of an entry and [remove], and
      the errors [ENOENT], [ENOTDIR], [EEXIST] and [EISDIR].
    - [World]: what a run reads (the [env]: working directory,
      temporary directory, clock, the answers of the network, colour
      support, version) and what it changes (the [world]: file tree,
      output lines and requests, [process.exitCode]).
    - [Extract]: the [for await] loop of [downloadFolder] (lines 144 to
      174): [extract_try] is the [try] block of one iteration,
      [extract_entry] adds the [catch], [extract_all] is the loop.
    - [Unpack]: no code of its own: the extraction as an operation on
      trees ([unpack]), which the loop is compared with.
    - [Download]: [getDefaultBranch] (lines 79 to 84) and
      [downloadFolder] (lines 86 to 194) as the composition of its
      phases: [finalBranchOf], [fetchZip], [checkTarget] (the guard),
      [ensureDirs], [extractAndReport], and [onError] (the [catch]).
    - [Machine]: [downloadFolder] once more, as a transition system:
      a configuration is a control point of the function (the points
      between its [await]s, with the variables live there) and a world,
      [mstep] has a rule for each way the code goes on, [next] is the
      same as a function.  The steps call the phases of [Download].
    - [Delivery]: no code of its own: the tree on which the loop
      starts and the tree that a successful call leaves.
    - [Footprint]: no code of its own: the relation [clobbers] between
      the tree before and the tree after, which says where the two may
      differ.
    - [Rerun]: no code of its own: worlds compared by their trees, and
      what a second call of [downloadFolder] does.
    - [Cli]: [getVersion], [printHelp] and [main] (lines 198 to 249),
      and the exit status of the process.
    - [Program]: no code of its own: [main] composed with all of the
      above.
    - [Docs]: what the program says of itself: the usage line and the
      examples of the help text and of the README
      (src/unnamed/part_002), and the [define] entry of the build
      configuration (src/unnamed/part_000).
    - [Variant]: [downloadFolder] and the command line of part_001, in
      the module [Earlier].

    ** How state and effects are modelled

    A run threads a [world] through the operations; the [env] is
    read-only.  A suspension point ([await]) is a function call: the
    program is single-threaded and nothing else writes to the world
    during a run.  A JavaScript exception is a [Throw] value that the
    enclosing [try]/[catch] of the model matches on; [process.exit] is
    an [outcome] of [main].  An answer of the network is given by what
    the code asks of it: its status, what [res.json()] yields and the
    entries its body decodes to, optionally ended by a stream error.

    ** What the theorems show

    - [Extract]: the loop is the one run of a transition system of six
      rules ([step], [steps]), and by induction on its rules: a file
      entry with clean segments is written where it belongs
      ([extract_file_written]); only the entries of the sub-folder
      count ([extract_all_scope]); without [..] segments nothing outside
      of the output directory changes ([extract_all_confined]) and
      with them something does ([extract_escapes]); the tree stays well
      formed; [matchedSomething] and [filesExtracted] are what the
      entries make them, failures included; the progress lines count
      the files written, in order and without a gap
      ([extract_all_progress]).
    - [Unpack]: on every archive the loop is the extraction that
      passes over the entries that meet a file where they need a
      directory or a directory where they put a file, with one warning
      for each ([extract_all_best_effort]); when there is no such
      entry it is the abstract extraction ([extract_all_unpack]); on a
      coherent archive and an empty output directory that never
      happens, and the output directory holds after the loop the files
      and directories of the sub-folder and nothing else
      ([extract_all_delivers]).
    - [Delivery] and [Program]: the same for the whole call and for
      the program: the loop starts on a tree in which the output
      directory is empty ([ready_fresh]); after a successful run the
      files below the output directory are the file entries of the
      sub-folder, nothing that was in the tree is lost
      ([downloadFolder_delivered]), and [main] returns with the exit
      status 0 ([main_delivers]).  On every command line [main] is one
      call of [downloadFolder] or none ([main_call]), so the footprint
      of the call is that of the program ([main_footprint]).
    - [Download]: the guard case by case ([checkTarget_cases]); a
      target that is not free is left alone; the requests depend on
      the reference and the answers only; the success, not-found,
      parse-error and stream-error runs in closed form; the six ways
      in which the network fails a call ([net_failure]) and what the
      call does then ([downloadFolder_network_error]); the scratch
      directory is left behind after a success; the output directory
      is a normal absolute path.
    - [Machine]: the machine is deterministic, stops in [Terminal]
      only, and every run ends, passing the control points in the
      order of the text ([machine_terminates]); a step never changes
      the world the call will end with, so the runs from [Idle] end in
      the world of [Download.downloadFolder] and in no other
      ([machine_refines]).  By induction on the rules, in every
      configuration a run meets: the guard stands between the request
      of the archive and the first write ([guard_before_write]); in
      the loop the world is that of the loop of [Extract] on the
      entries yielded so far ([loop_inv_reachable]); and exactly one
      verdict of the spinner ends the run, a failure exactly when the
      exit code is set ([one_verdict]).
    - [Footprint]: [clobbers] is a preorder and each operation on the
      tree that a run performs is in it, so by induction on the rules
      of the machine a call, however it ends, changes the tree at the
      output directory, at the scratch directory and below them only,
      and makes the missing directories on the way to them
      ([downloadFolder_footprint]); the archive must have no entry
      that climbs with [..].
    - [Rerun]: every phase respects the equivalence of worlds with the
      same tree ([Proper] instances), so a call is a function of the
      tree; a call either leaves the tree as it was or gets to the
      loop; and a second call leaves the tree as the first call left it
      ([downloadFolder_idempotent]).
    - [Cli]: the exit status is 0 exactly on the flags and after the
      success line ([main_exit_status]); how the arguments are
      dispatched; the reference printed back for [downloadFolder]
      parses to the same reference for shorthand-like owners and
      repositories ([reparse_shorthand]) and fails to parse for others
      ([reparse_fails]).
    - [Docs]: [main] does what the usage line and the options say
      when the repository is no tree URL, the examples of the README
      are instances ([documented_usage]), and the third example of the
      help text is none ([help_example_tree_url]).
    - [Parser]: the result on each accepted form: shorthand
      ([parse_shorthand]), tree URL ([parse_tree_url]) and URL with
      [.git] and branch ([parse_full_url]); on every input, a result
      is well formed ([parse_well_formed]: owner and repository
      defined, no empty field, every field a piece of the input) and
      the parser refuses exactly what no pattern matches
      ([parse_refused_iff]); the parsers of part_001 agree with the
      reference one except on tree URLs ([parsers_agree],
      [legacy_parse_url]).
    - [Forms]: each pattern accepts exactly the strings of its form
      ([accepts_shorthand], [accepts_tree_url], [accepts_repo_url]),
      so the parser returns a reference on the inputs of the three
      forms and on no other ([parse_accepted_forms]).
    - [Contract]: [parseGitHubUrl] and [Legacy.parseGitHubUrl] keep
      the contract of a parser (a shorthand is read as written, a
      result has owner and repository, a word without a slash is
      refused), [Legacy.parseGitHubUrl2] does not; what [Cli] needs of
      the parser ([reparse_printed]) is proved of the class.
    - [RegexSpec]: the matcher is sound and complete for the relation
      [matches] ([m_sound], [m_complete]), so the theorems on all
      inputs are proved on the relation and hold of [exec]; each
      construct the patterns use is an equivalence between a match and
      the shape of the input it reads ([matches_group_chars],
      [matches_lit_after], [matches_opt]).
    - [Regex], [JsString], [Path], [Fs]: the behaviour of the
      primitives on the inputs the program gives them: the closed
      forms of the quantifiers and the leftmost match; the
      first-occurrence [replace]; [join], [resolve], [basename],
      [dirname] on clean segments; [ensureDir], write and [remove] with
      their invariant (well-formedness of the tree) and their frame.
    - [Variant]: where the two states of the program agree (the loops
      on archives without an entry equal to the sub-folder) and where
      the earlier one differs (a missing sub-folder is a success, the
      scratch directory is never removed, failed entries leave the
      status 0).

    ** Fuel and bounds

    The only recursion that is not structural is the repetition of the
    matcher.  It takes as fuel the minimum repetition count plus the
    number of code units left plus one; [Regex.repeat_fuel_enough]
    shows that any fuel at least that large gives the same result, and
    [RegexSpec.m_complete] that the matcher returns whenever the
    pattern matches, so the loop never stops for lack of fuel.
    Every operation of the model is a total function, so a call always
    ends with a world and an outcome.  The machine of [Machine] has no
    fuel: that each of its runs ends is a theorem
    ([machine_terminates]), by the order of the control points and the
    number of entries the stream has still to yield, and a run takes
    eight steps and one for each entry of the archive, at most
    ([machine_steps_bound]); the only liveness
    statement is this one, there being no scheduler and no fairness to
    assume in a program with one thread.  Counters are natural
    numbers: JavaScript's numbers are exact far beyond the number of
    entries an archive can hold.

    ** What is not modelled

    Of the regular expressions only the constructs the patterns use
    are there: no alternation, backreferences, lookaround or flags.
    The ZIP decoding and the HTTP exchange are the libraries': an
    archive is the list of entries the decoder yields, and an answer is
    what [fetch] resolves to.  The spinner's animation and colours are
    output only: a line is an event, and [chalk] wraps a text in its
    escape codes when colours are supported.  A write that fails
    half-way through a file, permissions, links and concurrent changes
    of the file system by other processes are not modelled; a write
    happens or raises.  Of the build configuration
    (src/unnamed/part_000) only the [define] entry reaches the program,
    and of the README (src/unnamed/part_002) only the usage line, the
    forms of a repository and the examples say what the program does;
    the rest of both is not modelled.  What is left of the sources
    beside these is the import lines, the two constants [__filename]
    and [__dirname] that serve to find package.json, the declaration of
    [__APP_VERSION__] and the statement [main();] that starts the
    program, whose promise nothing awaits: [Cli.exit_status] says what
    the process ends with. *)

From stdpp Require Export base tactics option list gmap strings.
From Stdlib Require Export Ascii.

(** ** JavaScript strings *)

(** A string is the list of its code units.  [str "abc"] is the literal. *)
Abbreviation jstring := (list ascii).
Abbreviation str s := (String.list_ascii_of_string s).

Declare Scope js_scope.
Delimit Scope js_scope with js.

(** ** Computations that may throw *)

(** [Val a] is a normal completion, [Throw e] an exception carrying [e]. *)
Inductive exn (E A : Type) : Type :=
  | Val (a : A)
  | Throw (e : E).
Arguments Val {E A} a.
Arguments Throw {E A} e.

Definition exn_bind {E A B} (f : A → exn E B) (c : exn E A) : exn E B :=
  match c with
  | Val a => f a
  | Throw e => Throw e
  end.

Definition exn_catch {E A} (c : exn E A) (h : E → A) : A :=
  match c with
  | Val a => a
  | Throw e => h e
  end.

Definition is_val {E A} (c : exn E A) : bool :=
  match c with Val _ => true | Throw _ => false end.

Notation "'let!' x := c 'in' k" := (exn_bind (fun x => k) c)
  (at level 10, x pattern, c at level 100, k at level 200) : js_scope.
Notation "c 'catch!' h" := (exn_catch c h)
  (at level 60, right associativity) : js_scope.

(** A JavaScript [Error]: its message, and the [code] that the errors
    of the file system carry. *)
Record js_error : Type := JsError {
  err_code : option jstring;
  err_message : jstring
}.

(** [new Error(msg)]. *)
Definition Error (msg : jstring) : js_error := JsError None msg.

(** ** Backtracking: the first alternative that succeeds *)

Fixpoint first_some {A B} (f : A → option B) (l : list A) : option B :=
  match l with
  | [] => None
  | a :: l' => match f a with Some b => Some b | None => first_some f l' end
  end.

(** The length of the longest prefix whose elements all satisfy [p]. *)
Fixpoint run_length {A} (p : A → bool) (l : list A) : nat :=
  match l with
  | a :: l' => if p a then S (run_length p l') else 0
  | [] => 0
  end.

(** The longest prefix whose elements satisfy [p], and what follows it. *)
Definition take_while {A} (p : A → bool) (l : list A) : list A :=
  take (run_length p l) l.
Definition drop_while {A} (p : A → bool) (l : list A) : list A :=
  drop (run_length p l) l.

(** ** Tactics *)

(** [case_scrut] does a case analysis on the scrutinee of the first
    [match] of the goal, keeping the equation. *)
Ltac case_scrut :=
  match goal with
  | |- context [match ?x with _ => _ end] =>
      let E := fresh "E" in destruct x eqn:E
  end.

(** [exn_simpl] pushes the exception monad's operations through
    constructors. *)
Ltac exn_simpl :=
  repeat (cbn [exn_bind exn_catch is_val] in *; simplify_eq).

Create HintDb gfd discriminated.
Create Rewrite HintDb gfd_rw.

(** ** Lemmas shared by the components *)

Section exn_laws.
Context {E A B C : Type}.
Implicit Types (c : exn E A) (f : A → exn E B) (g : B → exn E C).

Lemma exn_bind_val a f : exn_bind f (Val a) = f a.
Proof. done. Qed.

Lemma exn_bind_throw e f : exn_bind f (Throw e : exn E A) = Throw e.
Proof. done. Qed.

Lemma exn_bind_assoc c f g :
  exn_bind g (exn_bind f c) = exn_bind (fun a => exn_bind g (f a)) c.
Proof. by destruct c. Qed.

Lemma exn_bind_val_inv c f b :
  exn_bind f c = Val b → ∃ a, c = Val a ∧ f a = Val b.
Proof. destruct c; naive_solver. Qed.

Lemma exn_bind_throw_inv c f e :
  exn_bind f c = Throw e →
  c = Throw e ∨ ∃ a, c = Val a ∧ f a = Throw e.
Proof. destruct c; naive_solver. Qed.
End exn_laws.

Section first_some.
Context {A B : Type}.
Implicit Types (f g : A → option B) (l : list A).

Lemma first_some_app f l1 l2 :
  first_some f (l1 ++ l2) =
  match first_some f l1 with Some b => Some b | None => first_some f l2 end.
Proof. induction l1 as [|a l1 IH]; simpl; [done|]. by destruct (f a). Qed.

Lemma first_some_ext f g l :
  (∀ a, a ∈ l → f a = g a) → first_some f l = first_some g l.
Proof.
  induction l as [|a l IH]; intros Hfg; simpl; [done|].
  rewrite (Hfg a) by set_solver. rewrite IH; [done|]. set_solver.
Qed.

Lemma first_some_None f l :
  first_some f l = None ↔ ∀ a, a ∈ l → f a = None.
Proof.
  induction l as [|a l IH]; simpl; [set_solver|].
  destruct (f a) eqn:Ha.
  - split; [done|]. intros H. specialize (H a). rewrite Ha in H.
    apply H. set_solver.
  - rewrite IH. set_solver.
Qed.

Lemma first_some_Some f l b :
  first_some f l = Some b ↔
  ∃ l1 a l2, l = l1 ++ a :: l2 ∧ f a = Some b ∧ ∀ a', a' ∈ l1 → f a' = None.
Proof.
  induction l as [|a l IH]; simpl.
  - split; [done|]. intros (l1 & a & l2 & ? & _). by destruct l1.
  - destruct (f a) eqn:Ha.
    + split.
      * intros [= ->]. exists [], a, l. set_solver.
      * intros ([|a' l1] & a0 & l2 & Hl & Hb & Hn); simplify_eq/=; [done|].
        rewrite Hn in Ha; [done|set_solver].
    + rewrite IH. split.
      * intros (l1 & a0 & l2 & -> & Hb & Hn).
        exists (a :: l1), a0, l2. set_solver.
      * intros ([|a' l1] & a0 & l2 & Hl & Hb & Hn); simplify_eq/=.
        exists l1, a0, l2. set_solver.
Qed.

Lemma first_some_singleton f a : first_some f [a] = f a.
Proof. simpl. by destruct (f a). Qed.

Lemma first_some_snoc f l a :
  first_some f (l ++ [a]) =
  match first_some f l with Some b => Some b | None => f a end.
Proof. by rewrite first_some_app, first_some_singleton. Qed.

(** The first alternative decides when every earlier one fails. *)
Lemma first_some_skip f l1 a l2 :
  (∀ a', a' ∈ l1 → f a' = None) →
  first_some f (l1 ++ a :: l2) =
  match f a with Some b => Some b | None => first_some f l2 end.
Proof.
  intros Hn. rewrite first_some_app.
  by rewrite (proj2 (first_some_None f l1) Hn).
Qed.
End first_some.

Section run_length.
Context {A : Type} (p : A → bool).
Implicit Types l w : list A.

Lemma run_length_le l : run_length p l ≤ length l.
Proof. induction l as [|a l IH]; simpl; [lia|]. destruct (p a); simpl; lia. Qed.

Lemma run_length_app w l :
  Forall (λ a, p a = true) w →
  run_length p (w ++ l) = length w + run_length p l.
Proof. induction 1 as [|a w Ha _ IH]; simpl; [done|]. by rewrite Ha, IH. Qed.

Lemma run_length_stop w a l :
  Forall (λ a, p a = true) w → p a = false →
  run_length p (w ++ a :: l) = length w.
Proof. intros Hw Ha. rewrite run_length_app by done. simpl. rewrite Ha. lia. Qed.

Lemma run_length_all w :
  Forall (λ a, p a = true) w → run_length p w = length w.
Proof.
  intros Hw. rewrite <-(app_nil_r w) at 1.
  rewrite run_length_app by done. simpl. lia.
Qed.

(** Every element before the end of the run satisfies [p]. *)
Lemma run_length_lookup l i a :
  i < run_length p l → l !! i = Some a → p a = true.
Proof.
  revert i; induction l as [|b l IH]; intros i; simpl; [lia|].
  destruct (p b) eqn:Hb; [|lia]. destruct i as [|i]; simpl.
  - by intros _ [= <-].
  - intros ?. apply IH. lia.
Qed.

(** Inside the run, the next element satisfies [p]. *)
Lemma run_length_drop l j :
  j < run_length p l → ∃ a t, drop j l = a :: t ∧ p a = true.
Proof.
  revert j; induction l as [|b l IH]; intros j; simpl; [lia|].
  destruct (p b) eqn:Hb; [|lia]. destruct j as [|j]; simpl; [by eauto|].
  intros ?. apply IH. lia.
Qed.

Lemma run_length_take l : Forall (λ a, p a = true) (take (run_length p l) l).
Proof.
  induction l as [|b l IH]; simpl; [done|].
  destruct (p b) eqn:Hb; simpl; [|done]. by constructor.
Qed.

Lemma take_while_stop w a l :
  Forall (λ a, p a = true) w → p a = false →
  take_while p (w ++ a :: l) = w.
Proof.
  intros Hw Ha. unfold take_while.
  by rewrite run_length_stop, take_app_length by done.
Qed.

Lemma drop_while_stop w a l :
  Forall (λ a, p a = true) w → p a = false →
  drop_while p (w ++ a :: l) = a :: l.
Proof.
  intros Hw Ha. unfold drop_while.
  by rewrite run_length_stop, drop_app_length by done.
Qed.

Lemma take_while_all w : Forall (λ a, p a = true) w → take_while p w = w.
Proof.
  intros Hw. unfold take_while. by rewrite run_length_all, firstn_all by done.
Qed.

Lemma drop_while_all w : Forall (λ a, p a = true) w → drop_while p w = [].
Proof.
  intros Hw. unfold drop_while. by rewrite run_length_all, drop_all by done.
Qed.

Lemma drop_while_app w l :
  Forall (λ a, p a = true) w → drop_while p (w ++ l) = drop_while p l.
Proof.
  intros Hw. unfold drop_while.
  by rewrite run_length_app, <-drop_drop, drop_app_length by done.
Qed.

Lemma drop_while_none l : Forall (λ a, p a = false) l → drop_while p l = l.
Proof. destruct 1 as [|a l Ha _]; unfold drop_while; simpl; [done|]. by rewrite Ha. Qed.

Lemma take_while_app w l :
  Forall (λ a, p a = true) w → take_while p (w ++ l) = w ++ take_while p l.
Proof.
  intros Hw. unfold take_while.
  by rewrite run_length_app, take_app_add by done.
Qed.

Lemma take_while_Forall l : Forall (λ a, p a = true) (take_while p l).
Proof. apply run_length_take. Qed.

Lemma drop_while_head l a t : drop_while p l = a :: t → p a = false.
Proof.
  unfold drop_while. induction l as [|b l IH]; simpl; [done|].
  destruct (p b) eqn:Hb; simpl; [done|]. by intros [= <- _].
Qed.
End run_length.

#[export] Hint Rewrite @exn_bind_val @exn_bind_throw : gfd_rw.

(** ** Lists *)

(** Two lists of which neither continues the other stay so when one
    gets one more element. *)
Lemma not_prefix_snoc {A} (a b : list A) x :
  ¬ a `prefix_of` b → ¬ b `prefix_of` a → ¬ a `prefix_of` b ++ [x].
Proof.
  intros Hab Hba [k Hk]. destruct k as [|y k _] using rev_ind.
  - rewrite app_nil_r in Hk. apply Hba. exists [x]. done.
  - rewrite (assoc (++)) in Hk. apply app_inj_tail in Hk as [-> _].
    apply Hab. by exists k.
Qed.

Lemma app_cons_snoc {A} (l : list A) x k : l ++ x :: k = (l ++ [x]) ++ k.
Proof. by rewrite <-app_assoc. Qed.
