(* ===== verification/JsString.v ===== *)
(** * JavaScript string primitives

    The operations on strings that index.ts calls, on [jstring]:
    [startsWith], [indexOf], [replace] with a string pattern (the first
    occurrence only), strict equality, the [||] default on a string that
    may be [undefined], and the two interpolations of template literals
    that are not the identity ([undefined] and numbers).

    The lemmas relate each operation to the list vocabulary ([prefix],
    [++], [take], [drop]) that the other files reason with. *)

From S2P Require Import Prelude.
From Stdlib Require Import DecimalString.

(** ** Definitions *)

(** [s.startsWith(p)]. *)
Fixpoint startsWith (s p : jstring) {struct p} : bool :=
  match p, s with
  | [], _ => true
  | _ :: _, [] => false
  | a :: p', b :: s' => bool_decide (a = b) && startsWith s' p'
  end.

(** [a === b] on two strings. *)
Definition str_eqb (a b : jstring) : bool := bool_decide (a = b).

(** [s.indexOf(pat)], [None] standing for [-1]. *)
Fixpoint indexOf (s pat : jstring) : option nat :=
  if startsWith s pat then Some 0
  else match s with
       | [] => None
       | _ :: s' => S <$> indexOf s' pat
       end.

(** [s.replace(pat, rep)] for a string [pat]: the first occurrence of
    [pat] is replaced, the others are kept.  The replacement strings of
    the source are empty, so the [$]-patterns of [rep] do not arise. *)
Fixpoint replace_str (s pat rep : jstring) : jstring :=
  if startsWith s pat then rep ++ drop (length pat) s
  else match s with
       | [] => []
       | c :: s' => c :: replace_str s' pat rep
       end.

(** A value of type [string | undefined]; the empty string and
    [undefined] are the falsy ones. *)
Definition truthy (o : option jstring) : bool :=
  match o with
  | Some (_ :: _) => true
  | _ => false
  end.

(** [a || b] where [b] is a string. *)
Definition or_str (a : option jstring) (b : jstring) : jstring :=
  match a with
  | Some (c :: a') => c :: a'
  | _ => b
  end.

(** A possibly-undefined string inside a template literal. *)
Definition show_opt (o : option jstring) : jstring :=
  match o with
  | Some s => s
  | None => str "undefined"
  end.

(** A natural number inside a template literal, in decimal. *)
Definition show_nat (n : nat) : jstring :=
  str (NilEmpty.string_of_uint (Nat.to_uint n)).

(** [arr.includes(x)] on an array of strings. *)
Definition includes (arr : list jstring) (x : jstring) : bool :=
  bool_decide (x ∈ arr).

(** ** Properties *)

Lemma startsWith_prefix s p : startsWith s p = true ↔ p `prefix_of` s.
Proof.
  revert s; induction p as [|a p IH]; intros [|b s]; simpl.
  - split; [intros _; apply prefix_nil|done].
  - split; [intros _; apply prefix_nil|done].
  - split; [done|]. intros H%prefix_nil_inv. done.
  - rewrite andb_true_iff, bool_decide_eq_true, IH. split.
    + intros [-> H]. by apply prefix_cons.
    + intros H. split; [by apply prefix_cons_inv_1 in H|
                        by apply prefix_cons_inv_2 in H].
Qed.

Lemma startsWith_app s p : startsWith (p ++ s) p = true.
Proof. apply startsWith_prefix. by apply prefix_app_r. Qed.

(** What comes after the first [length p] code units does not matter. *)
Lemma startsWith_app_l s t p :
  length p ≤ length s → startsWith (s ++ t) p = startsWith s p.
Proof.
  revert s; induction p as [|a p IH]; intros [|b s] Hl; simpl in *;
    [done..|lia|]. rewrite IH; [done|lia].
Qed.

Lemma startsWith_false s p : startsWith s p = false ↔ ¬ p `prefix_of` s.
Proof. rewrite <-startsWith_prefix. by destruct (startsWith s p). Qed.

Lemma startsWith_drop s p :
  startsWith s p = true → s = p ++ drop (length p) s.
Proof.
  intros [k ->]%startsWith_prefix. by rewrite drop_app_length.
Qed.

Lemma str_eqb_eq a b : str_eqb a b = true ↔ a = b.
Proof. apply bool_decide_eq_true. Qed.

Lemma includes_In arr x : includes arr x = true ↔ x ∈ arr.
Proof. apply bool_decide_eq_true. Qed.

(** [indexOf] returns the position of the first occurrence. *)
Lemma indexOf_Some s pat i :
  indexOf s pat = Some i ↔
  pat `prefix_of` drop i s ∧ i ≤ length s ∧
  ∀ j, j < i → ¬ pat `prefix_of` drop j s.
Proof.
  revert i; induction s as [|c s IH]; intros i; cbn [indexOf].
  - destruct (startsWith [] pat) eqn:E.
    + apply startsWith_prefix in E. split.
      * intros [= <-]. split_and!; [done|simpl; lia|intros ??; lia].
      * intros (_ & Hi & _). simpl in Hi. f_equal; lia.
    + apply startsWith_false in E. split; [done|].
      intros (Hp & _ & _). by rewrite drop_nil in Hp.
  - destruct (startsWith (c :: s) pat) eqn:E.
    + apply startsWith_prefix in E. split.
      * intros [= <-]. split_and!; [done|simpl; lia|intros ??; lia].
      * intros (_ & _ & Hn). destruct i as [|i]; [done|].
        destruct (Hn 0); [lia|done].
    + apply startsWith_false in E. rewrite fmap_Some. split.
      * intros (i' & (Hp & Hl & Hn)%IH & ->). split_and!; [done|simpl; lia|].
        intros [|j] ?; [done|]. apply Hn. lia.
      * intros (Hp & Hl & Hn). destruct i as [|i]; [done|].
        exists i. split; [|done]. apply IH.
        split_and!; [done|simpl in Hl; lia|].
        intros j ?. apply (Hn (S j)). lia.
Qed.

Lemma indexOf_None s pat :
  indexOf s pat = None ↔ ∀ j, j ≤ length s → ¬ pat `prefix_of` drop j s.
Proof.
  induction s as [|c s IH]; cbn [indexOf].
  - destruct (startsWith [] pat) eqn:E.
    + apply startsWith_prefix in E. split; [done|].
      intros H. destruct (H 0); [lia|done].
    + apply startsWith_false in E. split; [|done].
      intros _ j _. by rewrite drop_nil.
  - destruct (startsWith (c :: s) pat) eqn:E.
    + apply startsWith_prefix in E. split; [done|].
      intros H. destruct (H 0); [lia|done].
    + apply startsWith_false in E. rewrite fmap_None, IH. split.
      * intros H [|j] ?; [done|]. apply H. simpl in *; lia.
      * intros H j ?. apply (H (S j)). simpl; lia.
Qed.

(** [replace] cuts the pattern out at the position [indexOf] finds, and
    leaves the string alone when the pattern does not occur. *)
Lemma replace_str_indexOf s pat rep :
  replace_str s pat rep =
  match indexOf s pat with
  | Some i => take i s ++ rep ++ drop (i + length pat) s
  | None => s
  end.
Proof.
  induction s as [|c s IH]; cbn [indexOf replace_str].
  - by destruct (startsWith [] pat).
  - destruct (startsWith (c :: s) pat); [done|].
    rewrite IH. by destruct (indexOf s pat).
Qed.

Lemma replace_str_prefix s pat rep :
  replace_str (pat ++ s) pat rep = rep ++ s.
Proof.
  destruct pat as [|a pat]; [by destruct s|].
  cbn [app replace_str]. change (a :: pat ++ s) with ((a :: pat) ++ s).
  by rewrite startsWith_app, drop_app_length.
Qed.

Lemma replace_str_absent s pat rep :
  indexOf s pat = None → replace_str s pat rep = s.
Proof. intros H. by rewrite replace_str_indexOf, H. Qed.

Lemma replace_str_length_le s pat :
  length (replace_str s pat []) ≤ length s.
Proof.
  induction s as [|c s IH]; cbn [replace_str].
  - destruct (startsWith [] pat);
      [rewrite app_nil_l, length_drop|]; simpl; lia.
  - destruct (startsWith (c :: s) pat);
      [rewrite app_nil_l, length_drop|]; simpl; lia.
Qed.

Lemma truthy_or_str a b :
  or_str a b = if truthy a then default [] a else b.
Proof. by destruct a as [[|]|]. Qed.

Lemma truthy_Some_ne s : truthy (Some s) = true ↔ s ≠ [].
Proof. by destruct s. Qed.

Lemma startsWith_longer s p : length s < length p → startsWith s p = false.
Proof.
  intros Hl. apply startsWith_false. intros [k ->].
  rewrite length_app in Hl. lia.
Qed.

(** A pattern longer than the string does not occur in it. *)
Lemma replace_str_longer s pat rep :
  length s < length pat → replace_str s pat rep = s.
Proof.
  induction s as [|c s IH]; intros Hl; cbn [replace_str];
    rewrite startsWith_longer by done; [done|].
  rewrite IH; [done|]. simpl in Hl. lia.
Qed.

(** ** Occurrences *)

(** [part_of w s]: the string [w] occurs in [s]. *)
Definition part_of (w s : jstring) : Prop := ∃ a b, s = a ++ w ++ b.

Lemma part_of_drop w s :
  part_of w s ↔ ∃ j, j ≤ length s ∧ w `prefix_of` drop j s.
Proof.
  split.
  - intros (a & b & ->). exists (length a).
    rewrite drop_app_length, length_app. split; [lia|by exists b].
  - intros (j & _ & b & Hb). exists (take j s), b.
    by rewrite <-Hb, take_drop.
Qed.

Lemma part_of_app_r w a s : part_of w s → part_of w (a ++ s).
Proof. intros (a' & b & ->). exists (a ++ a'), b. by rewrite <-(assoc (++)). Qed.

Lemma part_of_app_l w s b : part_of w s → part_of w (s ++ b).
Proof.
  intros (a & b' & ->). exists a, (b' ++ b). by rewrite <-!(assoc (++)).
Qed.

(** [indexOf] finds an occurrence exactly when there is one. *)
Lemma indexOf_part_of s w : indexOf s w = None ↔ ¬ part_of w s.
Proof. rewrite indexOf_None, part_of_drop. naive_solver. Qed.

#[global] Instance part_of_dec w s : Decision (part_of w s).
Proof.
  destruct (indexOf s w) as [i|] eqn:E.
  - left. apply indexOf_Some in E as (Hp & Hi & _). apply part_of_drop. eauto.
  - right. by apply indexOf_part_of.
Defined.

(** ** The first occurrence *)

(** [replace] with a string pattern replaces the first
    occurrence and only that: when the pattern first occurs at index
    [i], the result is the text before [i], the replacement, and the
    text after the occurrence; when it does not occur, the string is
    returned as it is. *)
Lemma replace_str_first s pat rep :
  (∀ i, i ≤ length s → pat `prefix_of` drop i s →
        (∀ j, j < i → ¬ pat `prefix_of` drop j s) →
        replace_str s pat rep = take i s ++ rep ++ drop (i + length pat) s) ∧
  ((∀ j, j ≤ length s → ¬ pat `prefix_of` drop j s) →
   replace_str s pat rep = s).
Proof.
  split.
  - intros i Hi Hp Hn. rewrite replace_str_indexOf.
    assert (indexOf s pat = Some i) as -> by (by apply indexOf_Some). done.
  - intros Hn. apply replace_str_absent. by apply indexOf_None.
Qed.

Lemma replace_str_first_witness :
  replace_str (str "repo-main/keep/repo-main/a.txt") (str "repo-main/") []
  = str "keep/repo-main/a.txt".
Proof.
  destruct (replace_str_first (str "repo-main/keep/repo-main/a.txt")
              (str "repo-main/") []) as [H _].
  rewrite (H 0); [reflexivity|simpl; lia| |intros; lia].
  apply (bool_decide_unpack _). vm_compute. exact I.
Defined.
