(* ===== verification/Regex.v ===== *)
(** * ECMAScript regular expressions: the fragment the tool uses

    The patterns of index.ts are built from literal characters, [.],
    character classes ([[\w.-]], [[^/]]), capturing and non-capturing
    groups, the quantifiers [+], [+?] and [?], and the assertions [^]
    and [$].  This file gives that fragment as an abstract syntax
    ([regex]) and its meaning as the backtracking matcher of ECMA-262
    (section 22.2.2): a matcher takes a state and a continuation, and a
    repetition tries one more iteration before (greedy) or after (lazy)
    the continuation.  [exec] is [RegExp.prototype.exec] on a pattern
    without flags, [replace_re] the non-global [String.prototype.replace].

    The state keeps the code units still to read ([ms_rest]) beside the
    index ([ms_pos]); a capture is the text of its group.

    Theorems: a matcher only looks at continuations on states it can
    reach by consuming input ([m_local]); the fuel of a repetition is
    enough ([rep_loop_fuel]); the closed forms of the repetitions the
    patterns use ([m_opt], [m_plus_greedy], [m_plus_lazy]) in terms of
    [first_some]. *)

From S2P Require Import Prelude JsString.

(** ** Syntax *)

Inductive class_item : Type :=
  | CChar (c : ascii)
  | CRange (lo hi : ascii)
  | CWord.

Inductive regex : Type :=
  | Empty
  | Char (c : ascii)
  | Dot
  | Class (neg : bool) (items : list class_item)
  | Seq (r1 r2 : regex)
  | Group (n : nat) (r : regex)
  | Repeat (min : nat) (max : option nat) (greedy : bool) (r : regex)
  | Bol
  | Eol.

#[global] Instance class_item_eq_dec : EqDecision class_item.
Proof. solve_decision. Defined.

#[global] Instance regex_eq_dec : EqDecision regex.
Proof. solve_decision. Defined.

(** A literal string is the sequence of its characters. *)
Fixpoint lit (s : jstring) : regex :=
  match s with
  | [] => Empty
  | c :: s' => Seq (Char c) (lit s')
  end.

(** The capture indices that occur in a pattern. *)
Fixpoint groups (r : regex) : list nat :=
  match r with
  | Group n r => n :: groups r
  | Seq r1 r2 => groups r1 ++ groups r2
  | Repeat _ _ _ r => groups r
  | _ => []
  end.

(** ** Character tests *)

Definition in_range (lo hi c : ascii) : bool :=
  (N_of_ascii lo <=? N_of_ascii c)%N && (N_of_ascii c <=? N_of_ascii hi)%N.

(** [\w]: the ASCII letters, the digits and the underscore. *)
Definition is_word (c : ascii) : bool :=
  in_range "a" "z" c || in_range "A" "Z" c || in_range "0" "9" c
  || bool_decide (c = "_"%char).

(** The line terminators that [.] does not match: LF and CR. *)
Definition is_line_terminator (c : ascii) : bool :=
  bool_decide (c = "010"%char) || bool_decide (c = "013"%char).

Definition item_matches (c : ascii) (i : class_item) : bool :=
  match i with
  | CChar a => bool_decide (c = a)
  | CRange lo hi => in_range lo hi c
  | CWord => is_word c
  end.

Definition class_matches (neg : bool) (items : list class_item)
    (c : ascii) : bool :=
  xorb neg (existsb (item_matches c) items).

Definition dot_matches (c : ascii) : bool := negb (is_line_terminator c).

(** ** The matcher *)

Record mstate : Type := MState {
  ms_rest : jstring;            (* the input from the end index on *)
  ms_pos : nat;                 (* the end index *)
  ms_caps : gmap nat jstring    (* the captures that are defined *)
}.

Definition cont : Type := mstate → option mstate.

(** The state [j] code units further. *)
Definition adv (x : mstate) (j : nat) : mstate :=
  MState (drop j (ms_rest x)) (ms_pos x + j) (ms_caps x).

Definition set_cap (n : nat) (s : jstring) (x : mstate) : mstate :=
  MState (ms_rest x) (ms_pos x) (<[n := s]> (ms_caps x)).

Definition clear_caps (gs : list nat) (x : mstate) : mstate :=
  MState (ms_rest x) (ms_pos x) (foldr delete (ms_caps x) gs).

(** One character that satisfies [p]. *)
Definition match_char (p : ascii → bool) (x : mstate) (k : cont)
    : option mstate :=
  match ms_rest x with
  | c :: _ => if p c then k (adv x 1) else None
  | [] => None
  end.

(** RepeatMatcher of ECMA-262.  [ma] matches the quantified atom, [gs]
    are the captures inside it (reset at each iteration).  An iteration
    that is not required and consumes nothing is refused, so the loop
    ends; [fuel] bounds the number of iterations. *)
Fixpoint rep_loop (ma : mstate → cont → option mstate) (gs : list nat)
    (greedy : bool) (fuel min : nat) (max : option nat)
    (x : mstate) (k : cont) : option mstate :=
  match fuel with
  | 0 => None
  | S fuel' =>
      if bool_decide (max = Some 0) then k x
      else
        let d := fun y =>
          if bool_decide (min = 0) && bool_decide (ms_pos y = ms_pos x)
          then None
          else rep_loop ma gs greedy fuel' (pred min) (pred <$> max) y k in
        let xr := clear_caps gs x in
        if negb (bool_decide (min = 0)) then ma xr d
        else if greedy then
          match ma xr d with Some z => Some z | None => k x end
        else
          match k x with Some z => Some z | None => ma xr d end
  end.

Definition rep_fuel (min : nat) (x : mstate) : nat :=
  min + length (ms_rest x) + 1.

Fixpoint m (r : regex) : mstate → cont → option mstate :=
  match r with
  | Empty => fun x k => k x
  | Char c => match_char (fun b => bool_decide (b = c))
  | Dot => match_char dot_matches
  | Class neg items => match_char (class_matches neg items)
  | Seq r1 r2 => fun x k => m r1 x (fun y => m r2 y k)
  | Group n r => fun x k =>
      m r x (fun y =>
        k (set_cap n (take (ms_pos y - ms_pos x) (ms_rest x)) y))
  | Repeat min max greedy r => fun x k =>
      rep_loop (m r) (groups r) greedy (rep_fuel min x) min max x k
  | Bol => fun x k => if bool_decide (ms_pos x = 0) then k x else None
  | Eol => fun x k => match ms_rest x with [] => k x | _ :: _ => None end
  end.

(** ** [exec] and [replace] *)

Record match_result : Type := MatchResult {
  mr_index : nat;               (* where the match starts *)
  mr_end : nat;                 (* where it ends *)
  mr_caps : gmap nat jstring
}.

(** The match of [r] at index [i], where [s] is the input from [i] on. *)
Definition match_at (r : regex) (s : jstring) (i : nat)
    : option match_result :=
  (λ y, MatchResult i (ms_pos y) (ms_caps y)) <$> m r (MState s i ∅) Some.

(** The leftmost match: the start index goes from [i] to the end of the
    input. *)
Fixpoint exec_from (r : regex) (s : jstring) (i : nat)
    : option match_result :=
  match match_at r s i with
  | Some res => Some res
  | None =>
      match s with
      | [] => None
      | _ :: s' => exec_from r s' (S i)
      end
  end.

Definition exec (r : regex) (s : jstring) : option match_result :=
  exec_from r s 0.

(** [res[n]] for [n ≥ 1]: the text of group [n], or [undefined]. *)
Definition group (res : match_result) (n : nat) : option jstring :=
  mr_caps res !! n.

(** [s.replace(r, rep)] for a pattern without the [g] flag. *)
Definition replace_re (s : jstring) (r : regex) (rep : jstring) : jstring :=
  match exec r s with
  | Some res => take (mr_index res) s ++ rep ++ drop (mr_end res) s
  | None => s
  end.

(** ** Reachable states *)

(** [advances x y]: [y] is [x] after consuming some code units. *)
Definition advances (x y : mstate) : Prop :=
  ∃ w, ms_rest x = w ++ ms_rest y ∧ ms_pos y = ms_pos x + length w.

(** A matcher is [local] when it only asks its continuation about states
    that it reaches by consuming input. *)
Definition local (ma : mstate → cont → option mstate) : Prop :=
  ∀ x k k', (∀ y, advances x y → k y = k' y) → ma x k = ma x k'.

Section advances.
Implicit Types x y z : mstate.

Lemma advances_refl x : advances x x.
Proof. exists []. simpl. split; [done|lia]. Qed.

Lemma advances_trans x y z : advances x y → advances y z → advances x z.
Proof.
  intros (w1 & Hr1 & Hp1) (w2 & Hr2 & Hp2). exists (w1 ++ w2).
  rewrite Hr1, Hr2, Hp2, Hp1, length_app, <-(assoc (++)). split; [done|lia].
Qed.

Lemma advances_adv x j : j ≤ length (ms_rest x) → advances x (adv x j).
Proof.
  intros Hj. exists (take j (ms_rest x)). simpl.
  rewrite take_drop, length_take. split; [done|lia].
Qed.

Lemma advances_set_cap x y n s : advances x y → advances x (set_cap n s y).
Proof. done. Qed.

Lemma advances_clear_caps x y gs :
  advances (clear_caps gs x) y ↔ advances x y.
Proof. done. Qed.

Lemma advances_length x y :
  advances x y → length (ms_rest y) ≤ length (ms_rest x).
Proof. intros (w & -> & _). rewrite length_app. lia. Qed.

Lemma advances_progress x y :
  advances x y → ms_pos y ≠ ms_pos x →
  length (ms_rest y) < length (ms_rest x).
Proof.
  intros (w & -> & Hp) Hne. rewrite length_app.
  destruct w; simpl in *; lia.
Qed.

Lemma advances_pos x y : advances x y → ms_pos x ≤ ms_pos y.
Proof. intros (w & _ & ->). lia. Qed.
End advances.

#[export] Hint Resolve advances_refl advances_trans advances_adv
  advances_set_cap : gfd.

(** ** The matcher is local, and the fuel is enough *)

Lemma match_char_local p : local (match_char p).
Proof.
  intros x k k' Hk. unfold match_char.
  destruct (ms_rest x) as [|c t] eqn:Hx; [done|].
  destruct (p c); [|done]. apply Hk, advances_adv. rewrite Hx. simpl. lia.
Qed.

Section rep_loop.
Context (ma : mstate → cont → option mstate) (gs : list nat) (greedy : bool).
Context (Hma : local ma).

Lemma rep_loop_local fuel min max : local (rep_loop ma gs greedy fuel min max).
Proof.
  revert min max.
  induction fuel as [|fuel IH]; intros min max x k k' Hk; simpl; [done|].
  rewrite (Hk x) by apply advances_refl.
  case_bool_decide; [done|].
  rewrite (Hma (clear_caps gs x) _
    (λ y, if bool_decide (min = 0) && bool_decide (ms_pos y = ms_pos x)
          then None
          else rep_loop ma gs greedy fuel (pred min) (pred <$> max) y k')).
  { done. }
  intros y Hy. destruct (_ && _); [done|].
  apply IH. intros z Hz. apply Hk. by eapply advances_trans.
Qed.

(** More fuel than [rep_fuel] does not change the result. *)
Lemma rep_loop_fuel fuel fuel' min max x k :
  rep_fuel min x ≤ fuel → rep_fuel min x ≤ fuel' →
  rep_loop ma gs greedy fuel min max x k =
  rep_loop ma gs greedy fuel' min max x k.
Proof.
  revert fuel' min max x.
  induction fuel as [|fuel IH]; intros [|fuel'] min max x;
    unfold rep_fuel; intros Hf Hf'; [lia..|]. simpl.
  case_bool_decide; [done|].
  rewrite (Hma (clear_caps gs x) _
    (λ y, if bool_decide (min = 0) && bool_decide (ms_pos y = ms_pos x)
          then None
          else rep_loop ma gs greedy fuel' (pred min) (pred <$> max) y k)).
  { done. }
  intros y Hy. destruct (bool_decide (min = 0)) eqn:Hmin; simpl.
  - apply bool_decide_eq_true in Hmin as ->. case_bool_decide; [done|].
    pose proof (advances_progress _ _ Hy). simpl in *.
    apply IH; unfold rep_fuel; simpl; lia.
  - apply bool_decide_eq_false in Hmin.
    pose proof (advances_length _ _ Hy). simpl in *.
    apply IH; unfold rep_fuel; lia.
Qed.
End rep_loop.

Lemma m_local r : local (m r).
Proof.
  induction r as [| | | |r1 IH1 r2 IH2|n r IH|min max greedy r IH| |];
    intros x k k' Hk; simpl; try by apply match_char_local.
  - apply Hk, advances_refl.
  - apply IH1. intros y Hy. apply IH2. intros z Hz. apply Hk.
    by eapply advances_trans.
  - apply IH. intros y Hy. by apply Hk, advances_set_cap.
  - by apply rep_loop_local.
  - case_bool_decide; [|done]. apply Hk, advances_refl.
  - destruct (ms_rest x); [|done]. apply Hk, advances_refl.
Qed.

(** The fuel [m] gives to a repetition can be replaced by any larger
    one: the bound is never reached. *)
Lemma m_repeat_fuel min max greedy r x k fuel :
  rep_fuel min x ≤ fuel →
  m (Repeat min max greedy r) x k =
  rep_loop (m r) (groups r) greedy fuel min max x k.
Proof. intros Hf. simpl. by apply rep_loop_fuel; [apply m_local|..]. Qed.

(** ** Closed forms *)

Lemma adv_0 x : adv x 0 = x.
Proof. destruct x. unfold adv. simpl. f_equal. lia. Qed.

Lemma adv_adv x i j : adv (adv x i) j = adv x (i + j).
Proof. unfold adv. simpl. rewrite drop_drop. f_equal. lia. Qed.

Lemma clear_caps_nil x : clear_caps [] x = x.
Proof. by destruct x. Qed.

Lemma match_char_cons p x k c t :
  ms_rest x = c :: t →
  match_char p x k = if p c then k (adv x 1) else None.
Proof. unfold match_char. by intros ->. Qed.

(** The defining equations of [m], as rewriting rules that leave the
    sub-patterns folded. *)
Lemma m_seq r1 r2 x k : m (Seq r1 r2) x k = m r1 x (λ y, m r2 y k).
Proof. done. Qed.

Lemma m_group n r x k :
  m (Group n r) x k =
  m r x (λ y, k (set_cap n (take (ms_pos y - ms_pos x) (ms_rest x)) y)).
Proof. done. Qed.

Lemma m_empty x k : m Empty x k = k x.
Proof. done. Qed.

Lemma m_char c x k :
  m (Char c) x k =
  match ms_rest x with
  | b :: _ => if bool_decide (b = c) then k (adv x 1) else None
  | [] => None
  end.
Proof. done. Qed.

Lemma m_bol x k : m Bol x k = if bool_decide (ms_pos x = 0) then k x else None.
Proof. done. Qed.

Lemma m_eol x k :
  m Eol x k = match ms_rest x with [] => k x | _ :: _ => None end.
Proof. done. Qed.

(** A literal string matches when the input starts with it. *)
Lemma m_lit s x k :
  m (lit s) x k =
  if startsWith (ms_rest x) s then k (adv x (length s)) else None.
Proof.
  revert x; induction s as [|c s IH]; intros x; simpl.
  - by rewrite adv_0.
  - unfold match_char. destruct (ms_rest x) as [|b t] eqn:Hx; [done|].
    rewrite (bool_decide_ext (b = c) (c = b)) by done.
    case_bool_decide; simpl; [|done].
    rewrite IH, adv_adv. simpl. by rewrite Hx.
Qed.

(** The single-character atoms and their predicates. *)
Definition char_pred (r : regex) : option (ascii → bool) :=
  match r with
  | Char c => Some (λ b, bool_decide (b = c))
  | Dot => Some dot_matches
  | Class neg items => Some (class_matches neg items)
  | _ => None
  end.

Lemma char_pred_Some r p :
  char_pred r = Some p → m r = match_char p ∧ groups r = [].
Proof. destruct r; naive_solver. Qed.

(** [r?] (greedy): one iteration that consumes something, or none. *)
Lemma m_opt r x k :
  m (Repeat 0 (Some 1) true r) x k =
  match m r (clear_caps (groups r) x)
          (λ y, if bool_decide (ms_pos y = ms_pos x) then None else k y) with
  | Some z => Some z
  | None => k x
  end.
Proof.
  simpl. unfold rep_fuel. rewrite Nat.add_1_r. simpl.
  erewrite m_local; [done|]. intros y Hy. simpl.
  case_bool_decide; [done|].
  apply (advances_progress _ _ Hy) in H. simpl in H.
  destruct (length (ms_rest x)); [lia|done].
Qed.

(** A repetition that still requires an iteration runs the atom once. *)
Lemma rep_loop_required ma gs greedy fuel min x k :
  rep_loop ma gs greedy (S fuel) (S min) None x k =
  ma (clear_caps gs x) (λ y, rep_loop ma gs greedy fuel min None y k).
Proof. done. Qed.

Section char_loops.
Context (p : ascii → bool).

(** [p*], greedy: the longest run first, then shorter ones. *)
Lemma rep_loop_star_greedy fuel x k :
  length (ms_rest x) < fuel →
  rep_loop (match_char p) [] true fuel 0 None x k =
  first_some k (adv x <$> reverse (seq 0 (S (run_length p (ms_rest x))))).
Proof.
  revert x. induction fuel as [|fuel IH]; intros x Hf; [lia|].
  cbn [seq]. rewrite reverse_cons, fmap_app. cbn [fmap list_fmap].
  rewrite first_some_snoc, adv_0. cbn [rep_loop]. rewrite clear_caps_nil.
  simpl bool_decide. cbn [negb andb pred fmap option_fmap option_map].
  unfold match_char at 1. destruct (ms_rest x) as [|c t] eqn:Hx; [done|].
  cbn [run_length]. destruct (p c) eqn:Hc; [|done].
  rewrite bool_decide_false by (simpl; lia).
  assert (ms_rest (adv x 1) = t) as Ht by (simpl; by rewrite Hx).
  rewrite IH, Ht by (rewrite Ht; simpl in Hf; lia).
  rewrite <-fmap_S_seq, <-fmap_reverse, <-list_fmap_compose.
  erewrite list_fmap_ext; [done|].
  intros _ j _. simpl. by rewrite adv_adv.
Qed.

(** [p*?], lazy: the empty run first, then longer ones. *)
Lemma rep_loop_star_lazy fuel x k :
  length (ms_rest x) < fuel →
  rep_loop (match_char p) [] false fuel 0 None x k =
  first_some k (adv x <$> seq 0 (S (run_length p (ms_rest x)))).
Proof.
  revert x. induction fuel as [|fuel IH]; intros x Hf; [lia|].
  cbn [rep_loop]. rewrite clear_caps_nil. simpl bool_decide.
  cbn [negb andb pred fmap option_fmap option_map].
  cbn [seq]. rewrite fmap_cons. cbn [first_some]. rewrite adv_0.
  destruct (k x); [done|].
  unfold match_char. destruct (ms_rest x) as [|c t] eqn:Hx; [done|].
  cbn [run_length]. destruct (p c) eqn:Hc; [|done].
  rewrite bool_decide_false by (simpl; lia).
  assert (ms_rest (adv x 1) = t) as Ht by (simpl; by rewrite Hx).
  rewrite IH, Ht by (rewrite Ht; simpl in Hf; lia).
  rewrite <-fmap_S_seq, <-list_fmap_compose.
  erewrite list_fmap_ext; [done|].
  intros _ j _. simpl. by rewrite adv_adv.
Qed.

Context (r : regex) (Hr : char_pred r = Some p).

(** [r+] on a single-character atom: the runs of length [n] down to 1,
    where [n] is the number of leading characters that satisfy [p]. *)
Lemma m_plus_greedy x k :
  m (Repeat 1 None true r) x k =
  first_some k (adv x <$> reverse (seq 1 (run_length p (ms_rest x)))).
Proof.
  destruct (char_pred_Some _ _ Hr) as [Hm Hg].
  rewrite (m_repeat_fuel _ _ _ _ _ _ (S (S (length (ms_rest x)))))
    by (unfold rep_fuel; lia).
  rewrite Hm, Hg, rep_loop_required, clear_caps_nil.
  unfold match_char at 1. destruct (ms_rest x) as [|c t] eqn:Hx; [done|].
  cbn [run_length]. destruct (p c) eqn:Hc; [|done].
  assert (ms_rest (adv x 1) = t) as Ht by (simpl; by rewrite Hx).
  rewrite rep_loop_star_greedy, Ht by (rewrite Ht; simpl; lia).
  rewrite <-fmap_S_seq, <-fmap_reverse, <-list_fmap_compose.
  f_equal. apply list_fmap_ext. intros _ j _. simpl. by rewrite adv_adv.
Qed.

(** [r+?]: the runs of length 1 up to [n]. *)
Lemma m_plus_lazy x k :
  m (Repeat 1 None false r) x k =
  first_some k (adv x <$> seq 1 (run_length p (ms_rest x))).
Proof.
  destruct (char_pred_Some _ _ Hr) as [Hm Hg].
  rewrite (m_repeat_fuel _ _ _ _ _ _ (S (S (length (ms_rest x)))))
    by (unfold rep_fuel; lia).
  rewrite Hm, Hg, rep_loop_required, clear_caps_nil.
  unfold match_char at 1. destruct (ms_rest x) as [|c t] eqn:Hx; [done|].
  cbn [run_length]. destruct (p c) eqn:Hc; [|done].
  assert (ms_rest (adv x 1) = t) as Ht by (simpl; by rewrite Hx).
  rewrite rep_loop_star_lazy, Ht by (rewrite Ht; simpl; lia).
  rewrite <-fmap_S_seq, <-list_fmap_compose.
  f_equal. apply list_fmap_ext. intros _ j _. simpl. by rewrite adv_adv.
Qed.
End char_loops.

#[export] Hint Rewrite m_seq m_group m_empty m_char m_bol m_eol : gfd_rw.

(** ** Tokens: a repetition of a character class and what follows it *)

(** [stops p k]: the continuation [k] fails on every state whose next
    character satisfies [p]. *)
Definition stops (p : ascii → bool) (k : cont) : Prop :=
  ∀ y c t, ms_rest y = c :: t → p c = true → k y = None.

(** [rstops p r]: the pattern [r] cannot start with a character that
    satisfies [p]. *)
Definition rstops (p : ascii → bool) (r : regex) : Prop :=
  ∀ k, stops p (λ y, m r y k).

Section stops.
Context (p : ascii → bool).

Lemma rstops_char c : p c = false → rstops p (Char c).
Proof.
  intros Hc k y b t Hy Hb. simpl. unfold match_char. rewrite Hy.
  case_bool_decide; [congruence|done].
Qed.

Lemma rstops_lit c s : p c = false → rstops p (lit (c :: s)).
Proof.
  intros Hc k y b t Hy Hb. simpl. unfold match_char. rewrite Hy.
  case_bool_decide; [congruence|done].
Qed.

Lemma rstops_seq r1 r2 : rstops p r1 → rstops p (Seq r1 r2).
Proof. intros H k y c t Hy Hc. simpl. by eapply H. Qed.

Lemma rstops_eol : rstops p Eol.
Proof. intros k y c t Hy _. simpl. by rewrite Hy. Qed.

Lemma stops_opt r k :
  rstops p r → stops p k → stops p (λ y, m (Repeat 0 (Some 1) true r) y k).
Proof.
  intros Hr Hk y c t Hy Hc. rewrite m_opt.
  rewrite (Hr _ (clear_caps (groups r) y) c t) by done. by eapply Hk.
Qed.

Lemma stops_seq_opt r1 r2 k :
  rstops p r1 → stops p (λ y, m r2 y k) →
  stops p (λ y, m (Seq (Repeat 0 (Some 1) true r1) r2) y k).
Proof. intros H1 H2. by apply (stops_opt r1 (λ y, m r2 y k)). Qed.

Lemma stops_m r k : rstops p r → stops p (λ y, m r y k).
Proof. intros H. apply H. Qed.

(** The progress check of an optional iteration keeps [stops]. *)
Lemma stops_progress k i :
  stops p k → stops p (λ y, if bool_decide (ms_pos y = i) then None else k y).
Proof. intros Hk y c t Hy Hc. case_bool_decide; [done|]. by eapply Hk. Qed.

Lemma stops_set_cap k (f : mstate → jstring) n :
  stops p k → stops p (λ y, k (set_cap n (f y) y)).
Proof. intros Hk y c t Hy Hc. by eapply Hk. Qed.
End stops.

#[export] Hint Resolve rstops_char rstops_seq rstops_eol stops_opt
  stops_seq_opt stops_set_cap stops_m stops_progress : gfd.

(** [solve_stops] proves that a continuation built from the patterns
    cannot start inside a run of the class. *)
Ltac solve_stops :=
  repeat first
    [ apply stops_progress | apply stops_set_cap | apply stops_seq_opt
    | apply stops_opt | apply stops_m | apply rstops_seq
    | apply rstops_char | apply rstops_lit | apply rstops_eol
    | reflexivity ].

Section tokens.
Context (p : ascii → bool) (r : regex) (Hr : char_pred r = Some p).

(** When what follows cannot start inside the run, a greedy [r+] takes
    the whole run or fails. *)
Lemma m_plus_greedy_commit x k :
  stops p k →
  m (Repeat 1 None true r) x k =
  if decide (run_length p (ms_rest x) = 0) then None
  else k (adv x (run_length p (ms_rest x))).
Proof.
  intros Hk. rewrite (m_plus_greedy p) by done.
  destruct (run_length p (ms_rest x)) as [|n] eqn:Hn; [done|].
  rewrite decide_False by done.
  rewrite seq_S, reverse_app, reverse_singleton. simpl.
  destruct (k (adv x (S n))); [done|].
  apply first_some_None. intros y (j & -> & Hj)%list_elem_of_fmap.
  apply elem_of_reverse, elem_of_seq in Hj.
  destruct (run_length_drop p (ms_rest x) j) as (c & t & Hd & Hc); [lia|].
  by apply (Hk _ c t).
Qed.

Lemma m_group_plus_greedy_commit n x k :
  stops p k →
  m (Group n (Repeat 1 None true r)) x k =
  let j := run_length p (ms_rest x) in
  if decide (j = 0) then None
  else k (set_cap n (take j (ms_rest x)) (adv x j)).
Proof.
  intros Hk. rewrite m_group.
  rewrite m_plus_greedy_commit by by apply stops_set_cap.
  simpl. case_decide; [done|]. do 3 f_equal. lia.
Qed.

(** A group around a greedy [r+] on an input that starts with the
    token [w]: the group captures [w]. *)
Lemma m_group_plus_greedy n w t i caps k :
  stops p k → Forall (λ c, p c = true) w → w ≠ [] → run_length p t = 0 →
  m (Group n (Repeat 1 None true r)) (MState (w ++ t) i caps) k =
  k (MState t (i + length w) (<[n:=w]> caps)).
Proof.
  intros Hk Hw Hne Ht. rewrite m_group.
  rewrite m_plus_greedy_commit by by apply stops_set_cap.
  cbn [ms_rest]. rewrite run_length_app, Ht, Nat.add_0_r by done.
  rewrite decide_False by (by destruct w).
  unfold adv, set_cap. cbn [ms_rest ms_pos ms_caps].
  rewrite drop_app_length. do 2 f_equal.
  replace (i + length w - i) with (length w) by lia.
  by rewrite take_app_length.
Qed.

(** A group around a lazy [r+?]: when the continuation refuses every
    shorter split of the token [w] and accepts [w], the group captures
    [w]. *)
Lemma m_group_plus_lazy_split n w t i caps k z :
  Forall (λ c, p c = true) w → w ≠ [] →
  (∀ j, 0 < j < length w →
        k (MState (drop j w ++ t) (i + j) (<[n:=take j w]> caps)) = None) →
  k (MState t (i + length w) (<[n:=w]> caps)) = Some z →
  m (Group n (Repeat 1 None false r)) (MState (w ++ t) i caps) k = Some z.
Proof.
  intros Hw Hne Hk Hz. rewrite m_group, (m_plus_lazy p) by done.
  cbn [ms_rest].
  assert (length w ≤ run_length p (w ++ t)) as Hlen
    by (rewrite run_length_app by done; lia).
  replace (run_length p (w ++ t))
    with (pred (length w) + S (run_length p (w ++ t) - length w))
    by (destruct w; simpl in *; [done|lia]).
  rewrite seq_app, fmap_app, first_some_app.
  rewrite (proj2 (first_some_None _ _)).
  - cbn [seq fmap list_fmap first_some].
    replace (1 + pred (length w)) with (length w) by (destruct w; simpl; [done|lia]).
    unfold adv, set_cap. cbn [ms_rest ms_pos ms_caps].
    rewrite drop_app_length.
    replace (i + length w - i) with (length w) by lia.
    by rewrite take_app_length, Hz.
  - intros y (j & -> & Hj%elem_of_seq)%list_elem_of_fmap.
    assert (0 < j < length w) as Hjw by (destruct w; simpl in *; [done|lia]).
    unfold adv, set_cap. cbn [ms_rest ms_pos ms_caps].
    replace (i + j - i) with j by lia.
    rewrite drop_app_le, take_app_le by lia. by apply Hk.
Qed.

(** The same when what follows cannot start with a character of the
    token. *)
Lemma m_group_plus_lazy n w t i caps k q z :
  stops q k →
  Forall (λ c, p c = true ∧ q c = true) w → w ≠ [] →
  k (MState t (i + length w) (<[n:=w]> caps)) = Some z →
  m (Group n (Repeat 1 None false r)) (MState (w ++ t) i caps) k = Some z.
Proof.
  intros Hk Hw Hne Hz. apply m_group_plus_lazy_split; [|done| |done].
  { eapply Forall_impl; [done|]. naive_solver. }
  intros j Hj. destruct (lookup_lt_is_Some_2 w j) as [c Hc]; [lia|].
  eapply (Hk _ c (drop (S j) w ++ t)).
  - cbn [ms_rest]. by rewrite (drop_S w c j).
  - eapply Forall_lookup_1 in Hw as [_ ?]; done.
Qed.
End tokens.

(** [(?:s)?] for a literal [s]. *)
Lemma m_opt_lit s x k :
  s ≠ [] →
  m (Repeat 0 (Some 1) true (lit s)) x k =
  if startsWith (ms_rest x) s
  then match k (adv x (length s)) with Some z => Some z | None => k x end
  else k x.
Proof.
  intros Hs. rewrite m_opt, m_lit.
  replace (groups (lit s)) with (@nil nat)
    by (clear; induction s; simpl; congruence).
  rewrite clear_caps_nil. destruct (startsWith _ _); [|done].
  rewrite bool_decide_false; [done|]. destruct s; simpl; [done|lia].
Qed.

(** ** [exec]: the leftmost match *)

Lemma exec_from_None r s i :
  exec_from r s i = None ↔
  ∀ j, j ≤ length s → match_at r (drop j s) (i + j) = None.
Proof.
  assert (∀ s i, (∀ j, j ≤ length s → match_at r (drop j s) (i + j) = None) →
                 match_at r s i = None) as H0.
  { intros s' i' H. specialize (H 0 ltac:(lia)).
    by rewrite Nat.add_0_r in H. }
  revert i; induction s as [|c s IH]; intros i; cbn [exec_from].
  - destruct (match_at r [] i) eqn:E.
    + split; [done|]. intros H%H0. congruence.
    + split; [|done]. intros _ j Hj. replace j with 0 by (simpl in Hj; lia).
      by rewrite Nat.add_0_r.
  - destruct (match_at r (c :: s) i) eqn:E.
    + split; [done|]. intros H%H0. congruence.
    + rewrite IH. split.
      * intros H [|j] Hj; [by rewrite Nat.add_0_r|].
        rewrite <-Nat.add_succ_comm. apply H. simpl in Hj. lia.
      * intros H j Hj. rewrite Nat.add_succ_comm. apply (H (S j)). simpl. lia.
Qed.

(** The match at the first index where there is one. *)
Lemma exec_from_first r s i j res :
  j ≤ length s →
  (∀ j', j' < j → match_at r (drop j' s) (i + j') = None) →
  match_at r (drop j s) (i + j) = Some res →
  exec_from r s i = Some res.
Proof.
  revert s i; induction j as [|j IH]; intros s i Hj Hn Hres.
  - rewrite Nat.add_0_r, drop_0 in Hres. destruct s; simpl; by rewrite Hres.
  - destruct s as [|c s]; [simpl in Hj; lia|]. cbn [exec_from].
    pose proof (Hn 0 ltac:(lia)) as H0. rewrite Nat.add_0_r, drop_0 in H0.
    rewrite H0. apply IH; [simpl in Hj; lia| |by rewrite Nat.add_succ_comm].
    intros j' Hj'. rewrite Nat.add_succ_comm. apply (Hn (S j')). lia.
Qed.

(** A pattern that starts with [^] matches at index 0 or not at all. *)
Lemma exec_bol r s : exec (Seq Bol r) s = match_at (Seq Bol r) s 0.
Proof.
  unfold exec. destruct s as [|c s]; simpl; [by destruct (match_at _ _ _)|].
  destruct (match_at _ (c :: s) 0); [done|].
  apply exec_from_None. by intros j _.
Qed.

Lemma exec_from_Some r s i res :
  exec_from r s i = Some res →
  ∃ j, j ≤ length s ∧ match_at r (drop j s) (i + j) = Some res ∧
       ∀ j', j' < j → match_at r (drop j' s) (i + j') = None.
Proof.
  revert i; induction s as [|c s IH]; intros i; cbn [exec_from].
  - destruct (match_at r [] i) eqn:E; [|done]. intros [= <-].
    exists 0. rewrite Nat.add_0_r. split_and!; [done..|intros; lia].
  - destruct (match_at r (c :: s) i) eqn:E.
    + intros [= <-]. exists 0. rewrite Nat.add_0_r.
      split_and!; [simpl; lia|done|intros; lia].
    + intros (j & Hj & Hm & Hn)%IH. exists (S j).
      rewrite <-Nat.add_succ_comm. split_and!; [simpl; lia|done|].
      intros [|j'] Hj'; [by rewrite Nat.add_0_r|].
      rewrite <-Nat.add_succ_comm. apply Hn. lia.
Qed.

(** ** Fuel and the leftmost match *)

(** The repetition never stops for lack of fuel: with any fuel of at
    least [rep_fuel] the loop returns what the matcher returns. *)
Lemma repeat_fuel_enough min max greedy r x k fuel :
  rep_fuel min x ≤ fuel →
  rep_loop (m r) (groups r) greedy fuel min max x k
  = m (Repeat min max greedy r) x k.
Proof.
  intros Hf. symmetry. by apply m_repeat_fuel.
Qed.

(** [exec] returns the leftmost match: its result is the match
    at the first index at which the pattern matches, and it is
    [None] exactly when the pattern matches at no index. *)
Lemma exec_leftmost r s res :
  exec r s = Some res ↔
  ∃ j, j ≤ length s ∧ match_at r (drop j s) j = Some res ∧
       ∀ j', j' < j → match_at r (drop j' s) j' = None.
Proof.
  unfold exec. split.
  - intros H. by apply exec_from_Some in H.
  - intros (j & Hj & Hm & Hn). by apply (exec_from_first r s 0 j).
Qed.
