(* ===== verification/RegexSpec.v ===== *)
(** * What a pattern matches

    The matcher of [Regex] is an algorithm: it backtracks through
    continuations.  This file says what it computes.  [matches r x y]
    holds when the pattern [r] can take the state [x] to the state [y]:
    a relation defined by recursion on the pattern, with the iterations
    of a repetition as an inductive relation ([reps]).  The relation does
    not order the matches, so it has no notion of greedy or lazy; the
    matcher picks one of them.

    Theorems: the matcher is sound and complete for the relation
    ([m_sound], [m_complete]): it returns a state exactly when the
    pattern matches up to a state the continuation accepts.  A match
    consumes input and changes only the captures of the pattern
    ([matches_advances], [matches_frame]).  Two syntactic checks decide
    what a match guarantees of a capture: [defines n r] that group [n] is
    defined and not empty after every match of [r], [groups_consume r]
    that no capture of [r] is ever the empty string.  [exec] inherits all
    of it ([exec_sound], [exec_None], [exec_defines], [exec_nonempty]).
    The last section gives, for each construct the patterns of the
    program use, the shape of the input that a match of it reads
    ([matches_lit_after], [matches_group_chars], [matches_opt]). *)

From S2P Require Import Prelude JsString Regex.

(** ** The relation *)

(** One character that satisfies [p]. *)
Definition one_char (p : ascii → bool) (x y : mstate) : Prop :=
  ∃ c t, ms_rest x = c :: t ∧ p c = true ∧ y = adv x 1.

(** The iterations of a repetition whose atom matches as [R] and holds
    the captures [gs].  The repetition may stop when no iteration is
    required or none is allowed; an iteration that is not required has to
    consume something. *)
Inductive reps (R : mstate → mstate → Prop) (gs : list nat)
    : nat → option nat → mstate → mstate → Prop :=
  | reps_stop min max x :
      min = 0 ∨ max = Some 0 → reps R gs min max x x
  | reps_iter min max x y z :
      max ≠ Some 0 →
      R (clear_caps gs x) y →
      (min = 0 → ms_pos y ≠ ms_pos x) →
      reps R gs (pred min) (pred <$> max) y z →
      reps R gs min max x z.

Fixpoint matches (r : regex) (x y : mstate) : Prop :=
  match r with
  | Empty => y = x
  | Char c => one_char (λ b, bool_decide (b = c)) x y
  | Dot => one_char dot_matches x y
  | Class neg items => one_char (class_matches neg items) x y
  | Seq r1 r2 => ∃ z, matches r1 x z ∧ matches r2 z y
  | Group n r =>
      ∃ z, matches r x z ∧
           y = set_cap n (take (ms_pos z - ms_pos x) (ms_rest x)) z
  | Repeat min max _ r => reps (matches r) (groups r) min max x y
  | Bol => ms_pos x = 0 ∧ y = x
  | Eol => ms_rest x = [] ∧ y = x
  end.

(** The pattern matches somewhere in [s]. *)
Definition accepts (r : regex) (s : jstring) : Prop :=
  ∃ j y, j ≤ length s ∧ matches r (MState (drop j s) j ∅) y.

(** ** What a match guarantees, read off the pattern *)

(** Every match of [r] consumes at least one code unit. *)
Fixpoint consumes (r : regex) : bool :=
  match r with
  | Char _ | Dot | Class _ _ => true
  | Seq r1 r2 => consumes r1 || consumes r2
  | Group _ r => consumes r
  | Repeat min max _ r =>
      negb (bool_decide (min = 0)) && negb (bool_decide (max = Some 0))
      && consumes r
  | Empty | Bol | Eol => false
  end.

(** After every match of [r], group [n] is defined and not empty. *)
Fixpoint defines (n : nat) (r : regex) : bool :=
  match r with
  | Group i r => if bool_decide (n = i) then consumes r else defines n r
  | Seq r1 r2 => defines n r2 || (defines n r1 && bool_decide (n ∉ groups r2))
  | _ => false
  end.

(** Every group of [r] is around a pattern that consumes. *)
Fixpoint groups_consume (r : regex) : bool :=
  match r with
  | Group _ r => consumes r && groups_consume r
  | Seq r1 r2 => groups_consume r1 && groups_consume r2
  | Repeat _ _ _ r => groups_consume r
  | _ => true
  end.

(** Every match of [r] reads the literal [w] somewhere. *)
Fixpoint mentions (w : jstring) (r : regex) : bool :=
  bool_decide (r = lit w) ||
  match r with
  | Seq r1 r2 => mentions w r1 || mentions w r2
  | Group _ r => mentions w r
  | Repeat min max _ r =>
      negb (bool_decide (min = 0)) && negb (bool_decide (max = Some 0))
      && mentions w r
  | _ => false
  end.

(** No capture of the state is the empty string. *)
Definition caps_nonempty (x : mstate) : Prop :=
  ∀ n, ms_caps x !! n ≠ Some [].

(** ** Soundness and completeness of the matcher *)

(** [sound ma R]: whatever [ma] returns, the continuation returned it on
    a state that [R] relates to the start. *)
Definition sound (ma : mstate → cont → option mstate)
    (R : mstate → mstate → Prop) : Prop :=
  ∀ x k z, ma x k = Some z → ∃ y, R x y ∧ k y = Some z.

(** [complete ma R]: [ma] returns when the continuation accepts a state
    that [R] relates to the start. *)
Definition complete (ma : mstate → cont → option mstate)
    (R : mstate → mstate → Prop) : Prop :=
  ∀ x y k, R x y → is_Some (k y) → is_Some (ma x k).

Lemma match_char_sound p : sound (match_char p) (one_char p).
Proof.
  intros x k z. unfold match_char, one_char.
  destruct (ms_rest x) as [|c t]; [done|].
  destruct (p c) eqn:Hc; [|done]. naive_solver.
Qed.

Lemma match_char_complete p : complete (match_char p) (one_char p).
Proof.
  intros x y k (c & t & Hx & Hc & ->). unfold match_char.
  by rewrite Hx, Hc.
Qed.

Section rep_loop.
Context (ma : mstate → cont → option mstate) (R : mstate → mstate → Prop).
Context (gs : list nat) (greedy : bool).

Lemma rep_loop_sound fuel min max :
  sound ma R → sound (rep_loop ma gs greedy fuel min max) (reps R gs min max).
Proof.
  intros Hma. revert min max.
  induction fuel as [|fuel IH]; intros min max x k z; simpl; [done|].
  assert (∀ d : cont,
            (∀ y z', d y = Some z' →
               (min = 0 → ms_pos y ≠ ms_pos x) ∧
               rep_loop ma gs greedy fuel (pred min) (pred <$> max) y k
               = Some z') →
            max ≠ Some 0 → ma (clear_caps gs x) d = Some z →
            ∃ y, reps R gs min max x y ∧ k y = Some z) as Hiter.
  { intros d Hd Hmax (y & Hy & [Hpos (y' & ? & ?)%IH]%Hd)%Hma.
    exists y'. split; [|done]. by eapply reps_iter. }
  assert (min = 0 → k x = Some z → ∃ y, reps R gs min max x y ∧ k y = Some z)
    as Hstop by (intros; exists x; split; [apply reps_stop; by left|done]).
  destruct (decide (max = Some 0)) as [Hmax|Hmax].
  { rewrite bool_decide_true by done. intros Hk. exists x.
    split; [apply reps_stop; by right|done]. }
  rewrite (bool_decide_false (max = Some 0)) by done.
  destruct (decide (min = 0)) as [->|Hmin].
  2: { rewrite (bool_decide_false (min = 0)) by done. simpl.
       apply Hiter; [|done]. by intros y z' ->. }
  assert (∀ y z',
    (if true && bool_decide (ms_pos y = ms_pos x) then None
     else rep_loop ma gs greedy fuel (pred 0) (pred <$> max) y k) = Some z' →
    (0 = 0 → ms_pos y ≠ ms_pos x) ∧
    rep_loop ma gs greedy fuel (pred 0) (pred <$> max) y k = Some z') as Hd.
  { intros y z'. simpl. by case_bool_decide. }
  simpl. destruct greedy.
  - destruct (ma _ _) eqn:E; [intros [= ->]|by apply Hstop].
    by apply (Hiter _ Hd).
  - destruct (k x) eqn:E; [intros [= ->]; by apply Hstop|].
    by apply (Hiter _ Hd).
Qed.

Lemma rep_loop_complete fuel min max x y k :
  complete ma R → (∀ x y, R x y → advances x y) →
  reps R gs min max x y → is_Some (k y) → rep_fuel min x ≤ fuel →
  is_Some (rep_loop ma gs greedy fuel min max x k).
Proof.
  intros Hma Hadv Hreps Hk. revert fuel.
  induction Hreps as [min max x Hstop|min max x y z Hmax HR Hpos _ IH];
    intros [|fuel]; unfold rep_fuel; intros Hf; [lia| |lia|]; simpl.
  - case_bool_decide; [done|]. destruct Hstop as [->|]; [simpl|done].
    destruct greedy; [by destruct (ma _ _)|by destruct Hk as [? ->]].
  - rewrite bool_decide_false by done.
    assert (is_Some (ma (clear_caps gs x) (λ y0,
              if bool_decide (min = 0) && bool_decide (ms_pos y0 = ms_pos x)
              then None
              else rep_loop ma gs greedy fuel (pred min) (pred <$> max) y0 k)))
      as [z' Hz'].
    { eapply Hma; [done|]. apply Hadv in HR.
      pose proof (advances_length _ _ HR) as Hlen. simpl in Hlen.
      case_bool_decide as Hmin; simpl.
      - rewrite bool_decide_false by auto.
        apply (advances_progress _ _ HR) in Hpos; [|done]. simpl in Hpos.
        apply IH; [done|]. unfold rep_fuel. lia.
      - apply IH; [done|]. unfold rep_fuel. lia. }
    rewrite Hz'. case_bool_decide; simpl; [|done].
    destruct greedy; [done|by destruct (k x)].
Qed.
End rep_loop.

Section matches.
Implicit Types (r : regex) (x y z : mstate).

Lemma one_char_advances p x y : one_char p x y → advances x y.
Proof.
  intros (c & t & Hx & _ & ->). apply advances_adv. rewrite Hx. simpl. lia.
Qed.

Lemma reps_advances R gs min max x y :
  (∀ x y, R x y → advances x y) → reps R gs min max x y → advances x y.
Proof.
  intros HR. induction 1 as [|????? _ Hxy%HR _ _ IH]; [apply advances_refl|].
  by eapply advances_trans.
Qed.

(** A match consumes a piece of the input. *)
Lemma matches_advances r x y : matches r x y → advances x y.
Proof.
  revert x y.
  induction r as [| | | |r1 IH1 r2 IH2|n r IH|min max greedy r IH| |];
    intros x y; simpl; try apply one_char_advances.
  - intros ->. apply advances_refl.
  - intros (z & ?%IH1 & ?%IH2). by eapply advances_trans.
  - intros (z & ?%IH & ->). by apply advances_set_cap.
  - by apply reps_advances.
  - intros [_ ->]. apply advances_refl.
  - intros [_ ->]. apply advances_refl.
Qed.

Theorem m_sound r : sound (m r) (matches r).
Proof.
  induction r as [| | | |r1 IH1 r2 IH2|n r IH|min max greedy r IH| |];
    try apply match_char_sound; intros x k z; simpl.
  - by exists x.
  - intros (y & Hy & (y' & Hy' & Hk)%IH2)%IH1. by exists y'; eauto.
  - intros (y & Hy & Hk)%IH. eauto.
  - by apply rep_loop_sound.
  - case_bool_decide; [|done]. by exists x.
  - destruct (ms_rest x) eqn:E; [|done]. by exists x.
Qed.

Theorem m_complete r : complete (m r) (matches r).
Proof.
  induction r as [| | | |r1 IH1 r2 IH2|n r IH|min max greedy r IH| |];
    try apply match_char_complete; intros x y k; simpl.
  - by intros ->.
  - intros (z & H1 & H2) Hk. eapply IH1; [done|]. by eapply IH2.
  - intros (z & H1 & ->) Hk. by eapply IH.
  - intros H Hk.
    by eapply rep_loop_complete; [|apply matches_advances|..].
  - intros [-> ->] Hk. by rewrite bool_decide_true.
  - intros [-> ->] Hk. done.
Qed.
End matches.

(** ** Captures *)

Lemma clear_caps_lookup gs x n :
  ms_caps (clear_caps gs x) !! n =
  if bool_decide (n ∈ gs) then None else ms_caps x !! n.
Proof.
  simpl. induction gs as [|g gs IH]; simpl; [done|].
  destruct (decide (n = g)) as [->|Hne].
  - rewrite lookup_delete_eq, bool_decide_true; [done|set_solver].
  - rewrite lookup_delete_ne, IH by done.
    rewrite (bool_decide_ext (n ∈ g :: gs) (n ∈ gs)); [done|set_solver].
Qed.

Lemma clear_caps_nonempty gs x : caps_nonempty x → caps_nonempty (clear_caps gs x).
Proof.
  intros Hx n. rewrite clear_caps_lookup. case_bool_decide; [done|apply Hx].
Qed.

(** The text between two states of a match. *)
Lemma advances_take x y :
  advances x y → ms_pos x < ms_pos y →
  take (ms_pos y - ms_pos x) (ms_rest x) ≠ [].
Proof.
  intros (w & -> & ->) Hlt.
  replace (ms_pos x + length w - ms_pos x) with (length w) by lia.
  rewrite take_app_length. destruct w; simpl in *; [lia|done].
Qed.

Section reps.
Context (R : mstate → mstate → Prop) (gs : list nat).

(** A property of the state that every iteration keeps holds at the
    end of the repetition. *)
Lemma reps_invariant (P : mstate → Prop) min max x y :
  (∀ x y, P x → R (clear_caps gs x) y → P y) →
  reps R gs min max x y → P x → P y.
Proof. intros HR. induction 1; eauto. Qed.

Lemma reps_consumes min max x y :
  (∀ x y, R x y → advances x y ∧ ms_pos x < ms_pos y) →
  min ≠ 0 → max ≠ Some 0 →
  reps R gs min max x y → ms_pos x < ms_pos y.
Proof.
  intros HR Hmin Hmax. destruct 1 as [|????? _ [_ Hlt]%HR _ Hreps];
    [naive_solver|].
  apply reps_advances, advances_pos in Hreps; [simpl in *; lia|].
  intros ?? H. by apply HR.
Qed.
End reps.

Section captures.
Implicit Types (r : regex) (x y z : mstate).

(** A match leaves the captures of other groups as they are. *)
Lemma matches_frame r x y n :
  matches r x y → n ∉ groups r → ms_caps y !! n = ms_caps x !! n.
Proof.
  revert x y.
  induction r as [| | | |r1 IH1 r2 IH2|i r IH|min max greedy r IH| |];
    intros x y; simpl; try by intros (? & ? & _ & _ & ->).
  - by intros ->.
  - intros (z & H1 & H2) Hn%not_elem_of_app.
    rewrite (IH2 _ _ H2), (IH1 _ _ H1); naive_solver.
  - intros (z & H1 & ->) Hn%not_elem_of_cons. simpl.
    rewrite lookup_insert_ne by naive_solver. apply IH; naive_solver.
  - intros H Hn.
    apply (reps_invariant _ _ (λ z, ms_caps z !! n = ms_caps x !! n)) in H;
      [done| |done].
    intros x' y' <- H'. rewrite (IH _ _ H'), clear_caps_lookup by done.
    by rewrite bool_decide_false.
  - by intros [_ ->].
  - by intros [_ ->].
Qed.

Lemma matches_consumes r x y :
  consumes r = true → matches r x y → ms_pos x < ms_pos y.
Proof.
  revert x y.
  induction r as [| | | |r1 IH1 r2 IH2|i r IH|min max greedy r IH| |];
    intros x y; simpl; try done;
    try (intros _ (? & ? & _ & _ & ->); simpl; lia).
  - intros Hc (z & H1 & H2).
    pose proof (advances_pos _ _ (matches_advances _ _ _ H1)).
    pose proof (advances_pos _ _ (matches_advances _ _ _ H2)).
    apply orb_true_iff in Hc as [Hc|Hc];
      [specialize (IH1 _ _ Hc H1)|specialize (IH2 _ _ Hc H2)]; lia.
  - intros Hc (z & H1 & ->). simpl. by apply IH.
  - intros [[Hmin%negb_true_iff%bool_decide_eq_false
             Hmax%negb_true_iff%bool_decide_eq_false]%andb_true_iff
            Hc]%andb_true_iff.
    apply reps_consumes; [|done..]. intros x' y' H.
    split; [by eapply matches_advances|by apply IH].
Qed.

(** Where [defines n r] holds, a match of [r] ends with group [n]
    defined and not empty. *)
Theorem matches_defines r n x y :
  defines n r = true → matches r x y →
  ∃ w, ms_caps y !! n = Some w ∧ w ≠ [].
Proof.
  revert x y.
  induction r as [| | | |r1 IH1 r2 IH2|i r IH|min max greedy r IH| |];
    intros x y; simpl; try done.
  - intros Hd (z & H1 & H2).
    apply orb_true_iff in Hd as [Hd|[Hd Hn%bool_decide_eq_true]%andb_true_iff];
      [by eapply IH2|].
    rewrite (matches_frame _ _ _ _ H2 Hn). by eapply IH1.
  - intros Hd (z & H1 & ->). case_bool_decide as Hn.
    + subst i. simpl. rewrite lookup_insert_eq. eexists. split; [done|].
      apply advances_take; [by eapply matches_advances|].
      by apply (matches_consumes r).
    + simpl. rewrite lookup_insert_ne by done. by eapply IH.
Qed.

(** Where [groups_consume r] holds, a match of [r] defines no empty
    capture. *)
Theorem matches_nonempty r x y :
  groups_consume r = true → matches r x y →
  caps_nonempty x → caps_nonempty y.
Proof.
  revert x y.
  induction r as [| | | |r1 IH1 r2 IH2|i r IH|min max greedy r IH| |];
    intros x y; simpl; try by intros _ (? & ? & _ & _ & ->).
  - by intros _ ->.
  - intros [??]%andb_true_iff (z & H1 & H2) Hx. eauto.
  - intros [Hc Hg]%andb_true_iff (z & H1 & ->) Hx n. simpl.
    destruct (decide (n = i)) as [->|Hne].
    + rewrite lookup_insert_eq. intros [= Hw]. revert Hw.
      apply advances_take; [by eapply matches_advances|].
      by apply (matches_consumes r).
    + rewrite lookup_insert_ne by done. by eapply IH.
  - intros Hg H Hx. eapply (reps_invariant _ _ caps_nonempty); [|done..].
    intros x' y' Hx' H'. eapply IH; [done..|]. by apply clear_caps_nonempty.
  - by intros _ [_ ->].
  - by intros _ [_ ->].
Qed.
End captures.

(** ** Captures are pieces of the input *)

(** [within s x]: the state [x] reads a suffix of [s], and its captures
    are pieces of [s]. *)
Definition within (s : jstring) (x : mstate) : Prop :=
  (∃ a, s = a ++ ms_rest x) ∧
  ∀ n w, ms_caps x !! n = Some w → part_of w s.

Lemma within_advances s x y :
  within s x → advances x y → ms_caps y = ms_caps x → within s y.
Proof.
  intros [[a Ha] Hc] (w & Hw & _) Hy. split; [|by rewrite Hy].
  exists (a ++ w). by rewrite Ha, Hw, (assoc (++)).
Qed.

Lemma within_clear_caps s gs x : within s x → within s (clear_caps gs x).
Proof.
  intros [Ha Hc]. split; [done|]. intros n w. rewrite clear_caps_lookup.
  case_bool_decide; [done|apply Hc].
Qed.

Lemma within_set_cap s x z n :
  within s x → within s z → advances x z →
  within s (set_cap n (take (ms_pos z - ms_pos x) (ms_rest x)) z).
Proof.
  intros [[a Ha] _] [Hz Hc] (w & Hw & Hp). split; [done|]. intros i v. simpl.
  destruct (decide (i = n)) as [->|Hne];
    [rewrite lookup_insert_eq|rewrite lookup_insert_ne by done; apply Hc].
  intros [= <-]. exists a, (ms_rest z). rewrite Ha, Hw, Hp. f_equal.
  replace (ms_pos x + length w - ms_pos x) with (length w) by lia.
  by rewrite take_app_length.
Qed.

Theorem matches_within s r x y : matches r x y → within s x → within s y.
Proof.
  revert x y.
  induction r as [| | | |r1 IH1 r2 IH2|i r IH|min max greedy r IH| |];
    intros x y; simpl;
    try (intros H Hx; apply (within_advances s x);
         [done|by eapply one_char_advances|by destruct H as (? & ? & _ & _ & ->)]).
  - by intros ->.
  - intros (z & H1 & H2) Hx. eauto.
  - intros (z & H1 & ->) Hx.
    apply within_set_cap; [done|by eapply IH|by eapply matches_advances].
  - intros H Hx. eapply (reps_invariant _ _ (within s)); [|done..].
    intros x' y' Hx' H'. eapply IH; [done|]. by apply within_clear_caps.
  - by intros [_ ->].
  - by intros [_ ->].
Qed.

(** ** Literals that a match has to read *)

Lemma matches_lit w x y : matches (lit w) x y → ms_rest x = w ++ ms_rest y.
Proof.
  revert x; induction w as [|c w IH]; intros x; simpl; [by intros ->|].
  intros (z & (b & t & Hx & ->%bool_decide_eq_true & ->) & Hz%IH).
  simpl in Hz. rewrite Hx in Hz. rewrite Hx. simpl in Hz. by rewrite <-Hz.
Qed.

Lemma part_of_advances w x y :
  advances x y → part_of w (ms_rest y) → part_of w (ms_rest x).
Proof. intros (a & -> & _). apply part_of_app_r. Qed.

Theorem matches_mentions w r x y :
  mentions w r = true → matches r x y → part_of w (ms_rest x).
Proof.
  assert (∀ r x y, bool_decide (r = lit w) = true → matches r x y →
                   part_of w (ms_rest x)) as Hlit.
  { intros r' x' y' ->%bool_decide_eq_true ->%matches_lit.
    by exists [], (ms_rest y'). }
  revert x y.
  induction r as [| | | |r1 IH1 r2 IH2|i r IH|min max greedy r IH| |];
    intros x y [Hl|Hm]%orb_true_iff H; try (by eapply Hlit); try done;
    simpl in H.
  - destruct H as (z & H1 & H2).
    apply orb_true_iff in Hm as [Hm|Hm]; [by eapply IH1|].
    eapply part_of_advances; [by eapply matches_advances|by eapply IH2].
  - destruct H as (z & H1 & ->). by eapply IH.
  - apply andb_true_iff in Hm as [[Hmin%negb_true_iff%bool_decide_eq_false
      Hmax%negb_true_iff%bool_decide_eq_false]%andb_true_iff Hm].
    destruct H as [|????? _ H _ _]; [naive_solver|]. by apply (IH _ _ Hm) in H.
Qed.

(** ** [exec] *)

(** The result that [exec] builds from the end state of a match at
    index [j]. *)
Definition result_of (j : nat) (y : mstate) : match_result :=
  MatchResult j (ms_pos y) (ms_caps y).

(** The start state of a match at index [j] of [s]. *)
Definition start (s : jstring) (j : nat) : mstate := MState (drop j s) j ∅.

Lemma within_start s j : within s (start s j).
Proof.
  split; [exists (take j s); simpl; by rewrite take_drop|].
  intros n w. simpl. by rewrite lookup_empty.
Qed.

Lemma caps_nonempty_start s j : caps_nonempty (start s j).
Proof. intros n. simpl. by rewrite lookup_empty. Qed.

Lemma match_at_sound r s i res :
  match_at r s i = Some res →
  ∃ y, matches r (MState s i ∅) y ∧ res = result_of i y.
Proof.
  unfold match_at. destruct (m r _ _) as [y|] eqn:E; [|done].
  intros [= <-]. apply m_sound in E as (y' & Hy & [= ->]). by exists y.
Qed.

Lemma match_at_complete r s i y :
  matches r (MState s i ∅) y → is_Some (match_at r s i).
Proof.
  intros H. unfold match_at. apply fmap_is_Some.
  by apply (m_complete r _ y).
Qed.

(** What [exec] returns is a match of the pattern at some index. *)
Theorem exec_sound r s res :
  exec r s = Some res →
  ∃ j y, j ≤ length s ∧ matches r (start s j) y ∧ res = result_of j y.
Proof.
  unfold exec. intros (j & Hj & Hm & _)%exec_from_Some. simpl in Hm.
  apply match_at_sound in Hm as (y & Hy & ->). by exists j, y.
Qed.

(** [exec] finds a match exactly when the pattern matches somewhere. *)
Theorem exec_accepts r s : is_Some (exec r s) ↔ accepts r s.
Proof.
  split.
  - intros [res (j & y & Hj & Hy & _)%exec_sound]. by exists j, y.
  - intros (j & y & Hj & Hy%match_at_complete).
    destruct (exec r s) eqn:E; [done|]. unfold exec in E.
    rewrite exec_from_None in E. specialize (E j Hj). simpl in E.
    rewrite E in Hy. by destruct Hy.
Qed.

Corollary exec_None r s : exec r s = None ↔ ¬ accepts r s.
Proof. by rewrite <-exec_accepts, eq_None_not_Some. Qed.

Section exec.
Context (r : regex) (s : jstring) (res : match_result).
Context (Hres : exec r s = Some res).

Lemma exec_defines n :
  defines n r = true → ∃ w, group res n = Some w ∧ w ≠ [].
Proof.
  intros Hd. destruct (exec_sound _ _ _ Hres) as (j & y & _ & Hy & ->).
  by apply (matches_defines r n (start s j)).
Qed.

Lemma exec_nonempty n : groups_consume r = true → group res n ≠ Some [].
Proof.
  intros Hg. destruct (exec_sound _ _ _ Hres) as (j & y & _ & Hy & ->).
  by apply (matches_nonempty r (start s j)); [..|apply caps_nonempty_start].
Qed.

Lemma exec_part_of n w : group res n = Some w → part_of w s.
Proof.
  destruct (exec_sound _ _ _ Hres) as (j & y & _ & Hy & ->).
  by apply (matches_within s r (start s j)); [|apply within_start].
Qed.

(** The literals of the pattern occur in the input. *)
Lemma exec_reads w : mentions w r = true → part_of w s.
Proof.
  intros Hm. destruct (exec_sound _ _ _ Hres) as (j & y & _ & Hy & _).
  apply (matches_mentions w) in Hy; [|done]. simpl in Hy.
  rewrite <-(take_drop j s). by apply part_of_app_r.
Qed.

Lemma exec_undefined n : n ∉ groups r → group res n = None.
Proof.
  intros Hn. destruct (exec_sound _ _ _ Hres) as (j & y & _ & Hy & ->).
  unfold group. simpl. by rewrite (matches_frame _ _ _ _ Hy Hn).
Qed.
End exec.

(** A pattern does not match a string in which one of its literals
    does not occur. *)
Lemma exec_mentions r s w :
  mentions w r = true → ¬ part_of w s → exec r s = None.
Proof.
  intros Hm Hs. destruct (exec r s) eqn:E; [|done].
  destruct Hs. by eapply exec_reads.
Qed.

(** ** The matches of the constructs the patterns use

    Each construct as an equivalence between a match and the shape of
    the input: what is read, and the state that is left. *)

Section shapes.
Implicit Types (r : regex) (x y : mstate) (w t : jstring).

(** The state after [w] was read from [x], with the captures [caps]. *)
Definition after (x : mstate) (w t : jstring) (caps : gmap nat jstring)
    : mstate :=
  MState t (ms_pos x + length w) caps.

Lemma after_nil x : after x [] (ms_rest x) (ms_caps x) = x.
Proof. destruct x. unfold after. simpl. f_equal. lia. Qed.

Lemma matches_seq r1 r2 x y :
  matches (Seq r1 r2) x y ↔ ∃ z, matches r1 x z ∧ matches r2 z y.
Proof. done. Qed.

Lemma one_char_after p x y :
  one_char p x y ↔
  ∃ c t, p c = true ∧ ms_rest x = c :: t ∧ y = after x [c] t (ms_caps x).
Proof.
  unfold one_char, after, adv. split.
  - intros (c & t & Hx & Hc & ->). exists c, t. by rewrite Hx.
  - intros (c & t & Hc & Hx & ->). exists c, t. by rewrite Hx.
Qed.

Lemma matches_char c x y :
  matches (Char c) x y ↔
  ∃ t, ms_rest x = c :: t ∧ y = after x [c] t (ms_caps x).
Proof.
  simpl. rewrite one_char_after. split.
  - intros (b & t & ->%bool_decide_eq_true & ? & ?). eauto.
  - intros (t & ? & ?). exists c, t. by rewrite bool_decide_true.
Qed.

Lemma matches_lit_after w x y :
  matches (lit w) x y ↔
  ∃ t, ms_rest x = w ++ t ∧ y = after x w t (ms_caps x).
Proof.
  revert x; induction w as [|c w IH]; intros x.
  - simpl. split; [intros ->; exists (ms_rest x); by rewrite after_nil|].
    intros (t & <- & ->). by rewrite after_nil.
  - change (lit (c :: w)) with (Seq (Char c) (lit w)).
    rewrite matches_seq. setoid_rewrite matches_char. setoid_rewrite IH.
    unfold after. split.
    + intros (z & (t & Hx & ->) & t' & Ht & ->). simpl in *. subst t.
      exists t'. split; [done|]. f_equal. lia.
    + intros (t & Hx & ->). eexists. split; [by eexists|].
      exists t. simpl. split; [done|]. f_equal. lia.
Qed.

(** A repetition of a character class without upper bound reads at
    least [min] characters of the class. *)
Lemma reps_chars p min x y :
  reps (one_char p) [] min None x y ↔
  ∃ w t, Forall (λ c, p c = true) w ∧ min ≤ length w ∧
         ms_rest x = w ++ t ∧ y = after x w t (ms_caps x).
Proof.
  split.
  - intros H. remember None as max eqn:Hmax.
    induction H as [min max x Hstop|min max x y z _ Hy Hpos _ IH].
    + exists [], (ms_rest x). rewrite after_nil.
      destruct Hstop as [->|]; [done|congruence].
    + subst max. apply one_char_after in Hy as (c & t & Hc & Hx & ->).
      destruct IH as (w & t' & Hw & Hmin & Ht & ->); [done|].
      simpl in *. subst t. exists (c :: w), t'. unfold after. simpl.
      split_and!; [by constructor|lia|done|f_equal; lia].
  - intros (w & t & Hw & Hmin & Hx & ->). revert x min Hmin Hx.
    induction Hw as [|c w Hc Hw IH]; intros x min Hmin Hx.
    + simpl in Hx. rewrite <-Hx, after_nil. apply reps_stop. left.
      simpl in Hmin. lia.
    + eapply reps_iter; [done| |intros _|].
      * apply one_char_after. exists c, (w ++ t). eauto.
      * simpl. lia.
      * replace (after x (c :: w) t (ms_caps x))
          with (after (after (clear_caps [] x) [c] (w ++ t) (ms_caps x)) w t
                  (ms_caps x)) by (unfold after; simpl; f_equal; lia).
        apply (IH (after (clear_caps [] x) [c] (w ++ t) (ms_caps x)));
          [simpl in *; lia|done].
Qed.

Lemma char_pred_matches r p :
  char_pred r = Some p → matches r = one_char p ∧ groups r = [].
Proof. destruct r; naive_solver. Qed.

(** [r+] and [r+?] on a single-character atom read a non-empty string
    of the class. *)
Lemma matches_plus_chars r p greedy x y :
  char_pred r = Some p →
  matches (Repeat 1 None greedy r) x y ↔
  ∃ w t, (w ≠ [] ∧ Forall (λ c, p c = true) w) ∧
         ms_rest x = w ++ t ∧ y = after x w t (ms_caps x).
Proof.
  intros [Hm Hg]%char_pred_matches. simpl. rewrite Hm, Hg, reps_chars.
  split; intros (w & t & H); exists w, t; destruct w; naive_solver (simpl; lia).
Qed.

(** A group around such a repetition captures what was read. *)
Lemma matches_group_chars n r p greedy x y :
  char_pred r = Some p →
  matches (Group n (Repeat 1 None greedy r)) x y ↔
  ∃ w t, (w ≠ [] ∧ Forall (λ c, p c = true) w) ∧
         ms_rest x = w ++ t ∧ y = after x w t (<[n:=w]> (ms_caps x)).
Proof.
  intros Hr. change (matches (Group n ?r') x y) with
    (∃ z, matches r' x z ∧
          y = set_cap n (take (ms_pos z - ms_pos x) (ms_rest x)) z).
  setoid_rewrite (matches_plus_chars r p greedy x _ Hr).
  assert (∀ w t, ms_rest x = w ++ t →
    set_cap n (take (ms_pos (after x w t (ms_caps x)) - ms_pos x) (ms_rest x))
      (after x w t (ms_caps x)) = after x w t (<[n:=w]> (ms_caps x))) as Hcap.
  { intros w t ->. unfold set_cap, after. simpl. do 2 f_equal.
    replace (ms_pos x + length w - ms_pos x) with (length w) by lia.
    by rewrite take_app_length. }
  split.
  - intros (z & (w & t & Hw & Hx & ->) & ->). exists w, t. by rewrite Hcap.
  - intros (w & t & Hw & Hx & ->). eexists. split; [by exists w, t|].
    by rewrite Hcap.
Qed.

(** [(?:r)?]: nothing, or one match of [r] that reads something. *)
Lemma matches_opt r greedy x y :
  matches (Repeat 0 (Some 1) greedy r) x y ↔
  y = x ∨ (matches r (clear_caps (groups r) x) y ∧ ms_pos y ≠ ms_pos x).
Proof.
  simpl. split.
  - inversion 1 as [|????? _ Hy Hpos Hrest]; subst; [by left|right].
    inversion Hrest as [|????? Hmax]; subst; [|done]. auto.
  - intros [->|[Hy Hpos]]; [apply reps_stop; by left|].
    eapply reps_iter; [done..|]. apply reps_stop. by right.
Qed.
End shapes.
