(* ===== verification/Parser.v ===== *)
(** * The reference parser

    [parseGitHubUrl] of index.ts turns the repository argument into
    owner, repository, branch and sub-folder.  It tries three patterns
    in turn: the tree URL, the shorthand [owner/repo[#branch]] and the
    full URL; the first that matches decides, and the input is refused
    when none does.  The earlier variant of the file has a two-pattern
    parser and a URL-only parser ([Legacy]).

    The fields of the result are the capture groups as [exec] returns
    them, so each is a string or [undefined].

    Theorems: the result on each of the accepted forms (shorthand with
    and without branch, tree URL, URL with [.git] and branch), the
    refusal of an input without a slash, that the parser refuses exactly
    the inputs that none of the patterns matches, that every result is
    well formed (owner and repository defined, no empty field, every
    field a piece of the input), that the fuel of the quantifiers is
    enough, and how the parsers of the earlier variant relate to the
    reference one.  The sets of strings that the patterns accept are in
    [Forms]. *)

From S2P Require Import Prelude JsString Regex RegexSpec.

(** ** The patterns *)

(** [[\w.-]] *)
Definition word_class : regex := Class false [CWord; CChar "."; CChar "-"].
(** [[^/]] *)
Definition not_slash : regex := Class true [CChar "/"].

(** [r+], [r+?] and [(?:r)?] *)
Definition plus (r : regex) : regex := Repeat 1 None true r.
Definition plus_lazy (r : regex) : regex := Repeat 1 None false r.
Definition opt (r : regex) : regex := Repeat 0 (Some 1) true r.

(** A pattern is the sequence of its terms. *)
Definition seqs (rs : list regex) : regex := foldr Seq Empty rs.

(** [(?:#(.+))?], with the branch in group [n]. *)
Definition branch_fragment (n : nat) : regex :=
  opt (Seq (Char "#") (Group n (plus Dot))).

(** [/^([\w.-]+)\/([\w.-]+)(?:#(.+))?$/] *)
Definition shorthandRegex : regex :=
  seqs [Bol; Group 1 (plus word_class); Char "/"; Group 2 (plus word_class);
        branch_fragment 3; Eol].

(** [/github\.com\/(.+?)\/(.+?)(?:\.git)?(?:#(.+))?$/] *)
Definition fullRepoRegex : regex :=
  seqs [lit (str "github.com/"); Group 1 (plus_lazy Dot); Char "/";
        Group 2 (plus_lazy Dot); opt (lit (str ".git"));
        branch_fragment 3; Eol].

(** [/^https:\/\/github\.com\/([^/]+)\/([^/]+)\/tree\/([^/]+)\/(.+)$/] *)
Definition treeUrlRegex : regex :=
  seqs [Bol; lit (str "https://github.com/"); Group 1 (plus not_slash);
        Char "/"; Group 2 (plus not_slash); lit (str "/tree/");
        Group 3 (plus not_slash); Char "/"; Group 4 (plus Dot); Eol].

(** ** The parser *)

Record repo_ref : Type := RepoRef {
  owner : option jstring;
  repo : option jstring;
  branch : option jstring;
  subfolder : option jstring
}.

Definition invalid_format : js_error :=
  Error (str "Invalid GitHub repo format. Use owner/repo[#branch] or full GitHub folder URL.").

Definition parseGitHubUrl (input : jstring) : exn js_error repo_ref :=
  match exec treeUrlRegex input with
  | Some treeMatch =>
      Val (RepoRef (group treeMatch 1) (group treeMatch 2)
                   (group treeMatch 3) (group treeMatch 4))
  | None =>
      match exec shorthandRegex input with
      | Some shorthandMatch =>
          Val (RepoRef (group shorthandMatch 1) (group shorthandMatch 2)
                       (group shorthandMatch 3) None)
      | None =>
          match exec fullRepoRegex input with
          | Some fullRepoMatch =>
              Val (RepoRef (group fullRepoMatch 1) (group fullRepoMatch 2)
                           (group fullRepoMatch 3) None)
          | None => Throw invalid_format
          end
      end
  end.

(** ** The parsers of the earlier variant *)

Module Legacy.
Definition invalid_url : js_error := Error (str "Invalid GitHub repo URL.").
Definition invalid_format : js_error :=
  Error (str "Invalid GitHub repo format. Use owner/repo[#branch] or full GitHub URL.").

(** [parseGitHubUrl2]: the URL pattern only. *)
Definition parseGitHubUrl2 (url : jstring) : exn js_error repo_ref :=
  match exec fullRepoRegex url with
  | Some res => Val (RepoRef (group res 1) (group res 2) (group res 3) None)
  | None => Throw invalid_url
  end.

(** [parseGitHubUrl]: shorthand, then URL. *)
Definition parseGitHubUrl (input : jstring) : exn js_error repo_ref :=
  match exec shorthandRegex input with
  | Some res => Val (RepoRef (group res 1) (group res 2) (group res 3) None)
  | None =>
      match exec fullRepoRegex input with
      | Some res =>
          Val (RepoRef (group res 1) (group res 2) (group res 3) None)
      | None => Throw invalid_format
      end
  end.
End Legacy.

(** ** The shape of the accepted inputs *)

(** The predicates of the classes [[\w.-]], [[^/]] and [.]. *)
Definition word_char : ascii → bool :=
  class_matches false [CWord; CChar "."; CChar "-"].
Definition non_slash : ascii → bool := class_matches true [CChar "/"].

(** A token of a class: a non-empty string of its characters. *)
Definition token (p : ascii → bool) (w : jstring) : Prop :=
  w ≠ [] ∧ Forall (λ c, p c = true) w.

#[global] Instance token_dec p w : Decision (token p w).
Proof. unfold token. apply _. Defined.

(** A branch, when there is one, is a token of [.]. *)
Definition branch_ok (b : option jstring) : Prop :=
  match b with
  | None => True
  | Some b' => token dot_matches b'
  end.

#[global] Instance branch_ok_dec b : Decision (branch_ok b).
Proof. destruct b; apply _. Defined.

(** The fragment [#branch] of a reference. *)
Definition fragment (b : option jstring) : jstring :=
  match b with
  | None => []
  | Some b' => "#"%char :: b'
  end.

(** The captures of a match with owner, repository and branch. *)
Definition caps3 (o r : jstring) (b : option jstring) : gmap nat jstring :=
  match b with
  | None => <[2:=r]> (<[1:=o]> ∅)
  | Some b' => <[3:=b']> (<[2:=r]> (<[1:=o]> ∅))
  end.

Lemma caps3_lookup o r b :
  caps3 o r b !! 1 = Some o ∧ caps3 o r b !! 2 = Some r ∧ caps3 o r b !! 3 = b.
Proof. destruct b; by simplify_map_eq. Qed.

(** ** The branch fragment and the end of the input *)

(** [(?:#(.+))?$] at the end of a reference: the branch is captured, or
    the group stays undefined when there is no fragment. *)
(** [norm_state] computes the states that the matcher's equations leave. *)
Ltac norm_state :=
  cbv beta delta [adv set_cap clear_caps plus plus_lazy opt];
  cbn [ms_rest ms_pos ms_caps skipn groups app foldr]; rewrite ?drop_0.

Lemma m_branch_fragment_eol b i caps :
  branch_ok b → caps !! 3 = None →
  m (Seq (branch_fragment 3) (Seq Eol Empty)) (MState (fragment b) i caps) Some =
  Some (MState [] (i + length (fragment b))
          (match b with None => caps | Some b' => <[3:=b']> caps end)).
Proof.
  intros Hb Hc. rewrite m_seq. unfold branch_fragment, opt. rewrite m_opt.
  destruct b as [b'|]; rewrite m_seq, m_char; cbn [fragment]; norm_state.
  - destruct Hb as [Hne Hb]. rewrite bool_decide_true by done.
    rewrite <-(app_nil_r b') at 1.
    rewrite (m_group_plus_greedy dot_matches Dot) by (done || solve_stops).
    norm_state. rewrite bool_decide_false by (destruct b'; simpl; [done|lia]).
    rewrite m_seq, m_eol. norm_state. rewrite m_empty.
    rewrite delete_id by done. do 2 f_equal. simpl. lia.
  - rewrite m_seq, m_eol. norm_state. rewrite m_empty.
    do 2 f_equal. simpl. lia.
Qed.

(** ** The shorthand pattern *)

Lemma shorthand_match o r b :
  token word_char o → token word_char r → branch_ok b →
  exec shorthandRegex (o ++ "/"%char :: r ++ fragment b) =
  Some (MatchResult 0 (length (o ++ "/"%char :: r ++ fragment b)) (caps3 o r b)).
Proof.
  intros [Ho1 Ho2] [Hr1 Hr2] Hb. unfold shorthandRegex. cbn [seqs foldr].
  rewrite exec_bol. unfold match_at. rewrite m_seq, m_bol. norm_state.
  rewrite bool_decide_true by done.
  rewrite m_seq, (m_group_plus_greedy word_char word_class)
    by (done || solve_stops).
  rewrite m_seq, m_char. norm_state. rewrite bool_decide_true by done.
  rewrite m_seq, (m_group_plus_greedy word_char word_class);
    [|done|unfold branch_fragment, opt; solve_stops|done..|by destruct b].
  rewrite m_branch_fragment_eol by done. cbn [fmap option_fmap option_map].
  norm_state. do 2 f_equal.
  rewrite length_app. simpl. rewrite length_app. lia.
Qed.

(** An input that does not start with the scheme and host is not a
    tree URL. *)
Lemma tree_url_no_match s :
  startsWith s (str "https://github.com/") = false →
  exec treeUrlRegex s = None.
Proof.
  intros Hs. unfold treeUrlRegex. cbn [seqs foldr].
  rewrite exec_bol. unfold match_at. rewrite m_seq, m_bol. norm_state.
  rewrite bool_decide_true by done. rewrite m_seq, m_lit. norm_state.
  by rewrite Hs.
Qed.

(** A string that starts with a token of [[\w.-]] followed by a slash
    does not start with [https://]. *)
Lemma shorthand_not_https o t :
  token word_char o →
  startsWith (o ++ "/"%char :: t) (str "https://github.com/") = false.
Proof.
  intros [Hne Ho]. apply not_true_is_false. intros H.
  do 6 (destruct o as [|? o]; [by (done || destruct_and? || simpl in H;
        repeat case_bool_decide)|]).
  simpl in H. repeat (case_bool_decide; [|done]). subst.
  by do 5 apply Forall_cons_1, proj2 in Ho; apply Forall_cons_1, proj1 in Ho.
Qed.

(** C14: a shorthand reference [owner/repo] or [owner/repo#branch], whose
    owner and repository are made of word characters, dots and dashes,
    parses to exactly that owner, repository and branch, with no
    sub-folder. *)
Theorem parse_shorthand o r b :
  token word_char o → token word_char r → branch_ok b →
  parseGitHubUrl (o ++ "/"%char :: r ++ fragment b) =
  Val (RepoRef (Some o) (Some r) b None).
Proof.
  intros Ho Hr Hb. unfold parseGitHubUrl.
  rewrite tree_url_no_match by by apply shorthand_not_https.
  rewrite shorthand_match by done. unfold group. cbn [mr_caps].
  by destruct (caps3_lookup o r b) as (-> & -> & ->).
Qed.

Lemma parse_shorthand_witness :
  parseGitHubUrl (str "metallicjs/templates#dev") =
  Val (RepoRef (Some (str "metallicjs")) (Some (str "templates"))
               (Some (str "dev")) None).
Proof.
  apply (parse_shorthand (str "metallicjs") (str "templates")
           (Some (str "dev")));
    apply (bool_decide_unpack _); vm_compute; exact I.
Defined.

(** ** The tree URL pattern *)

(** C15: a tree URL [https://github.com/O/R/tree/B/sub/path] parses to
    owner [O], repository [R], branch [B] and sub-folder [sub/path]. *)
Theorem parse_tree_url o r b sub :
  token non_slash o → token non_slash r → token non_slash b →
  token dot_matches sub →
  parseGitHubUrl (str "https://github.com/" ++ o ++ "/"%char :: r ++
                  str "/tree/" ++ b ++ "/"%char :: sub) =
  Val (RepoRef (Some o) (Some r) (Some b) (Some sub)).
Proof.
  intros [Ho1 Ho2] [Hr1 Hr2] [Hb1 Hb2] [Hs1 Hs2]. unfold parseGitHubUrl.
  unfold treeUrlRegex. cbn [seqs foldr]. rewrite exec_bol. unfold match_at.
  rewrite m_seq, m_bol. norm_state. rewrite bool_decide_true by done.
  rewrite m_seq, m_lit. norm_state. rewrite startsWith_app, drop_app_length.
  rewrite m_seq, (m_group_plus_greedy non_slash not_slash)
    by (done || solve_stops).
  rewrite m_seq, m_char. norm_state. rewrite bool_decide_true by done.
  rewrite m_seq, (m_group_plus_greedy non_slash not_slash)
    by (done || solve_stops).
  rewrite m_seq, m_lit. norm_state. rewrite startsWith_app, drop_app_length.
  rewrite m_seq, (m_group_plus_greedy non_slash not_slash)
    by (done || solve_stops).
  rewrite m_seq, m_char. norm_state. rewrite bool_decide_true by done.
  rewrite <-(app_nil_r sub) at 1.
  rewrite m_seq, (m_group_plus_greedy dot_matches Dot)
    by (done || solve_stops).
  rewrite m_seq, m_eol. norm_state. rewrite m_empty.
  reflexivity.
Qed.

Lemma parse_tree_url_witness :
  parseGitHubUrl (str "https://github.com/user/repo/tree/main/src/lib") =
  Val (RepoRef (Some (str "user")) (Some (str "repo")) (Some (str "main"))
               (Some (str "src/lib"))).
Proof.
  apply (parse_tree_url (str "user") (str "repo") (str "main") (str "src/lib"));
    apply (bool_decide_unpack _); vm_compute; exact I.
Defined.

(** ** Inputs that no pattern accepts *)

Lemma startsWith_elem s p c :
  startsWith s p = true → c ∈ p → c ∈ s.
Proof.
  intros [k ->]%startsWith_prefix Hc. apply elem_of_app. by left.
Qed.

Lemma not_elem_startsWith s p c :
  c ∉ s → c ∈ p → startsWith s p = false.
Proof.
  intros Hs Hp. apply not_true_is_false. intros H.
  by apply Hs, (startsWith_elem _ p).
Qed.

Lemma not_elem_drop (s : jstring) c j : c ∉ s → c ∉ drop j s.
Proof. intros Hs Hd. by apply Hs, (subseteq_drop j s). Qed.

Lemma shorthand_no_slash s : "/"%char ∉ s → exec shorthandRegex s = None.
Proof.
  intros Hs. unfold shorthandRegex. cbn [seqs foldr].
  rewrite exec_bol. unfold match_at. rewrite m_seq, m_bol. norm_state.
  rewrite bool_decide_true by done.
  rewrite m_seq, (m_group_plus_greedy_commit word_char)
    by (done || solve_stops).
  norm_state. case_decide; [done|]. rewrite m_seq, m_char. norm_state.
  pose proof (not_elem_drop s _ (run_length word_char s) Hs) as Hd.
  destruct (drop _ s) as [|b t]; [done|].
  rewrite bool_decide_false; [done|]. intros ->. apply Hd. by left.
Qed.

Lemma full_repo_no_slash s : "/"%char ∉ s → exec fullRepoRegex s = None.
Proof.
  intros Hs. apply exec_from_None. intros j _.
  unfold match_at, fullRepoRegex. cbn [seqs foldr].
  rewrite m_seq, m_lit. norm_state.
  rewrite (not_elem_startsWith _ _ "/"%char); [done|by apply not_elem_drop|].
  vm_compute. by repeat (constructor || apply elem_of_list_further).
Qed.

(** A reference without a slash, such as a bare word, is refused with
    the "Invalid GitHub repo format" error. *)
Lemma parse_no_slash s :
  "/"%char ∉ s → parseGitHubUrl s = Throw invalid_format.
Proof.
  intros Hs. unfold parseGitHubUrl.
  rewrite tree_url_no_match, shorthand_no_slash, full_repo_no_slash; [done..|].
  apply (not_elem_startsWith _ _ "/"%char); [done|].
  vm_compute. by repeat (constructor || apply elem_of_list_further).
Qed.

Lemma parse_no_slash_witness :
  parseGitHubUrl (str "bareword") = Throw invalid_format.
Proof.
  apply parse_no_slash. apply (bool_decide_unpack _). vm_compute. exact I.
Defined.

(** ** The URL pattern *)

(** The optional [.git] of a URL. *)
Definition git_suffix (g : bool) : jstring := if g then str ".git" else [].

(** The characters of an owner in a URL: any but a line terminator or a
    slash; those of a repository: any but a line terminator or [#]. *)
Definition not_hash (c : ascii) : bool := negb (bool_decide (c = "#"%char)).
Definition owner_char (c : ascii) : bool := dot_matches c && non_slash c.
Definition repo_char (c : ascii) : bool := dot_matches c && not_hash c.

Definition host : jstring := str "github.com/".

(** [(?:\.git)?(?:#(.+))?$], the end of the URL pattern. *)
Local Abbreviation url_tail :=
  (Seq (opt (lit (str ".git"))) (Seq (branch_fragment 3) (Seq Eol Empty))).

Lemma stops_fragment :
  stops not_hash (λ y, m (Seq (branch_fragment 3) (Seq Eol Empty)) y Some).
Proof. unfold branch_fragment, opt. solve_stops. Qed.

(** The end of the pattern does not match in the middle of a repository
    name: not before a character that is not [#], also not after a
    [.git] that is followed by more of the name. *)
Lemma url_tail_refuses u g b i caps :
  u ≠ [] → Forall (λ c, not_hash c = true) u → (g = false → u ≠ str ".git") →
  m url_tail (MState (u ++ git_suffix g ++ fragment b) i caps) Some = None.
Proof.
  intros Hne Hu Hg. unfold opt. rewrite m_seq, m_opt_lit by done.
  cbn [ms_rest].
  assert (∀ v t j, v ≠ [] → Forall (λ c, not_hash c = true) v →
            m (Seq (branch_fragment 3) (Seq Eol Empty))
              (MState (v ++ t) j caps) Some = None) as Hk.
  { intros [|c v] t j Hv Hc; [done|]. eapply (stops_fragment _ c); [done|].
    by apply Forall_cons_1 in Hc as [? _]. }
  rewrite (Hk u) by done.
  destruct (startsWith _ _) eqn:Hs; [|done].
  assert (∃ v t, drop 4 (u ++ git_suffix g ++ fragment b) = v ++ t ∧ v ≠ [] ∧
                 Forall (λ c, not_hash c = true) v) as (v & t & Hd & Hv & Hvc).
  { destruct u as [|c1 [|c2 [|c3 [|c4 [|c5 u]]]]]; [done|..].
    1-3: destruct g, b; simpl in Hs; repeat case_bool_decide; done.
    - simpl in Hs. repeat (case_bool_decide; [|done]). subst.
      destruct g; [|by destruct Hg]. by exists (str ".git"), (fragment b).
    - exists (c5 :: u), (git_suffix g ++ fragment b). split_and!; [done..|].
      by do 4 apply Forall_cons_1, proj2 in Hu. }
  unfold adv. cbn [ms_rest ms_pos ms_caps]. simpl length. by rewrite Hd, Hk.
Qed.

(** At the end of the repository name it matches: [.git] is skipped
    and the branch captured. *)
Lemma url_tail_accepts g b i caps :
  branch_ok b → caps !! 3 = None →
  m url_tail (MState (git_suffix g ++ fragment b) i caps) Some =
  Some (MState [] (i + length (git_suffix g ++ fragment b))
          (match b with None => caps | Some b' => <[3:=b']> caps end)).
Proof.
  intros Hb Hc. unfold opt. rewrite m_seq, m_opt_lit by done. cbn [ms_rest].
  destruct g; cbn [git_suffix app].
  - rewrite startsWith_app. unfold adv. cbn [ms_rest ms_pos ms_caps].
    rewrite drop_app_length, m_branch_fragment_eol by done.
    do 2 f_equal. rewrite length_app. lia.
  - replace (startsWith (fragment b) (str ".git")) with false
      by (by destruct b).
    by rewrite m_branch_fragment_eol.
Qed.

(** The URL pattern on [... github.com/O/R[.git][#B]], where [github.com/]
    does not occur earlier. *)
Lemma full_repo_match pre o rp g b :
  indexOf (pre ++ host) host = Some (length pre) →
  token owner_char o → token repo_char rp →
  (g = false → ¬ str ".git" `suffix_of` rp) → branch_ok b →
  let input := pre ++ host ++ o ++ "/"%char :: rp ++ git_suffix g ++ fragment b in
  exec fullRepoRegex input =
  Some (MatchResult (length pre) (length input) (caps3 o rp b)).
Proof.
  intros Hpre [Ho1 Ho2] [Hr1 Hr2] Hg Hb input. unfold host in *.
  apply indexOf_Some in Hpre as (_ & _ & Hpre).
  apply (exec_from_first _ _ 0 (length pre)).
  { unfold input. rewrite length_app. apply Nat.le_add_r. }
  { intros j Hj. unfold match_at, fullRepoRegex. cbn [seqs foldr].
    rewrite m_seq, m_lit. cbn [ms_rest]. unfold input.
    rewrite (assoc (++) pre), drop_app_le by (rewrite length_app; lia).
    rewrite startsWith_app_l
      by (rewrite length_drop, length_app; simpl; lia).
    by rewrite (proj2 (startsWith_false _ _) (Hpre j Hj)). }
  unfold input. rewrite drop_app_length. unfold match_at, fullRepoRegex.
  cbn [seqs foldr]. rewrite m_seq, m_lit. norm_state.
  rewrite startsWith_app, drop_app_length.
  enough (∀ i, m (Seq (Group 1 (Repeat 1 None false Dot))
              (Seq (Char "/") (Seq (Group 2 (Repeat 1 None false Dot)) url_tail)))
            (MState (o ++ "/"%char :: rp ++ git_suffix g ++ fragment b) i ∅) Some
          = Some (MState [] (i + length (o ++ "/"%char :: rp ++ git_suffix g ++ fragment b))
                    (caps3 o rp b))) as ->.
  { simpl. do 2 f_equal. repeat (rewrite length_app || simpl). lia. }
  intros i. rewrite m_seq.
  apply (m_group_plus_lazy dot_matches Dot eq_refl 1 o _ _ _ _ non_slash);
    [solve_stops| |done|].
  { eapply Forall_impl; [done|]. by intros c [??]%andb_true_iff. }
  rewrite m_seq, m_char. norm_state. rewrite bool_decide_true by done.
  rewrite m_seq.
  apply (m_group_plus_lazy_split dot_matches Dot eq_refl 2 rp); [|done| |].
  { eapply Forall_impl; [done|]. by intros c [??]%andb_true_iff. }
  { intros j Hj. apply url_tail_refuses.
    - intros Hd%(f_equal length). rewrite length_drop in Hd. simpl in Hd. lia.
    - apply Forall_drop. eapply Forall_impl; [done|].
      by intros c [??]%andb_true_iff.
    - intros -> Hd. apply Hg; [done|]. exists (take j rp).
      by rewrite <-Hd, take_drop. }
  rewrite url_tail_accepts by (done || by simplify_map_eq).
  do 2 f_equal. repeat (rewrite length_app || simpl). lia.
Qed.

(** The shorthand pattern does not match a URL with a scheme. *)
Lemma shorthand_not_url t : exec shorthandRegex (str "https://" ++ t) = None.
Proof.
  unfold shorthandRegex. cbn [seqs foldr].
  rewrite exec_bol. unfold match_at. rewrite m_seq, m_bol. norm_state.
  rewrite bool_decide_true by done.
  rewrite m_seq, (m_group_plus_greedy_commit word_char)
    by (done || solve_stops).
  done.
Qed.

Lemma indexOf_https :
  indexOf (str "https://" ++ host) host = Some (length (str "https://")).
Proof. vm_compute. reflexivity. Qed.

(** ** What every result holds *)

(** A field of a result: when it is defined, it is a non-empty piece of
    the input. *)
Definition field_ok (input : jstring) (f : option jstring) : Prop :=
  ∀ w, f = Some w → w ≠ [] ∧ part_of w input.

(** A result is well formed when owner and repository are defined, a
    sub-folder comes with a branch and only from an input with [/tree/],
    and every field satisfies [field_ok]. *)
Record well_formed (input : jstring) (r : repo_ref) : Prop := WellFormed {
  wf_owner : is_Some (owner r);
  wf_repo : is_Some (repo r);
  wf_subfolder :
    is_Some (subfolder r) →
    is_Some (branch r) ∧ part_of (str "/tree/") input;
  wf_fields : Forall (field_ok input) [owner r; repo r; branch r; subfolder r]
}.

Lemma field_ok_None input : field_ok input None.
Proof. done. Qed.

Section groups.
Context (rx : regex) (input : jstring) (res : match_result).
Context (Hres : exec rx input = Some res).

Lemma field_ok_group n : groups_consume rx = true → field_ok input (group res n).
Proof.
  intros Hg w Hw. split; [|by eapply exec_part_of].
  intros ->. by eapply exec_nonempty.
Qed.

Lemma group_defined n : defines n rx = true → is_Some (group res n).
Proof. intros Hd. destruct (exec_defines _ _ _ Hres n Hd) as (w & -> & _). done. Qed.

(** A result with owner, repository and branch from groups 1 to 3. *)
Lemma match_well_formed :
  defines 1 rx = true → defines 2 rx = true → groups_consume rx = true →
  well_formed input (RepoRef (group res 1) (group res 2) (group res 3) None).
Proof.
  intros H1 H2 Hg. split; simpl; [by apply group_defined..|by intros []|].
  repeat (apply Forall_cons; split); by (apply field_ok_group || done).
Qed.
End groups.

#[export] Hint Resolve field_ok_None : gfd.

(** C40: the quantifiers of the three patterns never stop for lack
    of fuel.  The matcher gives the loop of a quantifier the minimum
    count, the number of code units left, and one as fuel; for [+],
    [+?] and [?], as the patterns use them, the loop with any fuel of
    at least the number of code units left plus two returns what the
    matcher returns, so the bound is never what ends a match. *)
Theorem quantifier_fuel_enough r x k fuel :
  length (ms_rest x) + 2 ≤ fuel →
  m (plus r) x k = rep_loop (m r) (groups r) true fuel 1 None x k ∧
  m (plus_lazy r) x k = rep_loop (m r) (groups r) false fuel 1 None x k ∧
  m (opt r) x k = rep_loop (m r) (groups r) true fuel 0 (Some 1) x k.
Proof.
  intros Hf. unfold plus, plus_lazy, opt.
  split_and!; symmetry; apply repeat_fuel_enough; unfold rep_fuel; lia.
Qed.

Lemma quantifier_fuel_enough_witness :
  m (plus word_class) (MState (str "a-b/c") 0 ∅) Some
  = Some (MState (str "/c") 3 ∅).
Proof.
  destruct (quantifier_fuel_enough word_class (MState (str "a-b/c") 0 ∅) Some 100)
    as (-> & _); [simpl; lia|]. vm_compute. reflexivity.
Defined.

(** On a reference that is not a tree URL, the parser of
    index.ts and the parser of the earlier variant return the same
    owner, repository and branch, or both fail. *)
Lemma parsers_agree input r :
  exec treeUrlRegex input = None →
  parseGitHubUrl input = Val r ↔ Legacy.parseGitHubUrl input = Val r.
Proof.
  intros Ht. unfold parseGitHubUrl, Legacy.parseGitHubUrl. rewrite Ht.
  destruct (exec shorthandRegex input); [done|].
  by destruct (exec fullRepoRegex input).
Qed.

Lemma parsers_agree_witness :
  Legacy.parseGitHubUrl (str "metallicjs/templates#dev")
  = Val (RepoRef (Some (str "metallicjs")) (Some (str "templates"))
           (Some (str "dev")) None).
Proof.
  apply parsers_agree; vm_compute; reflexivity.
Defined.

(** C17: every result of the parser is well formed: owner and repository
    are defined, no field is the empty string, every field is a piece of
    the input, and a sub-folder comes with a branch and only from an
    input that holds [/tree/].  So [branch || ...] and [!parsed.subfolder]
    in the callers test whether the field is defined. *)
Theorem parse_well_formed input r :
  parseGitHubUrl input = Val r → well_formed input r.
Proof.
  unfold parseGitHubUrl.
  destruct (exec treeUrlRegex input) as [res|] eqn:Et.
  { intros [= <-]. split; simpl; [by eapply group_defined..| |].
    - intros _. split; [by eapply group_defined|by eapply exec_reads].
    - repeat (apply Forall_cons; split); by (eapply field_ok_group || done). }
  destruct (exec shorthandRegex input) as [res|] eqn:Es;
    [intros [= <-]; by eapply match_well_formed|].
  destruct (exec fullRepoRegex input) as [res|] eqn:Ef; [|done].
  intros [= <-]. by eapply match_well_formed.
Qed.

Lemma parse_well_formed_witness :
  well_formed (str "user/repo")
    (RepoRef (Some (str "user")) (Some (str "repo")) None None).
Proof. apply parse_well_formed. vm_compute. reflexivity. Defined.

(** The parsers of the earlier variant return well-formed results too. *)
Lemma legacy_parse_well_formed input r :
  Legacy.parseGitHubUrl input = Val r ∨ Legacy.parseGitHubUrl2 input = Val r →
  well_formed input r.
Proof.
  unfold Legacy.parseGitHubUrl, Legacy.parseGitHubUrl2.
  destruct (exec shorthandRegex input) as [res|] eqn:Es;
    destruct (exec fullRepoRegex input) as [res'|] eqn:Ef;
    intros [[= <-]|[= <-]]; by eapply match_well_formed.
Qed.

(** The parser refuses an input exactly when none of the three
    patterns matches it anywhere, where matching is the relation
    [matches] and not the backtracking search. *)
Lemma parse_refused_iff input :
  parseGitHubUrl input = Throw invalid_format ↔
  ¬ accepts treeUrlRegex input ∧ ¬ accepts shorthandRegex input ∧
  ¬ accepts fullRepoRegex input.
Proof.
  rewrite <-!exec_None. unfold parseGitHubUrl.
  destruct (exec treeUrlRegex input), (exec shorthandRegex input),
    (exec fullRepoRegex input); naive_solver.
Qed.

(** C16: a URL [https://github.com/O/R], with [.git] or [#B] or both
    after it, parses to owner [O], repository [R] and branch [B] with no
    sub-folder, and [.git] is not part of the repository.  [O] has no
    slash, [R] no [#]; [R] may hold slashes, and the input is not to hold
    [/tree/], which is what makes a URL a tree URL. *)
Theorem parse_full_url o rp g b :
  token owner_char o → token repo_char rp →
  (g = false → ¬ str ".git" `suffix_of` rp) → branch_ok b →
  let input := str "https://github.com/" ++ o ++ "/"%char :: rp
               ++ git_suffix g ++ fragment b in
  ¬ part_of (str "/tree/") input →
  parseGitHubUrl input = Val (RepoRef (Some o) (Some rp) b None).
Proof.
  intros Ho Hr Hg Hb input Ht. unfold parseGitHubUrl.
  rewrite (exec_mentions treeUrlRegex input (str "/tree/")) by done.
  change input with (str "https://" ++ host ++ o ++ "/"%char :: rp
                     ++ git_suffix g ++ fragment b).
  rewrite shorthand_not_url.
  rewrite (full_repo_match (str "https://") o rp g b indexOf_https) by done.
  unfold group. cbn [mr_caps].
  by destruct (caps3_lookup o rp b) as (-> & -> & ->).
Qed.

Lemma parse_full_url_witness :
  parseGitHubUrl (str "https://github.com/user/repo.git#dev") =
  Val (RepoRef (Some (str "user")) (Some (str "repo")) (Some (str "dev")) None).
Proof.
  apply (parse_full_url (str "user") (str "repo") true (Some (str "dev")));
    try done; apply (bool_decide_unpack _); vm_compute; exact I.
Defined.

(** C39: the parsers of the earlier variant read every such URL with the
    URL pattern, a tree URL included: the repository of
    [https://github.com/O/R/tree/B/sub] is then [R/tree/B/sub]. *)
Theorem legacy_parse_url o rp g b :
  token owner_char o → token repo_char rp →
  (g = false → ¬ str ".git" `suffix_of` rp) → branch_ok b →
  let input := str "https://github.com/" ++ o ++ "/"%char :: rp
               ++ git_suffix g ++ fragment b in
  Legacy.parseGitHubUrl input = Val (RepoRef (Some o) (Some rp) b None) ∧
  Legacy.parseGitHubUrl2 input = Val (RepoRef (Some o) (Some rp) b None).
Proof.
  intros Ho Hr Hg Hb input.
  unfold Legacy.parseGitHubUrl, Legacy.parseGitHubUrl2.
  change input with (str "https://" ++ host ++ o ++ "/"%char :: rp
                     ++ git_suffix g ++ fragment b).
  rewrite shorthand_not_url.
  rewrite (full_repo_match (str "https://") o rp g b indexOf_https) by done.
  unfold group. cbn [mr_caps].
  by destruct (caps3_lookup o rp b) as (-> & -> & ->).
Qed.

Lemma legacy_parse_url_witness :
  Legacy.parseGitHubUrl (str "https://github.com/user/repo/tree/main/src/lib") =
  Val (RepoRef (Some (str "user")) (Some (str "repo/tree/main/src/lib"))
         None None).
Proof.
  apply (legacy_parse_url (str "user") (str "repo/tree/main/src/lib") false None);
    try done; apply (bool_decide_unpack _); vm_compute; exact I.
Defined.
