(* ===== verification/Forms.v ===== *)
(** * The inputs the parser accepts

    The three patterns of [parseGitHubUrl] as sets of strings: what a
    shorthand, a tree URL and a repository URL look like
    ([is_shorthand], [is_tree_url], [is_repo_url]), independent of the
    matcher and of the order in which it tries the alternatives.

    Theorems: each pattern accepts exactly the strings of its form
    ([accepts_shorthand], [accepts_tree_url], [accepts_repo_url]); the
    parser returns a result exactly on the strings of one of the three
    forms, and refuses every other with the format error
    ([parse_accepted_forms]). *)

From S2P Require Import Prelude JsString Regex RegexSpec Parser.

(** ** The forms *)

Section forms.
Implicit Types (s o rp w t : jstring) (b : option jstring) (x y : mstate).

(** [owner/repo] or [owner/repo#branch], owner and repository of
    [[\w.-]]. *)
Definition is_shorthand s : Prop :=
  ∃ o rp b, token word_char o ∧ token word_char rp ∧ branch_ok b ∧
            s = o ++ "/"%char :: rp ++ fragment b.

(** [https://github.com/owner/repo/tree/branch/path], where only the
    path has slashes. *)
Definition is_tree_url s : Prop :=
  ∃ o rp br sub, token non_slash o ∧ token non_slash rp ∧
                 token non_slash br ∧ token dot_matches sub ∧
                 s = str "https://github.com/" ++ o ++ "/"%char :: rp
                     ++ str "/tree/" ++ br ++ "/"%char :: sub.

(** Anything, then [github.com/], then two non-empty parts without a
    line terminator and a slash between them. *)
Definition is_repo_url s : Prop :=
  ∃ pre o rp, token dot_matches o ∧ token dot_matches rp ∧
              s = pre ++ host ++ o ++ "/"%char :: rp.

(** ** Reading a pattern term by term *)

Lemma matches_seq_intro r1 r2 x y z :
  matches r1 x y → matches r2 y z → matches (Seq r1 r2) x z.
Proof. intros. by exists y. Qed.

Lemma matches_eol x y : matches (Seq Eol Empty) x y ↔ ms_rest x = [] ∧ y = x.
Proof. simpl. naive_solver. Qed.

Lemma matches_eol_intro x : ms_rest x = [] → matches (Seq Eol Empty) x x.
Proof. intros. by apply matches_eol. Qed.

(** A pattern that starts with [^] matches at the start only. *)
Lemma accepts_bol r s :
  accepts (Seq Bol r) s ↔ ∃ y, matches r (MState s 0 ∅) y.
Proof.
  unfold accepts. split.
  - intros (j & y & _ & z & [Hj ->] & Hy). simpl in Hj. subst j. by exists y.
  - intros (y & Hy). exists 0, y. split; [lia|]. by exists (MState s 0 ∅).
Qed.

(** [(?:#(.+))?] reads the fragment of a branch and captures it. *)
Lemma matches_branch_fragment n x y :
  matches (branch_fragment n) x y ↔
  ∃ b t, branch_ok b ∧ ms_rest x = fragment b ++ t ∧
         y = after x (fragment b) t
               (match b with
                | None => ms_caps x
                | Some b' => <[n:=b']> (ms_caps x)
                end).
Proof.
  unfold branch_fragment, opt. rewrite matches_opt, matches_seq. split.
  - intros [->|[(z & Hz & Hy) _]].
    { exists None, (ms_rest x). by rewrite after_nil. }
    apply matches_char in Hz as (t & Hx & ->).
    apply (matches_group_chars n _ dot_matches) in Hy as (w & t' & Hw & Ht & ->);
      [|done].
    simpl in *. subst t. exists (Some w), t'. split_and!; [done..|].
    unfold after. simpl. f_equal; [lia|]. by rewrite insert_delete_eq.
  - intros ([w|] & t & Hb & Hx & ->); [right|left].
    + split; [|unfold after; simpl; lia].
      exists (after x [ "#"%char ] (w ++ t) (delete n (ms_caps x))). split.
      * apply matches_char. by exists (w ++ t).
      * apply (matches_group_chars n _ dot_matches); [done|].
        exists w, t. split_and!; [apply Hb..|done|]. unfold after. simpl.
        f_equal; [lia|]. by rewrite insert_delete_eq.
    + simpl in Hx. by rewrite <-Hx, after_nil.
Qed.
End forms.

(** [shape H as p]: what the match [H] of one term of a pattern says of
    the input. *)
Tactic Notation "shape" hyp(H) "as" simple_intropattern(p) :=
  first [ apply matches_eol in H as p
        | apply matches_char in H as p
        | apply matches_lit_after in H as p
        | apply matches_branch_fragment in H as p
        | eapply matches_group_chars in H as p; [|done] ].

(** [read_lit] matches the next term, a character or a literal, and
    [read_token w] a group, on the string [w]. *)
Ltac read_lit :=
  eapply matches_seq_intro;
  [first [apply matches_char|apply matches_lit_after]; by eexists|].
Ltac read_token w :=
  eapply matches_seq_intro;
  [eapply matches_group_chars; [done|]; by eexists w, _|].

(** ** The language of each pattern *)

Section languages.
Implicit Types (s o rp w t : jstring) (b : option jstring).

Lemma accepts_shorthand s : accepts shorthandRegex s ↔ is_shorthand s.
Proof.
  unfold shorthandRegex. cbn [seqs foldr]. rewrite accepts_bol. split.
  - intros (y & x1 & H1 & x2 & H2 & x3 & H3 & x4 & H4 & H5).
    shape H1 as (o & t1 & Ho & E1 & ->). shape H2 as (t2 & E2 & ->).
    shape H3 as (rp & t3 & Hr & E3 & ->). shape H4 as (b & t4 & Hb & E4 & ->).
    shape H5 as [E5 _]. simpl in *. subst.
    exists o, rp, b. by rewrite app_nil_r.
  - intros (o & rp & b & Ho & Hr & Hb & ->). eexists.
    read_token o. read_lit. read_token rp.
    eapply matches_seq_intro; [apply matches_branch_fragment|].
    { exists b, []. by rewrite app_nil_r. }
    by apply matches_eol_intro.
Qed.

Lemma accepts_tree_url s : accepts treeUrlRegex s ↔ is_tree_url s.
Proof.
  unfold treeUrlRegex. cbn [seqs foldr]. rewrite accepts_bol. split.
  - intros (y & x0 & H0 & x1 & H1 & x2 & H2 & x3 & H3 & x4 & H4 & x5 & H5
              & x6 & H6 & x7 & H7 & H8).
    shape H0 as (t0 & E0 & ->). shape H1 as (o & t1 & Ho & E1 & ->).
    shape H2 as (t2 & E2 & ->). shape H3 as (rp & t3 & Hr & E3 & ->).
    shape H4 as (t4 & E4 & ->). shape H5 as (br & t5 & Hb & E5 & ->).
    shape H6 as (t6 & E6 & ->). shape H7 as (sub & t7 & Hs & E7 & ->).
    shape H8 as [E8 _]. simpl in *. subst.
    exists o, rp, br, sub. by rewrite app_nil_r.
  - intros (o & rp & br & sub & Ho & Hr & Hb & Hs & ->). eexists.
    read_lit. read_token o. read_lit. read_token rp. read_lit.
    read_token br. read_lit.
    eapply matches_seq_intro; [eapply matches_group_chars; [done|]|].
    { exists sub, []. by rewrite app_nil_r. }
    by apply matches_eol_intro.
Qed.

(** What follows the repository in a URL can be read as part of it. *)
Lemma token_dot_tail rp g b :
  token dot_matches rp → branch_ok b →
  token dot_matches (rp ++ git_suffix g ++ fragment b).
Proof.
  intros [Hne Hr] Hb. split; [by destruct rp|].
  rewrite !Forall_app. split_and!; [done|by destruct g; repeat constructor|].
  destruct b as [b|]; [|done]. constructor; [done|apply Hb].
Qed.

(** [(?:\.git)?] reads [.git] or nothing. *)
Lemma matches_opt_git x y :
  matches (opt (lit (str ".git"))) x y →
  ∃ g, ms_rest x = git_suffix g ++ ms_rest y.
Proof.
  intros [->|[H _]]%matches_opt; [by exists false|].
  shape H as (t & E & ->). by exists true.
Qed.

Lemma accepts_repo_url s : accepts fullRepoRegex s ↔ is_repo_url s.
Proof.
  unfold fullRepoRegex. cbn [seqs foldr]. split.
  - intros (j & y & Hj & x0 & H0 & x1 & H1 & x2 & H2 & x3 & H3 & x4 & H4
              & x5 & H5 & H6).
    shape H0 as (t0 & E0 & ->). shape H1 as (o & t1 & Ho & E1 & ->).
    shape H2 as (t2 & E2 & ->). shape H3 as (rp & t3 & Hr & E3 & ->).
    apply matches_opt_git in H4 as (g & E4).
    shape H5 as (b & t5 & Hb & E5 & ->). shape H6 as [E6 _]. simpl in *. subst.
    rewrite E5, app_nil_r in E0.
    exists (take j s), o, (rp ++ git_suffix g ++ fragment b).
    split_and!; [done|by apply token_dot_tail|].
    by rewrite <-(take_drop j s) at 1; rewrite E0.
  - intros (pre & o & rp & Ho & Hr & ->). exists (length pre). eexists.
    split; [rewrite length_app; lia|]. rewrite drop_app_length.
    read_lit. read_token o. read_lit.
    eapply matches_seq_intro; [eapply matches_group_chars; [done|]|].
    { exists rp, []. by rewrite app_nil_r. }
    eapply matches_seq_intro; [apply matches_opt; by left|].
    eapply matches_seq_intro; [apply matches_branch_fragment; by exists None, []|].
    by apply matches_eol_intro.
Qed.
End languages.

(** ** The parser accepts the three forms and nothing else *)

(** The inputs of one of the three forms. *)
Definition accepted (s : jstring) : Prop :=
  is_tree_url s ∨ is_shorthand s ∨ is_repo_url s.

(** The forms are decidable: by running the matcher. *)
Lemma accepted_exec s :
  accepted s ↔
  is_Some (exec treeUrlRegex s) ∨ is_Some (exec shorthandRegex s) ∨
  is_Some (exec fullRepoRegex s).
Proof.
  unfold accepted.
  by rewrite !exec_accepts, accepts_tree_url, accepts_shorthand,
    accepts_repo_url.
Qed.

#[global] Instance accepted_dec s : Decision (accepted s).
Proof.
  refine (cast_if (decide (is_Some (exec treeUrlRegex s) ∨
                           is_Some (exec shorthandRegex s) ∨
                           is_Some (exec fullRepoRegex s))));
    by rewrite accepted_exec.
Defined.

(** C18: [parseGitHubUrl] returns a reference exactly on the inputs of one
    of the three forms: a tree URL, a shorthand, or a string with
    [github.com/owner/repo] in it; on every other input it throws the
    format error. *)
Theorem parse_accepted_forms s :
  match parseGitHubUrl s with
  | Val _ => accepted s
  | Throw e => e = invalid_format ∧ ¬ accepted s
  end.
Proof.
  unfold parseGitHubUrl.
  destruct (exec treeUrlRegex s) eqn:E1;
    [apply accepted_exec; rewrite E1; by left|].
  destruct (exec shorthandRegex s) eqn:E2;
    [apply accepted_exec; rewrite E2; by right; left|].
  destruct (exec fullRepoRegex s) eqn:E3;
    [apply accepted_exec; rewrite E3; by right; right|].
  split; [done|]. rewrite accepted_exec, E1, E2, E3.
  by intros [[??]|[[??]|[??]]].
Qed.

(** The parsers of the earlier variant: the URL form only, and the
    shorthand or the URL form. *)
Lemma legacy_accepted_forms s :
  (is_val (Legacy.parseGitHubUrl s) ↔ is_shorthand s ∨ is_repo_url s) ∧
  (is_val (Legacy.parseGitHubUrl2 s) ↔ is_repo_url s).
Proof.
  rewrite <-accepts_shorthand, <-accepts_repo_url, <-!exec_accepts.
  unfold Legacy.parseGitHubUrl, Legacy.parseGitHubUrl2.
  destruct (exec shorthandRegex s), (exec fullRepoRegex s); simpl;
    rewrite <-?not_eq_None_Some; naive_solver.
Qed.
