(* ===== verification/Contract.v ===== *)
(** * The contract of a reference parser

    The program has three parsers of a repository reference:
    [parseGitHubUrl] of index.ts and the two of part_001
    ([Parser.Legacy]).  What their callers rely on is the same, and is
    stated here once, as a class: a shorthand reference is read as it
    is written, a result has an owner and a repository, and an input
    without a slash is refused.

    [parseGitHubUrl] and [Legacy.parseGitHubUrl] are instances;
    [Legacy.parseGitHubUrl2], which knows the URL pattern only, is not.
    The lemmas of the section [contract] hold of every instance; the
    command line ([Cli]) takes from them that the reference it prints
    back is read again as it was. *)

From S2P Require Import Prelude JsString Regex RegexSpec Parser.

(** ** The class *)

Class RefParser (parse : jstring → exn js_error repo_ref) : Prop := {
  (** [owner/repo] and [owner/repo#branch] are read as they are
      written *)
  parser_shorthand o rp b :
    token word_char o → token word_char rp → branch_ok b →
    parse (o ++ "/"%char :: rp ++ fragment b)
    = Val (RepoRef (Some o) (Some rp) b None);
  (** a result has an owner and a repository *)
  parser_defined input r :
    parse input = Val r → is_Some (owner r) ∧ is_Some (repo r);
  (** a word without a slash is no reference *)
  parser_no_slash input :
    "/"%char ∉ input → is_val (parse input) = false
}.

(** ** The instances *)

#[global] Instance legacy_parser : RefParser Legacy.parseGitHubUrl.
Proof.
  split; unfold Legacy.parseGitHubUrl.
  - intros o rp b Ho Hr Hb. rewrite shorthand_match by done.
    unfold group. cbn [mr_caps].
    by destruct (caps3_lookup o rp b) as (-> & -> & ->).
  - intros input r.
    destruct (exec shorthandRegex input) eqn:?,
      (exec fullRepoRegex input) eqn:?; intros [= <-];
      split; by eapply group_defined.
  - intros input Hs. by rewrite shorthand_no_slash, full_repo_no_slash.
Qed.

(** An input that is no tree URL is read by [parseGitHubUrl] as the
    earlier parser reads it, so the contract carries over; a tree URL
    has its owner and repository from the first two groups. *)
#[global] Instance current_parser : RefParser parseGitHubUrl.
Proof.
  split.
  - intros o rp b Ho Hr Hb. apply parsers_agree.
    + by apply tree_url_no_match, shorthand_not_https.
    + by apply parser_shorthand.
  - intros input r H.
    destruct (exec treeUrlRegex input) as [res|] eqn:Et.
    + unfold parseGitHubUrl in H. rewrite Et in H. injection H as <-.
      split; by eapply group_defined.
    + by apply parsers_agree, parser_defined in H.
  - intros input Hs.
    assert (exec treeUrlRegex input = None) as Ht.
    { apply tree_url_no_match, (not_elem_startsWith _ _ "/"%char); [done|].
      vm_compute. by repeat (constructor || apply elem_of_list_further). }
    pose proof (parser_no_slash (parse:=Legacy.parseGitHubUrl) input Hs) as Hl.
    destruct (parseGitHubUrl input) as [r|] eqn:E; [|done].
    apply (parsers_agree _ _ Ht) in E. by rewrite E in Hl.
Qed.

(** The parser of URLs only does not read a shorthand. *)
Lemma url_parser_no_contract : ¬ RefParser Legacy.parseGitHubUrl2.
Proof.
  intros H.
  assert (token word_char (str "o") ∧ token word_char (str "r")) as [Ho Hr]
    by (split; apply (bool_decide_unpack _); vm_compute; exact I).
  pose proof (parser_shorthand (parse:=Legacy.parseGitHubUrl2)
                (str "o") (str "r") None Ho Hr I) as Hs.
  vm_compute in Hs. discriminate Hs.
Qed.

(** ** What holds of every parser of the class *)

Section contract.
Context (parse : jstring → exn js_error repo_ref) `{!RefParser parse}.

(** The shorthand of the accepted form, and what the template literal
    [`${owner}/${repo}${branch ? `#${branch}` : ''}`] prints for it. *)
Definition printed (o rp : jstring) (b : option jstring) : jstring :=
  o ++ "/"%char :: rp ++ fragment b.

(** Two parsers of the class agree on every shorthand. *)
Lemma parsers_agree_shorthand parse' `{!RefParser parse'} o rp b :
  token word_char o → token word_char rp → branch_ok b →
  parse (printed o rp b) = parse' (printed o rp b).
Proof. intros. unfold printed. by rewrite !parser_shorthand. Qed.

(** A result never has [undefined] for its owner or repository, so the
    URLs built from them name a repository. *)
Lemma parsed_fields input r :
  parse input = Val r → ∃ o rp, owner r = Some o ∧ repo r = Some rp.
Proof.
  intros [[o Ho] [rp Hr]]%parser_defined. by exists o, rp.
Qed.
End contract.
