(* ===== verification/Path.v ===== *)
(** * Node's [path] module, POSIX flavour

    [downloadFolder] computes every path it hands to the file system
    with [path.join], [path.resolve], [path.basename] and
    [path.dirname].  They are modelled here on strings, after
    lib/path.js of Node: a path is cut at its slashes, the segments are
    normalised ([.] and empty segments dropped, [..] cancelling the
    segment before it) and joined again.

    Theorems: normalisation leaves no [.], [..] or empty segment in an
    absolute path; [join] of an absolute directory and a relative path
    without [..] stays under the directory, and can leave it otherwise;
    [basename] and [dirname] split a normalised path into its last
    segment and its parent. *)

From S2P Require Import Prelude JsString.

(** ** Segments *)

Definition slash : ascii := "/"%char.

(** The segments of a path: the text between its slashes. *)
Fixpoint split_on (c : ascii) (s : jstring) : list jstring :=
  match s with
  | [] => [[]]
  | a :: s' =>
      if bool_decide (a = c) then [] :: split_on c s'
      else match split_on c s' with
           | seg :: segs => (a :: seg) :: segs
           | [] => [[a]]
           end
  end.

(** [segs.join(c)]. *)
Fixpoint join_with (c : ascii) (segs : list jstring) : jstring :=
  match segs with
  | [] => []
  | [seg] => seg
  | seg :: segs' => seg ++ c :: join_with c segs'
  end.

Definition is_dot (seg : jstring) : bool := bool_decide (seg = str ".").
Definition is_dotdot (seg : jstring) : bool := bool_decide (seg = str "..").

(** [normalizeString]: the segments of the result, most recent first in
    [stack].  A [..] removes the segment before it; at the top it is
    kept when [above] (a relative path) and dropped otherwise. *)
Fixpoint norm_segs (above : bool) (stack segs : list jstring)
    : list jstring :=
  match segs with
  | [] => reverse stack
  | seg :: rest =>
      if bool_decide (seg = []) || is_dot seg then norm_segs above stack rest
      else if is_dotdot seg then
        match stack with
        | top :: stack' =>
            if is_dotdot top then
              norm_segs above (if above then seg :: stack else stack) rest
            else norm_segs above stack' rest
        | [] => norm_segs above (if above then [seg] else []) rest
        end
      else norm_segs above (seg :: stack) rest
  end.

Definition normalizeString (path : jstring) (allowAboveRoot : bool)
    : jstring :=
  join_with slash (norm_segs allowAboveRoot [] (split_on slash path)).

(** ** The functions of [path] *)

Definition isAbsolute (path : jstring) : bool := startsWith path [slash].

Definition ends_with_slash (path : jstring) : bool :=
  bool_decide (last path = Some slash).

(** [path.normalize]. *)
Definition normalize (path : jstring) : jstring :=
  match path with
  | [] => str "."
  | _ :: _ =>
      let n := normalizeString path (negb (isAbsolute path)) in
      match n with
      | [] =>
          if isAbsolute path then [slash]
          else if ends_with_slash path then str "./" else str "."
      | _ :: _ =>
          let n' := if ends_with_slash path then n ++ [slash] else n in
          if isAbsolute path then slash :: n' else n'
      end
  end.

(** [path.join]: the non-empty arguments, joined by slashes and
    normalised. *)
Definition join (args : list jstring) : jstring :=
  match filter (λ a, a ≠ []) args with
  | [] => str "."
  | parts => normalize (join_with slash parts)
  end.

(** [path.resolve]: the arguments are taken from the right until one is
    absolute; the working directory comes last. *)
Fixpoint resolve_go (args : list jstring) (resolved : jstring)
    : jstring * bool :=
  match args with
  | [] => (resolved, false)
  | path :: args' =>
      if bool_decide (path = []) then resolve_go args' resolved
      else
        let resolved' := path ++ slash :: resolved in
        if isAbsolute path then (resolved', true)
        else resolve_go args' resolved'
  end.

Definition resolve (cwd : jstring) (args : list jstring) : jstring :=
  let '(resolved, absolute) := resolve_go (reverse args ++ [cwd]) [] in
  let n := normalizeString resolved (negb absolute) in
  if absolute then slash :: n
  else match n with [] => str "." | _ :: _ => n end.

Definition is_slash (c : ascii) : bool := bool_decide (c = slash).

(** [path.basename] without a suffix: the last segment, trailing slashes
    apart. *)
Definition basename (path : jstring) : jstring :=
  reverse (take_while (λ c, negb (is_slash c))
             (drop_while is_slash (reverse path))).

(** [path.dirname]: the path up to the slash before the last segment. *)
Definition dirname (path : jstring) : jstring :=
  match path with
  | [] => str "."
  | c0 :: body =>
      let hasRoot := is_slash c0 in
      let r := drop_while (λ c, negb (is_slash c))
                 (drop_while is_slash (reverse body)) in
      match r with
      | [] => if hasRoot then [slash] else str "."
      | _ :: _ =>
          let e := length r in
          if hasRoot && bool_decide (e = 1) then str "//"
          else take e path
      end
  end.

(** ** How the file system reads a path *)

(** A segment that names a directory entry. *)
Definition clean (seg : jstring) : Prop :=
  seg ≠ [] ∧ seg ≠ str "." ∧ seg ≠ str ".." ∧ slash ∉ seg.

#[global] Instance clean_dec seg : Decision (clean seg).
Proof. unfold clean. apply _. Defined.

(** The absolute path with the given segments. *)
Definition abs_of (segs : list jstring) : jstring :=
  slash :: join_with slash segs.

(** The segments an absolute path resolves to: the empty and [.]
    segments are skipped and [..] goes to the parent (the root is its
    own parent). *)
Definition path_segs (p : jstring) : list jstring :=
  norm_segs false [] (split_on slash p).

(** The segments of a relative path, the empty ones left out. *)
Definition rel_segs (rel : jstring) : list jstring :=
  filter (λ seg, seg ≠ []) (split_on slash rel).

(** A trailing part that is empty or one slash. *)
Definition trailing (ts : jstring) : Prop := ts = [] ∨ ts = [slash].

(** ** Properties of the segments *)

Lemma split_on_nonempty c s : split_on c s ≠ [].
Proof. destruct s as [|a s]; simpl; [done|]. case_bool_decide; [done|]. by destruct (split_on c s). Qed.

Lemma split_on_no_sep c s : c ∉ s → split_on c s = [s].
Proof.
  induction s as [|a s IH]; intros Hc; simpl; [done|].
  rewrite bool_decide_false by (intros ->; apply Hc; by left).
  rewrite IH; [done|]. intros ?. apply Hc. by right.
Qed.

Lemma split_on_app c a b :
  split_on c (a ++ c :: b) = split_on c a ++ split_on c b.
Proof.
  induction a as [|x a IH]; simpl.
  - by rewrite bool_decide_true.
  - case_bool_decide; [by rewrite IH|]. rewrite IH.
    pose proof (split_on_nonempty c a). by destruct (split_on c a).
Qed.

Lemma split_on_cons_sep c s : split_on c (c :: s) = [] :: split_on c s.
Proof. simpl. by rewrite bool_decide_true. Qed.

(** No segment contains the separator. *)
Lemma split_on_Forall c s : Forall (λ seg, c ∉ seg) (split_on c s).
Proof.
  induction s as [|a s IH]; simpl.
  - constructor; [|done]. by intros ?%elem_of_nil.
  - case_bool_decide as Ha.
    + constructor; [|done]. by intros ?%elem_of_nil.
    + destruct (split_on c s) as [|seg segs]; inv IH.
      * constructor; [|done]. by intros [->|?%elem_of_nil]%elem_of_cons.
      * constructor; [|done]. by intros [->|?]%elem_of_cons.
Qed.

Lemma split_on_join c segs :
  segs ≠ [] → Forall (λ seg, c ∉ seg) segs →
  split_on c (join_with c segs) = segs.
Proof.
  intros Hne Hs. induction Hs as [|seg segs Hseg Hs IH]; [done|].
  destruct segs as [|seg' segs]; simpl.
  - by apply split_on_no_sep.
  - change (split_on c (seg ++ c :: join_with c (seg' :: segs)) = seg :: seg' :: segs).
    by rewrite split_on_app, split_on_no_sep, IH.
Qed.

Lemma clean_not_special seg :
  clean seg → bool_decide (seg = []) || is_dot seg = false ∧ is_dotdot seg = false.
Proof.
  intros (H1 & H2 & H3 & _). unfold is_dot, is_dotdot.
  by rewrite !bool_decide_false.
Qed.

Section norm_segs.
Context (above : bool).
Implicit Types stack segs : list jstring.

Lemma norm_segs_empty_seg stack segs :
  norm_segs above stack ([] :: segs) = norm_segs above stack segs.
Proof. done. Qed.

Lemma norm_segs_app stack segs1 segs2 :
  norm_segs above stack (segs1 ++ segs2) =
  norm_segs above (reverse (norm_segs above stack segs1)) segs2.
Proof.
  revert stack. induction segs1 as [|seg segs1 IH]; intros stack; simpl.
  - by rewrite reverse_involutive.
  - repeat case_match; apply IH.
Qed.

(** Clean segments are kept as they are. *)
Lemma norm_segs_clean stack segs :
  Forall clean segs → norm_segs above stack segs = reverse stack ++ segs.
Proof.
  intros Hs. revert stack. induction Hs as [|seg segs Hseg Hs IH]; intros stack; simpl.
  - by rewrite app_nil_r.
  - destruct (clean_not_special _ Hseg) as [-> ->].
    by rewrite IH, reverse_cons, <-(assoc (++)).
Qed.

(** Without [..] the segments already there stay. *)
Lemma norm_segs_prefix stack segs :
  Forall (λ seg, seg ≠ str "..") segs →
  reverse stack `prefix_of` norm_segs above stack segs.
Proof.
  intros Hs. revert stack. induction Hs as [|seg segs Hseg Hs IH]; intros stack; simpl.
  - done.
  - destruct (_ || _); [done|].
    unfold is_dotdot. rewrite bool_decide_false by done.
    etrans; [|apply IH]. rewrite reverse_cons. by apply prefix_app_r.
Qed.
End norm_segs.

(** Empty segments are skipped and clean ones kept. *)
Lemma norm_segs_filter above stack segs :
  Forall clean (filter (λ seg, seg ≠ []) segs) →
  norm_segs above stack segs = reverse stack ++ filter (λ seg, seg ≠ []) segs.
Proof.
  revert stack; induction segs as [|seg segs IH]; intros stack; simpl.
  - intros _. by rewrite app_nil_r.
  - rewrite filter_cons. case_decide as Hseg.
    + intros [Hc Hs]%Forall_cons. destruct (clean_not_special _ Hc) as [-> ->].
      by rewrite IH, reverse_cons, <-(assoc (++)).
    + intros Hs. subst seg. by apply IH.
Qed.

(** What [normalizeString] leaves of an absolute path is clean. *)
Lemma norm_segs_false_clean stack segs :
  Forall clean stack → Forall (λ seg, slash ∉ seg) segs →
  Forall clean (norm_segs false stack segs).
Proof.
  intros Hst Hs. revert stack Hst.
  induction Hs as [|seg segs Hseg Hs IH]; intros stack Hst; simpl.
  - by apply Forall_reverse.
  - destruct (bool_decide (seg = [])) eqn:E1; simpl; [by apply IH|].
    destruct (is_dot seg) eqn:E2; simpl; [by apply IH|].
    destruct (is_dotdot seg) eqn:E3.
    + destruct stack as [|top stack]; [by apply IH|].
      destruct (is_dotdot top); apply IH; [done|by inv Hst].
    + apply IH. constructor; [|done].
      apply bool_decide_eq_false in E1, E2, E3. done.
Qed.

Lemma path_segs_clean p : Forall clean (path_segs p).
Proof. apply norm_segs_false_clean; [done|apply split_on_Forall]. Qed.

Lemma split_on_abs_of segs :
  Forall clean segs →
  split_on slash (abs_of segs) = [] :: (if segs is [] then [[]] else segs).
Proof.
  intros Hs. unfold abs_of. rewrite split_on_cons_sep. f_equal.
  destruct segs as [|seg segs]; [done|]. apply split_on_join; [done|].
  eapply Forall_impl; [done|]. by intros ? (_ & _ & _ & ?).
Qed.

(** The file system reads [abs_of segs] as [segs], with or without a
    trailing slash. *)
Lemma path_segs_abs_of segs : Forall clean segs → path_segs (abs_of segs) = segs.
Proof.
  intros Hs. unfold path_segs. rewrite split_on_abs_of by done.
  destruct segs as [|seg segs]; [done|].
  by rewrite norm_segs_empty_seg, norm_segs_clean.
Qed.

Lemma path_segs_app_slash p rel :
  path_segs (p ++ slash :: rel) =
  norm_segs false (reverse (path_segs p)) (split_on slash rel).
Proof. unfold path_segs. by rewrite split_on_app, norm_segs_app. Qed.

Lemma path_segs_trailing_slash p : path_segs (p ++ [slash]) = path_segs p.
Proof.
  rewrite path_segs_app_slash. cbn [split_on].
  by rewrite norm_segs_empty_seg; cbn [norm_segs]; rewrite reverse_involutive.
Qed.

(** ** [normalize], [join] and [resolve] *)

Lemma join_with_nil_inv segs :
  Forall clean segs → join_with slash segs = [] → segs = [].
Proof.
  intros Hs. destruct Hs as [|seg segs (Hne & _) Hs]; [done|].
  destruct segs; simpl; [done|]. by destruct seg.
Qed.

Lemma isAbsolute_cons c p : isAbsolute (c :: p) = is_slash c.
Proof.
  unfold isAbsolute, is_slash. simpl. rewrite andb_true_r.
  apply bool_decide_ext. naive_solver.
Qed.

Lemma isAbsolute_app p q : p ≠ [] → isAbsolute (p ++ q) = isAbsolute p.
Proof. destruct p; [done|]. intros _. simpl. by rewrite !isAbsolute_cons. Qed.

Lemma isAbsolute_abs_of segs : isAbsolute (abs_of segs) = true.
Proof. done. Qed.

(** An absolute path normalises to the segments the file system reads
    it as, with a trailing slash when it had one and is not the root. *)
Lemma normalize_abs p :
  isAbsolute p = true →
  normalize p =
  abs_of (path_segs p) ++
  (if ends_with_slash p && bool_decide (path_segs p ≠ []) then [slash] else []).
Proof.
  intros Ha. destruct p as [|c p]; [done|]. unfold normalize. rewrite Ha.
  unfold normalizeString. cbn [negb]. fold (path_segs (c :: p)).
  pose proof (path_segs_clean (c :: p)) as Hc.
  destruct (join_with slash (path_segs (c :: p))) as [|a n] eqn:Hn.
  - apply join_with_nil_inv in Hn as ->; [|done].
    rewrite andb_false_r. by rewrite app_nil_r.
  - assert (path_segs (c :: p) ≠ []) as Hne by (by intros Hs; rewrite Hs in Hn).
    rewrite (bool_decide_true _ Hne), andb_true_r. unfold abs_of. rewrite Hn.
    by destruct (ends_with_slash _); simpl; rewrite ?app_nil_r.
Qed.

(** Normalising does not change what the file system reads. *)
Lemma path_segs_normalize p :
  isAbsolute p = true → path_segs (normalize p) = path_segs p.
Proof.
  intros Ha. rewrite normalize_abs by done.
  destruct (_ && _); rewrite ?app_nil_r, ?path_segs_trailing_slash;
    apply path_segs_abs_of, path_segs_clean.
Qed.

(** [normalize] and [join] never return the empty string. *)
Lemma normalize_nonempty path : normalize path ≠ [].
Proof.
  unfold normalize. destruct path as [|c path]; [done|].
  destruct (normalizeString _ _) as [|d n];
    repeat (destruct (isAbsolute _) || destruct (ends_with_slash _)); done.
Qed.

Lemma join_nonempty args : join args ≠ [].
Proof.
  unfold join. destruct (filter _ args); [done|apply normalize_nonempty].
Qed.

Lemma join_pair p rel :
  p ≠ [] →
  join [p; rel] = normalize (if decide (rel = []) then p else p ++ slash :: rel).
Proof.
  intros Hp. unfold join. rewrite !filter_cons, filter_nil.
  rewrite decide_True by done. destruct rel as [|c rel]; [by destruct p|].
  rewrite decide_True by done. rewrite decide_False by done.
  destruct p as [|a p]; [done|]. done.
Qed.

(** The path [path.join(dir, rel)] of an absolute directory [dir]
    is read by the file system as the segments of [dir] followed by
    those of [rel], each [..] of [rel] cancelling the segment before
    it. *)
Lemma path_segs_join p rel :
  isAbsolute p = true →
  path_segs (join [p; rel]) =
  norm_segs false (reverse (path_segs p)) (split_on slash rel).
Proof.
  intros Ha. assert (p ≠ []) as Hp by (by intros ->).
  rewrite join_pair by done. case_decide as Hrel.
  - subst rel. rewrite path_segs_normalize by done. cbn [split_on].
    by rewrite norm_segs_empty_seg; cbn [norm_segs]; rewrite reverse_involutive.
  - rewrite path_segs_normalize by (by rewrite isAbsolute_app).
    apply path_segs_app_slash.
Qed.

(** When the relative path has no [..] segment, the joined path
    stays under the directory. *)
Lemma join_stays_under p rel :
  isAbsolute p = true →
  Forall (λ seg, seg ≠ str "..") (split_on slash rel) →
  path_segs p `prefix_of` path_segs (join [p; rel]).
Proof.
  intros Ha Hrel. rewrite path_segs_join by done.
  rewrite <-(reverse_involutive (path_segs p)) at 1.
  by apply norm_segs_prefix.
Qed.

(** With [..] segments the joined path can leave the directory: the
    entry path [../../evil] joined to [/home/u/out] is [/home/evil]. *)
Lemma join_escapes :
  path_segs (join [str "/home/u/out"; str "../../evil"]) =
    [str "home"; str "evil"] ∧
  ¬ path_segs (str "/home/u/out") `prefix_of`
    path_segs (join [str "/home/u/out"; str "../../evil"]).
Proof.
  split; [by vm_compute|]. apply (bool_decide_unpack _). vm_compute. exact I.
Qed.

(** [path.resolve] from an absolute working directory gives the
    absolute path of clean segments that the file system reads. *)
Lemma resolve_go_abs args cwd acc :
  isAbsolute cwd = true →
  ∃ resolved, resolve_go (args ++ [cwd]) acc = (resolved, true).
Proof.
  intros Hc. revert acc. induction args as [|a args IH]; intros acc; simpl.
  - rewrite bool_decide_false by (by intros ->). rewrite Hc. eauto.
  - case_bool_decide; [apply IH|]. destruct (isAbsolute a); [eauto|apply IH].
Qed.

Lemma resolve_abs cwd args :
  isAbsolute cwd = true →
  resolve cwd args = abs_of (path_segs (resolve cwd args)) ∧
  Forall clean (path_segs (resolve cwd args)).
Proof.
  intros Hc. split; [|apply path_segs_clean]. unfold resolve.
  destruct (resolve_go_abs (reverse args) cwd [] Hc) as [r ->].
  unfold normalizeString. cbn [negb]. fold (path_segs r). fold (abs_of (path_segs r)).
  by rewrite path_segs_abs_of by apply path_segs_clean.
Qed.

(** [path.resolve(cwd, x)] as index.ts calls it. *)
Lemma path_segs_resolve cwd x :
  isAbsolute cwd = true →
  path_segs (resolve cwd [cwd; x]) =
  if bool_decide (x = []) then path_segs cwd
  else if isAbsolute x then path_segs x
  else norm_segs false (reverse (path_segs cwd)) (split_on slash x).
Proof.
  intros Hc. assert (cwd ≠ []) as Hne by (by intros ->).
  unfold resolve. cbn [reverse rev_append app resolve_go].
  case_bool_decide as Hx.
  - rewrite bool_decide_false, Hc by done. unfold normalizeString. cbn [negb].
    fold (path_segs (cwd ++ [slash])). fold (abs_of (path_segs (cwd ++ [slash]))).
    rewrite path_segs_abs_of by apply path_segs_clean.
    apply path_segs_trailing_slash.
  - destruct (isAbsolute x) eqn:Hax.
    + unfold normalizeString. cbn [negb].
      fold (path_segs (x ++ [slash])). fold (abs_of (path_segs (x ++ [slash]))).
      rewrite path_segs_abs_of by apply path_segs_clean.
      apply path_segs_trailing_slash.
    + rewrite bool_decide_false, Hc by done. unfold normalizeString. cbn [negb].
      fold (path_segs (cwd ++ slash :: x ++ [slash])).
      fold (abs_of (path_segs (cwd ++ slash :: x ++ [slash]))).
      rewrite path_segs_abs_of by apply path_segs_clean.
      rewrite (app_comm_cons x), (assoc (++)), path_segs_trailing_slash.
      apply path_segs_app_slash.
Qed.

(** ** [dirname] and [basename] *)

Lemma join_with_snoc c segs seg :
  segs ≠ [] → join_with c (segs ++ [seg]) = join_with c segs ++ c :: seg.
Proof.
  induction segs as [|s segs IH]; [done|]. intros _.
  destruct segs as [|s' segs]; [done|].
  change (s ++ c :: join_with c ((s' :: segs) ++ [seg]) =
          (s ++ c :: join_with c (s' :: segs)) ++ c :: seg).
  by rewrite IH, <-(assoc (++)).
Qed.

Lemma clean_no_slash seg : clean seg → Forall (λ c, is_slash c = false) seg.
Proof.
  intros (_ & _ & _ & Hs). apply Forall_forall. intros c Hc.
  unfold is_slash. apply bool_decide_eq_false. by intros ->.
Qed.

Lemma no_slash_negb (s : jstring) :
  Forall (λ c, is_slash c = false) s →
  Forall (λ c, negb (is_slash c) = true) s.
Proof. intros H. eapply Forall_impl; [done|]. by intros c ->. Qed.

Lemma drop_while_trailing ts l :
  trailing ts → drop_while is_slash (reverse ts ++ l) = drop_while is_slash l.
Proof.
  intros [->| ->]; [done|]. by apply (drop_while_app is_slash [slash]); repeat constructor.
Qed.

(** The scan of [dirname] from the end of the path: the trailing
    slashes, then the last segment, up to the slash before it. *)
Lemma dirname_scan seg ts rest :
  clean seg → trailing ts →
  drop_while (λ c, negb (is_slash c))
    (drop_while is_slash (reverse ts ++ reverse seg ++ rest)) =
  drop_while (λ c, negb (is_slash c)) rest.
Proof.
  intros Hseg Hts. pose proof (clean_no_slash _ Hseg) as Hns.
  rewrite drop_while_trailing by done.
  assert (drop_while is_slash (reverse seg ++ rest) = reverse seg ++ rest) as ->.
  { destruct Hseg as (Hne & _). destruct (reverse seg) as [|a rs] eqn:E.
    - by apply (f_equal reverse) in E; rewrite reverse_involutive in E.
    - apply Forall_reverse in Hns. rewrite E in Hns. inv Hns.
      unfold drop_while. simpl. by rewrite H1. }
  by apply drop_while_app, no_slash_negb, Forall_reverse.
Qed.

(** The directory of a normalised absolute path is its parent. *)
Lemma dirname_abs_of segs seg ts :
  Forall clean segs → clean seg → trailing ts →
  dirname (abs_of (segs ++ [seg]) ++ ts) = abs_of segs.
Proof.
  intros Hsegs Hseg Hts.
  unfold abs_of, dirname. cbn [app]. change (is_slash slash) with true. cbn [andb].
  destruct (decide (segs = [])) as [->|Hne].
  - cbn [app join_with]. rewrite reverse_app.
    rewrite <-(app_nil_r (reverse seg)), dirname_scan by done. done.
  - rewrite join_with_snoc by done.
    replace (reverse ((join_with slash segs ++ slash :: seg) ++ ts))
      with (reverse ts ++ reverse seg ++ slash :: reverse (join_with slash segs))
      by (by rewrite !reverse_app, reverse_cons, <-!(assoc (++))).
    rewrite dirname_scan by done.
    replace (drop_while (λ c, negb (is_slash c))
               (slash :: reverse (join_with slash segs)))
      with (slash :: reverse (join_with slash segs)) by done.
    cbn [length]. rewrite length_reverse.
    assert (join_with slash segs ≠ []) as Hj
      by (intros Hj; by apply join_with_nil_inv in Hj).
    rewrite bool_decide_false by (destruct (join_with slash segs); simpl; [done|lia]).
    cbn [take]. by rewrite <-(assoc (++)), take_app_length.
Qed.

(** The base name holds no slash. *)
Lemma basename_no_slash p : slash ∉ basename p.
Proof.
  unfold basename. rewrite elem_of_reverse. intros Hin.
  pose proof (take_while_Forall (λ c, negb (is_slash c))
                (drop_while is_slash (reverse p))) as H.
  eapply Forall_forall in H; [|done]. done.
Qed.

(** The base name of a relative path is its last segment. *)
Lemma basename_join segs seg ts :
  clean seg → trailing ts →
  basename (join_with slash (segs ++ [seg]) ++ ts) = seg.
Proof.
  intros Hseg Hts. pose proof (clean_no_slash _ Hseg) as Hns.
  assert (∃ pre, join_with slash (segs ++ [seg]) = pre ++ seg ∧
                 (pre = [] ∨ last pre = Some slash)) as (pre & -> & Hpre).
  { destruct (decide (segs = [])) as [->|Hne]; [by exists []; auto|].
    rewrite join_with_snoc by done. exists (join_with slash segs ++ [slash]).
    rewrite <-(assoc (++)). split; [done|]. right. by rewrite last_snoc. }
  unfold basename. rewrite !reverse_app.
  rewrite drop_while_trailing by done.
  assert (drop_while is_slash (reverse seg ++ reverse pre) =
          reverse seg ++ reverse pre) as ->.
  { destruct Hseg as (Hne & _). destruct (reverse seg) as [|a rs] eqn:E.
    - by apply (f_equal reverse) in E; rewrite reverse_involutive in E.
    - apply Forall_reverse in Hns. rewrite E in Hns. inv Hns.
      unfold drop_while. simpl. by rewrite H1. }
  rewrite take_while_app by by apply no_slash_negb, Forall_reverse.
  assert (take_while (λ c, negb (is_slash c)) (reverse pre) = []) as ->.
  { destruct Hpre as [->|Hl]; [done|].
    destruct pre as [|c pre _] using rev_ind; [done|].
    rewrite last_snoc in Hl. injection Hl as ->.
    by rewrite reverse_app. }
  by rewrite app_nil_r, reverse_involutive.
Qed.

(** ** Joining under an absolute directory *)

Section under_absolute.
Context (p : jstring) (Ha : isAbsolute p = true).

(** The joined path is the absolute path of its segments, with one
    trailing slash at most. *)
Lemma join_normal rel :
  ∃ ts, trailing ts ∧
        join [p; rel] = abs_of (path_segs (join [p; rel])) ++ ts.
Proof.
  assert (p ≠ []) as Hp by (by intros ->).
  rewrite join_pair by done.
  set (q := if decide (rel = []) then p else p ++ slash :: rel).
  assert (isAbsolute q = true) as Hq.
  { unfold q. case_decide; [done|]. by rewrite isAbsolute_app. }
  rewrite path_segs_normalize, normalize_abs by done.
  destruct (_ && _); eexists; (split; [|done]); [by right|by left].
Qed.

Lemma isAbsolute_join rel : isAbsolute (join [p; rel]) = true.
Proof. by destruct (join_normal rel) as (ts & _ & ->). Qed.

(** [path.dirname] of the joined path is read as the parent. *)
Lemma path_segs_dirname_join rel :
  path_segs (join [p; rel]) ≠ [] →
  dirname (join [p; rel]) = abs_of (removelast (path_segs (join [p; rel]))).
Proof.
  intros Hne. destruct (join_normal rel) as (ts & Hts & Hj).
  pose proof (path_segs_clean (join [p; rel])) as Hc.
  rewrite Hj at 1. destruct (exists_last Hne) as (segs & seg & Hs).
  rewrite Hs in Hc |- *. apply Forall_app in Hc as [Hc1 Hc2]. inv Hc2.
  by rewrite removelast_last, dirname_abs_of.
Qed.

Lemma dirname_join_segs rel :
  isAbsolute (dirname (join [p; rel])) = true ∧
  path_segs (dirname (join [p; rel])) = removelast (path_segs (join [p; rel])).
Proof.
  destruct (decide (path_segs (join [p; rel]) = [])) as [He|Hne].
  - destruct (join_normal rel) as (ts & Hts & Hj). rewrite He in Hj |- *.
    rewrite Hj. by destruct Hts as [-> | ->].
  - rewrite path_segs_dirname_join by done. split; [done|].
    apply path_segs_abs_of.
    pose proof (path_segs_clean (join [p; rel])) as Hc.
    destruct (exists_last Hne) as (segs & seg & Hs). rewrite Hs in Hc |- *.
    rewrite removelast_last. by apply Forall_app in Hc as [? _].
Qed.

(** Without [..] in [rel] the joined path is [p] or below it. *)
Lemma join_under rel :
  Forall (λ seg, seg ≠ str "..") (split_on slash rel) →
  path_segs p `prefix_of` path_segs (join [p; rel]).
Proof. by apply join_stays_under. Qed.
End under_absolute.

(** ** Theorems *)

(** Joining a relative path whose segments are clean (no [.],
    no [..]; empty segments are skipped) to an absolute directory gives
    an absolute path that the file system reads as the segments of the
    directory followed by those of the relative path. *)
Lemma join_clean p rel :
  isAbsolute p = true → Forall clean (rel_segs rel) →
  isAbsolute (join [p; rel]) = true ∧
  path_segs (join [p; rel]) = path_segs p ++ rel_segs rel.
Proof.
  intros Ha Hc. split; [by apply isAbsolute_join|].
  rewrite path_segs_join, norm_segs_filter by done.
  by rewrite reverse_involutive.
Qed.

Lemma join_clean_witness :
  path_segs (join [str "/home/u/out"; str "sub//b.txt"])
  = [str "home"; str "u"; str "out"; str "sub"; str "b.txt"].
Proof.
  destruct (join_clean (str "/home/u/out") (str "sub//b.txt")) as [_ ->];
    [reflexivity| |vm_compute; reflexivity].
  apply (bool_decide_unpack _). vm_compute. exact I.
Defined.

(** [path.resolve] from an absolute working directory returns
    a normal form: an absolute path without empty, [.] or [..]
    segments and without a trailing slash, which is the path of the
    segments the file system reads it as.  For the two arguments
    index.ts passes, these segments are those of the working directory
    when the second argument is empty, those of the second argument
    when it is absolute, and otherwise those of the working directory
    continued by the second argument. *)
Lemma resolve_normal cwd x :
  isAbsolute cwd = true →
  resolve cwd [cwd; x] = abs_of (path_segs (resolve cwd [cwd; x])) ∧
  Forall clean (path_segs (resolve cwd [cwd; x])) ∧
  path_segs (resolve cwd [cwd; x]) =
    if bool_decide (x = []) then path_segs cwd
    else if isAbsolute x then path_segs x
    else norm_segs false (reverse (path_segs cwd)) (split_on slash x).
Proof.
  intros Hc. destruct (resolve_abs cwd [cwd; x] Hc) as [H1 H2].
  split_and!; [done..|]. by apply path_segs_resolve.
Qed.

Lemma resolve_normal_witness :
  resolve (str "/home/u") [str "/home/u"; str "./my-folder/"]
  = str "/home/u/my-folder".
Proof.
  destruct (resolve_normal (str "/home/u") (str "./my-folder/"))
    as (H1 & _ & H3); [reflexivity|].
  rewrite H1, H3. vm_compute. reflexivity.
Defined.

(** [path.basename] of a path that ends in a clean segment,
    with or without a slash after it, is that segment; [path.dirname]
    of an absolute path of clean segments is the path of all segments
    but the last. *)
Lemma basename_dirname segs seg ts :
  Forall clean segs → clean seg → trailing ts →
  basename (join_with slash (segs ++ [seg]) ++ ts) = seg ∧
  basename (abs_of (segs ++ [seg]) ++ ts) = seg ∧
  dirname (abs_of (segs ++ [seg]) ++ ts) = abs_of segs.
Proof.
  intros Hs Hseg Hts. split_and!.
  - by apply basename_join.
  - unfold abs_of. destruct segs as [|a l].
    + exact (basename_join [[]] seg ts Hseg Hts).
    + exact (basename_join ([] :: a :: l) seg ts Hseg Hts).
  - by apply dirname_abs_of.
Qed.

Lemma basename_dirname_witness :
  basename (str "src/components/") = str "components" ∧
  dirname (str "/home/u/out/a.txt") = str "/home/u/out".
Proof.
  destruct (basename_dirname [str "src"] (str "components") [slash])
    as (H1 & _ & _); [apply (bool_decide_unpack _); vm_compute; exact I..|
                      by right|].
  destruct (basename_dirname [str "home"; str "u"; str "out"] (str "a.txt") [])
    as (_ & _ & H2); [apply (bool_decide_unpack _); vm_compute; exact I..|
                      by left|].
  split; [exact H1|exact H2].
Defined.
