(* ===== verification/Fs.v ===== *)
(** * The file system

    The calls of [fs-extra] that [downloadFolder] makes: [stat],
    [readdir], [ensureDir], [createWriteStream] with the entry piped
    into it, and [remove].  The file system is a finite map from
    absolute paths, as lists of segments, to nodes; the root is a
    directory that is always there.  A path string is read as
    [Path.path_segs] reads it, relative to the working directory when it
    is not absolute.  A call returns a value or throws the system error
    Node would raise ([ENOENT], [ENOTDIR], [EEXIST], [EISDIR]);
    permissions, links and short writes are not modelled.

    Theorems: the operations keep the tree well formed (every entry has
    a directory as parent); [ensureDir] is idempotent, creates exactly
    the missing ancestors and fails only on a file in the way;
    a write changes one path; an operation on a path leaves the entries
    that are not under it alone. *)

From S2P Require Import Prelude JsString Path.

(** ** State *)

Inductive node : Type :=
  | File (content : jstring)
  | Dir.

#[global] Instance node_eq_dec : EqDecision node.
Proof. solve_decision. Defined.

(** The tree: the nodes below the root, by their segments. *)
Abbreviation tree := (gmap (list jstring) node).

Definition node_at (t : tree) (p : list jstring) : option node :=
  match p with
  | [] => Some Dir
  | _ :: _ => t !! p
  end.

Definition is_file (n : node) : bool :=
  match n with File _ => true | Dir => false end.

(** ** Errors *)

Inductive errno : Type := ENOENT | ENOTDIR | EEXIST | EISDIR.

#[global] Instance errno_eq_dec : EqDecision errno.
Proof. solve_decision. Defined.

Definition errno_code (e : errno) : jstring :=
  match e with
  | ENOENT => str "ENOENT"
  | ENOTDIR => str "ENOTDIR"
  | EEXIST => str "EEXIST"
  | EISDIR => str "EISDIR"
  end.

Definition errno_text (e : errno) : jstring :=
  match e with
  | ENOENT => str "no such file or directory"
  | ENOTDIR => str "not a directory"
  | EEXIST => str "file already exists"
  | EISDIR => str "illegal operation on a directory"
  end.

(** The error object of a failed system call: its [code] and the
    message [CODE: text, syscall 'path']. *)
Definition sys_error (e : errno) (syscall path : jstring) : js_error :=
  JsError (Some (errno_code e))
    (errno_code e ++ str ": " ++ errno_text e ++ str ", " ++ syscall ++
     str " '" ++ path ++ str "'").

Definition lift_errno {A} (syscall path : jstring) (c : exn errno A)
    : exn js_error A :=
  match c with
  | Val a => Val a
  | Throw e => Throw (sys_error e syscall path)
  end.

(** ** Path resolution *)

(** The node that [rest] leads to from the directory [pre]. *)
Fixpoint resolve_node (t : tree) (pre rest : list jstring) : exn errno node :=
  match rest with
  | [] => Val Dir
  | seg :: rest' =>
      match t !! (pre ++ [seg]) with
      | None => Throw ENOENT
      | Some (File c) =>
          match rest' with
          | [] => Val (File c)
          | _ :: _ => Throw ENOTDIR
          end
      | Some Dir => resolve_node t (pre ++ [seg]) rest'
      end
  end.

Definition lookup_path (t : tree) (segs : list jstring) : exn errno node :=
  resolve_node t [] segs.

(** [mkdir -p]: every missing directory on the way is created. *)
Fixpoint mkdirs (t : tree) (pre rest : list jstring) : exn errno tree :=
  match rest with
  | [] => Val t
  | seg :: rest' =>
      match t !! (pre ++ [seg]) with
      | Some Dir => mkdirs t (pre ++ [seg]) rest'
      | Some (File _) =>
          Throw (match rest' with [] => EEXIST | _ :: _ => ENOTDIR end)
      | None => mkdirs (<[pre ++ [seg] := Dir]> t) (pre ++ [seg]) rest'
      end
  end.

(** [open(path, 'w')] followed by the write of [content]. *)
Definition write_node (t : tree) (segs : list jstring) (content : jstring)
    : exn errno tree :=
  match segs with
  | [] => Throw EISDIR
  | _ :: _ =>
      match lookup_path t (removelast segs) with
      | Throw e => Throw e
      | Val (File _) => Throw ENOTDIR
      | Val Dir =>
          match t !! segs with
          | Some Dir => Throw EISDIR
          | _ => Val (<[segs := File content]> t)
          end
      end
  end.

(** The names in the directory [dir]. *)
Definition child_name (dir k : list jstring) : option jstring :=
  if bool_decide (removelast k = dir) then last k else None.

Definition children (t : tree) (dir : list jstring) : list jstring :=
  omap (λ kn, child_name dir kn.1) (map_to_list t).

(** [rm -rf]: the node and everything below it. *)
Definition remove_tree (t : tree) (segs : list jstring) : tree :=
  filter (λ kn, ¬ segs `prefix_of` kn.1) t.

(** ** The calls of [fs-extra] *)

Section calls.
Context (cwd : jstring).

(** The segments of a path string, relative to [cwd] when it is not
    absolute. *)
Definition fs_segs (path : jstring) : list jstring :=
  path_segs (if isAbsolute path then path else cwd ++ slash :: path).

(** [fs.stat(path)]: the node, of which the code reads [isFile()]. *)
Definition stat (t : tree) (path : jstring) : exn js_error node :=
  lift_errno (str "stat") path (lookup_path t (fs_segs path)).

(** [fs.readdir(path)]. *)
Definition readdir (t : tree) (path : jstring) : exn js_error (list jstring) :=
  lift_errno (str "scandir") path
    (match lookup_path t (fs_segs path) with
     | Throw e => Throw e
     | Val (File _) => Throw ENOTDIR
     | Val Dir => Val (children t (fs_segs path))
     end).

(** [fs.ensureDir(path)]. *)
Definition ensureDir (t : tree) (path : jstring) : exn js_error tree :=
  lift_errno (str "mkdir") path (mkdirs t [] (fs_segs path)).

(** [entry.pipe(fs.createWriteStream(path))], awaited until [finish] or
    [error]. *)
Definition writeStream (t : tree) (path content : jstring)
    : exn js_error tree :=
  lift_errno (str "open") path (write_node t (fs_segs path) content).

(** [fs.remove(path)], which does not fail on a missing path. *)
Definition remove (t : tree) (path : jstring) : tree :=
  remove_tree t (fs_segs path).
End calls.

(** ** Specification vocabulary *)

(** A tree is well formed when every entry has a name and lies in a
    directory. *)
Definition wf (t : tree) : Prop :=
  map_Forall (λ p _, p ≠ [] ∧ node_at t (removelast p) = Some Dir) t.

#[global] Instance wf_dec t : Decision (wf t).
Proof. unfold wf. apply _. Defined.

(** The directories on the way from [pre] down to [pre ++ rest]. *)
Definition dirs_of (pre rest : list jstring) : tree :=
  list_to_map ((λ k, (pre ++ take k rest, Dir)) <$> seq 1 (length rest)).

(** [p] is [q] or lies below it. *)
Definition under (q p : list jstring) : Prop := q `prefix_of` p.

(** No file stands where [mkdirs] needs a directory. *)
Definition no_file_on (t : tree) (pre rest : list jstring) : Prop :=
  ∀ k c, 1 ≤ k ≤ length rest → t !! (pre ++ take k rest) ≠ Some (File c).

(** The tree [t] is well formed, has the directory [out], and differs
    from [t0] only at [out] and below. *)
Definition confined (out : list jstring) (t0 t : tree) : Prop :=
  wf t ∧ node_at t out = Some Dir ∧ ∀ p, ¬ under out p → t !! p = t0 !! p.

(** ** Properties *)

Lemma node_at_snoc (t : tree) p s : node_at t (p ++ [s]) = t !! (p ++ [s]).
Proof. by destruct p. Qed.

Lemma node_at_lookup (t : tree) p n :
  t !! p = Some n → p ≠ [] → node_at t p = Some n.
Proof. by destruct p. Qed.

Lemma wf_empty : wf ∅.
Proof. apply map_Forall_empty. Qed.

Lemma wf_snoc t p s n :
  wf t → t !! (p ++ [s]) = Some n → node_at t p = Some Dir.
Proof.
  intros Hwf H. destruct (Hwf _ _ H) as [_ Hd].
  by rewrite removelast_last in Hd.
Qed.

Lemma wf_not_root t n : wf t → t !! [] ≠ Some n.
Proof. intros Hwf H. by destruct (Hwf _ _ H). Qed.

(** Adding a node inside a directory keeps the tree well formed, when
    a file is not put where a directory with entries was. *)
Lemma wf_insert t p s n :
  wf t → node_at t p = Some Dir →
  (n = Dir ∨ ∀ q m, t !! q = Some m → removelast q ≠ p ++ [s]) →
  wf (<[p ++ [s] := n]> t).
Proof.
  intros Hwf Hp Hn q m Hq. split.
  - destruct (decide (q = p ++ [s])) as [->|Hne]; [by destruct p|].
    rewrite lookup_insert_ne in Hq by done. by destruct (Hwf _ _ Hq).
  - assert (node_at t (removelast q) = Some Dir) as Hd.
    { destruct (decide (q = p ++ [s])) as [->|Hne];
        [by rewrite removelast_last|].
      rewrite lookup_insert_ne in Hq by done. by destruct (Hwf _ _ Hq). }
    destruct (removelast q) as [|a r] eqn:E; [done|]. cbn [node_at] in *.
    destruct (decide (a :: r = p ++ [s])) as [Heq|Hne];
      [|by rewrite lookup_insert_ne].
    rewrite Heq, lookup_insert_eq. destruct Hn as [->|Hn]; [done|].
    destruct (decide (q = p ++ [s])) as [->|Hne].
    + rewrite removelast_last in E. subst p.
      apply (f_equal length) in Heq. rewrite length_app in Heq. simpl in Heq. lia.
    + rewrite lookup_insert_ne in Hq by done. destruct (Hn _ _ Hq). congruence.
Qed.

(** *** [mkdirs] *)

Lemma dirs_of_nil pre : dirs_of pre [] = ∅.
Proof. done. Qed.

Lemma dirs_of_cons pre seg rest :
  dirs_of pre (seg :: rest) = <[pre ++ [seg] := Dir]> (dirs_of (pre ++ [seg]) rest).
Proof.
  unfold dirs_of. cbn [length seq]. rewrite <-fmap_S_seq, fmap_cons.
  rewrite <-list_fmap_compose, list_to_map_cons. cbn [fst snd take].
  rewrite take_0. do 2 f_equal.
  apply list_fmap_ext. intros _ k _. simpl. by rewrite <-app_assoc.
Qed.

Lemma dirs_of_lookup pre rest p n :
  dirs_of pre rest !! p = Some n ↔
  n = Dir ∧ ∃ k, 1 ≤ k ≤ length rest ∧ p = pre ++ take k rest.
Proof.
  revert pre; induction rest as [|seg rest IH]; intros pre.
  - rewrite dirs_of_nil, lookup_empty. split; [done|].
    intros (_ & k & Hk & _). simpl in Hk. lia.
  - rewrite dirs_of_cons, lookup_insert_Some, IH. split.
    + intros [[<- <-]|(Hne & -> & k & Hk & ->)].
      * split; [done|]. exists 1. simpl. split; [lia|done].
      * split; [done|]. exists (S k). simpl. rewrite <-app_assoc.
        split; [lia|done].
    + intros (-> & [|[|k]] & Hk & ->); [lia|left; done|right].
      simpl in *. split_and!; [|done|].
      * intros H%app_inv_head. destruct rest; simpl in *; [lia|done].
      * exists (S k). rewrite <-app_assoc. split; [lia|done].
Qed.

(** [mkdirs] adds the directories on the way and nothing else. *)
Lemma mkdirs_union t pre rest t' :
  mkdirs t pre rest = Val t' → t' = t ∪ dirs_of pre rest.
Proof.
  revert t pre; induction rest as [|seg rest IH]; intros t pre; simpl.
  - intros [= <-]. by rewrite dirs_of_nil, (right_id_L ∅ (∪)).
  - rewrite dirs_of_cons. destruct (t !! (pre ++ [seg])) as [[c|]|] eqn:E.
    + done.
    + intros ->%IH. apply map_eq. intros i. rewrite !lookup_union.
      destruct (decide (i = pre ++ [seg])) as [->|];
        [|by rewrite lookup_insert_ne].
      rewrite E, lookup_insert_eq. by destruct (dirs_of _ _ !! _).
    + intros ->%IH. by rewrite <-insert_union_l, insert_union_r.
Qed.

Lemma mkdirs_subseteq t pre rest t' : mkdirs t pre rest = Val t' → t ⊆ t'.
Proof. intros ->%mkdirs_union. apply map_union_subseteq_l. Qed.

Lemma mkdirs_lookup t pre rest t' p :
  mkdirs t pre rest = Val t' →
  t' !! p = match t !! p with
            | Some n => Some n
            | None => dirs_of pre rest !! p
            end.
Proof.
  intros ->%mkdirs_union. rewrite lookup_union.
  destruct (t !! p), (dirs_of pre rest !! p); done.
Qed.

Lemma no_file_on_cons t pre seg rest :
  no_file_on t pre (seg :: rest) ↔
  (∀ c, t !! (pre ++ [seg]) ≠ Some (File c)) ∧ no_file_on t (pre ++ [seg]) rest.
Proof.
  unfold no_file_on. split.
  - intros H. split.
    + intros c. apply (H 1 c). simpl. lia.
    + intros k c Hk. rewrite <-app_assoc. apply (H (S k) c). simpl. lia.
  - intros [H1 H2] [|[|k]] c Hk; [lia|simpl; rewrite take_0; apply H1|].
    simpl in *. rewrite cons_middle, app_assoc. apply H2. lia.
Qed.

Lemma no_file_on_insert t pre rest p :
  t !! p = None →
  no_file_on (<[p := Dir]> t) pre rest ↔ no_file_on t pre rest.
Proof.
  intros Hp. unfold no_file_on.
  apply forall_proper; intros k. apply forall_proper; intros c.
  destruct (decide (pre ++ take k rest = p)) as [->|];
    [rewrite lookup_insert_eq, Hp|rewrite lookup_insert_ne by done]; naive_solver.
Qed.

(** [mkdirs] fails exactly when a file stands on the way. *)
Lemma mkdirs_is_val t pre rest :
  is_val (mkdirs t pre rest) = true ↔ no_file_on t pre rest.
Proof.
  revert t pre; induction rest as [|seg rest IH]; intros t pre.
  - split; [|done]. intros _ k c Hk. simpl in Hk. lia.
  - rewrite no_file_on_cons. simpl.
    destruct (t !! (pre ++ [seg])) as [[c|]|] eqn:E.
    + split; [done|]. intros [H _]. by destruct (H c).
    + rewrite IH. naive_solver.
    + rewrite IH, no_file_on_insert by done. naive_solver.
Qed.

#[global] Instance no_file_on_dec t pre rest : Decision (no_file_on t pre rest).
Proof.
  refine (cast_if (decide (is_val (mkdirs t pre rest) = true)));
    by rewrite <-mkdirs_is_val.
Defined.

Lemma mkdirs_wf t pre rest t' :
  wf t → node_at t pre = Some Dir → mkdirs t pre rest = Val t' → wf t'.
Proof.
  revert t pre; induction rest as [|seg rest IH]; intros t pre Hwf Hpre; simpl.
  - by intros [= <-].
  - destruct (t !! (pre ++ [seg])) as [[c|]|] eqn:E; [done| |].
    + apply IH; [done|]. by rewrite node_at_snoc.
    + apply IH; [apply wf_insert; auto|].
      by rewrite node_at_snoc, lookup_insert_eq.
Qed.

(** After [mkdirs] the directory is there. *)
Lemma mkdirs_dir t pre rest t' :
  node_at t pre = Some Dir → mkdirs t pre rest = Val t' →
  node_at t' (pre ++ rest) = Some Dir.
Proof.
  revert t pre; induction rest as [|seg rest IH]; intros t pre Hpre; simpl.
  - intros [= <-]. by rewrite app_nil_r.
  - rewrite (app_cons_snoc pre seg rest).
    destruct (t !! (pre ++ [seg])) as [[c|]|] eqn:E; [done| |].
    + apply IH. by rewrite node_at_snoc.
    + apply IH. by rewrite node_at_snoc, lookup_insert_eq.
Qed.

(** A second [mkdirs] of the same path changes nothing. *)
Lemma mkdirs_idem t pre rest t' :
  mkdirs t pre rest = Val t' → mkdirs t' pre rest = Val t'.
Proof.
  revert t pre; induction rest as [|seg rest IH]; intros t pre; simpl; [done|].
  destruct (t !! (pre ++ [seg])) as [[c|]|] eqn:E; [done| |]; intros H.
  - by rewrite (lookup_weaken _ _ _ _ E (mkdirs_subseteq _ _ _ _ H)); eauto.
  - assert (t' !! (pre ++ [seg]) = Some Dir) as ->; [|by eauto].
    eapply lookup_weaken; [|by eapply mkdirs_subseteq].
    by rewrite lookup_insert_eq.
Qed.

(** What is not on the way is left as it was. *)
Lemma mkdirs_frame t pre rest t' p :
  mkdirs t pre rest = Val t' → ¬ p `prefix_of` pre ++ rest → t' !! p = t !! p.
Proof.
  intros H Hp. rewrite (mkdirs_lookup _ _ _ _ _ H).
  destruct (t !! p); [done|]. apply eq_None_not_Some. intros [n Hn].
  apply dirs_of_lookup in Hn as (_ & k & _ & ->). apply Hp.
  apply prefix_app, prefix_take.
Qed.

(** *** Walking and looking up *)

Lemma resolve_node_sound t pre rest n :
  resolve_node t pre rest = Val n → node_at t pre = Some Dir →
  node_at t (pre ++ rest) = Some n.
Proof.
  revert pre; induction rest as [|seg rest IH]; intros pre; simpl.
  - intros [= <-]. by rewrite app_nil_r.
  - rewrite (app_cons_snoc pre seg rest).
    destruct (t !! (pre ++ [seg])) as [[c|]|] eqn:E;
      [|by rewrite <-node_at_snoc in E; auto|done].
    destruct rest; [|done]. intros [= <-] _. by rewrite app_nil_r, node_at_snoc.
Qed.

(** In a well-formed tree the ancestors of a node are directories. *)
Lemma wf_prefix t p q n :
  wf t → node_at t (p ++ q) = Some n → q ≠ [] → node_at t p = Some Dir.
Proof.
  intros Hwf. revert n; induction q as [|s q IH] using rev_ind; [done|].
  intros n. rewrite app_assoc, node_at_snoc. intros H%wf_snoc _; [|done].
  destruct q; [by rewrite app_nil_r in H|by eapply IH].
Qed.

Lemma resolve_node_complete t pre rest n :
  wf t → node_at t (pre ++ rest) = Some n → node_at t pre = Some Dir →
  resolve_node t pre rest = Val n.
Proof.
  intros Hwf. revert pre; induction rest as [|seg rest IH]; intros pre; simpl.
  - rewrite app_nil_r. congruence.
  - rewrite (app_cons_snoc pre seg rest). intros H _.
    destruct rest as [|s rest].
    + rewrite app_nil_r, node_at_snoc in H. rewrite H. by destruct n.
    + pose proof (wf_prefix _ _ _ _ Hwf H) as Hd.
      rewrite node_at_snoc in Hd. rewrite Hd by done.
      apply IH; [done|]. by rewrite node_at_snoc, Hd.
Qed.

(** In a well-formed tree, walking down from the root finds what the
    map holds. *)
Lemma lookup_path_Val t p n :
  wf t → lookup_path t p = Val n ↔ node_at t p = Some n.
Proof.
  intros Hwf. split.
  - intros H. by apply (resolve_node_sound t [] p).
  - intros H. by apply resolve_node_complete.
Qed.

Lemma resolve_node_errno t pre rest e :
  resolve_node t pre rest = Throw e → e = ENOENT ∨ e = ENOTDIR.
Proof.
  revert pre; induction rest as [|seg rest IH]; intros pre; simpl; [done|].
  destruct (t !! (pre ++ [seg])) as [[c|]|]; [destruct rest| |]; naive_solver.
Qed.

(** The walk fails with [ENOTDIR] exactly when a file is met before
    the end of the path. *)
Lemma resolve_node_ENOTDIR t pre rest :
  wf t →
  resolve_node t pre rest = Throw ENOTDIR ↔
  ∃ k c, 1 ≤ k < length rest ∧ t !! (pre ++ take k rest) = Some (File c).
Proof.
  intros Hwf. revert pre; induction rest as [|seg rest IH]; intros pre; simpl.
  - split; [done|]. intros (k & c & Hk & _). lia.
  - destruct (t !! (pre ++ [seg])) as [[c|]|] eqn:E.
    + split.
      * destruct rest; [done|]. intros _. exists 1, c. simpl.
        rewrite E. split; [lia|done].
      * intros (k & c' & Hk & _). destruct rest; [simpl in Hk; lia|done].
    + rewrite IH. split.
      * intros (k & c & Hk & H). exists (S k), c. simpl.
        rewrite (app_cons_snoc pre seg). split; [lia|done].
      * intros ([|[|k]] & c & Hk & H); [lia|simpl in H; rewrite take_0 in H; congruence|].
        exists (S k), c. simpl in H. rewrite (app_cons_snoc pre seg) in H.
        split; [lia|done].
    + split; [done|]. intros ([|k] & c & Hk & H); [lia|]. simpl in H.
      rewrite (app_cons_snoc pre seg) in H.
      assert (node_at t (pre ++ [seg]) = Some Dir ∨
              node_at t (pre ++ [seg]) = Some (File c)) as Hd.
      { destruct (take k rest) as [|a l] eqn:Ek.
        - right. by rewrite app_nil_r in H; rewrite node_at_snoc.
        - left. apply (wf_prefix t _ (a :: l) (File c)); [done| |done].
          apply node_at_lookup; [done|]. by destruct pre. }
      rewrite node_at_snoc, E in Hd. naive_solver.
Qed.

(** A directory and what is outside of it are left as they were by a
    [mkdirs] of a path through that directory. *)
Lemma mkdirs_frame_under t out segs t' p :
  wf t → node_at t out = Some Dir →
  out `prefix_of` segs ∨ segs `prefix_of` out →
  mkdirs t [] segs = Val t' → ¬ out `prefix_of` p → t' !! p = t !! p.
Proof.
  intros Hwf Hout Hcmp H Hp. rewrite (mkdirs_lookup _ _ _ _ _ H).
  destruct (t !! p) eqn:E; [done|]. apply eq_None_not_Some. intros [n Hn].
  apply dirs_of_lookup in Hn as (_ & k & Hk & ->). simpl in *.
  assert (take k segs `prefix_of` out) as [q Hq].
  { destruct Hcmp as [Hc|Hc]; [|by etrans; [apply prefix_take|]].
    by destruct (prefix_weak_total _ _ _ Hc (prefix_take segs k)). }
  destruct (decide (q = [])) as [->|Hq'].
  - apply Hp. by rewrite Hq, app_nil_r.
  - rewrite Hq in Hout. apply wf_prefix in Hout; [|done..].
    destruct (take k segs) eqn:Et; [|cbn [node_at] in Hout; congruence].
    destruct segs; simpl in *; [lia|]. destruct k; [lia|done].
Qed.

(** *** [write_node] *)

Lemma write_node_Val t segs c t' :
  write_node t segs c = Val t' →
  t' = <[segs := File c]> t ∧ segs ≠ [] ∧
  lookup_path t (removelast segs) = Val Dir ∧ t !! segs ≠ Some Dir.
Proof.
  unfold write_node. destruct segs as [|a l]; [done|].
  destruct (lookup_path t _) as [[|]|]; [done| |done].
  destruct (t !! (a :: l)) as [[|]|]; naive_solver.
Qed.

Lemma write_node_is_val t segs c :
  wf t →
  is_val (write_node t segs c) = true ↔
  segs ≠ [] ∧ node_at t (removelast segs) = Some Dir ∧ t !! segs ≠ Some Dir.
Proof.
  intros Hwf. unfold write_node. destruct segs as [|a l]; [naive_solver|].
  rewrite <-(lookup_path_Val t _ Dir) by done.
  destruct (lookup_path t _) as [[|]|]; [naive_solver| |naive_solver].
  destruct (t !! (a :: l)) as [[|]|]; naive_solver.
Qed.

Lemma write_node_wf t segs c t' :
  wf t → write_node t segs c = Val t' → wf t'.
Proof.
  intros Hwf (-> & Hne & Hd & Hf)%write_node_Val.
  apply lookup_path_Val in Hd; [|done].
  destruct (exists_last Hne) as (p & s & ->). rewrite removelast_last in Hd.
  apply wf_insert; [done|done|right].
  intros q m Hq Heq. destruct (Hwf _ _ Hq) as [_ Hq'].
  rewrite Heq, node_at_snoc in Hq'. done.
Qed.

(** What was written is what a lookup finds. *)
Lemma write_node_read t segs c t' :
  wf t → write_node t segs c = Val t' → lookup_path t' segs = Val (File c).
Proof.
  intros Hwf H. apply lookup_path_Val; [by eapply write_node_wf|].
  apply write_node_Val in H as (-> & Hne & _).
  apply node_at_lookup; [apply lookup_insert_eq|done].
Qed.

Lemma write_node_frame t segs c t' p :
  write_node t segs c = Val t' → p ≠ segs → t' !! p = t !! p.
Proof. intros (-> & _)%write_node_Val ?. by rewrite lookup_insert_ne. Qed.

(** *** [remove_tree] *)

Lemma remove_tree_lookup t segs p :
  remove_tree t segs !! p = if decide (segs `prefix_of` p) then None else t !! p.
Proof.
  unfold remove_tree. destruct (decide _) as [Hp|Hp].
  - apply map_lookup_filter_None. right. naive_solver.
  - destruct (t !! p) as [n|] eqn:E.
    + by apply map_lookup_filter_Some.
    + apply map_lookup_filter_None. by left.
Qed.

Lemma prefix_removelast (q p : list jstring) :
  q `prefix_of` removelast p → q `prefix_of` p.
Proof.
  destruct (decide (p = [])) as [->|Hne]; [done|].
  rewrite (app_removelast_last [] Hne) at 2. apply prefix_app_r.
Qed.

Lemma remove_tree_wf t segs : wf t → wf (remove_tree t segs).
Proof.
  intros Hwf p n. rewrite remove_tree_lookup.
  destruct (decide _) as [|Hp]; [done|]. intros [? Hd]%Hwf. split; [done|].
  destruct (removelast p) eqn:E; [done|]. cbn [node_at] in *.
  rewrite remove_tree_lookup, decide_False; [done|].
  rewrite <-E. by intros ?%prefix_removelast.
Qed.

(** After [remove_tree] nothing is left at the path or below it, and
    the rest is as before. *)
Lemma remove_tree_under t segs p :
  under segs p → remove_tree t segs !! p = None.
Proof. intros. by rewrite remove_tree_lookup, decide_True. Qed.

Lemma remove_tree_frame t segs p :
  ¬ under segs p → remove_tree t segs !! p = t !! p.
Proof. intros. by rewrite remove_tree_lookup, decide_False. Qed.

(** Removing what is not there changes nothing. *)
Lemma remove_tree_absent t segs :
  wf t → node_at t segs = None → remove_tree t segs = t.
Proof.
  intros Hwf Hn. apply map_filter_id. intros p n Hp Hpre. simpl in Hpre.
  destruct Hpre as [q ->].
  assert (segs ++ q ≠ []) as Hne by (by intros Heq; rewrite Heq in Hp;
                                      apply (wf_not_root t n)).
  apply node_at_lookup in Hp; [|done].
  destruct (decide (q = [])) as [->|Hq]; [rewrite app_nil_r in Hp; congruence|].
  apply wf_prefix in Hp; [congruence|done..].
Qed.

(** *** [children] *)

Lemma child_name_Some dir k s : child_name dir k = Some s ↔ k = dir ++ [s].
Proof.
  unfold child_name. case_bool_decide as E.
  - destruct (decide (k = [])) as [->|Hne].
    + simpl in *. subst. split; [done|by destruct s].
    + rewrite (app_removelast_last [] Hne) at 1 2. rewrite E, last_snoc.
      split; [by intros [= ->]|by intros [_ ->]%app_inj_tail].
  - split; [done|]. intros ->. by rewrite removelast_last in E.
Qed.

Lemma elem_of_children t dir s :
  s ∈ children t dir ↔ is_Some (t !! (dir ++ [s])).
Proof.
  unfold children. rewrite list_elem_of_omap. split.
  - intros ([k n] & Hk%elem_of_map_to_list & Hc). simpl in Hc.
    apply child_name_Some in Hc as ->. eauto.
  - intros [n Hn]. exists (dir ++ [s], n).
    split; [by apply elem_of_map_to_list|by apply child_name_Some].
Qed.

Lemma children_nil t dir :
  children t dir = [] ↔ ∀ s, t !! (dir ++ [s]) = None.
Proof.
  split.
  - intros H s. apply eq_None_not_Some. rewrite <-elem_of_children, H.
    apply not_elem_of_nil.
  - intros H. apply elem_of_nil_inv. intros s [n Hn]%elem_of_children.
    by rewrite H in Hn.
Qed.

(** *** Directories that are there, and directories that are empty *)

(** In a well-formed tree the way down to a directory is there. *)
Lemma wf_dirs_of t segs :
  wf t → node_at t segs = Some Dir → dirs_of [] segs ⊆ t.
Proof.
  intros Hwf Hd. apply map_subseteq_spec. intros p n.
  intros (-> & k & Hk & ->)%dirs_of_lookup. simpl.
  assert (take k segs ≠ []) as Hne by (destruct segs, k; simpl in *; [lia..|done]).
  destruct (decide (drop k segs = [])) as [Hq|Hq].
  - rewrite <-(take_drop k segs), Hq, app_nil_r in Hd. by destruct (take k segs).
  - rewrite <-(take_drop k segs) in Hd.
    apply wf_prefix in Hd; [|done..]. by destruct (take k segs).
Qed.

(** [mkdirs] of a directory that is there changes nothing. *)
Lemma mkdirs_absorb t segs :
  wf t → node_at t segs = Some Dir → mkdirs t [] segs = Val t.
Proof.
  intros Hwf Hd. pose proof (wf_dirs_of t segs Hwf Hd) as Hsub.
  destruct (mkdirs t [] segs) as [t'|e] eqn:E.
  - apply mkdirs_union in E as ->. f_equal. apply map_eq. intros p.
    rewrite lookup_union. destruct (t !! p) eqn:Ht, (dirs_of [] segs !! p) eqn:Hp;
      try done. eapply lookup_weaken in Hp; [|done]. congruence.
  - assert (is_val (mkdirs t [] segs) = true) as H; [|by rewrite E in H].
    apply mkdirs_is_val. intros k c Hk Hf. simpl in Hf.
    assert (dirs_of [] segs !! take k segs = Some Dir) as Hl
      by (apply dirs_of_lookup; eauto).
    eapply lookup_weaken in Hl; [|done]. congruence.
Qed.

(** Nothing lies below a directory without children. *)
Lemma wf_below_empty t dir q :
  wf t → children t dir = [] → q ≠ [] → t !! (dir ++ q) = None.
Proof.
  intros Hwf Hc Hq. destruct q as [|s q]; [done|].
  destruct (t !! (dir ++ s :: q)) as [n|] eqn:E; [|done].
  rewrite children_nil in Hc. specialize (Hc s).
  destruct (decide (q = [])) as [->|Hne]; [congruence|].
  rewrite app_cons_snoc in E. apply node_at_lookup in E; [|by destruct dir].
  apply wf_prefix in E; [|done..]. rewrite node_at_snoc in E. congruence.
Qed.

(** Nothing lies below a path where nothing is. *)
Lemma wf_below_absent t p q : wf t → node_at t p = None → t !! (p ++ q) = None.
Proof.
  intros Hwf Hp. destruct (t !! (p ++ q)) as [n|] eqn:E; [|done].
  destruct (decide (q = [])) as [->|Hq].
  - rewrite app_nil_r in E. destruct p; [done|]. simpl in Hp. congruence.
  - apply node_at_lookup in E; [|by destruct p, q].
    apply wf_prefix in E; [congruence|done..].
Qed.

(** *** Confinement to a directory *)

Lemma confined_refl out t : wf t → node_at t out = Some Dir → confined out t t.
Proof. done. Qed.

Lemma node_at_weaken (t t' : tree) p n :
  t ⊆ t' → node_at t p = Some n → node_at t' p = Some n.
Proof. destruct p; [done|]. intros. by eapply lookup_weaken. Qed.

Lemma mkdirs_confined out t0 t segs t' :
  confined out t0 t → out `prefix_of` segs ∨ segs `prefix_of` out →
  mkdirs t [] segs = Val t' → confined out t0 t'.
Proof.
  intros (Hwf & Hout & Hfr) Hcmp H. split_and!.
  - by apply (mkdirs_wf t [] segs).
  - eapply node_at_weaken; [by eapply mkdirs_subseteq|done].
  - intros p Hp. rewrite <-Hfr by done.
    by apply (mkdirs_frame_under t out segs).
Qed.

Lemma write_node_confined out t0 t segs c t' :
  confined out t0 t → out `prefix_of` segs →
  write_node t segs c = Val t' → confined out t0 t'.
Proof.
  intros (Hwf & Hout & Hfr) Hpre H. split_and!.
  - by eapply write_node_wf.
  - apply write_node_Val in H as (-> & Hne & _ & Hd).
    destruct out; [done|]. cbn [node_at] in *.
    rewrite lookup_insert_ne; [done|congruence].
  - intros p Hp. rewrite <-Hfr by done.
    eapply write_node_frame; [done|]. by intros ->.
Qed.

(** *** Directories stay *)

Lemma mkdirs_dir_kept t pre rest t' p :
  mkdirs t pre rest = Val t' → node_at t p = Some Dir → node_at t' p = Some Dir.
Proof. intros H. by apply node_at_weaken, (mkdirs_subseteq t pre rest). Qed.

Lemma write_node_dir_kept t segs c t' p :
  write_node t segs c = Val t' → node_at t p = Some Dir →
  node_at t' p = Some Dir.
Proof.
  intros (-> & _ & _ & Hd)%write_node_Val. destruct p; [done|].
  cbn [node_at]. intros Hp. rewrite lookup_insert_ne; [done|congruence].
Qed.

(** *** A write after [mkdirs] of the parent *)

Lemma dirs_of_longer pre rest p :
  length (pre ++ rest) < length p → dirs_of pre rest !! p = None.
Proof.
  intros Hl. apply eq_None_not_Some. intros [n Hn].
  apply dirs_of_lookup in Hn as (_ & k & _ & ->).
  rewrite !length_app, length_take in Hl. lia.
Qed.

(** After the directories above were made, the write fails when the
    path is the root or a directory stands at it. *)
Lemma write_node_misfit t t1 segs c :
  wf t → mkdirs t [] (removelast segs) = Val t1 →
  (segs ≠ [] → t !! segs = Some Dir) →
  is_val (write_node t1 segs c) = false.
Proof.
  intros Hwf Hm Hd. apply not_true_is_false.
  rewrite write_node_is_val by by apply (mkdirs_wf t [] (removelast segs)).
  intros (Hne & _ & Hn). apply Hn.
  apply (lookup_weaken t); [by apply Hd|by eapply mkdirs_subseteq].
Qed.

(** Above a directory, or the root, there is nothing to make. *)
Lemma mkdirs_above_dir t segs t1 :
  wf t → mkdirs t [] (removelast segs) = Val t1 →
  (segs ≠ [] → t !! segs = Some Dir) → t1 = t.
Proof.
  intros Hwf Hm Hd. destruct (decide (segs = [])) as [->|Hne]; [by inv Hm|].
  destruct (exists_last Hne) as (p & s & ->). rewrite removelast_last in Hm.
  specialize (Hd Hne).
  assert (node_at t p = Some Dir) as Hp.
  { apply (wf_prefix t p [s] Dir); [done| |done].
    rewrite <-Hd. by destruct p. }
  rewrite mkdirs_absorb in Hm by done. by inv Hm.
Qed.

Lemma write_after_mkdirs t segs c :
  wf t → segs ≠ [] → no_file_on t [] (removelast segs) →
  t !! segs ≠ Some Dir →
  ∃ t1, mkdirs t [] (removelast segs) = Val t1 ∧
        write_node t1 segs c =
          Val (<[segs := File c]> (t ∪ dirs_of [] (removelast segs))).
Proof.
  intros Hwf Hne Hnf Hnd. apply mkdirs_is_val in Hnf.
  destruct (mkdirs t [] (removelast segs)) as [t1|] eqn:Hm; [|done].
  exists t1. split; [done|]. rewrite <-(mkdirs_union _ _ _ _ Hm).
  assert (is_val (write_node t1 segs c) = true) as Hv.
  { apply write_node_is_val; [by apply (mkdirs_wf t [] (removelast segs))|].
    split_and!; [done|by apply (mkdirs_dir t [] (removelast segs))|].
    rewrite (mkdirs_lookup _ _ _ _ _ Hm). destruct (t !! segs); [done|].
    rewrite dirs_of_longer; [done|].
    destruct (exists_last Hne) as (l & x & ->).
    rewrite removelast_last, !length_app. simpl. lia. }
  destruct (write_node t1 segs c) as [t2|] eqn:Hw; [|done].
  by apply write_node_Val in Hw as (-> & _).
Qed.

(** ** The calls, on well-formed trees *)

Section call_properties.
Context (cwd : jstring) (t : tree) (Hwf : wf t).

Lemma lift_errno_Val {A} syscall path (c : exn errno A) a :
  lift_errno syscall path c = Val a ↔ c = Val a.
Proof. destruct c; naive_solver. Qed.

Lemma lift_errno_is_val {A} syscall path (c : exn errno A) :
  is_val (lift_errno syscall path c) = is_val c.
Proof. by destruct c. Qed.

Lemma lift_errno_code {A} syscall path (c : exn errno A) err :
  lift_errno syscall path c = Throw err →
  ∃ e, c = Throw e ∧ err = sys_error e syscall path.
Proof. destruct c; naive_solver. Qed.

(** [stat] finds the node the tree holds at the path. *)
Lemma stat_Val path n :
  stat cwd t path = Val n ↔ node_at t (fs_segs cwd path) = Some n.
Proof. unfold stat. rewrite lift_errno_Val. by apply lookup_path_Val. Qed.

(** [stat] fails with [ENOENT] or [ENOTDIR] when there is no node. *)
Lemma stat_Throw path err :
  stat cwd t path = Throw err →
  node_at t (fs_segs cwd path) = None ∧
  (err_code err = Some (str "ENOENT") ∨ err_code err = Some (str "ENOTDIR")).
Proof.
  intros (e & He & ->)%lift_errno_code. split.
  - destruct (node_at t _) as [n|] eqn:E; [|done].
    apply lookup_path_Val in E; [congruence|done].
  - apply resolve_node_errno in He as [-> | ->]; auto.
Qed.

(** [readdir] of a directory lists the names of its entries. *)
Lemma readdir_Val path names :
  readdir cwd t path = Val names ↔
  node_at t (fs_segs cwd path) = Some Dir ∧
  names = children t (fs_segs cwd path).
Proof.
  unfold readdir. rewrite lift_errno_Val, <-lookup_path_Val by done.
  destruct (lookup_path t _) as [[|]|]; naive_solver.
Qed.

Lemma ensureDir_wf path t' : ensureDir cwd t path = Val t' → wf t'.
Proof. intros H%lift_errno_Val. by apply (mkdirs_wf t [] (fs_segs cwd path)). Qed.

(** After [ensureDir] the path is a directory. *)
Lemma ensureDir_stat path t' :
  ensureDir cwd t path = Val t' → stat cwd t' path = Val Dir.
Proof.
  intros H%lift_errno_Val. unfold stat. apply lift_errno_Val.
  apply lookup_path_Val; [by apply (mkdirs_wf t [] (fs_segs cwd path))|].
  by apply (mkdirs_dir t [] (fs_segs cwd path)).
Qed.

Lemma ensureDir_idem path t' :
  ensureDir cwd t path = Val t' → ensureDir cwd t' path = Val t'.
Proof.
  intros H%lift_errno_Val. apply lift_errno_Val. by apply (mkdirs_idem t).
Qed.

(** [ensureDir] fails only on a file in the way, with [EEXIST] when the
    file is at the path itself and [ENOTDIR] when it is above. *)
Lemma ensureDir_Throw path err :
  ensureDir cwd t path = Throw err →
  ∃ k c, 1 ≤ k ≤ length (fs_segs cwd path) ∧
         t !! take k (fs_segs cwd path) = Some (File c).
Proof.
  intros H. assert (¬ no_file_on t [] (fs_segs cwd path)) as Hn.
  { rewrite <-mkdirs_is_val. unfold ensureDir in H.
    destruct (mkdirs t [] _); [done|]. simpl. done. }
  unfold no_file_on in Hn.
  destruct (decide (Exists (λ k, is_Some (t !! take k (fs_segs cwd path) ≫= λ n,
              if is_file n then Some n else None))
              (seq 1 (length (fs_segs cwd path))))) as [He|He].
  - apply Exists_exists in He as (k & Hk%elem_of_seq & [n Hn']).
    destruct (t !! take k _) as [[c|]|] eqn:E; [|done|done].
    exists k, c. split; [lia|done].
  - destruct Hn. intros k c Hk Hf. apply He, Exists_exists. exists k.
    split; [apply elem_of_seq; lia|]. simpl in Hf. by rewrite Hf.
Qed.

Lemma writeStream_wf path c t' : writeStream cwd t path c = Val t' → wf t'.
Proof. intros H%lift_errno_Val. by eapply write_node_wf. Qed.

(** A file that was written is what [stat] finds. *)
Lemma writeStream_stat path c t' :
  writeStream cwd t path c = Val t' → stat cwd t' path = Val (File c).
Proof.
  intros H%lift_errno_Val. apply lift_errno_Val. by eapply write_node_read.
Qed.

Lemma remove_wf path : wf (remove cwd t path).
Proof. by apply remove_tree_wf. Qed.

(** After [remove] the path does not exist, unless it is the root. *)
Lemma remove_stat path :
  fs_segs cwd path ≠ [] → is_val (stat cwd (remove cwd t path) path) = false.
Proof.
  intros Hne. unfold stat, remove. rewrite lift_errno_is_val.
  destruct (lookup_path _ _) as [n|e] eqn:E; [|done].
  apply lookup_path_Val in E; [|by apply remove_tree_wf].
  destruct (fs_segs cwd path); [done|]. cbn [node_at] in E.
  by rewrite remove_tree_under in E.
Qed.
End call_properties.

(** An absolute path is read without the working directory. *)
Lemma fs_segs_abs cwd path :
  isAbsolute path = true → fs_segs cwd path = path_segs path.
Proof. unfold fs_segs. by intros ->. Qed.

(** ** Theorems *)

(** An example: the home directory [/home/u] with a file [notes]. *)
Definition fs_example : tree :=
  {[ [str "home"] := Dir; [str "home"; str "u"] := Dir;
     [str "home"; str "u"; str "notes"] := File (str "n") ]}.

(** [ensureDir] on a well-formed tree, when it succeeds, adds
    the directories on the way to the path and nothing else; the tree
    stays well formed, the path is then a directory, and doing it again
    changes nothing.  It fails exactly when a file stands at the path
    or above it. *)
Lemma ensureDir_creates cwd t path :
  wf t →
  match ensureDir cwd t path with
  | Val t' =>
      t' = t ∪ dirs_of [] (fs_segs cwd path) ∧ wf t' ∧
      stat cwd t' path = Val Dir ∧ ensureDir cwd t' path = Val t'
  | Throw _ =>
      ∃ k c, 1 ≤ k ≤ length (fs_segs cwd path) ∧
             t !! take k (fs_segs cwd path) = Some (File c)
  end.
Proof.
  intros Hwf. destruct (ensureDir cwd t path) as [t'|err] eqn:He.
  - split_and!; [|by eapply ensureDir_wf|by eapply ensureDir_stat|
                 by eapply ensureDir_idem].
    apply lift_errno_Val in He. by apply mkdirs_union.
  - by eapply ensureDir_Throw.
Qed.

Lemma ensureDir_creates_witness :
  match ensureDir (str "/home/u") fs_example (str "out/sub") with
  | Val t' => stat (str "/home/u") t' (str "out/sub") = Val Dir
  | Throw _ => False
  end.
Proof.
  assert (wf fs_example) as Hwf
    by (apply (bool_decide_unpack _); vm_compute; exact I).
  assert (is_val (ensureDir (str "/home/u") fs_example (str "out/sub")) = true)
    as Hv by (vm_compute; reflexivity).
  pose proof (ensureDir_creates (str "/home/u") fs_example (str "out/sub") Hwf)
    as H.
  destruct (ensureDir _ _ _) as [t'|]; [|discriminate Hv].
  destruct H as (_ & _ & H & _). exact H.
Defined.

(** A file that was written is the file a later [stat] finds,
    with the content that was written; the tree stays well formed and
    every other path is as before. *)
Lemma writeStream_roundtrip cwd t path content t' :
  wf t → writeStream cwd t path content = Val t' →
  stat cwd t' path = Val (File content) ∧ wf t' ∧
  ∀ q, q ≠ fs_segs cwd path → t' !! q = t !! q.
Proof.
  intros Hwf Hw. split_and!; [by eapply writeStream_stat|
                               by eapply writeStream_wf|].
  intros q Hq. apply lift_errno_Val in Hw. by eapply write_node_frame.
Qed.

Lemma writeStream_roundtrip_witness :
  match writeStream (str "/home/u") fs_example (str "a.txt") (str "A") with
  | Val t' => stat (str "/home/u") t' (str "a.txt") = Val (File (str "A"))
  | Throw _ => False
  end.
Proof.
  assert (wf fs_example) as Hwf
    by (apply (bool_decide_unpack _); vm_compute; exact I).
  assert (is_val (writeStream (str "/home/u") fs_example (str "a.txt") (str "A"))
          = true) as Hv by (vm_compute; reflexivity).
  destruct (writeStream _ _ _ _) as [t'|] eqn:E; [|discriminate Hv].
  destruct (writeStream_roundtrip _ _ _ _ _ Hwf E) as [H _]. exact H.
Defined.

(** [remove] takes away the path and everything below it, and
    nothing else; the tree stays well formed, and a later [stat] of the
    path fails. *)
Lemma remove_removes cwd t path :
  wf t →
  wf (remove cwd t path) ∧
  (∀ q, remove cwd t path !! q =
        if decide (fs_segs cwd path `prefix_of` q) then None else t !! q) ∧
  (fs_segs cwd path ≠ [] → is_val (stat cwd (remove cwd t path) path) = false).
Proof.
  intros Hwf. split_and!; [by apply remove_wf| |by apply remove_stat].
  intros q. apply remove_tree_lookup.
Qed.

Lemma remove_removes_witness :
  remove (str "/") fs_example (str "/home/u")
    !! [str "home"; str "u"; str "notes"] = None.
Proof.
  assert (wf fs_example) as Hwf
    by (apply (bool_decide_unpack _); vm_compute; exact I).
  destruct (remove_removes (str "/") fs_example (str "/home/u") Hwf)
    as (_ & H & _).
  rewrite H. apply decide_True. by exists [str "notes"].
Defined.
