(* ===== verification/World.v ===== *)
(** * The world of a run

    What a run of the tool can observe and change.  The [env] is what
    it reads and never changes: the working directory, the temporary
    directory, the clock, the answers of the network and the version
    that was built in.  The [world] is what it changes: the file tree,
    the output (the spinner's lines, the console and the requests sent,
    most recent first) and [process.exitCode].

    An answer of the network is given by what the code asks of it: its
    status, what [res.json()] yields and what the ZIP decoder yields
    when the body is piped into it. *)

From S2P Require Import Prelude JsString Path Fs.

(** ** Archives *)

(** [entry.type] of the decoder. *)
Inductive entry_type : Type := EFile | EDirectory.

#[global] Instance entry_type_eq_dec : EqDecision entry_type.
Proof. solve_decision. Defined.

Record entry : Type := Entry {
  e_path : jstring;
  e_type : entry_type;
  e_content : jstring
}.

(** The entries a body decodes to and, when the body is not a complete
    archive, the error the stream ends with. *)
Record archive : Type := Archive {
  a_entries : list entry;
  a_error : option js_error
}.

(** ** The network *)

Record response : Type := Response {
  r_ok : bool;
  r_statusText : jstring;
  r_has_body : bool;
  (* [(await res.json()).default_branch] *)
  r_default_branch : exn js_error (option jstring);
  (* [res.body.pipe(unzipper.Parse())] *)
  r_archive : archive
}.

(** ** Environment and world *)

Record env : Type := Env {
  env_cwd : jstring;                               (* [process.cwd()] *)
  env_tmpdir : jstring;                            (* [os.tmpdir()] *)
  env_now : nat;                                   (* [Date.now()] *)
  env_fetch : jstring → exn js_error response;     (* [fetch(url)] *)
  env_color : bool;                                (* chalk's colour support *)
  env_app_version : option jstring;                (* [__APP_VERSION__] *)
  env_pkg_version : exn js_error (option jstring)  (* package.json's version *)
}.

Inductive event : Type :=
  | SpinnerStart (text : jstring)
  | SpinnerText (text : jstring)
  | SpinnerFail (text : jstring)
  | SpinnerWarn (text : jstring)
  | SpinnerSucceed (text : jstring)
  | ConsoleLog (text : jstring)
  | ConsoleError (text : jstring)
  | Fetched (url : jstring).

#[global] Instance event_eq_dec : EqDecision event.
Proof. solve_decision. Defined.

Record world : Type := World {
  w_tree : tree;
  w_events : list event;
  w_exitCode : option nat
}.

Definition emit (e : event) (w : world) : world :=
  World (w_tree w) (e :: w_events w) (w_exitCode w).

Definition set_tree (t : tree) (w : world) : world :=
  World t (w_events w) (w_exitCode w).

(** [process.exitCode = n]. *)
Definition set_exitCode (n : nat) (w : world) : world :=
  World (w_tree w) (w_events w) (Some n).

(** [await fetch(url)]: the request is recorded, then answered. *)
Definition fetch (ev : env) (url : jstring) (w : world)
    : world * exn js_error response :=
  (emit (Fetched url) w, env_fetch ev url).

(** ** chalk *)

Inductive style : Type := Bold | Red | Green | Cyan.

Definition esc : ascii := "027"%char.

Definition style_open (s : style) : jstring :=
  esc :: match s with
         | Bold => str "[1m"
         | Red => str "[31m"
         | Green => str "[32m"
         | Cyan => str "[36m"
         end.

Definition style_close (s : style) : jstring :=
  esc :: match s with
         | Bold => str "[22m"
         | _ => str "[39m"
         end.

(** [chalk.red(text)] and the like: the text between the escape
    sequences of the style, or the text alone without colour support. *)
Definition chalk (ev : env) (s : style) (text : jstring) : jstring :=
  if env_color ev then style_open s ++ text ++ style_close s else text.

(** The requests a world has seen, most recent first. *)
Definition request_of (e : event) : option jstring :=
  match e with Fetched url => Some url | _ => None end.

Definition requests (w : world) : list jstring := omap request_of (w_events w).

(** The line the spinner ended with, if any event was recorded. *)
Definition last_event (w : world) : option event := head (w_events w).

(** ** Properties *)

Lemma emit_tree e w : w_tree (emit e w) = w_tree w.
Proof. done. Qed.

Lemma emit_exitCode e w : w_exitCode (emit e w) = w_exitCode w.
Proof. done. Qed.

Lemma set_exitCode_tree n w : w_tree (set_exitCode n w) = w_tree w.
Proof. done. Qed.

Lemma set_tree_events t w : w_events (set_tree t w) = w_events w.
Proof. done. Qed.

Lemma fetch_tree ev url w : w_tree (fetch ev url w).1 = w_tree w.
Proof. done. Qed.

#[export] Hint Rewrite emit_tree emit_exitCode set_exitCode_tree
  set_tree_events fetch_tree : gfd_rw.

Lemma requests_emit e w :
  requests (emit e w) = option_list (request_of e) ++ requests w.
Proof. unfold requests. cbn [emit w_events omap list_omap]. by destruct (request_of e). Qed.

Lemma requests_set_tree t w : requests (set_tree t w) = requests w.
Proof. done. Qed.

Lemma requests_set_exitCode n w : requests (set_exitCode n w) = requests w.
Proof. done. Qed.

Lemma requests_fetch ev url w : requests (fetch ev url w).1 = url :: requests w.
Proof. done. Qed.

Lemma fetch_exitCode ev url w : w_exitCode (fetch ev url w).1 = w_exitCode w.
Proof. done. Qed.
