(* ===== verification/Extract.v ===== *)
(** * The streaming filter-extractor

    The [for await] loop of [downloadFolder]: for each entry of the
    archive, the path relative to the archive's top directory is
    computed; an entry that is the requested sub-folder or lies under it
    is re-rooted into the output directory and written (a directory is
    created, a file is written after its parent directory was created);
    any other entry is drained.  An exception inside the loop body is
    caught, reported as a warning, and the loop goes on.

    The loop keeps two variables, [filesExtracted] and
    [matchedSomething].

    Theorems are listed with their statements below. *)

From S2P Require Import Prelude JsString Regex Path Fs World.

(** ** Definitions *)

(** The variables of the loop. *)
Record counters : Type := Counters {
  filesExtracted : nat;
  matchedSomething : bool
}.

(** The constants of the loop. *)
Record params : Type := Params {
  prefix : jstring;                  (* [`${repo}-${finalBranch}/`] *)
  normalizedSubfolder : jstring;     (* [subfolder.replace(/\/$/, '')] *)
  outputDir : jstring
}.

(** [/\/$/] *)
Definition trailingSlashRegex : regex := Seq (Char slash) Eol.

(** [subfolder.replace(/\/$/, '')] *)
Definition stripTrailingSlash (subfolder : jstring) : jstring :=
  replace_re subfolder trailingSlashRegex [].

(** [entry.path.replace(prefix, '')] *)
Definition relativePath (pr : params) (e : entry) : jstring :=
  replace_str (e_path e) (prefix pr) [].

(** The test of the [if]: the entry is the sub-folder or under it. *)
Definition in_scope (pr : params) (rel : jstring) : bool :=
  str_eqb rel (normalizedSubfolder pr)
  || startsWith rel (normalizedSubfolder pr ++ [slash]).

(** [path.join(outputDir, relativePath.replace(normalizedSubfolder + '/', ''))] *)
Definition localPath (pr : params) (rel : jstring) : jstring :=
  join [outputDir pr; replace_str rel (normalizedSubfolder pr ++ [slash]) []].

Definition extracted_text (n : nat) : jstring :=
  str "Extracted " ++ show_nat n ++ str " files...".

Definition failed_text (e : entry) (err : js_error) : jstring :=
  str "Failed to extract " ++ e_path e ++ str ": " ++ err_message err.

(** The body of the [try]: the state it leaves and how it completes. *)
Definition extract_try (ev : env) (pr : params) (e : entry)
    (w : world) (c : counters) : world * counters * exn js_error unit :=
  let rel := relativePath pr e in
  if in_scope pr rel then
    let c1 := Counters (filesExtracted c) true in
    let lp := localPath pr rel in
    match e_type e with
    | EDirectory =>
        match ensureDir (env_cwd ev) (w_tree w) lp with
        | Throw err => (w, c1, Throw err)
        | Val t => (set_tree t w, c1, Val ())
        end
    | EFile =>
        match ensureDir (env_cwd ev) (w_tree w) (dirname lp) with
        | Throw err => (w, c1, Throw err)
        | Val t =>
            match writeStream (env_cwd ev) t lp (e_content e) with
            | Throw err => (set_tree t w, c1, Throw err)
            | Val t' =>
                let c2 := Counters (S (filesExtracted c1)) true in
                (emit (SpinnerText (extracted_text (filesExtracted c2)))
                   (set_tree t' w), c2, Val ())
            end
        end
    end
  else (w, c, Val ()).

(** One iteration: the [try] and its [catch]. *)
Definition extract_entry (ev : env) (pr : params)
    (wc : world * counters) (e : entry) : world * counters :=
  match extract_try ev pr e wc.1 wc.2 with
  | (w, c, Val _) => (w, c)
  | (w, c, Throw err) => (emit (SpinnerWarn (failed_text e err)) w, c)
  end.

(** The loop over the entries the decoder yields. *)
Definition extract_all (ev : env) (pr : params) (entries : list entry)
    (w : world) (c : counters) : world * counters :=
  foldl (extract_entry ev pr) (w, c) entries.

(** ** Specification *)

(** The loop as a transition system.  A state is the world and the
    variables of the loop; an entry takes one state to the next by one
    of six rules: the entry is out of scope; it is a directory that is
    created or not; it is a file that is written, or whose directory
    cannot be created, or whose write fails. *)
Abbreviation state := (world * counters)%type.

Definition matched (c : counters) : counters :=
  Counters (filesExtracted c) true.

Definition counted (c : counters) : counters :=
  Counters (S (filesExtracted c)) true.

Definition warn (e : entry) (err : js_error) (w : world) : world :=
  emit (SpinnerWarn (failed_text e err)) w.

Inductive step (ev : env) (pr : params) (e : entry) : state → state → Prop :=
  | step_skip w c :
      in_scope pr (relativePath pr e) = false →
      step ev pr e (w, c) (w, c)
  | step_dir w c t' :
      in_scope pr (relativePath pr e) = true → e_type e = EDirectory →
      ensureDir (env_cwd ev) (w_tree w) (localPath pr (relativePath pr e))
        = Val t' →
      step ev pr e (w, c) (set_tree t' w, matched c)
  | step_dir_fail w c err :
      in_scope pr (relativePath pr e) = true → e_type e = EDirectory →
      ensureDir (env_cwd ev) (w_tree w) (localPath pr (relativePath pr e))
        = Throw err →
      step ev pr e (w, c) (warn e err w, matched c)
  | step_file w c t1 t2 :
      in_scope pr (relativePath pr e) = true → e_type e = EFile →
      ensureDir (env_cwd ev) (w_tree w)
        (dirname (localPath pr (relativePath pr e))) = Val t1 →
      writeStream (env_cwd ev) t1 (localPath pr (relativePath pr e))
        (e_content e) = Val t2 →
      step ev pr e (w, c)
        (emit (SpinnerText (extracted_text (S (filesExtracted c))))
           (set_tree t2 w), counted c)
  | step_file_no_dir w c err :
      in_scope pr (relativePath pr e) = true → e_type e = EFile →
      ensureDir (env_cwd ev) (w_tree w)
        (dirname (localPath pr (relativePath pr e))) = Throw err →
      step ev pr e (w, c) (warn e err w, matched c)
  | step_file_no_write w c t1 err :
      in_scope pr (relativePath pr e) = true → e_type e = EFile →
      ensureDir (env_cwd ev) (w_tree w)
        (dirname (localPath pr (relativePath pr e))) = Val t1 →
      writeStream (env_cwd ev) t1 (localPath pr (relativePath pr e))
        (e_content e) = Throw err →
      step ev pr e (w, c) (warn e err (set_tree t1 w), matched c).

(** The entries of an archive, in order. *)
Inductive steps (ev : env) (pr : params) : list entry → state → state → Prop :=
  | steps_nil s : steps ev pr [] s s
  | steps_cons e es s1 s2 s3 :
      step ev pr e s1 s2 → steps ev pr es s2 s3 →
      steps ev pr (e :: es) s1 s3.

(** The entries the loop writes or creates. *)
Definition scoped (pr : params) (e : entry) : bool :=
  in_scope pr (relativePath pr e).

Definition scoped_file (pr : params) (e : entry) : bool :=
  scoped pr e && bool_decide (e_type e = EFile).

Definition is_warn (e : event) : bool :=
  match e with SpinnerWarn _ => true | _ => false end.

(** The warnings a world has seen. *)
Definition warnings (w : world) : nat :=
  length (filter is_warn (w_events w)).

Definition progress_of (e : event) : option jstring :=
  match e with SpinnerText text => Some text | _ => None end.

(** The texts the spinner was set to, the newest first. *)
Definition progress (w : world) : list jstring :=
  omap progress_of (w_events w).

(** The progress lines for the counts [n + k] down to [n + 1]. *)
Definition countdown (n k : nat) : list jstring :=
  reverse (extracted_text <$> seq (S n) k).

(** The path an in-scope entry is written to, relative to the output
    directory. *)
Definition rerooted (pr : params) (e : entry) : jstring :=
  replace_str (relativePath pr e) (normalizedSubfolder pr ++ [slash]) [].

(** An entry is tame when its re-rooted path has no [..] segment. *)
Definition tame (pr : params) (e : entry) : Prop :=
  scoped pr e = true →
  Forall (λ seg, seg ≠ str "..") (split_on slash (rerooted pr e)).

#[global] Instance tame_dec pr e : Decision (tame pr e).
Proof. unfold tame. apply _. Defined.

(** An entry of the sub-folder, by its path in the archive: the root
    folder of the archive, the sub-folder, and then nothing more, or a
    slash and more. *)
Definition in_subfolder (pr : params) (e : entry) : Prop :=
  e_path e = prefix pr ++ normalizedSubfolder pr ∨
  (prefix pr ++ normalizedSubfolder pr ++ [slash]) `prefix_of` e_path e.

#[global] Instance in_subfolder_dec pr e : Decision (in_subfolder pr e).
Proof. unfold in_subfolder. apply _. Defined.

(** The segments of the output directory. *)
Definition out_segs (pr : params) : list jstring := path_segs (outputDir pr).

(** ** Properties *)

Section extract.
Context (ev : env) (pr : params).

(** *** The function implements the transition system *)

Lemma extract_entry_step s e : step ev pr e s (extract_entry ev pr s e).
Proof.
  destruct s as [w c]. unfold extract_entry, extract_try. cbn [fst snd].
  destruct (in_scope pr _) eqn:Hs; [|by constructor].
  destruct (e_type e) eqn:Ht.
  - destruct (ensureDir _ _ (dirname _)) as [t1|err] eqn:H1;
      [|by apply step_file_no_dir].
    destruct (writeStream _ _ _ _) as [t2|err] eqn:H2.
    + by eapply step_file.
    + by eapply step_file_no_write.
  - destruct (ensureDir _ _ _) as [t1|err] eqn:H1.
    + by apply step_dir.
    + by apply step_dir_fail.
Qed.

Lemma extract_all_steps es s : steps ev pr es s (extract_all ev pr es s.1 s.2).
Proof.
  unfold extract_all. rewrite <-surjective_pairing.
  revert s; induction es as [|e es IH]; intros s; [constructor|].
  econstructor; [apply extract_entry_step|apply IH].
Qed.

(** The loop, entry by entry. *)
Lemma extract_all_cons e es w c :
  extract_all ev pr (e :: es) w c
  = extract_all ev pr es (extract_entry ev pr (w, c) e).1
      (extract_entry ev pr (w, c) e).2.
Proof. unfold extract_all. cbn [foldl]. by destruct (extract_entry _ _ _ _). Qed.

Lemma extract_all_app es1 es2 w c :
  extract_all ev pr (es1 ++ es2) w c
  = extract_all ev pr es2 (extract_all ev pr es1 w c).1
      (extract_all ev pr es1 w c).2.
Proof.
  unfold extract_all. rewrite foldl_app. by destruct (foldl _ _ es1).
Qed.

Lemma step_deterministic e s s1 s2 :
  step ev pr e s s1 → step ev pr e s s2 → s1 = s2.
Proof. intros H1 H2. inv H1; inv H2; congruence. Qed.

Lemma steps_deterministic es s s1 s2 :
  steps ev pr es s s1 → steps ev pr es s s2 → s1 = s2.
Proof.
  intros H1. revert s2. induction H1 as [|e es s s' s'' H _ IH]; intros s2 H2.
  - by inv H2.
  - inv H2. apply IH. by rewrite (step_deterministic _ _ _ _ H H3).
Qed.

(** The loop is the only run of the transition system. *)
Lemma steps_extract_all es s s' :
  steps ev pr es s s' ↔ s' = extract_all ev pr es s.1 s.2.
Proof.
  split.
  - intros H. eapply steps_deterministic; [done|apply extract_all_steps].
  - intros ->. apply extract_all_steps.
Qed.

(** *** Rule induction *)

(** A property of states that every rule keeps holds after the loop. *)
Lemma steps_invariant (P : state → Prop) es s s' :
  (∀ e s1 s2, e ∈ es → P s1 → step ev pr e s1 s2 → P s2) →
  steps ev pr es s s' → P s → P s'.
Proof.
  intros Hstep H. induction H as [|e es s1 s2 s3 H1 _ IH]; [done|].
  intros Hs. apply IH.
  - intros e' ?? He'. apply Hstep. by right.
  - eapply Hstep; [by left|done..].
Qed.

(** *** [matchedSomething] *)

Lemma step_matched e s s' :
  step ev pr e s s' →
  matchedSomething s'.2 = matchedSomething s.2 || scoped pr e.
Proof.
  unfold scoped. intros H. inv H; cbn [snd matched counted matchedSomething];
    repeat match goal with H : in_scope _ _ = _ |- _ => rewrite H end;
    by rewrite ?orb_true_r, ?orb_false_r.
Qed.

Lemma steps_matched es s s' :
  steps ev pr es s s' →
  matchedSomething s'.2 = matchedSomething s.2 || existsb (scoped pr) es.
Proof.
  intros H. induction H as [|e es s1 s2 s3 H1 _ IH]; simpl.
  - by rewrite orb_false_r.
  - by rewrite IH, (step_matched _ _ _ H1), orb_assoc.
Qed.

(** Entries out of scope leave the state as it is. *)
Lemma steps_none_scoped es s s' :
  steps ev pr es s s' → existsb (scoped pr) es = false → s' = s.
Proof.
  intros H. induction H as [|e es s1 s2 s3 H1 _ IH]; [done|].
  cbn [existsb]. intros [He Hes]%orb_false_iff. rewrite IH by done.
  unfold scoped in He. inv H1; congruence.
Qed.

(** An entry that is neither the sub-folder nor below it changes
    nothing: the tree, the output and the variables of the loop are as
    before. *)
Lemma extract_entry_out_of_scope s e :
  scoped pr e = false → extract_entry ev pr s e = s.
Proof.
  unfold scoped, extract_entry, extract_try. intros ->. by destruct s.
Qed.

(** The loop on an archive is the loop on its entries in scope. *)
Lemma extract_all_filter es w c :
  extract_all ev pr es w c
  = extract_all ev pr (filter (λ e, scoped pr e = true) es) w c.
Proof.
  revert w c. induction es as [|e es IH]; intros w c; [done|].
  rewrite filter_cons. destruct (decide (scoped pr e = true)) as [Hs|Hs].
  - by rewrite !extract_all_cons, IH.
  - apply not_true_is_false in Hs.
    by rewrite extract_all_cons, extract_entry_out_of_scope, IH.
Qed.

(** *** [filesExtracted] *)

Lemma warnings_emit e w :
  warnings (emit e w) = (if is_warn e then 1 else 0) + warnings w.
Proof. unfold warnings. cbn [emit w_events]. rewrite filter_cons. by destruct (is_warn e). Qed.

Lemma warnings_set_tree t w : warnings (set_tree t w) = warnings w.
Proof. done. Qed.

(** Each entry adds to the count, to the warnings, or to neither; a
    file in scope adds to one of the two. *)
Lemma step_count e s s' :
  step ev pr e s s' →
  ∃ f d, filesExtracted s'.2 = filesExtracted s.2 + f ∧
         warnings s'.1 = warnings s.1 + d ∧
         f ≤ (if scoped_file pr e then 1 else 0) ∧
         (if scoped_file pr e then 1 else 0) ≤ f + d.
Proof.
  unfold scoped_file, scoped.
  intros H; inv H; unfold warn; cbn [fst snd matched counted filesExtracted];
    rewrite ?warnings_emit, ?warnings_set_tree;
    repeat match goal with
      | H : in_scope _ _ = _ |- _ => rewrite H
      | H : e_type _ = _ |- _ => rewrite H
      end; cbn [andb is_warn].
  - exists 0, 0. lia.
  - exists 0, 0. rewrite bool_decide_false by done. lia.
  - exists 0, 1. rewrite bool_decide_false by done. lia.
  - exists 1, 0. rewrite bool_decide_true by done. lia.
  - exists 0, 1. rewrite bool_decide_true by done. lia.
  - exists 0, 1. rewrite bool_decide_true by done. lia.
Qed.

Lemma steps_count es s s' :
  steps ev pr es s s' →
  ∃ f d, filesExtracted s'.2 = filesExtracted s.2 + f ∧
         warnings s'.1 = warnings s.1 + d ∧
         f ≤ length (filter (λ e, scoped_file pr e = true) es) ∧
         length (filter (λ e, scoped_file pr e = true) es) ≤ f + d.
Proof.
  intros H. induction H as [|e es s1 s2 s3 H1 _ (f2 & d2 & Hf2 & Hd2 & ? & ?)].
  - exists 0, 0. simpl. lia.
  - destruct (step_count _ _ _ H1) as (f1 & d1 & Hf1 & Hd1 & ? & ?).
    exists (f1 + f2), (d1 + d2). rewrite Hf2, Hf1, Hd2, Hd1, filter_cons.
    destruct (scoped_file pr e); [rewrite decide_True by done|
                                  rewrite decide_False by done]; simpl; lia.
Qed.

(** *** The progress lines *)

Lemma countdown_add n k1 k2 :
  countdown n (k1 + k2) = countdown (n + k1) k2 ++ countdown n k1.
Proof.
  unfold countdown. by rewrite seq_app, fmap_app, reverse_app, Nat.add_succ_l.
Qed.

(** An entry sets the text once, to the new count, when it adds to the
    count, and not at all otherwise. *)
Lemma step_progress e s s' :
  step ev pr e s s' →
  ∃ k, filesExtracted s'.2 = filesExtracted s.2 + k ∧
       progress s'.1 = countdown (filesExtracted s.2) k ++ progress s.1.
Proof.
  intros H; inv H; [exists 0|exists 0|exists 0|exists 1|exists 0|exists 0];
    cbn [fst snd matched counted filesExtracted]; (split; [lia|done]).
Qed.

Lemma steps_progress es s s' :
  steps ev pr es s s' →
  ∃ k, filesExtracted s'.2 = filesExtracted s.2 + k ∧
       progress s'.1 = countdown (filesExtracted s.2) k ++ progress s.1.
Proof.
  intros H. induction H as [s|e es s1 s2 s3 H1 _ (k2 & Hf2 & Hp2)].
  - exists 0. split; [lia|done].
  - destruct (step_progress _ _ _ H1) as (k1 & Hf1 & Hp1). exists (k1 + k2).
    split; [lia|]. by rewrite Hp2, Hp1, Hf1, countdown_add, (assoc_L (++)).
Qed.

(** *** What the loop leaves alone *)

Lemma step_exitCode e s s' :
  step ev pr e s s' → w_exitCode s'.1 = w_exitCode s.1.
Proof. intros H; by inv H. Qed.

Lemma steps_exitCode es s s' :
  steps ev pr es s s' → w_exitCode s'.1 = w_exitCode s.1.
Proof.
  intros H. apply (steps_invariant (λ x, w_exitCode x.1 = w_exitCode s.1) es s);
    [|done..]. intros e s1 s2 _ <-. apply step_exitCode.
Qed.

(** The loop sends no request. *)
Lemma step_fetched e s s' url :
  step ev pr e s s' → Fetched url ∈ w_events s'.1 → Fetched url ∈ w_events s.1.
Proof.
  intros H; inv H; cbn [fst warn emit set_tree w_events]; try done;
    by intros [?|?]%elem_of_cons.
Qed.

Lemma steps_fetched es s s' url :
  steps ev pr es s s' →
  Fetched url ∈ w_events s'.1 → Fetched url ∈ w_events s.1.
Proof.
  intros H. induction H as [|e es s1 s2 s3 H1 _ IH]; [done|].
  intros ?. eapply step_fetched; [done|]. by apply IH.
Qed.

Lemma step_requests e s s' : step ev pr e s s' → requests s'.1 = requests s.1.
Proof. intros H; by inv H. Qed.

Lemma steps_requests es s s' :
  steps ev pr es s s' → requests s'.1 = requests s.1.
Proof.
  intros H. induction H as [|e es s1 s2 s3 H1 _ IH]; [done|].
  by rewrite IH, (step_requests _ _ _ H1).
Qed.

(** A directory that is there stays a directory. *)
Lemma step_dir_kept e s s' p :
  step ev pr e s s' → node_at (w_tree s.1) p = Some Dir →
  node_at (w_tree s'.1) p = Some Dir.
Proof.
  intros H; inv H; cbn [fst warn emit set_tree w_tree]; try done;
    repeat match goal with
      | H : ensureDir _ _ _ = Val _ |- _ => apply lift_errno_Val in H
      | H : writeStream _ _ _ _ = Val _ |- _ => apply lift_errno_Val in H
      end; intros Hp; eauto using mkdirs_dir_kept, write_node_dir_kept.
Qed.

Lemma steps_dir_kept es s s' p :
  steps ev pr es s s' → node_at (w_tree s.1) p = Some Dir →
  node_at (w_tree s'.1) p = Some Dir.
Proof.
  intros H. induction H as [|e es s1 s2 s3 H1 _ IH]; [done|].
  intros Hp. eapply IH, step_dir_kept; done.
Qed.

(** *** Well-formedness of the tree *)

Lemma step_wf e s s' : step ev pr e s s' → wf (w_tree s.1) → wf (w_tree s'.1).
Proof.
  intros H Hwf; inv H; cbn [fst warn emit set_tree w_tree] in *; try done.
  - by eapply ensureDir_wf.
  - eapply writeStream_wf; [|done]. by eapply ensureDir_wf.
  - by eapply ensureDir_wf.
Qed.

Lemma steps_wf es s s' :
  steps ev pr es s s' → wf (w_tree s.1) → wf (w_tree s'.1).
Proof.
  intros H. apply (steps_invariant (λ x, wf (w_tree x.1)) es s); [|done].
  intros e s1 s2 _ ? ?. by eapply step_wf.
Qed.
End extract.

(** *** Scope and re-rooting *)

Section scope.
Context (pr : params).

(** An entry is in scope when its relative path is the sub-folder or
    continues it after a slash. *)
Lemma in_scope_iff rel :
  in_scope pr rel = true ↔
  rel = normalizedSubfolder pr ∨
  ∃ rest, rel = normalizedSubfolder pr ++ slash :: rest.
Proof.
  unfold in_scope. rewrite orb_true_iff, str_eqb_eq, startsWith_prefix.
  split; (intros [?|[rest ->]]; [by left|right]); exists rest;
    by rewrite <-?app_assoc, ?cons_middle.
Qed.

(** For an entry in the root folder of the archive, the test of the
    loop is the test on its path. *)
Lemma scoped_in_subfolder e :
  prefix pr `prefix_of` e_path e → scoped pr e = true ↔ in_subfolder pr e.
Proof.
  intros [rest Hp]. unfold scoped, relativePath, in_subfolder.
  rewrite Hp, replace_str_prefix, in_scope_iff. cbn [app].
  split; (intros [H|H]; [left|right]).
  - by rewrite H.
  - destruct H as [r ->]. exists r. by rewrite <-!app_assoc.
  - by apply app_inv_head in H.
  - destruct H as [r H]. exists r. rewrite <-!app_assoc in H.
    by apply app_inv_head in H.
Qed.

(** Below the sub-folder, the re-rooted path is what follows it. *)
Lemma rerooted_below e rest :
  relativePath pr e = normalizedSubfolder pr ++ slash :: rest →
  rerooted pr e = rest.
Proof.
  unfold rerooted. intros ->.
  by rewrite cons_middle, app_assoc, replace_str_prefix.
Qed.

(** The sub-folder itself is not re-rooted: its path is kept. *)
Lemma rerooted_exact e :
  relativePath pr e = normalizedSubfolder pr →
  rerooted pr e = normalizedSubfolder pr.
Proof.
  unfold rerooted. intros ->. apply replace_str_longer.
  rewrite length_app. simpl. lia.
Qed.
End scope.

(** *** Confinement to the output directory *)

Section confined.
Context (ev : env) (pr : params).
Context (Habs : isAbsolute (outputDir pr) = true).

(** An in-scope entry without [..] goes to the output directory or
    below it. *)
Lemma localPath_segs e :
  fs_segs (env_cwd ev) (localPath pr (relativePath pr e))
  = path_segs (localPath pr (relativePath pr e)).
Proof. by apply fs_segs_abs, isAbsolute_join. Qed.

Lemma localPath_under e :
  tame pr e → scoped pr e = true →
  out_segs pr `prefix_of` path_segs (localPath pr (relativePath pr e)).
Proof. intros Ht Hs. by apply join_under, Ht. Qed.

Lemma dirname_localPath_segs e :
  fs_segs (env_cwd ev) (dirname (localPath pr (relativePath pr e)))
  = removelast (path_segs (localPath pr (relativePath pr e))).
Proof.
  destruct (dirname_join_segs (outputDir pr) Habs (rerooted pr e)) as [Hd Hs].
  by rewrite fs_segs_abs.
Qed.

Lemma removelast_comparable (out segs : list jstring) :
  out `prefix_of` segs →
  out `prefix_of` removelast segs ∨ removelast segs `prefix_of` out.
Proof.
  intros [q ->]. destruct (decide (q = [])) as [->|Hq].
  - right. rewrite app_nil_r. destruct (decide (out = [])) as [->|Hne]; [done|].
    rewrite (app_removelast_last [] Hne) at 2. by apply prefix_app_r.
  - left. rewrite removelast_app by done. by apply prefix_app_r.
Qed.

Lemma step_confined t0 e s s' :
  tame pr e → step ev pr e s s' →
  confined (out_segs pr) t0 (w_tree s.1) →
  confined (out_segs pr) t0 (w_tree s'.1).
Proof.
  intros Ht H Hc.
  inv H; cbn [fst warn emit set_tree w_tree] in *; try done;
    repeat match goal with
      | H : ensureDir _ _ _ = Val _ |- _ => apply lift_errno_Val in H
      | H : writeStream _ _ _ _ = Val _ |- _ => apply lift_errno_Val in H
      end; rewrite ?localPath_segs, ?dirname_localPath_segs in *.
  - eapply mkdirs_confined; [done| |done]. left. by apply localPath_under.
  - eapply write_node_confined; [|by apply localPath_under|done].
    eapply mkdirs_confined; [done| |done].
    by apply removelast_comparable, localPath_under.
  - eapply mkdirs_confined; [done| |done].
    by apply removelast_comparable, localPath_under.
Qed.

Lemma steps_confined t0 es s s' :
  Forall (tame pr) es → steps ev pr es s s' →
  confined (out_segs pr) t0 (w_tree s.1) →
  confined (out_segs pr) t0 (w_tree s'.1).
Proof.
  intros Ht H.
  apply (steps_invariant ev pr (λ x, confined (out_segs pr) t0 (w_tree x.1)) es s);
    [|done].
  intros e s1 s2 He ? ?. eapply step_confined; [|done..].
  by eapply Forall_forall in Ht.
Qed.

(** *** The tree after an entry *)

Lemma localPath_clean e rest :
  rerooted pr e = rest → Forall clean (rel_segs rest) →
  path_segs (localPath pr (relativePath pr e)) = out_segs pr ++ rel_segs rest.
Proof.
  intros Hr Hc. unfold localPath. fold (rerooted pr e).
  rewrite Hr, path_segs_join, norm_segs_filter by done.
  by rewrite reverse_involutive.
Qed.

Lemma extract_try_file e w c :
  scoped pr e = true → e_type e = EFile →
  extract_try ev pr e w c =
  match mkdirs (w_tree w) []
          (removelast (path_segs (localPath pr (relativePath pr e)))) with
  | Throw err =>
      (w, matched c,
       Throw (sys_error err (str "mkdir")
                (dirname (localPath pr (relativePath pr e)))))
  | Val t1 =>
      match write_node t1 (path_segs (localPath pr (relativePath pr e)))
              (e_content e) with
      | Throw err =>
          (set_tree t1 w, matched c,
           Throw (sys_error err (str "open")
                    (localPath pr (relativePath pr e))))
      | Val t2 =>
          (emit (SpinnerText (extracted_text (S (filesExtracted c))))
             (set_tree t2 w), counted c, Val ())
      end
  end.
Proof.
  unfold extract_try, scoped, ensureDir, writeStream. intros -> ->.
  rewrite dirname_localPath_segs, localPath_segs.
  destruct (mkdirs _ _ _) as [t1|]; [|done]. cbn [lift_errno].
  by destruct (write_node _ _ _).
Qed.

Lemma extract_try_dir e w c :
  scoped pr e = true → e_type e = EDirectory →
  extract_try ev pr e w c =
  match mkdirs (w_tree w) [] (path_segs (localPath pr (relativePath pr e))) with
  | Throw err =>
      (w, matched c,
       Throw (sys_error err (str "mkdir") (localPath pr (relativePath pr e))))
  | Val t1 => (set_tree t1 w, matched c, Val ())
  end.
Proof.
  unfold extract_try, scoped, ensureDir. intros -> ->.
  rewrite localPath_segs. by destruct (mkdirs _ _ _).
Qed.
End confined.

(** ** Theorems *)

(** An example: the archive of a repository [repo] at branch [main]
    with the files [keep/a.txt], [keep/sub/b.txt] and [skip/c.txt],
    extracted for the sub-folder [keep] into [/home/u/keep]. *)
Definition ex_env : env :=
  Env (str "/home/u") (str "/tmp") 1700 (λ _, Throw (Error [])) false None
      (Val None).

Definition ex_params : params :=
  Params (str "repo-main/") (str "keep") (str "/home/u/keep").

Definition ex_entries : list entry :=
  [ Entry (str "repo-main/") EDirectory [];
    Entry (str "repo-main/keep/") EDirectory [];
    Entry (str "repo-main/keep/a.txt") EFile (str "A");
    Entry (str "repo-main/keep/sub/b.txt") EFile (str "B");
    Entry (str "repo-main/skip/c.txt") EFile (str "C") ].

Definition ex_world : world :=
  World {[ [str "home"] := Dir; [str "home"; str "u"] := Dir;
           [str "home"; str "u"; str "keep"] := Dir ]} [] None.

(** C1: a file entry below the sub-folder, whose remaining path [rest]
    has clean segments, is written under the output directory at the
    segments of [rest]: the missing directories on the way are created,
    the file holds the entry's content, the count goes up by one and
    the progress line is shown.  This needs no file to stand where a
    directory is needed and no directory to stand at the file's
    place. *)
Theorem extract_file_written ev pr e w c rest :
  isAbsolute (outputDir pr) = true → wf (w_tree w) →
  e_type e = EFile →
  relativePath pr e = normalizedSubfolder pr ++ slash :: rest →
  Forall clean (rel_segs rest) → rel_segs rest ≠ [] →
  no_file_on (w_tree w) [] (removelast (out_segs pr ++ rel_segs rest)) →
  w_tree w !! (out_segs pr ++ rel_segs rest) ≠ Some Dir →
  extract_entry ev pr (w, c) e =
    (emit (SpinnerText (extracted_text (S (filesExtracted c))))
       (set_tree (<[out_segs pr ++ rel_segs rest := File (e_content e)]>
                    (w_tree w ∪
                     dirs_of [] (removelast (out_segs pr ++ rel_segs rest))))
          w),
     counted c).
Proof.
  intros Habs Hwf Hty Hrel Hc Hne Hnf Hnd.
  assert (scoped pr e = true) as Hs by (apply in_scope_iff; eauto).
  unfold extract_entry. cbn [fst snd].
  rewrite extract_try_file, (localPath_clean pr Habs e rest) by
    (done || by apply rerooted_below).
  destruct (write_after_mkdirs (w_tree w) (out_segs pr ++ rel_segs rest)
              (e_content e)) as (t1 & -> & ->); [done| |done..].
  by destruct (out_segs pr), (rel_segs rest).
Qed.

Lemma extract_file_written_witness :
  w_tree (extract_entry ex_env ex_params (ex_world, Counters 1 true)
            (Entry (str "repo-main/keep/sub/b.txt") EFile (str "B"))).1
    !! [str "home"; str "u"; str "keep"; str "sub"; str "b.txt"]
  = Some (File (str "B")).
Proof.
  rewrite (extract_file_written ex_env ex_params _ ex_world _ (str "sub/b.txt"));
    apply (bool_decide_unpack _); vm_compute; exact I.
Defined.

(** C2: when no in-scope entry has a [..] segment in its re-rooted
    path, the loop changes the tree only at the output directory and
    below: every other path holds after the loop what it held before. *)
Theorem extract_all_confined ev pr es w c p :
  isAbsolute (outputDir pr) = true → wf (w_tree w) →
  node_at (w_tree w) (out_segs pr) = Some Dir → Forall (tame pr) es →
  ¬ out_segs pr `prefix_of` p →
  w_tree (extract_all ev pr es w c).1 !! p = w_tree w !! p.
Proof.
  intros Habs Hwf Hout Ht Hp.
  pose proof (extract_all_steps ev pr es (w, c)) as H.
  apply (steps_confined ev pr Habs (w_tree w)) in H as (_ & _ & H); [|done..].
  by apply H.
Qed.

Lemma extract_all_confined_witness :
  w_tree (extract_all ex_env ex_params ex_entries ex_world (Counters 0 false)).1
    !! [str "home"; str "u"; str "skip"; str "c.txt"] = None.
Proof.
  rewrite (extract_all_confined ex_env ex_params ex_entries ex_world);
    apply (bool_decide_unpack _); vm_compute; exact I.
Defined.


(** After the loop [matchedSomething] is true exactly when it was
    true before or some entry was in scope, whether or not that entry
    could be written. *)
Lemma extract_all_matched ev pr es w c :
  matchedSomething (extract_all ev pr es w c).2
  = matchedSomething c || existsb (scoped pr) es.
Proof.
  pose proof (extract_all_steps ev pr es (w, c)) as H.
  by apply steps_matched in H.
Qed.

(** C23: only the sub-folder counts.  On an archive whose entries all
    lie in its root folder, the loop ends in the same world and with
    the same counters as on the entries of the sub-folder alone, those
    whose path is the root folder followed by the sub-folder, or by the
    sub-folder, a slash and more: the other entries are drained and
    leave no trace, and a folder whose name only begins like the
    sub-folder is none of it. *)
Theorem extract_all_scope ev pr es w c :
  Forall (λ e, prefix pr `prefix_of` e_path e) es →
  extract_all ev pr es w c
  = extract_all ev pr (filter (in_subfolder pr) es) w c.
Proof.
  intros Hes. rewrite extract_all_filter. f_equal.
  induction Hes as [|e es He _ IH]; [done|]. rewrite !filter_cons, IH.
  pose proof (scoped_in_subfolder pr e He).
  by destruct (decide (scoped pr e = true)), (decide (in_subfolder pr e));
    naive_solver.
Qed.

Lemma extract_all_scope_witness :
  extract_all ex_env ex_params
    (ex_entries ++ [Entry (str "repo-main/keepsake/d.txt") EFile (str "D")])
    ex_world (Counters 0 false)
  = extract_all ex_env ex_params
      [ Entry (str "repo-main/keep/") EDirectory [];
        Entry (str "repo-main/keep/a.txt") EFile (str "A");
        Entry (str "repo-main/keep/sub/b.txt") EFile (str "B") ]
      ex_world (Counters 0 false).
Proof.
  rewrite extract_all_scope; [reflexivity|].
  apply (bool_decide_unpack _). vm_compute. exact I.
Defined.

(** [filesExtracted] never goes down and goes up by at most the
    number of in-scope file entries; what is missing to that number is
    covered by warnings: each in-scope file entry was counted or
    reported as failed. *)
Lemma extract_all_count ev pr es w c :
  let r := extract_all ev pr es w c in
  let n := length (filter (λ e, scoped_file pr e = true) es) in
  filesExtracted c ≤ filesExtracted r.2 ≤ filesExtracted c + n ∧
  filesExtracted c + n + warnings w ≤ filesExtracted r.2 + warnings r.1.
Proof.
  pose proof (extract_all_steps ev pr es (w, c)) as H.
  apply steps_count in H as (f & d & Hf & Hd & ? & ?). simpl in *. lia.
Qed.

(** C24: the progress lines.  The loop sets the text of the spinner
    once for each file it has written, to [Extracted n files...] with
    the counts in order and without a gap, from the count before the
    loop plus one up to the count after it, and nothing else sets the
    text; so the line shown last carries the number that the success
    line reports. *)
Theorem extract_all_progress ev pr es w c :
  let s := extract_all ev pr es w c in
  let k := filesExtracted s.2 - filesExtracted c in
  filesExtracted s.2 = filesExtracted c + k ∧
  progress s.1 = countdown (filesExtracted c) k ++ progress w ∧
  (0 < k → head (progress s.1) = Some (extracted_text (filesExtracted s.2))).
Proof.
  cbn zeta.
  destruct (steps_progress ev pr es _ _ (extract_all_steps ev pr es (w, c)))
    as (k & Hk & Hp). cbn [fst snd] in Hk, Hp.
  replace (_ - _) with k by lia. split_and!; [done..|].
  rewrite Hp, Hk. destruct k as [|k]; [lia|]. intros _.
  by rewrite <-Nat.add_1_r, countdown_add, Nat.add_assoc, Nat.add_1_r.
Qed.

(** After the loop on the example archive the spinner shows the count
    of its two files. *)
Lemma extract_all_progress_witness :
  head (progress (extract_all ex_env ex_params ex_entries ex_world
                    (Counters 0 false)).1)
  = Some (str "Extracted 2 files...").
Proof.
  destruct (extract_all_progress ex_env ex_params ex_entries ex_world
              (Counters 0 false)) as (_ & _ & H).
  rewrite H; [reflexivity|vm_compute; lia].
Defined.

(** The texts of the example, the newest first. *)
Example extract_all_progress_example :
  progress (extract_all ex_env ex_params ex_entries ex_world
              (Counters 0 false)).1
  = [str "Extracted 2 files..."; str "Extracted 1 files..."].
Proof. vm_compute. reflexivity. Qed.

(** The loop keeps the tree well formed: every entry of the tree
    still lies in a directory. *)
Lemma extract_all_wf ev pr es w c :
  wf (w_tree w) → wf (w_tree (extract_all ev pr es w c).1).
Proof.
  intros Hwf. pose proof (extract_all_steps ev pr es (w, c)) as H.
  by apply steps_wf in H.
Qed.

Lemma extract_all_wf_witness :
  wf (w_tree (extract_all ex_env ex_params ex_entries ex_world
                (Counters 0 false)).1).
Proof.
  apply extract_all_wf. apply (bool_decide_unpack _). vm_compute. exact I.
Defined.

(** C32: an entry whose relative path is the sub-folder itself is not
    re-rooted: the prefix that is cut has a slash more than the path,
    so the entry goes to the sub-folder's own path below the output
    directory and not to the output directory. *)
Theorem exact_match_path pr e :
  relativePath pr e = normalizedSubfolder pr →
  scoped pr e = true ∧
  localPath pr (relativePath pr e)
  = join [outputDir pr; normalizedSubfolder pr].
Proof.
  intros Hrel. split; [apply in_scope_iff; auto|].
  unfold localPath. fold (rerooted pr e). by rewrite rerooted_exact.
Qed.

Lemma exact_match_path_witness :
  localPath ex_params
    (relativePath ex_params (Entry (str "repo-main/keep") EFile (str "K")))
  = str "/home/u/keep/keep".
Proof.
  destruct (exact_match_path ex_params
              (Entry (str "repo-main/keep") EFile (str "K"))) as [_ ->];
    vm_compute; reflexivity.
Defined.

(** The prefix is cut where it first occurs, at the start of the path
    or not: an entry outside of the root folder of the archive whose
    path holds the prefix further on is taken for an entry of the
    sub-folder. *)
Example relativePath_inner_prefix :
  let e := Entry (str "keep/repo-main/a.txt") EFile (str "A") in
  relativePath ex_params e = str "keep/a.txt" ∧
  scoped ex_params e = true ∧
  localPath ex_params (relativePath ex_params e) = str "/home/u/keep/a.txt".
Proof. by vm_compute. Qed.

(** The loop does not set the exit code and sends no request. *)
Lemma extract_all_quiet ev pr es w c url :
  let r := extract_all ev pr es w c in
  w_exitCode r.1 = w_exitCode w ∧
  (Fetched url ∈ w_events r.1 → Fetched url ∈ w_events w).
Proof.
  pose proof (extract_all_steps ev pr es (w, c)) as H. split.
  - by apply steps_exitCode in H.
  - intros Hu. by apply (steps_fetched _ _ _ _ _ url H).
Qed.
