(* ===== verification/Unpack.v ===== *)
(** * What the loop leaves in the output directory

    An abstract account of the extraction: each entry in scope is put
    at its place in the tree ([place]: a directory with the directories
    on the way, a file with its content and the directories above it),
    without paths as strings, without errors and without output
    ([unpack]); and the same with the entries passed over that do not
    fit the tree they meet ([best_effort]).

    Theorems: the loop of [Extract] is the best-effort extraction on
    every archive, with a warning for each entry passed over and a
    count of the files that were written ([extract_all_best_effort]);
    it is [unpack] as long as every entry fits ([extract_all_unpack]);
    what [unpack] leaves at a path is the content of the last file
    entry that goes there ([unpack_file], [written_Some]); and on a
    coherent archive, extracted into an empty directory, every entry
    fits ([coherent_all_fit]), so the loop leaves each file of the
    sub-folder at its place with its content, the directories of the
    archive, nothing else, and no warning ([extract_all_delivers]). *)

From S2P Require Import Prelude JsString Regex Path Fs World Extract.

(** ** The abstract extraction *)

Section unpack.
Context (pr : params).

(** Where an entry in scope goes. *)
Definition dest (e : entry) : list jstring :=
  path_segs (localPath pr (relativePath pr e)).

(** An entry put at its place. *)
Definition place (t : tree) (e : entry) : tree :=
  match e_type e with
  | EDirectory => t ∪ dirs_of [] (dest e)
  | EFile =>
      <[dest e := File (e_content e)]> (t ∪ dirs_of [] (removelast (dest e)))
  end.

Definition unpack_entry (t : tree) (e : entry) : tree :=
  if scoped pr e then place t e else t.

Definition unpack (es : list entry) (t : tree) : tree :=
  foldl unpack_entry t es.

(** An entry fits a tree when no file stands on its way and, for a
    file, no directory stands at its place. *)
Definition fits (t : tree) (e : entry) : Prop :=
  match e_type e with
  | EDirectory => no_file_on t [] (dest e)
  | EFile =>
      dest e ≠ [] ∧ no_file_on t [] (removelast (dest e)) ∧
      t !! dest e ≠ Some Dir
  end.

#[global] Instance fits_dec t e : Decision (fits t e).
Proof. unfold fits. destruct (e_type e); apply _. Defined.

(** Every entry fits the tree that the entries before it left. *)
Fixpoint all_fit (es : list entry) (t : tree) : Prop :=
  match es with
  | [] => True
  | e :: es' =>
      (scoped pr e = true → fits t e) ∧ all_fit es' (unpack_entry t e)
  end.

#[global] Instance all_fit_dec es t : Decision (all_fit es t).
Proof. revert t. induction es; intros t; simpl; apply _. Defined.

(** The counters after an entry in scope. *)
Definition count_entry (c : counters) (e : entry) : counters :=
  if scoped pr e then
    match e_type e with EFile => counted c | EDirectory => matched c end
  else c.

(** The content of the last file entry in scope that goes to [p]. *)
Fixpoint written (es : list entry) (p : list jstring) : option jstring :=
  match es with
  | [] => None
  | e :: es' =>
      match written es' p with
      | Some c => Some c
      | None =>
          if scoped_file pr e && bool_decide (dest e = p)
          then Some (e_content e) else None
      end
  end.

(** What the loop makes of an entry in scope whether it fits or not:
    an entry that fits is put at its place, and every other entry
    leaves the tree as it is. *)
Definition attempt (t : tree) (e : entry) : tree :=
  if decide (fits t e) then place t e else t.

Definition attempt_entry (t : tree) (e : entry) : tree :=
  if scoped pr e then attempt t e else t.

(** The extraction in which an entry that does not fit is passed
    over. *)
Definition best_effort (es : list entry) (t : tree) : tree :=
  foldl attempt_entry t es.

(** The entries in scope that do not fit the tree they meet. *)
Definition misfit (t : tree) (e : entry) : bool :=
  scoped pr e && negb (bool_decide (fits t e)).

Fixpoint misfits (es : list entry) (t : tree) : list entry :=
  match es with
  | [] => []
  | e :: es' =>
      let rest := misfits es' (attempt_entry t e) in
      if misfit t e then e :: rest else rest
  end.

(** The counters after an entry, fitting or not. *)
Definition tally_entry (t : tree) (c : counters) (e : entry) : counters :=
  if scoped pr e then
    if decide (fits t e) then count_entry c e else matched c
  else c.

(** On entries that all fit, nothing is passed over. *)
Lemma all_fit_best_effort es t :
  all_fit es t → misfits es t = [] ∧ best_effort es t = unpack es t.
Proof.
  revert t. induction es as [|e es IH]; intros t; [done|].
  intros [Hf Hfit]. unfold best_effort, unpack. cbn [foldl misfits].
  assert (attempt_entry t e = unpack_entry t e ∧ misfit t e = false)
    as [-> ->].
  { unfold attempt_entry, unpack_entry, misfit, attempt.
    destruct (scoped pr e); [|done].
    by rewrite decide_True, bool_decide_true by by apply Hf. }
  by apply IH.
Qed.

(** ** The loop implements it *)

Section refines.
Context (ev : env) (Habs : isAbsolute (outputDir pr) = true).

(** An entry in scope that fits is put at its place, without a
    warning. *)
Lemma extract_entry_fits e w c :
  wf (w_tree w) → scoped pr e = true → fits (w_tree w) e →
  let s := extract_entry ev pr (w, c) e in
  w_tree s.1 = place (w_tree w) e ∧ warnings s.1 = warnings w ∧
  s.2 = count_entry c e.
Proof.
  intros Hwf Hs Hf. unfold extract_entry, count_entry, place, fits in *.
  cbn [fst snd]. rewrite Hs. destruct (e_type e) eqn:Ht.
  - destruct Hf as (Hne & Hnf & Hnd).
    rewrite (extract_try_file ev pr Habs) by done. fold (dest e).
    destruct (write_after_mkdirs (w_tree w) (dest e) (e_content e))
      as (t1 & -> & ->); done.
  - rewrite (extract_try_dir ev pr Habs) by done. fold (dest e).
    apply mkdirs_is_val in Hf.
    destruct (mkdirs _ _ _) as [t1|] eqn:Hm; [|done].
    by apply mkdirs_union in Hm as ->.
Qed.

(** One entry of the loop is one entry of [unpack]. *)
Lemma extract_entry_unpack e w c :
  wf (w_tree w) → (scoped pr e = true → fits (w_tree w) e) →
  let s := extract_entry ev pr (w, c) e in
  w_tree s.1 = unpack_entry (w_tree w) e ∧ warnings s.1 = warnings w ∧
  s.2 = count_entry c e.
Proof.
  intros Hwf Hf. unfold unpack_entry, count_entry.
  destruct (scoped pr e) eqn:Hs.
  - pose proof (extract_entry_fits e w c Hwf Hs (Hf eq_refl)) as H.
    unfold count_entry in H. by rewrite Hs in H.
  - by rewrite extract_entry_out_of_scope.
Qed.

Lemma extract_all_unpack es w c :
  wf (w_tree w) → all_fit es (w_tree w) →
  let s := extract_all ev pr es w c in
  w_tree s.1 = unpack es (w_tree w) ∧ warnings s.1 = warnings w ∧
  s.2 = foldl count_entry c es.
Proof.
  revert w c. induction es as [|e es IH]; intros w c Hwf Hfit; [done|].
  destruct Hfit as [Hf Hfit]. cbn zeta. unfold extract_all. cbn [foldl].
  destruct (extract_entry ev pr (w, c) e) as [w1 c1] eqn:E.
  destruct (extract_entry_unpack e w c Hwf Hf) as (Ht & Hw & Hc).
  rewrite E in Ht, Hw, Hc. cbn [fst snd] in *. subst c1.
  destruct (IH w1 (count_entry c e)) as (? & ? & ?).
  - pose proof (extract_entry_step ev pr (w, c) e) as Hstep.
    rewrite E in Hstep. by apply step_wf in Hstep.
  - by rewrite Ht.
  - unfold unpack. cbn [foldl]. rewrite <-Ht, <-Hw. done.
Qed.
(** An entry in scope that does not fit is passed over with a
    warning; it counts as a match and not as a file. *)
Lemma extract_entry_misfit e w c :
  wf (w_tree w) → scoped pr e = true → ¬ fits (w_tree w) e →
  let s := extract_entry ev pr (w, c) e in
  w_tree s.1 = w_tree w ∧ warnings s.1 = S (warnings w) ∧ s.2 = matched c.
Proof.
  intros Hwf Hs Hf. unfold extract_entry. cbn [fst snd]. unfold fits in Hf.
  destruct (e_type e) eqn:Ht.
  - rewrite (extract_try_file ev pr Habs) by done. fold (dest e).
    destruct (mkdirs _ _ _) as [t1|] eqn:Hm; [|done].
    assert (dest e ≠ [] → w_tree w !! dest e = Some Dir) as Hd.
    { intros Hne. destruct (decide (w_tree w !! dest e = Some Dir)); [done|].
      destruct Hf. split_and!; [done| |done]. apply mkdirs_is_val.
      by rewrite Hm. }
    pose proof (write_node_misfit _ _ _ (e_content e) Hwf Hm Hd) as Hv.
    destruct (write_node _ _ _); [done|]. cbn [fst snd]. split_and!; [|done..].
    cbn [emit set_tree w_tree].
    by apply (mkdirs_above_dir (w_tree w) (dest e)).
  - rewrite (extract_try_dir ev pr Habs) by done. fold (dest e).
    assert (is_val (mkdirs (w_tree w) [] (dest e)) ≠ true) as Hn
      by by rewrite mkdirs_is_val.
    by destruct (mkdirs _ _ _).
Qed.

(** One entry of the loop, fitting or not. *)
Lemma extract_entry_attempt e w c :
  wf (w_tree w) →
  let s := extract_entry ev pr (w, c) e in
  wf (w_tree s.1) ∧ w_tree s.1 = attempt_entry (w_tree w) e ∧
  warnings s.1 = warnings w + (if misfit (w_tree w) e then 1 else 0) ∧
  s.2 = tally_entry (w_tree w) c e.
Proof.
  intros Hwf. cbn zeta. split.
  { pose proof (extract_entry_step ev pr (w, c) e) as Hstep.
    by apply step_wf in Hstep. }
  unfold attempt_entry, tally_entry, misfit.
  destruct (scoped pr e) eqn:Hs; cbn [andb];
    [|rewrite extract_entry_out_of_scope by done; split_and!; (done || lia)].
  destruct (decide (fits (w_tree w) e)) as [Hf|Hf].
  - destruct (extract_entry_fits e w c Hwf Hs Hf) as (-> & -> & ->).
    rewrite bool_decide_true by done. unfold attempt.
    rewrite decide_True by done. split_and!; (done || simpl; lia).
  - destruct (extract_entry_misfit e w c Hwf Hs Hf) as (-> & -> & ->).
    rewrite bool_decide_false by done. unfold attempt.
    rewrite decide_False by done. split_and!; (done || simpl; lia).
Qed.

(** The files that were written and those that were not are the files
    in scope. *)
Lemma tally_files t c e :
  filesExtracted (tally_entry t c e)
  + (if misfit t e && scoped_file pr e then 1 else 0)
  = filesExtracted c + (if scoped_file pr e then 1 else 0).
Proof.
  unfold tally_entry, count_entry, misfit, scoped_file.
  destruct (scoped pr e), (decide (fits t e)), (e_type e); cbn [andb];
    rewrite ?bool_decide_true, ?bool_decide_false by done; simpl; lia.
Qed.

(** The loop is the extraction that passes over what does not fit. *)
Lemma extract_all_attempt es w c :
  wf (w_tree w) →
  let s := extract_all ev pr es w c in
  w_tree s.1 = best_effort es (w_tree w) ∧
  warnings s.1 = warnings w + length (misfits es (w_tree w)) ∧
  filesExtracted s.2 + length (filter (λ e, scoped_file pr e = true)
                                 (misfits es (w_tree w)))
  = filesExtracted c + length (filter (λ e, scoped_file pr e = true) es).
Proof.
  revert w c. induction es as [|e es IH]; intros w c Hwf;
    [simpl; split_and!; (done || lia)|].
  cbn zeta. rewrite extract_all_cons.
  destruct (extract_entry_attempt e w c Hwf) as (Hwf1 & Ht & Hw & Hc).
  destruct (extract_entry ev pr (w, c) e) as [w1 c1]. cbn [fst snd] in *.
  destruct (IH w1 c1 Hwf1) as (-> & -> & Hn). rewrite Ht, Hw in *.
  pose proof (tally_files (w_tree w) c e) as Hf. subst c1.
  unfold best_effort. cbn [foldl misfits]. rewrite !filter_cons.
  destruct (misfit (w_tree w) e), (scoped_file pr e) eqn:Hsf;
    cbn [andb] in Hf; rewrite ?filter_cons, ?Hsf;
    repeat case_decide; try done; simpl; split_and!; (done || lia).
Qed.
End refines.

(** The count after the loop: one more for each file in scope. *)
Lemma count_all es c :
  filesExtracted (foldl count_entry c es)
  = filesExtracted c + length (filter (λ e, scoped_file pr e = true) es).
Proof.
  revert c. induction es as [|e es IH]; intros c; [simpl; lia|].
  cbn [foldl]. rewrite IH, filter_cons. unfold count_entry, scoped_file.
  destruct (scoped pr e), (e_type e); simpl; lia.
Qed.

(** ** The files that [unpack] leaves *)

Lemma union_dirs_file t pre rest p c :
  (t ∪ dirs_of pre rest) !! p = Some (File c) ↔ t !! p = Some (File c).
Proof.
  rewrite lookup_union_Some_raw. split; [|by left].
  by intros [?|[_ [? _]%dirs_of_lookup]].
Qed.

Lemma unpack_entry_file t e p c :
  unpack_entry t e !! p = Some (File c) ↔
  if scoped_file pr e && bool_decide (dest e = p) then e_content e = c
  else t !! p = Some (File c).
Proof.
  unfold unpack_entry, scoped_file, place.
  destruct (scoped pr e); [|done]. destruct (e_type e); cbn [andb].
  - rewrite bool_decide_true by done. cbn [andb]. case_bool_decide as Hp.
    + rewrite Hp, lookup_insert_eq. naive_solver.
    + by rewrite lookup_insert_ne, union_dirs_file.
  - rewrite bool_decide_false by done. apply union_dirs_file.
Qed.

(** A file is at [p] after [unpack] exactly when the last file entry
    for [p] had its content or, without such an entry, when it was there
    before. *)
Lemma unpack_file es t p c :
  unpack es t !! p = Some (File c) ↔
  match written es p with
  | Some c' => c' = c
  | None => t !! p = Some (File c)
  end.
Proof.
  revert t. induction es as [|e es IH]; intros t; [done|].
  unfold unpack in *. cbn [foldl written]. rewrite IH.
  destruct (written es p); [done|]. rewrite unpack_entry_file.
  by destruct (_ && _).
Qed.

(** [written] in words: the entry that decides is a file entry in
    scope that goes to [p], and no such entry comes after it. *)
Definition goes_to (p : list jstring) (e : entry) : Prop :=
  scoped_file pr e = true ∧ dest e = p.

Lemma written_None es p :
  written es p = None ↔ Forall (λ e, ¬ goes_to p e) es.
Proof.
  unfold goes_to. induction es as [|e es IH]; [done|].
  rewrite Forall_cons, <-IH. simpl. destruct (written es p); [naive_solver|].
  destruct (scoped_file pr e); [|naive_solver]. case_bool_decide; naive_solver.
Qed.

Lemma written_app es1 es2 p :
  written (es1 ++ es2) p
  = match written es2 p with Some c => Some c | None => written es1 p end.
Proof.
  induction es1 as [|e es1 IH]; simpl; [by destruct (written es2 p)|].
  rewrite IH. by destruct (written es2 p).
Qed.

Lemma written_Some es p c :
  written es p = Some c ↔
  ∃ es1 e es2, es = es1 ++ e :: es2 ∧ goes_to p e ∧ e_content e = c ∧
               Forall (λ e', ¬ goes_to p e') es2.
Proof.
  split.
  - induction es as [|e es IH]; [done|]. simpl.
    destruct (written es p) as [c'|] eqn:E.
    + intros [= ->]. destruct IH as (es1 & e0 & es2 & -> & ?); [done|].
      by exists (e :: es1), e0, es2.
    + destruct (scoped_file pr e) eqn:Hs; [|done].
      case_bool_decide; [|done]. intros [= <-].
      exists [], e, es. by rewrite <-written_None.
  - intros (es1 & e & es2 & -> & [Hs Hd] & <- & Hn%written_None).
    rewrite written_app. simpl. by rewrite Hn, Hs, bool_decide_true.
Qed.

(** ** What [place] keeps *)

(** An entry that fits leaves a well-formed tree with the directories
    that were there. *)
Lemma place_keeps t e :
  wf t → fits t e →
  wf (place t e) ∧
  ∀ q, node_at t q = Some Dir → node_at (place t e) q = Some Dir.
Proof.
  intros Hwf Hf. unfold fits, place in *. destruct (e_type e).
  - destruct Hf as (Hne & Hnf & Hnd).
    destruct (write_after_mkdirs t (dest e) (e_content e))
      as (t1 & Hm & Hw); [done..|].
    assert (wf t1) by by eapply (mkdirs_wf t []).
    split; [by eapply write_node_wf|]. intros q Hq.
    eapply write_node_dir_kept, mkdirs_dir_kept; done.
  - apply mkdirs_is_val in Hf.
    destruct (mkdirs t [] (dest e)) as [t1|] eqn:Hm; [|done].
    rewrite <-(mkdirs_union _ _ _ _ Hm).
    split; [by eapply (mkdirs_wf t [])|]. intros q Hq.
    by eapply mkdirs_dir_kept.
Qed.

Lemma unpack_entry_keeps t e :
  wf t → (scoped pr e = true → fits t e) →
  wf (unpack_entry t e) ∧
  ∀ q, node_at t q = Some Dir → node_at (unpack_entry t e) q = Some Dir.
Proof.
  intros Hwf Hf. unfold unpack_entry. destruct (scoped pr e); [|done].
  by apply place_keeps, Hf.
Qed.

Lemma unpack_keeps es t :
  wf t → all_fit es t →
  wf (unpack es t) ∧
  ∀ q, node_at t q = Some Dir → node_at (unpack es t) q = Some Dir.
Proof.
  revert t. induction es as [|e es IH]; intros t Hwf Hfit; [done|].
  destruct Hfit as [Hf Hfit].
  destruct (unpack_entry_keeps t e Hwf Hf) as [Hwf' Hd].
  destruct (IH _ Hwf' Hfit) as [? Hd']. unfold unpack in *. cbn [foldl]. auto.
Qed.

(** A directory entry in scope leaves its directory. *)
Lemma unpack_dir es t e :
  wf t → all_fit es t → e ∈ es → scoped pr e = true →
  e_type e = EDirectory → node_at (unpack es t) (dest e) = Some Dir.
Proof.
  intros Hwf Hfit He Hs Ht. revert t Hwf Hfit.
  induction He as [e es|e e0 es _ IH]; intros t Hwf [Hf Hfit];
    unfold unpack in *; cbn [foldl];
    destruct (unpack_entry_keeps _ _ Hwf Hf) as [Hwf' _]; [|by apply IH].
  apply unpack_keeps; [done..|]. specialize (Hf Hs).
  unfold unpack_entry, place, fits in *. rewrite Hs, Ht in *.
  apply mkdirs_is_val in Hf.
  destruct (mkdirs t [] (dest e)) as [t1|] eqn:Hm; [|done].
  rewrite <-(mkdirs_union _ _ _ _ Hm). by apply (mkdirs_dir t [] (dest e)).
Qed.

(** ** Coherent archives *)

(** An archive is coherent when its entries in scope have no [..]
    segment, no file entry goes to the output directory itself, and no
    file entry goes where another entry needs a directory: to a place
    above the place of another entry, or to the place of a directory
    entry. *)
Definition apart (es : list entry) (f : entry) : Prop :=
  Forall (λ e, scoped pr e = true → dest f `prefix_of` dest e →
               dest e = dest f ∧ e_type e = EFile) es.

Definition coherent (es : list entry) : Prop :=
  Forall (tame pr) es ∧
  Forall (λ f, scoped_file pr f = true →
               dest f ≠ out_segs pr ∧ apart es f) es.

#[global] Instance coherent_dec es : Decision (coherent es).
Proof. unfold coherent, apart. apply _. Defined.

(** [p] lies below the output directory. *)
Definition below (p : list jstring) : Prop :=
  out_segs pr `prefix_of` p ∧ p ≠ out_segs pr.

(** Every node below the output directory comes from one of the
    entries [es]: a file from a file entry that goes there, a directory
    from an entry that goes there or further down. *)
Definition from (es : list entry) (t : tree) : Prop :=
  ∀ p n, t !! p = Some n → below p →
    ∃ g, g ∈ es ∧ scoped pr g = true ∧
         match n with
         | File _ => e_type g = EFile ∧ dest g = p
         | Dir => p `prefix_of` dest g ∧ (p = dest g → e_type g = EDirectory)
         end.

Section coherent.
Context (Habs : isAbsolute (outputDir pr) = true).
Context (es : list entry) (Hco : coherent es).
Implicit Types (t : tree) (e f g : entry) (p q : list jstring).

Lemma coherent_under e :
  e ∈ es → scoped pr e = true → out_segs pr `prefix_of` dest e.
Proof.
  intros He Hs. destruct Hco as [Ht _].
  apply localPath_under; [done| |done]. by eapply Forall_forall in Ht.
Qed.

Lemma coherent_apart f e :
  f ∈ es → e ∈ es → scoped_file pr f = true → scoped pr e = true →
  dest f `prefix_of` dest e → dest e = dest f ∧ e_type e = EFile.
Proof.
  intros Hf He Hsf Hs. destruct Hco as [_ Ha].
  rewrite Forall_forall in Ha. destruct (Ha f Hf Hsf) as [_ Hap].
  unfold apart in Hap. rewrite Forall_forall in Hap. by apply Hap.
Qed.

(** On the way to the output directory there are directories only. *)
Lemma no_file_to_out t q c :
  wf t → node_at t (out_segs pr) = Some Dir → q `prefix_of` out_segs pr →
  t !! q ≠ Some (File c).
Proof.
  intros Hwf Hout [r Hr] Hq.
  destruct q as [|a q]; [by apply wf_not_root in Hq|].
  destruct (decide (r = [])) as [->|Hne].
  - rewrite app_nil_r in Hr. rewrite Hr in Hout. simpl in Hout. congruence.
  - rewrite Hr in Hout. apply wf_prefix in Hout; [|done..]. simpl in Hout.
    congruence.
Qed.

(** No file stands above the place of an entry, nor at the place of a
    directory entry. *)
Lemma no_file_above t seen e q c :
  wf t → node_at t (out_segs pr) = Some Dir → from seen t → seen ⊆ es →
  e ∈ es → scoped pr e = true → q `prefix_of` dest e →
  (q = dest e → e_type e = EDirectory) → t !! q ≠ Some (File c).
Proof.
  intros Hwf Hout Hfrom Hsub He Hs Hq Hd Hf.
  destruct (prefix_weak_total _ _ _ Hq (coherent_under e He Hs)) as [Hqo|Hoq];
    [by eapply no_file_to_out|].
  destruct (decide (q = out_segs pr)) as [->|Hne]; [by eapply no_file_to_out|].
  destruct (Hfrom _ _ Hf) as (g & Hg & Hgs & Hgt & <-); [done|].
  destruct (coherent_apart g e) as [Heq Hty]; [by apply Hsub|done| |done..|].
  - unfold scoped_file. by rewrite Hgs, bool_decide_true.
  - rewrite Hd in Hty; done.
Qed.

Lemma take_removelast_ne (d : list jstring) k :
  d ≠ [] → take k (removelast d) ≠ d.
Proof.
  intros Hne Heq%(f_equal length). destruct (exists_last Hne) as (p & s & ->).
  rewrite removelast_last, length_take, length_app in Heq. simpl in Heq. lia.
Qed.

(** After the entries [seen], the next entry fits. *)
Lemma fits_from t seen e :
  wf t → node_at t (out_segs pr) = Some Dir → from seen t → seen ⊆ es →
  e ∈ es → scoped pr e = true → fits t e.
Proof.
  intros Hwf Hout Hfrom Hsub He Hs. unfold fits.
  destruct (e_type e) eqn:Ht.
  - assert (scoped_file pr e = true) as Hsf
      by (unfold scoped_file; by rewrite Hs, bool_decide_true).
    assert (dest e ≠ out_segs pr) as Hne.
    { destruct Hco as [_ Ha]. rewrite Forall_forall in Ha.
      by destruct (Ha e He Hsf). }
    assert (dest e ≠ []) as Hnil.
    { intros Hnil. pose proof (coherent_under e He Hs) as Hu.
      rewrite Hnil in Hu, Hne. by apply prefix_nil_inv in Hu. }
    split_and!; [done|..].
    + intros k c Hk. apply (no_file_above t seen e); try done.
      * apply prefix_removelast, prefix_take.
      * by intros ?%take_removelast_ne.
    + intros Hd. destruct (Hfrom _ _ Hd) as (g & Hg & Hgs & Hp & Hgd).
      { split; [by apply coherent_under|done]. }
      destruct (coherent_apart e g) as [Heq Hty]; [done|by apply Hsub|done..|].
      rewrite Hgd in Hty; done.
  - intros k c Hk. apply (no_file_above t seen e); try done.
    apply prefix_take.
Qed.

(** What an entry adds comes from that entry. *)
Lemma place_from t seen e :
  scoped pr e = true → from seen t → from (seen ++ [e]) (place t e).
Proof.
  intros Hs Hfrom p n Hp Hb.
  assert (t !! p = Some n → ∃ g, g ∈ seen ++ [e] ∧ scoped pr g = true ∧
            match n with
            | File _ => e_type g = EFile ∧ dest g = p
            | Dir => p `prefix_of` dest g ∧ (p = dest g → e_type g = EDirectory)
            end) as Hold.
  { intros Ht. destruct (Hfrom p n Ht Hb) as (g & ? & ?). exists g.
    by rewrite elem_of_app; auto. }
  assert (e ∈ seen ++ [e]) as He by (rewrite elem_of_app, list_elem_of_singleton; auto).
  unfold place in Hp. destruct (e_type e) eqn:Ht.
  - apply lookup_insert_Some in Hp as [[<- <-]|[Hne Hp]]; [by exists e|].
    apply lookup_union_Some_raw in Hp as [?|[_ Hd]]; [auto|].
    apply dirs_of_lookup in Hd as (-> & k & Hk & ->). exists e.
    split_and!; [done..|apply prefix_removelast, prefix_take|done].
  - apply lookup_union_Some_raw in Hp as [?|[_ Hd]]; [auto|].
    apply dirs_of_lookup in Hd as (-> & k & Hk & ->). exists e.
    split_and!; [done..|apply prefix_take|done].
Qed.

Lemma from_snoc t seen e : from seen t → from (seen ++ [e]) t.
Proof.
  intros Hfrom p n Hp Hb. destruct (Hfrom p n Hp Hb) as (g & ? & ?).
  exists g. by rewrite elem_of_app; auto.
Qed.

(** Whatever is below the output directory after [unpack] comes from
    the archive, when it did before. *)
Lemma unpack_from t seen todo :
  from seen t → from (seen ++ todo) (unpack todo t).
Proof.
  revert t seen. induction todo as [|e todo IH]; intros t seen Hfrom.
  { by rewrite app_nil_r. }
  rewrite cons_middle, app_assoc. unfold unpack in *. cbn [foldl].
  apply IH. unfold unpack_entry. destruct (scoped pr e) eqn:Hs.
  - by apply place_from.
  - by apply from_snoc.
Qed.

(** Nothing is below an empty directory. *)
Lemma from_empty t :
  wf t → children t (out_segs pr) = [] → from [] t.
Proof.
  intros Hwf Hc p n Hp [[q ->] Hne].
  rewrite (wf_below_empty t (out_segs pr) q) in Hp; [done..|].
  intros ->. by rewrite app_nil_r in Hne.
Qed.

Lemma all_fit_from t seen todo :
  seen ++ todo = es → wf t → node_at t (out_segs pr) = Some Dir →
  from seen t → all_fit todo t.
Proof.
  revert t seen. induction todo as [|e todo IH]; intros t seen Hes Hwf Hout Hfrom;
    [done|].
  assert (scoped pr e = true → fits t e) as Hfit.
  { apply (fits_from t seen); try done; rewrite <-Hes; set_solver. }
  split; [done|]. unfold unpack_entry.
  destruct (scoped pr e) eqn:Hs.
  - destruct (place_keeps t e Hwf (Hfit eq_refl)) as [Hwf' Hd].
    apply (IH _ (seen ++ [e])); [by rewrite <-app_assoc|auto..|].
    by apply place_from.
  - apply (IH _ (seen ++ [e])); [by rewrite <-app_assoc|done..|].
    by apply from_snoc.
Qed.

(** On a coherent archive that is extracted into an empty directory
    every entry fits. *)
Lemma coherent_all_fit t :
  wf t → node_at t (out_segs pr) = Some Dir →
  children t (out_segs pr) = [] → all_fit es t.
Proof.
  intros Hwf Hout Hc. apply (all_fit_from t []); [done..|]. by apply from_empty.
Qed.
End coherent.
End unpack.

(** ** What a coherent archive leaves *)

Section delivers.
Context (pr : params) (Habs : isAbsolute (outputDir pr) = true).
Context (es : list entry) (Hco : coherent pr es).
Context (t : tree) (Hwf : wf t).
Context (Hout : node_at t (out_segs pr) = Some Dir).
Context (Hempty : children t (out_segs pr) = []).

(** The files below the output directory are the files of the
    archive. *)
Lemma unpack_coherent_file p content :
  below pr p →
  unpack pr es t !! p = Some (File content) ↔ written pr es p = Some content.
Proof.
  intros Hb. rewrite unpack_file.
  destruct (written pr es p); [naive_solver|]. split; [intros Hp|done].
  destruct (from_empty pr t Hwf Hempty p _ Hp Hb) as (g & Hg & _).
  by apply elem_of_nil in Hg.
Qed.

(** The directories of the archive are there. *)
Lemma unpack_coherent_dir e :
  e ∈ es → scoped pr e = true → e_type e = EDirectory →
  node_at (unpack pr es t) (dest pr e) = Some Dir.
Proof. intros. apply unpack_dir; [done|by apply coherent_all_fit|done..]. Qed.

(** Nothing else is there. *)
Lemma unpack_coherent_from : from pr es (unpack pr es t).
Proof. apply (unpack_from pr _ []). by apply from_empty. Qed.
End delivers.

(** ** Theorems *)

(** C5: a coherent archive that is extracted into an empty directory
    leaves there exactly the entries of the sub-folder.  The tree after
    the loop is the tree of the abstract extraction.  At each path below
    the output directory stands a file with some content exactly when
    the last file entry that goes to that path has this content; the
    directory of each directory entry is there; and whatever is below
    the output directory comes from an entry of the archive.  No warning
    is shown and every file entry in scope is counted. *)
Theorem extract_all_delivers ev pr es w c :
  isAbsolute (outputDir pr) = true → wf (w_tree w) →
  node_at (w_tree w) (out_segs pr) = Some Dir →
  children (w_tree w) (out_segs pr) = [] → coherent pr es →
  let s := extract_all ev pr es w c in
  w_tree s.1 = unpack pr es (w_tree w) ∧
  warnings s.1 = warnings w ∧
  filesExtracted s.2
  = filesExtracted c + length (filter (λ e, scoped_file pr e = true) es) ∧
  (∀ p content, below pr p →
     w_tree s.1 !! p = Some (File content) ↔ written pr es p = Some content) ∧
  (∀ e, e ∈ es → scoped pr e = true → e_type e = EDirectory →
     node_at (w_tree s.1) (dest pr e) = Some Dir) ∧
  from pr es (w_tree s.1).
Proof.
  intros Habs Hwf Hout Hempty Hco.
  destruct (extract_all_unpack pr ev Habs es w c) as (Ht & Hw & Hc);
    [done|by apply coherent_all_fit|].
  cbn zeta. rewrite Ht, Hc, count_all. split_and!; [done..| | |].
  - intros p content. by apply unpack_coherent_file.
  - intros e. by apply unpack_coherent_dir.
  - by apply unpack_coherent_from.
Qed.

Lemma extract_all_delivers_witness :
  let s := extract_all ex_env ex_params ex_entries ex_world (Counters 0 false) in
  w_tree s.1 = unpack ex_params ex_entries (w_tree ex_world) ∧
  warnings s.1 = warnings ex_world ∧
  filesExtracted s.2 = 0 + 2 ∧
  (∀ p content, below ex_params p →
     w_tree s.1 !! p = Some (File content) ↔
     written ex_params ex_entries p = Some content) ∧
  (∀ e, e ∈ ex_entries → scoped ex_params e = true → e_type e = EDirectory →
     node_at (w_tree s.1) (dest ex_params e) = Some Dir) ∧
  from ex_params ex_entries (w_tree s.1).
Proof.
  apply (extract_all_delivers ex_env ex_params ex_entries ex_world
           (Counters 0 false));
    try reflexivity; apply (bool_decide_unpack _); vm_compute; exact I.
Defined.

(** An example: an archive in which a file stands where a later entry
    needs a directory. *)
Definition ex_clash : list entry :=
  [ Entry (str "repo-main/keep/") EDirectory [];
    Entry (str "repo-main/keep/a.txt") EFile (str "A");
    Entry (str "repo-main/keep/a.txt/x") EFile (str "X");
    Entry (str "repo-main/keep/b.txt") EFile (str "B") ].

(** C7: the loop on every archive, best effort.  Whatever the entries
    are, the tree after the loop is that of the extraction that passes
    over the entries that do not fit the tree they meet (a file stands
    on their way, or a directory at the place of a file); one warning
    is shown for each of them; [filesExtracted] is the number of file
    entries in scope less those that were passed over; and
    [matchedSomething] tells whether an entry was in scope, passed over
    or not.  When every entry fits, none is passed over and the
    extraction is [unpack]. *)
Theorem extract_all_best_effort ev pr es w c :
  isAbsolute (outputDir pr) = true → wf (w_tree w) →
  let s := extract_all ev pr es w c in
  let passed := misfits pr es (w_tree w) in
  w_tree s.1 = best_effort pr es (w_tree w) ∧
  warnings s.1 = warnings w + length passed ∧
  filesExtracted s.2 + length (filter (λ e, scoped_file pr e = true) passed)
  = filesExtracted c + length (filter (λ e, scoped_file pr e = true) es) ∧
  matchedSomething s.2 = matchedSomething c || existsb (scoped pr) es ∧
  (all_fit pr es (w_tree w) →
   passed = [] ∧ best_effort pr es (w_tree w) = unpack pr es (w_tree w)).
Proof.
  intros Habs Hwf. cbn zeta.
  destruct (extract_all_attempt pr ev Habs es w c Hwf) as (Ht & Hw & Hn).
  split_and!; [done..| |apply all_fit_best_effort].
  pose proof (extract_all_steps ev pr es (w, c)) as H.
  by apply steps_matched in H.
Qed.

(** Of three files in scope the second cannot be written: the loop goes
    on, counts two files, shows one warning and writes the third. *)
Lemma extract_all_best_effort_witness :
  let s := extract_all ex_env ex_params ex_clash ex_world (Counters 0 false) in
  filesExtracted s.2 = 2 ∧ warnings s.1 = 1 ∧
  w_tree s.1 !! [str "home"; str "u"; str "keep"; str "b.txt"]
  = Some (File (str "B")).
Proof.
  destruct (extract_all_best_effort ex_env ex_params ex_clash ex_world
              (Counters 0 false)) as (Ht & Hw & Hn & _);
    [reflexivity|apply (bool_decide_unpack _); vm_compute; exact I|].
  assert (misfits ex_params ex_clash (w_tree ex_world)
          = [Entry (str "repo-main/keep/a.txt/x") EFile (str "X")]) as Hm
    by (vm_compute; reflexivity).
  assert (length (filter (λ e, scoped_file ex_params e = true) ex_clash) = 3)
    as Hl by (vm_compute; reflexivity).
  assert (length (filter (λ e, scoped_file ex_params e = true)
                    [Entry (str "repo-main/keep/a.txt/x") EFile (str "X")]) = 1)
    as Hl1 by (vm_compute; reflexivity).
  cbn zeta. cbn zeta in Ht, Hw, Hn. rewrite Hm in Hw, Hn.
  rewrite Hl, Hl1 in Hn. rewrite Ht, Hw.
  split_and!; [cbn [filesExtracted] in Hn; lia|reflexivity|].
  vm_compute. reflexivity.
Defined.

