(* ===== verification/Download.v ===== *)
(** * The orchestrator

    [getDefaultBranch] and [downloadFolder] of index.ts.  The function
    is a sequence of phases inside one [try]: the repository reference
    is parsed and its branch determined, the archive is requested, the
    output directory is computed and checked, the two directories are
    created, the entries are extracted, and the outcome is reported.
    Each phase is a definition here; [downloadFolder] composes them and
    carries the [catch].

    [tempDir] is [null] until line 102 assigns it, and the [catch]
    removes it only when it is set: the phases before that line throw
    with [None], the ones after with the path. *)

From S2P Require Import Prelude JsString Regex Parser Path Fs World Extract.

Local Open Scope js_scope.

(** ** Definitions *)

(** [`https://api.github.com/repos/${owner}/${repo}`] *)
Definition apiUrl (owner repo : option jstring) : jstring :=
  str "https://api.github.com/repos/" ++ show_opt owner ++ slash :: show_opt repo.

Definition getDefaultBranch (ev : env) (owner repo : option jstring)
    (w : world) : world * exn js_error (option jstring) :=
  let (w1, r) := fetch ev (apiUrl owner repo) w in
  (w1,
   let! res := r in
   if negb (r_ok res) then
     Throw (Error (str "Failed to fetch repo metadata: " ++ r_statusText res))
   else r_default_branch res).

(** [`https://github.com/${owner}/${repo}/archive/refs/heads/${finalBranch}.zip`] *)
Definition zipUrl (owner repo finalBranch : option jstring) : jstring :=
  str "https://github.com/" ++ show_opt owner ++ slash :: show_opt repo
  ++ str "/archive/refs/heads/" ++ show_opt finalBranch ++ str ".zip".

(** [path.join(os.tmpdir(), `gh-folder-${Date.now()}`)] *)
Definition tempDirOf (ev : env) : jstring :=
  join [env_tmpdir ev; str "gh-folder-" ++ show_nat (env_now ev)].

(** [`${repo}-${finalBranch}/`] *)
Definition prefixOf (repo finalBranch : option jstring) : jstring :=
  show_opt repo ++ str "-" ++ show_opt finalBranch ++ [slash].

(** [path.basename(subfolder.replace(/\/$/, '')) || 'downloaded-folder'] *)
Definition defaultDirName (subfolder : jstring) : jstring :=
  or_str (Some (basename (stripTrailingSlash subfolder)))
         (str "downloaded-folder").

(** [path.resolve(process.cwd(), target || defaultDirName)] *)
Definition outputDirOf (ev : env) (subfolder : jstring)
    (target : option jstring) : jstring :=
  resolve (env_cwd ev) [env_cwd ev; or_str target (defaultDirName subfolder)].

(** [branch || await getDefaultBranch(owner, repo)] *)
Definition finalBranchOf (ev : env) (r : repo_ref) (w : world)
    : world * exn js_error (option jstring) :=
  if truthy (branch r) then (w, Val (branch r))
  else getDefaultBranch ev (owner r) (repo r) w.

Definition fetching_text (ev : env) (branch : option jstring) : jstring :=
  str "Fetching ZIP from "
  ++ chalk ev Cyan (if truthy branch then show_opt branch
                    else str "default branch").

(** Lines 105 to 109: the archive is requested and the answer checked. *)
Definition fetchZip (ev : env) (r : repo_ref) (finalBranch : option jstring)
    (w : world) : world * exn js_error response :=
  let w1 := emit (SpinnerText (fetching_text ev (branch r))) w in
  let (w2, a) := fetch ev (zipUrl (owner r) (repo r) finalBranch) w1 in
  (w2,
   let! res := a in
   if negb (r_ok res) then
     Throw (Error (str "Failed to download ZIP: " ++ r_statusText res))
   else if negb (r_has_body res) then Throw (Error (str "Error fetching data"))
   else Val res).

(** What the guard decides. *)
Inductive verdict : Type :=
  | Proceed
  | Refuse (message : jstring).

Definition is_file_text (ev : env) (outputDir : jstring) : jstring :=
  str "Target " ++ chalk ev Red outputDir
  ++ str " exists as a file. Please remove it or choose another name.".

Definition not_empty_text (ev : env) (outputDir : jstring) : jstring :=
  str "Directory " ++ chalk ev Red outputDir
  ++ str " already exists and is not empty.".

Definition check_error_text (err : js_error) : jstring :=
  str "Error checking target path: " ++ err_message err.

(** Lines 114 to 133: the target is accepted when it does not exist or
    is an empty directory. *)
Definition checkTarget (ev : env) (outputDir : jstring) (t : tree) : verdict :=
  let body :=
    let! stats := stat (env_cwd ev) t outputDir in
    if is_file stats then Val (Refuse (is_file_text ev outputDir))
    else
      let! files := readdir (env_cwd ev) t outputDir in
      if bool_decide (0 < length files)
      then Val (Refuse (not_empty_text ev outputDir))
      else Val Proceed in
  match body with
  | Val v => v
  | Throw err =>
      if negb (bool_decide (err_code err = Some (str "ENOENT")))
      then Refuse (check_error_text err)
      else Proceed
  end.

(** [spinner.fail(message); process.exitCode = 1] *)
Definition fail (message : jstring) (w : world) : world :=
  set_exitCode 1 (emit (SpinnerFail message) w).

(** [await fs.remove(tempDir).catch(() => {})] *)
Definition removeTemp (ev : env) (tempDir : jstring) (w : world) : world :=
  set_tree (remove (env_cwd ev) (w_tree w) tempDir) w.

(** Lines 135 and 136. *)
Definition ensureDirs (ev : env) (tempDir outputDir : jstring) (w : world)
    : world * exn js_error unit :=
  match ensureDir (env_cwd ev) (w_tree w) tempDir with
  | Throw err => (w, Throw err)
  | Val t1 =>
      match ensureDir (env_cwd ev) t1 outputDir with
      | Throw err => (set_tree t1 w, Throw err)
      | Val t2 => (set_tree t2 w, Val ())
      end
  end.

Definition not_found_text (subfolder : jstring) : jstring :=
  str "Subfolder " ++ ["034"%char] ++ subfolder ++ ["034"%char]
  ++ str " not found in repo.".

Definition success_text (ev : env) (subfolder outputDir : jstring)
    (n : nat) : jstring :=
  str "Successfully downloaded " ++ chalk ev Cyan subfolder ++ str " to "
  ++ chalk ev Green outputDir ++ str " (" ++ show_nat n ++ str " files)".

(** Lines 138 to 183: the loop over the archive and the report.  An
    error of the stream ends the loop by an exception. *)
Definition extractAndReport (ev : env) (subfolder tempDir outputDir : jstring)
    (pre : jstring) (a : archive) (w : world) : world * exn js_error unit :=
  let pr := Params pre (stripTrailingSlash subfolder) outputDir in
  let (w1, c) := extract_all ev pr (a_entries a) w (Counters 0 false) in
  match a_error a with
  | Some err => (w1, Throw err)
  | None =>
      if negb (matchedSomething c) then
        (set_exitCode 1
           (removeTemp ev tempDir
              (emit (SpinnerFail (not_found_text subfolder)) w1)), Val ())
      else
        (emit (SpinnerSucceed
                 (success_text ev subfolder outputDir (filesExtracted c))) w1,
         Val ())
  end.

(** Lines 101 to 183, where [tempDir] is set. *)
Definition downloadBody (ev : env) (r : repo_ref)
    (finalBranch : option jstring) (subfolder : jstring)
    (target : option jstring) (w : world) : world * exn js_error unit :=
  let tempDir := tempDirOf ev in
  let pre := prefixOf (repo r) finalBranch in
  match fetchZip ev r finalBranch w with
  | (w1, Throw err) => (w1, Throw err)
  | (w1, Val res) =>
      let outputDir := outputDirOf ev subfolder target in
      match checkTarget ev outputDir (w_tree w1) with
      | Refuse message => (fail message w1, Val ())
      | Proceed =>
          match ensureDirs ev tempDir outputDir w1 with
          | (w2, Throw err) => (w2, Throw err)
          | (w2, Val _) =>
              extractAndReport ev subfolder tempDir outputDir pre
                (r_archive res) w2
          end
      end
  end.

(** The [catch] of [downloadFolder], with the value of [tempDir] at the
    time of the exception. *)
Definition onError (ev : env) (tempDir : option jstring) (err : js_error)
    (w : world) : world :=
  let w1 := emit (SpinnerFail (err_message err)) w in
  let w2 := match tempDir with
            | Some d => if truthy (Some d) then removeTemp ev d w1 else w1
            | None => w1
            end in
  set_exitCode 1 w2.

Definition downloadFolder (ev : env) (repoUrl subfolder : jstring)
    (target : option jstring) (w : world) : world :=
  let w0 := emit (SpinnerStart (str "Preparing download...")) w in
  match parseGitHubUrl repoUrl with
  | Throw err => onError ev None err w0
  | Val r =>
      match finalBranchOf ev r w0 with
      | (w1, Throw err) => onError ev None err w1
      | (w1, Val finalBranch) =>
          match downloadBody ev r finalBranch subfolder target w1 with
          | (w2, Throw err) => onError ev (Some (tempDirOf ev)) err w2
          | (w2, Val _) => w2
          end
      end
  end.

(** ** Specification *)

(** The target is free when it is an empty directory, or when nothing
    is there and no file stands above it. *)
Definition target_free (t : tree) (segs : list jstring) : Prop :=
  (node_at t segs = Some Dir ∧ children t segs = []) ∨
  (node_at t segs = None ∧
   ∀ k c, 1 ≤ k < length segs → t !! take k segs ≠ Some (File c)).

(** What [getDefaultBranch] returns, whatever the world. *)
Definition metadata (ev : env) (r : repo_ref) : exn js_error (option jstring) :=
  (getDefaultBranch ev (owner r) (repo r) (World ∅ [] None)).2.

(** The requests a call of [downloadFolder] sends, most recent first:
    none when the reference does not parse, the archive of the branch
    when the reference names one, and otherwise the metadata and, when
    that answers, the archive of the branch it names. *)
Definition expected_requests (ev : env) (repoUrl : jstring) : list jstring :=
  match parseGitHubUrl repoUrl with
  | Throw _ => []
  | Val r =>
      if truthy (branch r) then [zipUrl (owner r) (repo r) (branch r)]
      else match metadata ev r with
           | Throw _ => [apiUrl (owner r) (repo r)]
           | Val b => [zipUrl (owner r) (repo r) b; apiUrl (owner r) (repo r)]
           end
  end.

(** The branch of the call, whatever the world. *)
Definition resolved (ev : env) (r : repo_ref) : exn js_error (option jstring) :=
  if truthy (branch r) then Val (branch r) else metadata ev r.

(** The ways in which the network fails a call for the reference [r],
    with the exception each throws: the metadata is asked for when the
    reference names no branch, and the request fails, is answered with a
    status that is not ok, or with a body that [json()] cannot read;
    the archive of the branch is asked for, and the request fails, is
    answered with a status that is not ok, or without a body. *)
Inductive net_failure (ev : env) (r : repo_ref) : js_error → Prop :=
  | metadata_unreachable err :
      truthy (branch r) = false →
      env_fetch ev (apiUrl (owner r) (repo r)) = Throw err →
      net_failure ev r err
  | metadata_refused res :
      truthy (branch r) = false →
      env_fetch ev (apiUrl (owner r) (repo r)) = Val res →
      r_ok res = false →
      net_failure ev r
        (Error (str "Failed to fetch repo metadata: " ++ r_statusText res))
  | metadata_unreadable res err :
      truthy (branch r) = false →
      env_fetch ev (apiUrl (owner r) (repo r)) = Val res →
      r_ok res = true → r_default_branch res = Throw err →
      net_failure ev r err
  | archive_unreachable b err :
      resolved ev r = Val b →
      env_fetch ev (zipUrl (owner r) (repo r) b) = Throw err →
      net_failure ev r err
  | archive_refused b res :
      resolved ev r = Val b →
      env_fetch ev (zipUrl (owner r) (repo r) b) = Val res →
      r_ok res = false →
      net_failure ev r (Error (str "Failed to download ZIP: " ++ r_statusText res))
  | archive_empty b res :
      resolved ev r = Val b →
      env_fetch ev (zipUrl (owner r) (repo r) b) = Val res →
      r_ok res = true → r_has_body res = false →
      net_failure ev r (Error (str "Error fetching data")).

(** The world when the loop starts: the spinner was started, the
    branch determined, the archive requested, and the two directories
    created, which left the tree [t]. *)
Definition prepared (ev : env) (r : repo_ref) (b : option jstring)
    (t : tree) (w : world) : world :=
  set_tree t
    (fetchZip ev r b
       (finalBranchOf ev r
          (emit (SpinnerStart (str "Preparing download...")) w)).1).1.

(** The phases before the loop succeed: the reference parses to [r],
    the branch is [b], the archive is answered by [res], the target is
    accepted and the two directories are created, leaving the tree
    [t2]. *)
Record ready (ev : env) (repoUrl subfolder : jstring) (target : option jstring)
    (w : world) (r : repo_ref) (b : option jstring) (res : response)
    (t2 : tree) : Prop := Ready {
  ready_parse : parseGitHubUrl repoUrl = Val r;
  ready_branch : (finalBranchOf ev r w).2 = Val b;
  ready_fetch : env_fetch ev (zipUrl (owner r) (repo r) b) = Val res;
  ready_ok : r_ok res = true;
  ready_body : r_has_body res = true;
  ready_target :
    checkTarget ev (outputDirOf ev subfolder target) (w_tree w) = Proceed;
  ready_dirs :
    ∃ t1, ensureDir (env_cwd ev) (w_tree w) (tempDirOf ev) = Val t1 ∧
          ensureDir (env_cwd ev) t1 (outputDirOf ev subfolder target) = Val t2
}.

(** The constants of the loop for a call. *)
Definition paramsOf (ev : env) (r : repo_ref) (b : option jstring)
    (subfolder : jstring) (target : option jstring) : params :=
  Params (prefixOf (repo r) b) (stripTrailingSlash subfolder)
         (outputDirOf ev subfolder target).

(** ** Properties *)

(** *** The guard *)

Lemma errno_code_ENOENT e :
  errno_code e = str "ENOENT" ↔ e = ENOENT.
Proof. by destruct e. Qed.

Lemma checkTarget_Proceed ev outputDir t :
  wf t →
  checkTarget ev outputDir t = Proceed ↔
  target_free t (fs_segs (env_cwd ev) outputDir).
Proof.
  intros Hwf. unfold checkTarget, target_free.
  destruct (stat _ t outputDir) as [n|err] eqn:Hs; cbn [exn_bind].
  - apply stat_Val in Hs; [|done]. rewrite Hs. destruct n as [c|]; cbn [is_file].
    + naive_solver.
    + assert (readdir (env_cwd ev) t outputDir
              = Val (children t (fs_segs (env_cwd ev) outputDir))) as ->
        by (by apply readdir_Val).
      cbn [exn_bind]. destruct (children t _); simpl; naive_solver lia.
  - pose proof (stat_Throw _ _ Hwf _ _ Hs) as [Hn _].
    apply lift_errno_code in Hs as (e & He & ->). rewrite Hn.
    cbn [sys_error err_code].
    pose proof (resolve_node_ENOTDIR t [] (fs_segs (env_cwd ev) outputDir) Hwf)
      as Hd. fold (lookup_path t (fs_segs (env_cwd ev) outputDir)) in Hd.
    apply resolve_node_errno in He as He'. destruct He' as [-> | ->].
    + rewrite bool_decide_true by done. split; [|done]. intros _. right.
      split; [done|]. intros k c Hk Hf.
      assert (lookup_path t (fs_segs (env_cwd ev) outputDir) = Throw ENOTDIR)
        by (apply Hd; eauto). congruence.
    + rewrite bool_decide_false by done. split; [done|].
      intros [[? _]|[_ Hf]]; [done|]. apply Hd in He as (k & c & Hk & Hc).
      by destruct (Hf k c).
Qed.

(** *** The phases *)

Section phases.
Context (ev : env).

Lemma onError_tree tempDir err w :
  w_tree (onError ev tempDir err w) =
  match tempDir with
  | Some (c :: d) => remove (env_cwd ev) (w_tree w) (c :: d)
  | _ => w_tree w
  end.
Proof. by destruct tempDir as [[|]|]. Qed.

Lemma onError_report tempDir err w :
  last_event (onError ev tempDir err w) = Some (SpinnerFail (err_message err)) ∧
  w_exitCode (onError ev tempDir err w) = Some 1 ∧
  requests (onError ev tempDir err w) = requests w.
Proof. by destruct tempDir as [[|]|]. Qed.

Lemma getDefaultBranch_snd o r w :
  (getDefaultBranch ev o r w).2 = (getDefaultBranch ev o r (World ∅ [] None)).2.
Proof. done. Qed.

Lemma finalBranchOf_snd r w :
  (finalBranchOf ev r w).2 =
  if truthy (branch r) then Val (branch r) else metadata ev r.
Proof. unfold finalBranchOf. by destruct (truthy _). Qed.

Lemma finalBranchOf_fst r w :
  (finalBranchOf ev r w).1 =
  if truthy (branch r) then w else emit (Fetched (apiUrl (owner r) (repo r))) w.
Proof. unfold finalBranchOf. by destruct (truthy _). Qed.

Lemma fetchZip_fst r b w :
  (fetchZip ev r b w).1 =
  emit (Fetched (zipUrl (owner r) (repo r) b))
    (emit (SpinnerText (fetching_text ev (branch r))) w).
Proof. done. Qed.

Lemma fetchZip_Val r b w res :
  (fetchZip ev r b w).2 = Val res →
  env_fetch ev (zipUrl (owner r) (repo r) b) = Val res ∧
  r_ok res = true ∧ r_has_body res = true.
Proof.
  unfold fetchZip. cbn [fetch snd].
  destruct (env_fetch _ _) as [res'|]; [|done]. cbn [exn_bind].
  destruct (r_ok res') eqn:?, (r_has_body res') eqn:?; simpl; [|done..].
  by intros [= ->].
Qed.

Lemma fetchZip_Throw r b w err :
  (fetchZip ev r b w).2 = Throw err ↔
  env_fetch ev (zipUrl (owner r) (repo r) b) = Throw err ∨
  ∃ res, env_fetch ev (zipUrl (owner r) (repo r) b) = Val res ∧
    (r_ok res = false ∧
       err = Error (str "Failed to download ZIP: " ++ r_statusText res) ∨
     r_ok res = true ∧ r_has_body res = false ∧
       err = Error (str "Error fetching data")).
Proof.
  unfold fetchZip. cbn [fetch snd].
  destruct (env_fetch _ _) as [res|e]; cbn [exn_bind].
  - split.
    + intros H. right. exists res. split; [done|].
      destruct (r_ok res); [right|left; split; [done|]; by inv H].
      destruct (r_has_body res); [done|]. split_and!; [done..|]. by inv H.
    + intros [[=]|(? & [= <-] & [[-> ->]|(-> & -> & ->)])]; done.
  - split; [by left|]. by intros [?|(? & [=] & _)].
Qed.

Lemma metadata_Throw r err :
  metadata ev r = Throw err ↔
  env_fetch ev (apiUrl (owner r) (repo r)) = Throw err ∨
  ∃ res, env_fetch ev (apiUrl (owner r) (repo r)) = Val res ∧
    (r_ok res = false ∧
       err = Error (str "Failed to fetch repo metadata: " ++ r_statusText res) ∨
     r_ok res = true ∧ r_default_branch res = Throw err).
Proof.
  unfold metadata, getDefaultBranch. cbn [fetch snd].
  destruct (env_fetch _ _) as [res|e]; cbn [exn_bind].
  - split.
    + intros H. right. exists res. split; [done|].
      destruct (r_ok res); [by right|left; split; [done|]; by inv H].
    + intros [[=]|(? & [= <-] & [[-> ->]|[-> ->]])]; done.
  - split; [intros [= ->]; by left|]. by intros [[= ->]|(? & [=] & _)].
Qed.

(** The failures of the network are the exceptions of the two phases
    that ask it. *)
Lemma net_failure_phases r w w' err :
  net_failure ev r err ↔
  (finalBranchOf ev r w).2 = Throw err ∨
  ∃ b, (finalBranchOf ev r w).2 = Val b ∧ (fetchZip ev r b w').2 = Throw err.
Proof.
  rewrite finalBranchOf_snd. fold (resolved ev r). split.
  - intros [e Hb H|res Hb H Hok|res e Hb H Hok Hj|b e Hb H|b res Hb H Hok
            |b res Hb H Hok Hbody];
      try (left; unfold resolved; rewrite Hb; apply metadata_Throw;
           naive_solver);
      right; exists b; (split; [done|]); apply fetchZip_Throw; naive_solver.
  - intros [H|(b & Hb & H)].
    + unfold resolved in H. destruct (truthy (branch r)) eqn:Hb; [done|].
      apply metadata_Throw in H as [H|(res & H & [[? ->]|[? ?]])];
        eauto using net_failure.
    + apply fetchZip_Throw in H as [H|(res & H & [[? ->]|(? & ? & ->)])];
        eauto using net_failure.
Qed.

Lemma ensureDirs_fst tempDir outputDir w :
  w_events (ensureDirs ev tempDir outputDir w).1 = w_events w ∧
  w_exitCode (ensureDirs ev tempDir outputDir w).1 = w_exitCode w.
Proof.
  unfold ensureDirs. destruct (ensureDir _ _ tempDir); [|done].
  by destruct (ensureDir _ _ outputDir).
Qed.

Lemma ensureDirs_Val tempDir outputDir w w' :
  ensureDirs ev tempDir outputDir w = (w', Val ()) →
  ∃ t1 t2, ensureDir (env_cwd ev) (w_tree w) tempDir = Val t1 ∧
           ensureDir (env_cwd ev) t1 outputDir = Val t2 ∧
           w' = set_tree t2 w.
Proof.
  unfold ensureDirs. destruct (ensureDir _ _ tempDir) as [t1|]; [|done].
  destruct (ensureDir _ t1 outputDir) as [t2|] eqn:E; [|done].
  intros [= <-]. eauto.
Qed.

Lemma ensureDirs_ready tempDir outputDir w :
  is_val (ensureDirs ev tempDir outputDir w).2 = true →
  ∃ t1, ensureDir (env_cwd ev) (w_tree w) tempDir = Val t1 ∧
        ensureDir (env_cwd ev) t1 outputDir
        = Val (w_tree (ensureDirs ev tempDir outputDir w).1).
Proof.
  unfold ensureDirs. destruct (ensureDir _ _ tempDir) as [t1|]; [|done].
  destruct (ensureDir _ t1 outputDir) as [t2|] eqn:E; [|done]. eauto.
Qed.

(** The loop and the report send no request; they end with the
    success line and the exit code as it was, or with a failure line
    and the exit code 1, or by an exception. *)
Lemma extractAndReport_spec subfolder tempDir outputDir pre a w :
  let r := extractAndReport ev subfolder tempDir outputDir pre a w in
  requests r.1 = requests w ∧
  match r.2 with
  | Throw _ => w_exitCode r.1 = w_exitCode w
  | Val _ =>
      (∃ text, last_event r.1 = Some (SpinnerSucceed text) ∧
               w_exitCode r.1 = w_exitCode w) ∨
      (∃ text, last_event r.1 = Some (SpinnerFail text) ∧
               w_exitCode r.1 = Some 1)
  end.
Proof.
  unfold extractAndReport.
  pose proof (extract_all_steps ev
    (Params pre (stripTrailingSlash subfolder) outputDir) (a_entries a)
    (w, Counters 0 false)) as H. cbn [fst snd] in H.
  destruct (extract_all _ _ _ _ _) as [w1 c].
  pose proof (steps_requests _ _ _ _ _ H) as Hr.
  pose proof (steps_exitCode _ _ _ _ _ H) as Hx. cbn [fst snd] in *.
  destruct (a_error a); [done|].
  destruct (matchedSomething c); cbn [negb fst snd];
    (split; [done|]); [left|right]; eauto.
Qed.

(** The report after the loop, case by case. *)
Lemma extractAndReport_cases subfolder tempDir outputDir pre a w :
  let pr := Params pre (stripTrailingSlash subfolder) outputDir in
  let x := extract_all ev pr (a_entries a) w (Counters 0 false) in
  extractAndReport ev subfolder tempDir outputDir pre a w =
  match a_error a with
  | Some err => (x.1, Throw err)
  | None =>
      if existsb (scoped pr) (a_entries a) then
        (emit (SpinnerSucceed
                 (success_text ev subfolder outputDir (filesExtracted x.2))) x.1,
         Val ())
      else
        (set_exitCode 1
           (removeTemp ev tempDir
              (emit (SpinnerFail (not_found_text subfolder)) x.1)), Val ())
  end.
Proof.
  cbn zeta. unfold extractAndReport.
  pose proof (extract_all_steps ev
    (Params pre (stripTrailingSlash subfolder) outputDir) (a_entries a)
    (w, Counters 0 false)) as H. apply steps_matched in H. cbn [fst snd] in H.
  destruct (extract_all _ _ _ _ _) as [w1 c]. cbn [fst snd] in *.
  rewrite H. cbn [matchedSomething orb]. by destruct (existsb _ _).
Qed.
End phases.

(** *** The body and the whole function *)

Section download.
Context (ev : env).

Lemma downloadBody_spec r b subfolder target w :
  let x := downloadBody ev r b subfolder target w in
  requests x.1 = zipUrl (owner r) (repo r) b :: requests w ∧
  match x.2 with
  | Throw _ => True
  | Val _ =>
      (∃ text, last_event x.1 = Some (SpinnerSucceed text) ∧
               w_exitCode x.1 = w_exitCode w) ∨
      (∃ text, last_event x.1 = Some (SpinnerFail text) ∧
               w_exitCode x.1 = Some 1)
  end.
Proof.
  unfold downloadBody. pose proof (fetchZip_fst ev r b w) as Hw1.
  destruct (fetchZip ev r b w) as [w1 [res|err]]; cbn [fst snd] in *;
    subst w1; [|done].
  destruct (checkTarget _ _ _); [|split; [done|right; eauto]].
  set (w1 := emit (Fetched _) _).
  destruct (ensureDirs_fst ev (tempDirOf ev) (outputDirOf ev subfolder target) w1)
    as [He Hx].
  destruct (ensureDirs _ _ _ _) as [w2 [[]|err]]; cbn [fst snd] in *;
    [|split; [|done]; unfold requests; by rewrite He].
  pose proof (extractAndReport_spec ev subfolder (tempDirOf ev)
    (outputDirOf ev subfolder target) (prefixOf (repo r) b) (r_archive res) w2)
    as [Hr Ho].
  cbn zeta in *. rewrite Hr. split; [unfold requests; by rewrite He|].
  destruct (extractAndReport _ _ _ _ _ _ _).2; [|done]. by rewrite Hx in Ho.
Qed.

Lemma downloadFolder_unfold repoUrl subfolder target w r b :
  parseGitHubUrl repoUrl = Val r →
  (finalBranchOf ev r w).2 = Val b →
  downloadFolder ev repoUrl subfolder target w =
  let w1 := (finalBranchOf ev r (emit (SpinnerStart (str "Preparing download...")) w)).1 in
  match downloadBody ev r b subfolder target w1 with
  | (w2, Throw err) => onError ev (Some (tempDirOf ev)) err w2
  | (w2, Val _) => w2
  end.
Proof.
  intros Hp Hb. unfold downloadFolder. rewrite Hp.
  rewrite finalBranchOf_snd in Hb.
  destruct (finalBranchOf ev r (emit _ w)) as [w1 x] eqn:E.
  apply (f_equal snd) in E as E2. rewrite finalBranchOf_snd, Hb in E2.
  simpl in E2. by subst x.
Qed.

Lemma finalBranchOf_tree r w : w_tree (finalBranchOf ev r w).1 = w_tree w.
Proof. rewrite finalBranchOf_fst. by destruct (truthy _). Qed.

(** A refused target: the body leaves the tree as it was. *)
Lemma downloadBody_refused r b subfolder target w m :
  checkTarget ev (outputDirOf ev subfolder target) (w_tree w) = Refuse m →
  let x := downloadBody ev r b subfolder target w in
  w_tree x.1 = w_tree w ∧ (is_val x.2 = true → w_exitCode x.1 = Some 1).
Proof.
  intros Hc. unfold downloadBody. pose proof (fetchZip_fst ev r b w) as Hw1.
  destruct (fetchZip ev r b w) as [w1 [res|err]]; cbn [fst snd] in *; subst w1;
    [|done].
  cbn [emit w_tree]. by rewrite Hc.
Qed.

(** When the phases before the loop succeed, the call is the loop and
    the report, from the prepared world. *)
Lemma downloadFolder_ready repoUrl subfolder target w r b res t2 :
  ready ev repoUrl subfolder target w r b res t2 →
  downloadFolder ev repoUrl subfolder target w =
  match extractAndReport ev subfolder (tempDirOf ev)
          (outputDirOf ev subfolder target) (prefixOf (repo r) b)
          (r_archive res) (prepared ev r b t2 w) with
  | (w3, Throw err) => onError ev (Some (tempDirOf ev)) err w3
  | (w3, Val _) => w3
  end.
Proof.
  intros [Hp Hb Hf Hok Hbody Hc (t1 & H1 & H2)].
  rewrite (downloadFolder_unfold _ _ _ _ r b) by done. cbn zeta.
  unfold downloadBody, prepared.
  set (w1 := (finalBranchOf ev r _).1).
  assert (w_tree w1 = w_tree w) as Ht by (unfold w1; by rewrite finalBranchOf_tree).
  unfold fetchZip at 1. cbn [fetch]. rewrite Hf. cbn [exn_bind].
  rewrite Hok, Hbody. cbn [negb]. rewrite fetchZip_fst.
  cbn [emit w_tree]. rewrite Ht, Hc.
  unfold ensureDirs. cbn [emit w_tree]. by rewrite Ht, H1, H2.
Qed.
(** A failure of the network: the call is the [catch], run on a world
    whose tree is the tree of the start, with [tempDir] set when the
    branch was known. *)
Lemma downloadFolder_net_failure repoUrl subfolder target w r err :
  parseGitHubUrl repoUrl = Val r →
  net_failure ev r err →
  ∃ w1, downloadFolder ev repoUrl subfolder target w
        = onError ev (if is_val (resolved ev r) then Some (tempDirOf ev)
                      else None) err w1 ∧
        w_tree w1 = w_tree w.
Proof.
  intros Hp Hn. unfold downloadFolder. rewrite Hp. set (w0 := emit _ w).
  pose proof (finalBranchOf_tree r w0) as Ht.
  pose proof (finalBranchOf_snd ev r w0) as Hs. fold (resolved ev r) in Hs.
  apply (net_failure_phases ev r w0 (finalBranchOf ev r w0).1) in Hn.
  destruct (finalBranchOf ev r w0) as [w1 x]; cbn [fst snd] in *.
  rewrite <-Hs. destruct Hn as [->|(b & -> & Hf)]; [by exists w1|].
  unfold downloadBody. pose proof (fetchZip_fst ev r b w1) as Hw2.
  destruct (fetchZip ev r b w1) as [w2 y]; cbn [fst snd] in *. subst y w2.
  eexists. split; [done|]. cbn [emit w_tree]. by rewrite Ht.
Qed.
End download.

(** ** Theorems *)

(** Every call of [downloadFolder] ends in one of two ways: the last
    line is the success line and the exit code is what it was, or the
    last line is a failure line and the exit code is 1.  No call ends
    without a report, and none reports success with the exit code
    set. *)
Lemma downloadFolder_outcome ev repoUrl subfolder target w :
  let w' := downloadFolder ev repoUrl subfolder target w in
  (∃ text, last_event w' = Some (SpinnerSucceed text) ∧
           w_exitCode w' = w_exitCode w) ∨
  (∃ text, last_event w' = Some (SpinnerFail text) ∧ w_exitCode w' = Some 1).
Proof.
  unfold downloadFolder. set (w0 := emit _ w).
  destruct (parseGitHubUrl repoUrl) as [r|err];
    [|right; eexists; split; apply onError_report].
  pose proof (finalBranchOf_fst ev r w0) as Hw1.
  destruct (finalBranchOf ev r w0) as [w1 [b|err]]; cbn [fst] in Hw1;
    [|right; eexists; split; apply onError_report].
  pose proof (downloadBody_spec ev r b subfolder target w1) as [_ Ho].
  destruct (downloadBody _ _ _ _ _ _) as [w2 [[]|err]]; cbn [fst snd] in Ho;
    [|right; eexists; split; apply onError_report].
  replace (w_exitCode w) with (w_exitCode w1); [done|].
  subst w1. by destruct (truthy _).
Qed.

(** Once the branch is known, the last request of a call is the one
    for the archive of that branch. *)
Lemma downloadFolder_last_request ev repoUrl subfolder target w r b :
  parseGitHubUrl repoUrl = Val r →
  (finalBranchOf ev r w).2 = Val b →
  head (requests (downloadFolder ev repoUrl subfolder target w))
  = Some (zipUrl (owner r) (repo r) b).
Proof.
  intros Hp Hb. rewrite (downloadFolder_unfold ev _ _ _ _ r b) by done.
  cbn zeta. set (w1 := (finalBranchOf ev r _).1).
  pose proof (downloadBody_spec ev r b subfolder target w1) as [Hr _].
  destruct (downloadBody _ _ _ _ _ _) as [w2 [[]|err]]; cbn [fst] in Hr.
  - by rewrite Hr.
  - destruct (onError_report ev (Some (tempDirOf ev)) err w2) as (_ & _ & ->).
    by rewrite Hr.
Qed.

(** C22: the requests a call sends are determined by the reference and
    the answers of the network alone: none when the reference does not
    parse; the archive of the named branch; or the metadata and then,
    if it answers, the archive of the default branch.  The state of
    the target and of the file system plays no part: the archive is
    requested before the target is looked at. *)
Theorem downloadFolder_requests ev repoUrl subfolder target w :
  requests (downloadFolder ev repoUrl subfolder target w)
  = expected_requests ev repoUrl ++ requests w.
Proof.
  unfold downloadFolder, expected_requests. set (w0 := emit _ w).
  destruct (parseGitHubUrl repoUrl) as [r|err]; [|apply onError_report].
  pose proof (finalBranchOf_fst ev r w0) as Hw1.
  pose proof (finalBranchOf_snd ev r w0) as Hb.
  destruct (finalBranchOf ev r w0) as [w1 [b|err]]; cbn [fst snd] in Hw1, Hb.
  - pose proof (downloadBody_spec ev r b subfolder target w1) as [Hr _].
    assert (requests (match downloadBody ev r b subfolder target w1 with
                      | (w2, Throw err) => onError ev (Some (tempDirOf ev)) err w2
                      | (w2, Val _) => w2
                      end) = zipUrl (owner r) (repo r) b :: requests w1) as ->.
    { destruct (downloadBody _ _ _ _ _ _) as [w2 [[]|err]]; [done|].
      etrans; [apply onError_report|done]. }
    subst w1. destruct (truthy (branch r)); [by inv Hb|by rewrite <-Hb].
  - etrans; [apply onError_report|]. subst w1.
    destruct (truthy (branch r)); [done|by rewrite <-Hb].
Qed.

(** An example: the network knows the repository [o/repo], whose
    default branch is [main] and whose archive holds the entries of
    [Extract.ex_entries]; everything else is not found. *)
Definition dl_response (a : archive) (b : option jstring) : response :=
  Response true (str "OK") true (Val b) a.

Definition dl_net (url : jstring) : exn js_error response :=
  if str_eqb url (str "https://api.github.com/repos/o/repo")
  then Val (dl_response (Archive [] None) (Some (str "main")))
  else if str_eqb url (str "https://github.com/o/repo/archive/refs/heads/main.zip")
  then Val (dl_response (Archive ex_entries None) None)
  else Val (Response false (str "Not Found") false (Val None) (Archive [] None)).

Definition dl_env : env :=
  Env (str "/home/u") (str "/tmp") 1700 dl_net false None (Val None).

Definition dl_world : world :=
  World {[ [str "home"] := Dir; [str "home"; str "u"] := Dir;
           [str "home"; str "u"; str "notes"] := File (str "n") ]} [] None.

Definition dl_ref : repo_ref :=
  RepoRef (Some (str "o")) (Some (str "repo")) None None.

(** The same network, whose metadata has no [default_branch]. *)
Definition dl_env_unnamed : env :=
  Env (str "/home/u") (str "/tmp") 1700
    (λ url, if str_eqb url (str "https://api.github.com/repos/o/repo")
            then Val (dl_response (Archive [] None) None) else dl_net url)
    false None (Val None).

(** The tree after the scratch and the output directory were created. *)
Definition dl_tree (subfolder : jstring) : tree :=
  w_tree (ensureDirs dl_env (tempDirOf dl_env)
            (outputDirOf dl_env subfolder None) dl_world).1.

(** C4: the guard on the target, case by case.  A file at the target
    is refused with the message that it exists as a file; a directory
    with entries is refused as not empty; a file above the target is
    refused with the system's [ENOTDIR] message; and a free target (an
    empty directory, or nothing there and nothing in the way) is
    accepted. *)
Theorem checkTarget_cases ev outputDir t :
  wf t →
  let segs := fs_segs (env_cwd ev) outputDir in
  (∀ c, node_at t segs = Some (File c) →
        checkTarget ev outputDir t = Refuse (is_file_text ev outputDir)) ∧
  (node_at t segs = Some Dir → children t segs ≠ [] →
   checkTarget ev outputDir t = Refuse (not_empty_text ev outputDir)) ∧
  ((∃ k c, 1 ≤ k < length segs ∧ t !! take k segs = Some (File c)) →
   checkTarget ev outputDir t =
   Refuse (check_error_text (sys_error ENOTDIR (str "stat") outputDir))) ∧
  (target_free t segs → checkTarget ev outputDir t = Proceed).
Proof.
  intros Hwf. cbn zeta. set (segs := fs_segs (env_cwd ev) outputDir). split_and!.
  - intros c Hn. apply stat_Val in Hn; [|done]. unfold checkTarget. by rewrite Hn.
  - intros Hn Hc. unfold checkTarget.
    assert (readdir (env_cwd ev) t outputDir = Val (children t segs)) as ->
      by (by apply readdir_Val).
    apply stat_Val in Hn; [|done]. rewrite Hn. cbn [exn_bind is_file].
    by destruct (children t segs).
  - intros Hf. apply (resolve_node_ENOTDIR t [] segs Hwf) in Hf. unfold segs in Hf.
    unfold checkTarget, stat, lookup_path. by rewrite Hf.
  - by apply checkTarget_Proceed.
Qed.

Lemma checkTarget_cases_witness :
  checkTarget dl_env (str "/home/u/notes") (w_tree dl_world)
    = Refuse (str "Target /home/u/notes exists as a file. Please remove it or choose another name.") ∧
  checkTarget dl_env (str "/home/u") (w_tree dl_world)
    = Refuse (str "Directory /home/u already exists and is not empty.") ∧
  checkTarget dl_env (str "/home/u/notes/keep") (w_tree dl_world)
    = Refuse (str "Error checking target path: ENOTDIR: not a directory, stat '/home/u/notes/keep'").
Proof.
  assert (wf (w_tree dl_world)) as Hwf
    by (apply (bool_decide_unpack _); vm_compute; exact I).
  split_and!.
  - destruct (checkTarget_cases dl_env (str "/home/u/notes") _ Hwf) as (H & _).
    by apply (H (str "n")).
  - destruct (checkTarget_cases dl_env (str "/home/u") _ Hwf) as (_ & H & _).
    apply H; [done|]. by vm_compute.
  - destruct (checkTarget_cases dl_env (str "/home/u/notes/keep") _ Hwf)
      as (_ & _ & H & _).
    apply H. exists 3, (str "n"). split; [vm_compute; lia|done].
Defined.

(** C21: a target that is not free is left as it is: whatever the
    reference and the answers of the network, the call changes nothing
    in the tree and ends with the exit code 1.  (The scratch directory
    is assumed not to be there already, as its name carries the time.) *)
Theorem downloadFolder_target_kept ev repoUrl subfolder target w :
  wf (w_tree w) →
  ¬ target_free (w_tree w)
      (fs_segs (env_cwd ev) (outputDirOf ev subfolder target)) →
  node_at (w_tree w) (fs_segs (env_cwd ev) (tempDirOf ev)) = None →
  let w' := downloadFolder ev repoUrl subfolder target w in
  w_tree w' = w_tree w ∧ w_exitCode w' = Some 1.
Proof.
  intros Hwf Hfree Htmp. unfold downloadFolder. set (w0 := emit _ w).
  destruct (parseGitHubUrl repoUrl) as [r|err]; [|done].
  pose proof (finalBranchOf_tree ev r w0) as Ht.
  destruct (finalBranchOf ev r w0) as [w1 [b|err]]; cbn [fst] in Ht;
    [|by split; [rewrite onError_tree|apply onError_report]].
  destruct (checkTarget ev (outputDirOf ev subfolder target) (w_tree w1))
    as [|m] eqn:Hc.
  { rewrite Ht in Hc. by apply checkTarget_Proceed in Hc. }
  destruct (downloadBody_refused ev r b subfolder target w1 m Hc) as [Hb Hx].
  destruct (downloadBody _ _ _ _ _ _) as [w2 [[]|err]]; cbn [fst snd] in *.
  - split; [by rewrite Hb, Ht|by apply Hx].
  - split; [|apply onError_report]. rewrite onError_tree, Hb, Ht. cbn [w_tree].
    destruct (tempDirOf ev); [done|]. by apply remove_tree_absent.
Qed.

Lemma downloadFolder_target_kept_witness :
  w_tree (downloadFolder dl_env (str "o/repo") (str "notes") None dl_world)
  = w_tree dl_world.
Proof.
  apply (downloadFolder_target_kept dl_env (str "o/repo") (str "notes") None
           dl_world); [apply (bool_decide_unpack _); vm_compute; exact I| |done].
  intros [[H _]|[H _]]; vm_compute in H; discriminate H.
Defined.

(** C28: a reference that does not parse ends the call at once: the
    failure line carries the parser's message, the exit code is 1, the
    tree is untouched and no request was sent. *)
Theorem downloadFolder_parse_error ev repoUrl subfolder target w err :
  parseGitHubUrl repoUrl = Throw err →
  downloadFolder ev repoUrl subfolder target w =
  set_exitCode 1
    (emit (SpinnerFail (err_message err))
       (emit (SpinnerStart (str "Preparing download...")) w)).
Proof. unfold downloadFolder. intros ->. reflexivity. Qed.

Lemma downloadFolder_parse_error_witness :
  w_events (downloadFolder dl_env (str "nonsense") (str "keep") None dl_world)
  = [SpinnerFail (str "Invalid GitHub repo format. Use owner/repo[#branch] or full GitHub folder URL.");
     SpinnerStart (str "Preparing download...")].
Proof.
  rewrite (downloadFolder_parse_error dl_env (str "nonsense") (str "keep") None
             dl_world invalid_format); [reflexivity|]. vm_compute. reflexivity.
Defined.

(** C26: a failure of the network ends the call before the target is
    looked at.  When the metadata or the archive cannot be had (the
    request fails, the status is not ok, the metadata cannot be read,
    the archive has no body), the call shows one failure line with the
    message of that failure and sets the exit code 1.  The file tree is
    as it was when the metadata failed; when the archive failed,
    [tempDir] is set and the [catch] removes what stands at that path,
    which leaves the tree as it was when nothing stands there. *)
Theorem downloadFolder_network_error ev repoUrl subfolder target w r err :
  parseGitHubUrl repoUrl = Val r →
  net_failure ev r err →
  let w' := downloadFolder ev repoUrl subfolder target w in
  last_event w' = Some (SpinnerFail (err_message err)) ∧
  w_exitCode w' = Some 1 ∧
  w_tree w' = (if is_val (resolved ev r)
               then remove (env_cwd ev) (w_tree w) (tempDirOf ev)
               else w_tree w) ∧
  (wf (w_tree w) →
   node_at (w_tree w) (fs_segs (env_cwd ev) (tempDirOf ev)) = None →
   w_tree w' = w_tree w).
Proof.
  intros Hp Hn. cbn zeta.
  destruct (downloadFolder_net_failure ev repoUrl subfolder target w r err Hp Hn)
    as (w1 & -> & Ht).
  assert (w_tree (onError ev (if is_val (resolved ev r)
                              then Some (tempDirOf ev) else None) err w1)
          = if is_val (resolved ev r)
            then remove (env_cwd ev) (w_tree w) (tempDirOf ev)
            else w_tree w) as Hr.
  { rewrite onError_tree, Ht. unfold remove.
    pose proof (join_nonempty [env_tmpdir ev;
                               str "gh-folder-" ++ show_nat (env_now ev)]).
    fold (tempDirOf ev) in *. by destruct (is_val _), (tempDirOf ev). }
  split_and!; [apply onError_report..|done|]. intros Hwf Htmp. rewrite Hr.
  destruct (is_val _); [|done]. by apply remove_tree_absent.
Qed.

Lemma downloadFolder_network_error_witness :
  let w' := downloadFolder dl_env (str "o/repo#dev") (str "keep") None dl_world in
  last_event w' = Some (SpinnerFail (str "Failed to download ZIP: Not Found")) ∧
  w_exitCode w' = Some 1 ∧ w_tree w' = w_tree dl_world.
Proof.
  destruct (downloadFolder_network_error dl_env (str "o/repo#dev") (str "keep")
              None dl_world
              (RepoRef (Some (str "o")) (Some (str "repo")) (Some (str "dev")) None)
              (Error (str "Failed to download ZIP: Not Found")))
    as (H1 & H2 & _ & H3); [vm_compute; reflexivity| |].
  - by apply (archive_refused dl_env _ (Some (str "dev"))
                (Response false (str "Not Found") false (Val None)
                   (Archive [] None))).
  - split_and!; [done..|]. apply H3; [|vm_compute; reflexivity].
    apply (bool_decide_unpack _). vm_compute. exact I.
Defined.

(** Metadata without a [default_branch] is taken as it is: the branch
    is [undefined], and the archive that is asked for is that of a
    branch of this name. *)
Example undefined_branch_requested :
  head (requests (downloadFolder dl_env_unnamed (str "o/repo") (str "keep") None
                    dl_world))
  = Some (str "https://github.com/o/repo/archive/refs/heads/undefined.zip").
Proof.
  by rewrite (downloadFolder_last_request dl_env_unnamed _ _ _ _ dl_ref None).
Qed.

(** C13: when the phases before the loop succeed, the archive is
    complete and some entry is in scope, the call is the loop followed
    by the success line, which names the sub-folder, the output
    directory and the number of files the loop counted; the exit code
    is not set. *)
Theorem downloadFolder_success ev repoUrl subfolder target w r b res t2 :
  ready ev repoUrl subfolder target w r b res t2 →
  a_error (r_archive res) = None →
  existsb (scoped (paramsOf ev r b subfolder target))
    (a_entries (r_archive res)) = true →
  let x := extract_all ev (paramsOf ev r b subfolder target)
             (a_entries (r_archive res)) (prepared ev r b t2 w)
             (Counters 0 false) in
  downloadFolder ev repoUrl subfolder target w =
  emit (SpinnerSucceed
          (success_text ev subfolder (outputDirOf ev subfolder target)
             (filesExtracted x.2))) x.1.
Proof.
  intros Hr He Hs. rewrite (downloadFolder_ready ev _ _ _ _ _ _ _ _ Hr).
  rewrite extractAndReport_cases, He. fold (paramsOf ev r b subfolder target).
  by rewrite Hs.
Qed.

Lemma ready_example subfolder :
  subfolder = str "keep" ∨ subfolder = str "docs" →
  ready dl_env (str "o/repo") subfolder None dl_world dl_ref
    (Some (str "main")) (dl_response (Archive ex_entries None) None)
    (dl_tree subfolder).
Proof.
  intros [-> | ->]; (split; [vm_compute; reflexivity..|]);
    apply ensureDirs_ready; vm_compute; reflexivity.
Qed.

Lemma downloadFolder_success_witness :
  last_event (downloadFolder dl_env (str "o/repo") (str "keep") None dl_world)
  = Some (SpinnerSucceed
            (str "Successfully downloaded keep to /home/u/keep (2 files)")).
Proof.
  rewrite (downloadFolder_success _ _ _ _ _ _ _ _ _
             (ready_example (str "keep") (or_introl eq_refl)));
    vm_compute; reflexivity.
Defined.

(** C27: when the phases before the loop succeed and the archive is
    complete but no entry is in scope, the call fails with the line
    that the sub-folder was not found and the exit code 1; the scratch
    directory is removed, and the output directory, which was created
    before the loop, is left behind empty. *)
Theorem downloadFolder_not_found ev repoUrl subfolder target w r b res t2 :
  ready ev repoUrl subfolder target w r b res t2 →
  a_error (r_archive res) = None →
  existsb (scoped (paramsOf ev r b subfolder target))
    (a_entries (r_archive res)) = false →
  downloadFolder ev repoUrl subfolder target w =
  set_exitCode 1
    (removeTemp ev (tempDirOf ev)
       (emit (SpinnerFail (not_found_text subfolder)) (prepared ev r b t2 w))).
Proof.
  intros Hr He Hs. rewrite (downloadFolder_ready ev _ _ _ _ _ _ _ _ Hr).
  rewrite extractAndReport_cases, He. fold (paramsOf ev r b subfolder target).
  rewrite Hs.
  pose proof (extract_all_steps ev (paramsOf ev r b subfolder target)
    (a_entries (r_archive res)) (prepared ev r b t2 w, Counters 0 false)) as H.
  apply steps_none_scoped in H; [|done]. cbn [fst snd] in H. by rewrite H.
Qed.

Lemma downloadFolder_not_found_witness :
  last_event (downloadFolder dl_env (str "o/repo") (str "docs") None dl_world)
  = Some (SpinnerFail (not_found_text (str "docs"))).
Proof.
  rewrite (downloadFolder_not_found _ _ _ _ _ _ _ _ _
             (ready_example (str "docs") (or_intror eq_refl)));
    vm_compute; reflexivity.
Defined.

(** C30: when the archive's stream ends with an error, the call fails
    with that error's message and the exit code 1 and removes the
    scratch directory; what the loop had extracted before the error
    stays in the output directory. *)
Theorem downloadFolder_stream_error ev repoUrl subfolder target w r b res t2 err :
  ready ev repoUrl subfolder target w r b res t2 →
  a_error (r_archive res) = Some err →
  let x := extract_all ev (paramsOf ev r b subfolder target)
             (a_entries (r_archive res)) (prepared ev r b t2 w)
             (Counters 0 false) in
  downloadFolder ev repoUrl subfolder target w =
  onError ev (Some (tempDirOf ev)) err x.1.
Proof.
  intros Hr He. rewrite (downloadFolder_ready ev _ _ _ _ _ _ _ _ Hr).
  by rewrite extractAndReport_cases, He.
Qed.

(** The network of the example, with an archive that breaks off after
    its entries. *)
Definition dl_env_broken : env :=
  Env (str "/home/u") (str "/tmp") 1700
    (λ _, Val (dl_response (Archive ex_entries (Some (Error (str "FILE_ENDED"))))
                 None))
    false None (Val None).

Lemma downloadFolder_stream_error_witness :
  let w' := downloadFolder dl_env_broken (str "o/repo#main") (str "keep") None
              dl_world in
  last_event w' = Some (SpinnerFail (str "FILE_ENDED")) ∧
  w_tree w' !! [str "home"; str "u"; str "keep"; str "a.txt"]
  = Some (File (str "A")).
Proof.
  assert (ready dl_env_broken (str "o/repo#main") (str "keep") None dl_world
            (RepoRef (Some (str "o")) (Some (str "repo")) (Some (str "main")) None)
            (Some (str "main"))
            (dl_response (Archive ex_entries (Some (Error (str "FILE_ENDED")))) None)
            (dl_tree (str "keep"))) as Hr.
  { split; [vm_compute; reflexivity..|].
    apply (ensureDirs_ready dl_env_broken). vm_compute. reflexivity. }
  cbn zeta.
  rewrite (downloadFolder_stream_error _ _ _ _ _ _ _ _ _ (Error (str "FILE_ENDED")) Hr);
    [|reflexivity].
  split; vm_compute; reflexivity.
Defined.

(** C33: after a successful call the scratch directory is still
    there: it is created before the loop, nothing is put into it, and
    only the failure paths remove it. *)
Theorem tempDir_left_behind ev repoUrl subfolder target w r b res t2 :
  ready ev repoUrl subfolder target w r b res t2 →
  a_error (r_archive res) = None →
  existsb (scoped (paramsOf ev r b subfolder target))
    (a_entries (r_archive res)) = true →
  node_at (w_tree (downloadFolder ev repoUrl subfolder target w))
    (fs_segs (env_cwd ev) (tempDirOf ev)) = Some Dir.
Proof.
  intros Hr He Hs. rewrite (downloadFolder_ready ev _ _ _ _ _ _ _ _ Hr).
  rewrite extractAndReport_cases, He. fold (paramsOf ev r b subfolder target).
  rewrite Hs. cbn [emit w_tree].
  pose proof (extract_all_steps ev (paramsOf ev r b subfolder target)
    (a_entries (r_archive res)) (prepared ev r b t2 w, Counters 0 false)) as H.
  eapply steps_dir_kept in H; [done|]. cbn [fst prepared set_tree w_tree].
  destruct Hr as [_ _ _ _ _ _ (t1 & H1%lift_errno_Val & H2%lift_errno_Val)].
  eapply mkdirs_dir_kept; [done|].
  by apply (mkdirs_dir (w_tree w) [] (fs_segs (env_cwd ev) (tempDirOf ev))).
Qed.

Lemma tempDir_left_behind_witness :
  node_at (w_tree (downloadFolder dl_env (str "o/repo") (str "keep") None dl_world))
    [str "tmp"; str "gh-folder-1700"] = Some Dir.
Proof.
  apply (tempDir_left_behind dl_env _ _ _ _ _ _ _ _
           (ready_example (str "keep") (or_introl eq_refl)));
    vm_compute; reflexivity.
Defined.

(** The output directory is an absolute path in normal form,
    whatever the sub-folder and the target are: it is the path of its
    segments, which are clean, and the file system reads it without the
    working directory.  Without a target it is the working directory
    continued by the last segment of the sub-folder (or by
    [downloaded-folder] when the sub-folder has none), unless that
    segment is [.] or [..]. *)
Lemma outputDirOf_normal ev subfolder target :
  isAbsolute (env_cwd ev) = true →
  let out := outputDirOf ev subfolder target in
  out = abs_of (path_segs out) ∧ Forall clean (path_segs out) ∧
  fs_segs (env_cwd ev) out = path_segs out ∧
  (truthy target = false →
   defaultDirName subfolder ≠ str "." → defaultDirName subfolder ≠ str ".." →
   path_segs out = path_segs (env_cwd ev) ++ [defaultDirName subfolder]).
Proof.
  intros Hc. cbn zeta. unfold outputDirOf.
  destruct (resolve_abs (env_cwd ev)
              [env_cwd ev; or_str target (defaultDirName subfolder)] Hc)
    as [H1 H2].
  split_and!; [done..| |].
  - apply fs_segs_abs. by rewrite H1.
  - intros Ht Hd Hdd. rewrite path_segs_resolve by done.
    rewrite truthy_or_str, Ht.
    assert (clean (defaultDirName subfolder)) as Hcl.
    { split_and!; [|done..|]; unfold defaultDirName;
        pose proof (basename_no_slash (stripTrailingSlash subfolder)) as Hb;
        destruct (basename _); [done|done| |done].
      apply (bool_decide_unpack _). vm_compute. exact I. }
    assert (slash ∉ defaultDirName subfolder) as Hs by apply Hcl.
    rewrite bool_decide_false by apply Hcl.
    assert (isAbsolute (defaultDirName subfolder) = false) as ->.
    { destruct (defaultDirName subfolder) as [|c d]; [done|].
      rewrite isAbsolute_cons. apply bool_decide_eq_false. intros ->.
      apply Hs. by left. }
    rewrite split_on_no_sep by done.
    rewrite norm_segs_clean by (by constructor).
    by rewrite reverse_involutive.
Qed.

Lemma outputDirOf_normal_witness :
  path_segs (outputDirOf dl_env (str "src/components/") None)
  = [str "home"; str "u"; str "components"].
Proof.
  destruct (outputDirOf_normal dl_env (str "src/components/") None)
    as (_ & _ & _ & H); [reflexivity|].
  rewrite H; vm_compute; [reflexivity|done..].
Defined.
