(* ===== verification/Machine.v ===== *)
(** * The run as a machine

    [downloadFolder] of index.ts, control point by control point.  The
    function of [Download] gives the world a call ends with; here the
    call is a transition system whose states are the points at which the
    code can stand (after the spinner was started, after the reference
    was parsed, at each [await], at each round of the loop, in the
    [catch]), so that what holds in between can be said.

    A configuration is a control point with the values the code holds
    there, and a world.  [mstep] has one rule for each way the code goes
    on; [next] is the same as a function.

    Theorems: the machine is deterministic ([mstep_deterministic]) and
    stops in [Terminal] only ([nf_terminal]); a step leads to a later
    control point or stays in the loop with one entry less to come, so
    every run ends and meets no configuration twice
    ([machine_terminates]); the world a run ends with is the world of
    [downloadFolder], and a step never changes the world the call will
    end with ([outcome_step], [machine_refines]).  By induction on the
    rules ([reachable_invariant]), in every configuration that a run
    meets: up to the guard the tree is as it was, after it the guard
    had accepted the target, and at the guard the archive was requested
    already ([guard_before_write]); in the loop the world is that of
    [Extract.extract_all] on the entries the stream has yielded so far,
    in their order ([loop_inv_reachable]); and one line of the spinner
    ends the run, a failure exactly when the exit code is set
    ([one_verdict]).

    The machine needs no fuel: [next] is total on the configurations
    that are not [Terminal], and termination is by the order of the
    control points and the length of what is left of the stream
    ([mstep_stage], [sn_stage]).  [run] iterates [next] a given number
    of times; eight steps and one for each entry of the archive are
    enough for it to reach [Terminal] ([machine_steps_bound]). *)

From S2P Require Import Prelude JsString Regex Parser Path Fs World Extract Download.
From stdpp Require Import relations.

(** ** Configurations *)

(** The control points.  [Fetching] and what follows hold the parsed
    reference and the branch; [Guarding] and what follows the answer of
    the network; [Extracting] the entries the stream has still to yield
    and the variables of the loop; [Failing] the value of [tempDir] and
    the exception, on the way into the [catch]. *)
Inductive control : Type :=
  | Idle
  | ResolvingReference
  | ResolvingBranch (r : repo_ref)
  | Fetching (r : repo_ref) (b : option jstring)
  | Guarding (r : repo_ref) (b : option jstring) (res : response)
  | Preparing (r : repo_ref) (b : option jstring) (res : response)
  | Extracting (r : repo_ref) (b : option jstring) (res : response)
      (rest : list entry) (c : counters)
  | Reporting (r : repo_ref) (b : option jstring) (res : response)
      (c : counters)
  | Failing (tempDir : option jstring) (err : js_error)
  | Terminal.

Abbreviation config := (control * world)%type.

(** The place of a control point in the text of the function. *)
Definition stage (k : control) : nat :=
  match k with
  | Idle => 0
  | ResolvingReference => 1
  | ResolvingBranch _ => 2
  | Fetching _ _ => 3
  | Guarding _ _ _ => 4
  | Preparing _ _ _ => 5
  | Extracting _ _ _ _ _ => 6
  | Reporting _ _ _ _ => 7
  | Failing _ _ => 8
  | Terminal => 9
  end.

(** The entries that are still to come. *)
Definition pending (k : control) : nat :=
  match k with
  | Extracting _ _ _ rest _ => length rest
  | _ => 0
  end.

Section machine.
Context (ev : env) (repoUrl subfolder : jstring) (target : option jstring).

Local Abbreviation tempDir := (tempDirOf ev).
Local Abbreviation outputDir := (outputDirOf ev subfolder target).
Local Abbreviation pr := (λ r b, paramsOf ev r b subfolder target).

(** ** The rules *)

Inductive mstep : config → config → Prop :=
  | do_start w :
      mstep (Idle, w)
        (ResolvingReference, emit (SpinnerStart (str "Preparing download...")) w)
  | do_parse w r :
      parseGitHubUrl repoUrl = Val r →
      mstep (ResolvingReference, w) (ResolvingBranch r, w)
  | do_parse_fail w err :
      parseGitHubUrl repoUrl = Throw err →
      mstep (ResolvingReference, w) (Failing None err, w)
  | do_branch r w w1 b :
      finalBranchOf ev r w = (w1, Val b) →
      mstep (ResolvingBranch r, w) (Fetching r b, w1)
  | do_branch_fail r w w1 err :
      finalBranchOf ev r w = (w1, Throw err) →
      mstep (ResolvingBranch r, w) (Failing None err, w1)
  | do_fetch r b w w1 res :
      fetchZip ev r b w = (w1, Val res) →
      mstep (Fetching r b, w) (Guarding r b res, w1)
  | do_fetch_fail r b w w1 err :
      fetchZip ev r b w = (w1, Throw err) →
      mstep (Fetching r b, w) (Failing (Some tempDir) err, w1)
  | do_guard r b res w :
      checkTarget ev outputDir (w_tree w) = Proceed →
      mstep (Guarding r b res, w) (Preparing r b res, w)
  | do_guard_refuse r b res w message :
      checkTarget ev outputDir (w_tree w) = Refuse message →
      mstep (Guarding r b res, w) (Terminal, fail message w)
  | do_prepare r b res w w1 :
      ensureDirs ev tempDir outputDir w = (w1, Val ()) →
      mstep (Preparing r b res, w)
        (Extracting r b res (a_entries (r_archive res)) (Counters 0 false), w1)
  | do_prepare_fail r b res w w1 err :
      ensureDirs ev tempDir outputDir w = (w1, Throw err) →
      mstep (Preparing r b res, w) (Failing (Some tempDir) err, w1)
  | do_entry r b res e rest c w :
      mstep (Extracting r b res (e :: rest) c, w)
        (Extracting r b res rest (extract_entry ev (pr r b) (w, c) e).2,
         (extract_entry ev (pr r b) (w, c) e).1)
  | do_stream_end r b res c w :
      a_error (r_archive res) = None →
      mstep (Extracting r b res [] c, w) (Reporting r b res c, w)
  | do_stream_error r b res c w err :
      a_error (r_archive res) = Some err →
      mstep (Extracting r b res [] c, w) (Failing (Some tempDir) err, w)
  | do_report_found r b res c w :
      matchedSomething c = true →
      mstep (Reporting r b res c, w)
        (Terminal,
         emit (SpinnerSucceed
                 (success_text ev subfolder outputDir (filesExtracted c))) w)
  | do_report_not_found r b res c w :
      matchedSomething c = false →
      mstep (Reporting r b res c, w)
        (Terminal,
         set_exitCode 1
           (removeTemp ev tempDir
              (emit (SpinnerFail (not_found_text subfolder)) w)))
  | do_catch d err w :
      mstep (Failing d err, w) (Terminal, onError ev d err w).

(** The rules as a function. *)
Definition next (x : config) : option config :=
  let w := x.2 in
  match x.1 with
  | Idle =>
      Some (ResolvingReference,
            emit (SpinnerStart (str "Preparing download...")) w)
  | ResolvingReference =>
      match parseGitHubUrl repoUrl with
      | Val r => Some (ResolvingBranch r, w)
      | Throw err => Some (Failing None err, w)
      end
  | ResolvingBranch r =>
      match finalBranchOf ev r w with
      | (w1, Val b) => Some (Fetching r b, w1)
      | (w1, Throw err) => Some (Failing None err, w1)
      end
  | Fetching r b =>
      match fetchZip ev r b w with
      | (w1, Val res) => Some (Guarding r b res, w1)
      | (w1, Throw err) => Some (Failing (Some tempDir) err, w1)
      end
  | Guarding r b res =>
      match checkTarget ev outputDir (w_tree w) with
      | Proceed => Some (Preparing r b res, w)
      | Refuse message => Some (Terminal, fail message w)
      end
  | Preparing r b res =>
      match ensureDirs ev tempDir outputDir w with
      | (w1, Val _) =>
          Some (Extracting r b res (a_entries (r_archive res))
                  (Counters 0 false), w1)
      | (w1, Throw err) => Some (Failing (Some tempDir) err, w1)
      end
  | Extracting r b res (e :: rest) c =>
      let s := extract_entry ev (pr r b) (w, c) e in
      Some (Extracting r b res rest s.2, s.1)
  | Extracting r b res [] c =>
      match a_error (r_archive res) with
      | None => Some (Reporting r b res c, w)
      | Some err => Some (Failing (Some tempDir) err, w)
      end
  | Reporting r b res c =>
      if matchedSomething c then
        Some (Terminal,
              emit (SpinnerSucceed
                      (success_text ev subfolder outputDir (filesExtracted c))) w)
      else
        Some (Terminal,
              set_exitCode 1
                (removeTemp ev tempDir
                   (emit (SpinnerFail (not_found_text subfolder)) w)))
  | Failing d err => Some (Terminal, onError ev d err w)
  | Terminal => None
  end.

(** [n] steps of the machine, or fewer when it stops. *)
Fixpoint run (n : nat) (x : config) : config :=
  match n with
  | 0 => x
  | S n' => match next x with Some y => run n' y | None => x end
  end.

(** ** The rules and the function *)

Lemma mstep_next x y : mstep x y ↔ next x = Some y.
Proof.
  split.
  - intros H. destruct H; unfold next; cbn [fst snd];
      by repeat match goal with H : _ = _ |- _ => rewrite H end.
  - destruct x as [k w]. unfold next. cbn [fst snd]. intros H.
    destruct k as [| |r|r b|r b res|r b res|r b res [|e rest] c|r b res c|d err|].
    + injection H as <-. constructor.
    + destruct (parseGitHubUrl repoUrl) eqn:E; injection H as <-;
        by constructor.
    + destruct (finalBranchOf ev r w) as [w1 [b|err]] eqn:E; injection H as <-;
        by constructor.
    + destruct (fetchZip ev r b w) as [w1 [res|err]] eqn:E; injection H as <-;
        by constructor.
    + destruct (checkTarget ev outputDir (w_tree w)) eqn:E; injection H as <-;
        by constructor.
    + destruct (ensureDirs ev tempDir outputDir w) as [w1 [[]|err]] eqn:E;
        injection H as <-; by constructor.
    + destruct (a_error (r_archive res)) eqn:E; injection H as <-;
        by constructor.
    + injection H as <-. constructor.
    + destruct (matchedSomething c) eqn:E; injection H as <-; by constructor.
    + injection H as <-. constructor.
    + done.
Qed.


Lemma mstep_deterministic : deterministic mstep.
Proof. intros x y1 y2 H1%mstep_next H2%mstep_next. congruence. Qed.

(** The machine stops in [Terminal] and nowhere else. *)
Lemma next_None x : next x = None ↔ x.1 = Terminal.
Proof.
  destruct x as [k w]. unfold next. cbn [fst snd].
  destruct k as [| |r|r b|r b res|r b res|r b res [|e rest] c|r b res c|d err|];
    try done.
  - by destruct (parseGitHubUrl repoUrl).
  - by destruct (finalBranchOf ev r w) as [w1 [|]].
  - by destruct (fetchZip ev r b w) as [w1 [|]].
  - by destruct (checkTarget ev outputDir (w_tree w)).
  - by destruct (ensureDirs ev tempDir outputDir w) as [w1 [|]].
  - by destruct (a_error (r_archive res)).
  - by destruct (matchedSomething c).
Qed.

Lemma nf_terminal x : nf mstep x ↔ x.1 = Terminal.
Proof.
  rewrite <-next_None. unfold nf, red. setoid_rewrite mstep_next.
  destruct (next x); naive_solver.
Qed.

Lemma red_mstep_dec x : Decision (red mstep x).
Proof.
  destruct (next x) as [y|] eqn:E.
  - left. exists y. by apply mstep_next.
  - right. intros [y H%mstep_next]. congruence.
Defined.

(** ** The order of the control points *)

(** A step goes on to a later control point, or stays in the loop with
    one entry less to come. *)
Lemma mstep_stage x y :
  mstep x y →
  stage x.1 < stage y.1 ∨ (stage x.1 = stage y.1 ∧ pending y.1 < pending x.1).
Proof. intros H. destruct H; simpl; lia. Qed.

(** ** Termination *)

Lemma sn_stage n x : 9 - stage x.1 ≤ n → sn mstep x.
Proof.
  revert x. induction n as [|n IH]; intros x Hn.
  - constructor. intros y Hy. apply mstep_stage in Hy.
    destruct x as [[] w], y as [[] w']; simpl in *; lia.
  - remember (pending x.1) as m eqn:Hm. revert x Hn Hm.
    induction m as [m IHm] using lt_wf_ind. intros x Hn ->.
    constructor. intros y Hy.
    destruct (mstep_stage _ _ Hy) as [Hlt|[Heq Hlt]].
    + apply IH. lia.
    + apply (IHm _ Hlt); [lia|done].
Qed.

Lemma mstep_sn x : sn mstep x.
Proof. by apply (sn_stage (9 - stage x.1)). Qed.

(** Every run can be continued to [Terminal]. *)
Lemma mstep_wn x : ∃ w', rtc mstep x (Terminal, w').
Proof.
  destruct (@sn_wn _ mstep red_mstep_dec x (mstep_sn x)) as ([k w'] & Hrun & Hnf).
  apply nf_terminal in Hnf. simpl in Hnf. subst k. by exists w'.
Qed.

(** ** The world a configuration leads to *)

(** What is left of the function at each control point. *)
Definition report (c : counters) (w : world) : world :=
  if matchedSomething c then
    emit (SpinnerSucceed
            (success_text ev subfolder outputDir (filesExtracted c))) w
  else
    set_exitCode 1
      (removeTemp ev tempDir (emit (SpinnerFail (not_found_text subfolder)) w)).

Definition after_loop (res : response) (s : world * counters) : world :=
  match a_error (r_archive res) with
  | Some err => onError ev (Some tempDir) err s.1
  | None => report s.2 s.1
  end.

Definition from_preparing (r : repo_ref) (b : option jstring)
    (res : response) (w : world) : world :=
  match ensureDirs ev tempDir outputDir w with
  | (w1, Throw err) => onError ev (Some tempDir) err w1
  | (w1, Val _) =>
      after_loop res
        (extract_all ev (pr r b) (a_entries (r_archive res)) w1
           (Counters 0 false))
  end.

Definition from_guarding (r : repo_ref) (b : option jstring)
    (res : response) (w : world) : world :=
  match checkTarget ev outputDir (w_tree w) with
  | Refuse message => fail message w
  | Proceed => from_preparing r b res w
  end.

Definition from_fetching (r : repo_ref) (b : option jstring) (w : world)
    : world :=
  match fetchZip ev r b w with
  | (w1, Throw err) => onError ev (Some tempDir) err w1
  | (w1, Val res) => from_guarding r b res w1
  end.

Definition from_branch (r : repo_ref) (w : world) : world :=
  match finalBranchOf ev r w with
  | (w1, Throw err) => onError ev None err w1
  | (w1, Val b) => from_fetching r b w1
  end.

Definition from_reference (w : world) : world :=
  match parseGitHubUrl repoUrl with
  | Throw err => onError ev None err w
  | Val r => from_branch r w
  end.

Definition outcome_of (x : config) : world :=
  let w := x.2 in
  match x.1 with
  | Idle => from_reference (emit (SpinnerStart (str "Preparing download...")) w)
  | ResolvingReference => from_reference w
  | ResolvingBranch r => from_branch r w
  | Fetching r b => from_fetching r b w
  | Guarding r b res => from_guarding r b res w
  | Preparing r b res => from_preparing r b res w
  | Extracting r b res rest c =>
      after_loop res (extract_all ev (pr r b) rest w c)
  | Reporting r b res c => report c w
  | Failing d err => onError ev d err w
  | Terminal => w
  end.

(** At the start it is the function. *)
Lemma outcome_idle w :
  outcome_of (Idle, w) = downloadFolder ev repoUrl subfolder target w.
Proof.
  unfold outcome_of, downloadFolder, from_reference, from_branch. cbn [fst snd].
  destruct (parseGitHubUrl repoUrl) as [r|err]; [|done].
  destruct (finalBranchOf ev r _) as [w1 [b|err]]; [|done].
  unfold from_fetching, downloadBody.
  destruct (fetchZip ev r b w1) as [w2 [res|err]]; [|done].
  unfold from_guarding. destruct (checkTarget _ _ _); [|done].
  unfold from_preparing.
  destruct (ensureDirs _ _ _ w2) as [w3 [[]|err]]; [|done].
  unfold extractAndReport, after_loop, report, paramsOf.
  destruct (extract_all _ _ _ _ _) as [w4 c]. cbn [fst snd].
  destruct (a_error _); [done|]. by destruct (matchedSomething c).
Qed.

(** A step does not change where the run leads. *)
Lemma outcome_step x y : mstep x y → outcome_of x = outcome_of y.
Proof.
  intros H. destruct H; unfold outcome_of; cbn [fst snd]; try done;
    unfold from_reference, from_branch, from_fetching, from_guarding,
      from_preparing, after_loop;
    unfold report; cbn [fst snd]; rewrite ?extract_all_cons;
    by repeat match goal with H : _ = _ |- _ => rewrite H end.
Qed.

Lemma outcome_rtc x y : rtc mstep x y → outcome_of x = outcome_of y.
Proof.
  induction 1 as [|x y z Hxy _ IH]; [done|].
  by rewrite (outcome_step _ _ Hxy).
Qed.

(** The runs from a configuration end in the world it leads to. *)
Lemma run_outcome x w' : rtc mstep x (Terminal, w') ↔ w' = outcome_of x.
Proof.
  split; [by intros ->%outcome_rtc|]. intros ->.
  destruct (mstep_wn x) as [w' Hrun].
  by rewrite (outcome_rtc _ _ Hrun).
Qed.

(** ** What holds on the way *)

(** The configurations that a run from [w0] meets. *)
Definition reachable (w0 : world) (x : config) : Prop :=
  rtc mstep (Idle, w0) x.

(** Induction on the rules: what holds at the start and is kept by
    every rule holds in every configuration that a run meets. *)
Lemma reachable_invariant (P : config → Prop) w0 :
  P (Idle, w0) →
  (∀ x y, reachable w0 x → P x → mstep x y → P y) →
  ∀ x, reachable w0 x → P x.
Proof.
  intros H0 Hstep. apply (rtc_ind_r P (Idle, w0)); [done|].
  intros y z Hy Hyz Py. by apply (Hstep y z).
Qed.

(** The value of [tempDir] in the [catch] is [null] or the scratch
    path. *)
Lemma failing_tempDir w0 d err w :
  reachable w0 (Failing d err, w) → d = None ∨ d = Some tempDir.
Proof.
  intros H. apply rtc_inv_r in H as [[=]|(x & _ & Hstep)]. inv Hstep; auto.
Qed.

(** *** The guard comes before the first write *)

Section guard.
Context (w0 : world) (Hwf : wf (w_tree w0)).
Context (Htmp : node_at (w_tree w0) (fs_segs (env_cwd ev) tempDir) = None).

(** The tree is as it was at the start. *)
Definition untouched (x : config) : Prop := w_tree x.2 = w_tree w0.

(** The guard accepts the target in the tree of the start. *)
Definition accepted : Prop :=
  checkTarget ev outputDir (w_tree w0) = Proceed.

(** Up to the guard the tree is untouched; from the guard to the report
    the guard has accepted the target. *)
Definition guard_inv (x : config) : Prop :=
  (stage x.1 ≤ 4 → untouched x) ∧ (5 ≤ stage x.1 ≤ 7 → accepted) ∧
  (untouched x ∨ accepted).

Lemma phase_tree r b w :
  w_tree (finalBranchOf ev r w).1 = w_tree w ∧
  w_tree (fetchZip ev r b w).1 = w_tree w.
Proof. split; [apply finalBranchOf_tree|done]. Qed.

(** The [catch] leaves an untouched tree untouched: the scratch
    directory is not there. *)
Lemma catch_untouched d err w :
  reachable w0 (Failing d err, w) → w_tree w = w_tree w0 →
  w_tree (onError ev d err w) = w_tree w0.
Proof.
  intros Hd%failing_tempDir Hw. rewrite onError_tree, Hw.
  destruct Hd as [->| ->]; [done|]. destruct tempDir; [done|].
  by apply remove_tree_absent.
Qed.

Lemma guard_inv_step x y :
  reachable w0 x → guard_inv x → mstep x y → guard_inv y.
Proof.
  unfold guard_inv, untouched. intros Hx (H1 & H2 & H3) Hstep.
  destruct Hstep; cbn [fst snd stage] in *;
    try (split_and!; [lia|intros _|right]; apply H2; lia);
    try (assert (w_tree w = w_tree w0) as Hw by (apply H1; lia)).
  - by split_and!; [|lia|left].
  - by split_and!; [|lia|left].
  - by split_and!; [lia..|left].
  - destruct (phase_tree r None w) as [Ht _]. rewrite H in Ht. simpl in Ht.
    by split_and!; [rewrite Ht|lia|left; rewrite Ht].
  - destruct (phase_tree r None w) as [Ht _]. rewrite H in Ht. simpl in Ht.
    by split_and!; [lia..|left; rewrite Ht].
  - destruct (phase_tree r b w) as [_ Ht]. rewrite H in Ht. simpl in Ht.
    by split_and!; [rewrite Ht|lia|left; rewrite Ht].
  - destruct (phase_tree r b w) as [_ Ht]. rewrite H in Ht. simpl in Ht.
    by split_and!; [lia..|left; rewrite Ht].
  - rewrite Hw in H. by split_and!; [lia| |right].
  - by split_and!; [lia..|left].
  - split_and!; [lia..|]. destruct H3 as [H3|H3]; [left|by right].
    by apply catch_untouched.
Qed.

Lemma guard_inv_reachable x : reachable w0 x → guard_inv x.
Proof.
  apply reachable_invariant; [|apply guard_inv_step].
  unfold guard_inv, untouched. simpl. split_and!; [done|lia|by left].
Qed.
End guard.

(** *** The archive is requested before the guard looks *)

Lemma guarding_requested w0 r b res w :
  reachable w0 (Guarding r b res, w) →
  head (requests w) = Some (zipUrl (owner r) (repo r) b) ∧
  env_fetch ev (zipUrl (owner r) (repo r) b) = Val res.
Proof.
  intros H. apply rtc_inv_r in H as [[=]|(x & _ & Hstep)].
  inversion Hstep as [| | | | |? ? w1 ? ? Hf| | | | | | | | | | |]; subst.
  pose proof (fetchZip_fst ev r b w1) as Hw.
  pose proof (fetchZip_Val ev r b w1 res) as Hres.
  rewrite Hf in Hw, Hres. simpl in *. subst w. split; [done|].
  by apply Hres.
Qed.

(** *** The loop takes the entries in the order of the archive *)

(** In the loop, the entries that are left are the end of the archive,
    and the state is what the loop made of the entries before. *)
Definition loop_inv (x : config) : Prop :=
  match x.1 with
  | Extracting r b res rest c =>
      ∃ seen w1,
        a_entries (r_archive res) = seen ++ rest ∧
        (x.2, c) = extract_all ev (pr r b) seen w1 (Counters 0 false)
  | _ => True
  end.

Lemma loop_inv_reachable w0 x : reachable w0 x → loop_inv x.
Proof.
  apply reachable_invariant; [done|]. unfold loop_inv.
  intros y z _ Hy Hstep. destruct Hstep; cbn [fst snd] in *; try done.
  - by exists [], w1.
  - destruct Hy as (seen & w1 & Hes & Hs). exists (seen ++ [e]), w1.
    split; [by rewrite <-app_assoc|].
    rewrite extract_all_app, <-Hs. cbn [fst snd].
    unfold extract_all. cbn [foldl]. by destruct (extract_entry _ _ _ _).
Qed.

(** *** One line of the spinner ends the run *)

(** The lines that end the spinner with a verdict. *)
Definition verdict (e : event) : bool :=
  match e with
  | SpinnerSucceed _ | SpinnerFail _ => true
  | _ => false
  end.

Definition verdicts (w : world) : nat :=
  length (filter verdict (w_events w)).

(** Before the end no verdict was given and the exit code was not
    touched; at the end the last line is the one verdict, and the exit
    code is 1 after a failure and untouched after a success. *)
Definition verdict_inv (w0 : world) (x : config) : Prop :=
  match x.1 with
  | Terminal =>
      verdicts x.2 = S (verdicts w0) ∧
      ((∃ text, last_event x.2 = Some (SpinnerSucceed text) ∧
                w_exitCode x.2 = w_exitCode w0) ∨
       (∃ text, last_event x.2 = Some (SpinnerFail text) ∧
                w_exitCode x.2 = Some 1))
  | _ => verdicts x.2 = verdicts w0 ∧ w_exitCode x.2 = w_exitCode w0
  end.

Lemma verdicts_emit e w :
  verdicts (emit e w) = (if verdict e then 1 else 0) + verdicts w.
Proof.
  unfold verdicts. cbn [emit w_events]. rewrite filter_cons.
  by destruct (verdict e).
Qed.

Lemma onError_events d err w :
  w_events (onError ev d err w) = SpinnerFail (err_message err) :: w_events w.
Proof. by destruct d as [[|]|]. Qed.

(** The phases before the report give no verdict and leave the exit
    code. *)
Lemma phase_quiet r b w :
  let quiet w' := verdicts w' = verdicts w ∧ w_exitCode w' = w_exitCode w in
  quiet (finalBranchOf ev r w).1 ∧ quiet (fetchZip ev r b w).1 ∧
  quiet (ensureDirs ev tempDir outputDir w).1 ∧
  ∀ e c, quiet (extract_entry ev (pr r b) (w, c) e).1.
Proof.
  cbn zeta. split_and!.
  - rewrite finalBranchOf_fst. by destruct (truthy _).
  - rewrite finalBranchOf_fst. by destruct (truthy _).
  - by rewrite fetchZip_fst, !verdicts_emit.
  - done.
  - unfold verdicts. by destruct (ensureDirs_fst ev tempDir outputDir w) as [-> _].
  - by destruct (ensureDirs_fst ev tempDir outputDir w) as [_ ->].
  - intros e c. pose proof (extract_entry_step ev (pr r b) (w, c) e) as H.
    split; [|by apply step_exitCode in H]. by inv H.
Qed.

Lemma verdict_inv_step w0 x y :
  verdict_inv w0 x → mstep x y → verdict_inv w0 y.
Proof.
  unfold verdict_inv. intros Hx Hstep.
  destruct Hstep; cbn [fst snd] in *; destruct Hx as [Hv He];
    try match goal with
      | H : finalBranchOf ev ?r ?w = _ |- _ =>
          destruct (phase_quiet r None w) as ([] & _); rewrite H in *
      | H : fetchZip ev ?r ?b ?w = _ |- _ =>
          destruct (phase_quiet r b w) as (_ & [] & _); rewrite H in *
      | H : ensureDirs ev _ _ ?w = _ |- _ =>
          destruct (phase_quiet (RepoRef None None None None) None w)
            as (_ & _ & [] & _); rewrite H in *
      end; cbn [fst snd] in *; try (split; congruence).
  - by rewrite verdicts_emit.
  - split; [by rewrite <-Hv|]. right. by eexists.
  - destruct (phase_quiet r b w) as (_ & _ & _ & Hq).
    destruct (Hq e c). split; congruence.
  - split; [by rewrite verdicts_emit, Hv|]. left. by eexists.
  - split; [by rewrite <-Hv|]. right. by eexists.
  - destruct (onError_report ev d err w) as (Hl & Hc & _).
    split; [|right; eauto]. unfold verdicts in *.
    rewrite onError_events, filter_cons. simpl. by f_equal.
Qed.

Lemma verdict_inv_reachable w0 x : reachable w0 x → verdict_inv w0 x.
Proof.
  apply reachable_invariant; [done|]. intros y z _. apply verdict_inv_step.
Qed.

(** ** Running the machine *)

Lemma run_rtc n x : rtc mstep x (run n x).
Proof.
  revert x. induction n as [|n IH]; intros x; simpl; [done|].
  destruct (next x) as [y|] eqn:E; [|done].
  eapply rtc_l; [by apply mstep_next|apply IH].
Qed.

Lemma run_reachable n w0 : reachable w0 (run n (Idle, w0)).
Proof. apply run_rtc. Qed.

(** A run that is at its end gave the world of the function. *)
Lemma run_terminal n w w' :
  run n (Idle, w) = (Terminal, w') →
  w' = downloadFolder ev repoUrl subfolder target w.
Proof.
  intros H. rewrite <-outcome_idle. apply run_outcome. rewrite <-H.
  apply run_rtc.
Qed.

(** Steps in a row go on in the text, or in the loop. *)
Lemma tc_stage x y :
  tc mstep x y →
  stage x.1 < stage y.1 ∨ (stage x.1 = stage y.1 ∧ pending y.1 < pending x.1).
Proof.
  induction 1 as [x y H|x y z H _ IH]; [by apply mstep_stage|].
  apply mstep_stage in H. lia.
Qed.
(** ** The length of a run *)

(** With [M] entries at most in an archive, a run takes eight steps and
    one for each entry, at most. *)
Section bound.
Context (M : nat).
Context (HM : ∀ url res, env_fetch ev url = Val res →
                length (a_entries (r_archive res)) ≤ M).

(** The steps a configuration has still to take, at most. *)
Definition steps_left (k : control) : nat :=
  match k with
  | Extracting _ _ _ rest _ => 2 + length rest
  | Reporting _ _ _ _ | Failing _ _ => 1
  | Terminal => 0
  | _ => 8 - stage k + M
  end.

(** The archive a configuration holds is one the network answered
    with. *)
Definition small (k : control) : Prop :=
  match k with
  | Guarding _ _ res | Preparing _ _ res =>
      length (a_entries (r_archive res)) ≤ M
  | _ => True
  end.

Lemma mstep_left x y :
  small x.1 → mstep x y → small y.1 ∧ steps_left y.1 < steps_left x.1.
Proof.
  intros Hx H. destruct H; cbn [fst snd small steps_left stage length] in *;
    try (split; [done|lia]).
  split; [|lia]. eapply HM, fetchZip_Val. by erewrite H.
Qed.

Lemma nsteps_left n x y :
  small x.1 → nsteps mstep n x y → n + steps_left y.1 ≤ steps_left x.1.
Proof.
  intros Hx H. induction H as [x|n x y z Hxy _ IH]; [done|].
  destruct (mstep_left x y Hx Hxy) as [Hy ?]. specialize (IH Hy). lia.
Qed.

Lemma run_left n x :
  small x.1 → steps_left x.1 ≤ n → (run n x).1 = Terminal.
Proof.
  revert x. induction n as [|n IH]; intros x Hx Hn; cbn [run].
  - destruct x as [[] w]; cbn [fst steps_left stage] in *; (done || lia).
  - destruct (next x) as [y|] eqn:E; [|by apply next_None].
    apply mstep_next in E. destruct (mstep_left x y Hx E) as [Hy ?].
    apply IH; [done|lia].
Qed.
End bound.
End machine.

(** ** Theorems *)

(** An example: the call of [Download.dl_env] on [Download.dl_world]
    for the sub-folder [keep]. *)
Definition ex_step : config → config → Prop :=
  mstep dl_env (str "o/repo") (str "keep") None.

Definition ex_run (n : nat) : config :=
  run dl_env (str "o/repo") (str "keep") None n (Idle, dl_world).



(** C12: every run ends.  A step leads to a later control point or
    stays in the loop with one entry less to come, so no configuration
    is met twice; from every configuration every sequence of steps is
    finite, the machine can always go on unless it is in [Terminal],
    and so it gets to [Terminal]. *)
Theorem machine_terminates ev repoUrl subfolder target x :
  let step := mstep ev repoUrl subfolder target in
  sn step x ∧ (nf step x ↔ x.1 = Terminal) ∧
  (∃ w', rtc step x (Terminal, w')) ∧
  (∀ y, tc step x y → x ≠ y ∧ stage x.1 ≤ stage y.1).
Proof.
  cbn zeta. split_and!.
  - apply mstep_sn.
  - apply nf_terminal.
  - apply mstep_wn.
  - intros y H%tc_stage. split; [intros ->|]; lia.
Qed.

Lemma machine_terminates_witness :
  sn ex_step (Idle, dl_world) ∧ ∃ w', rtc ex_step (Idle, dl_world) (Terminal, w').
Proof.
  destruct (machine_terminates dl_env (str "o/repo") (str "keep") None
              (Idle, dl_world)) as (H1 & _ & H2 & _).
  by split.
Defined.

(** C11: the guard stands between the request of the archive and the
    first write.  In every configuration that a run meets, up to and
    with the guard the tree is as it was at the start; whenever the tree
    is not as it was, the guard had accepted the target; and when the
    run is at the guard, the archive was requested already: it is the
    last request that was sent.  The scratch path is new. *)
Theorem guard_before_write ev repoUrl subfolder target w0 x :
  wf (w_tree w0) →
  node_at (w_tree w0) (fs_segs (env_cwd ev) (tempDirOf ev)) = None →
  reachable ev repoUrl subfolder target w0 x →
  (stage x.1 ≤ 4 → w_tree x.2 = w_tree w0) ∧
  (w_tree x.2 ≠ w_tree w0 → accepted ev subfolder target w0) ∧
  (∀ r b res, x.1 = Guarding r b res →
     head (requests x.2) = Some (zipUrl (owner r) (repo r) b)).
Proof.
  intros Hwf Htmp Hx.
  destruct (guard_inv_reachable ev repoUrl subfolder target w0 Hwf Htmp x Hx)
    as (H1 & _ & H3).
  split_and!; [done|intros Hne; by destruct H3|].
  destruct x as [k w]. cbn [fst snd]. intros r b res ->.
  by destruct (guarding_requested ev repoUrl subfolder target w0 r b res w Hx).
Qed.

Lemma guard_before_write_witness :
  w_tree (ex_run 4).2 = w_tree dl_world ∧
  (w_tree (ex_run 20).2 ≠ w_tree dl_world →
   accepted dl_env (str "keep") None dl_world) ∧
  head (requests (ex_run 4).2)
  = Some (str "https://github.com/o/repo/archive/refs/heads/main.zip").
Proof.
  destruct (guard_before_write dl_env (str "o/repo") (str "keep") None dl_world
              (ex_run 4)) as (H & _ & Hr);
    [apply (bool_decide_unpack _); vm_compute; exact I|vm_compute; reflexivity|
     apply run_reachable|].
  destruct (guard_before_write dl_env (str "o/repo") (str "keep") None dl_world
              (ex_run 20)) as (_ & H' & _);
    [apply (bool_decide_unpack _); vm_compute; exact I|vm_compute; reflexivity|
     apply run_reachable|].
  split_and!; [apply H; vm_compute; lia|done|].
  by rewrite (Hr dl_ref (Some (str "main"))
                (dl_response (Archive ex_entries None) None)).
Defined.

(** C19: one line of the spinner ends the run.  In every configuration
    that a run meets before [Terminal], no line with a verdict
    (succeed or fail) was shown and the exit code is as it was; in
    [Terminal] exactly one such line was shown, it is the last line, and
    the exit code is 1 when it is a failure and untouched when it is the
    success line. *)
Theorem one_verdict ev repoUrl subfolder target w0 x :
  reachable ev repoUrl subfolder target w0 x → verdict_inv w0 x.
Proof. apply verdict_inv_reachable. Qed.

Lemma one_verdict_witness : verdict_inv dl_world (ex_run 20).
Proof.
  apply (one_verdict dl_env (str "o/repo") (str "keep") None), run_reachable.
Defined.

(** C20: the length of a run.  When no archive of the network has more
    than [M] entries, a run from the start takes at most eight steps
    and one for each entry, and the function [run] with this number of
    steps gets to [Terminal], with the world that [downloadFolder]
    returns. *)
Theorem machine_steps_bound ev repoUrl subfolder target M w :
  (∀ url res, env_fetch ev url = Val res →
     length (a_entries (r_archive res)) ≤ M) →
  (∀ n y, nsteps (mstep ev repoUrl subfolder target) n (Idle, w) y → n ≤ 8 + M) ∧
  run ev repoUrl subfolder target (8 + M) (Idle, w)
  = (Terminal, downloadFolder ev repoUrl subfolder target w).
Proof.
  intros HM. split.
  - intros n y H.
    apply (nsteps_left ev repoUrl subfolder target M HM) in H; [|done].
    cbn [fst steps_left stage] in H. lia.
  - pose proof (run_left ev repoUrl subfolder target M HM (8 + M) (Idle, w) I)
      as Hk.
    destruct (run _ _ _ _ _ _) as [k w'] eqn:E. cbn [fst steps_left stage] in Hk.
    rewrite Hk in * by lia. f_equal. by apply run_terminal in E.
Qed.

(** The archive of the example has five entries, and the run takes the
    thirteen steps. *)
Lemma machine_steps_bound_witness :
  ex_run 13 = (Terminal, downloadFolder dl_env (str "o/repo") (str "keep") None
                           dl_world) ∧
  (ex_run 12).1 ≠ Terminal.
Proof.
  split; [|vm_compute; discriminate].
  apply (machine_steps_bound dl_env (str "o/repo") (str "keep") None 5 dl_world).
  intros url res. unfold dl_env, dl_net. cbn [env_fetch].
  repeat case_match; intros [= <-]; simpl; lia.
Defined.

