(* ===== verification/Delivery.v ===== *)
(** * The download, end to end

    What a successful call of [downloadFolder] leaves in the file
    system, in terms of the archive that the network answered with: the
    composition of the parser, the branch resolver, the fetch, the
    guard, the two directories and the loop.

    Theorems: when the guard let the target pass, the loop starts on a
    well-formed tree in which the output directory and the scratch
    directory are there and empty ([ready_fresh]); when the phases
    before the loop succeed and the archive is complete and coherent,
    the call ends with the success line, which counts the file entries
    of the sub-folder, the files below the output directory are exactly
    those entries with their content, and everything that was in the
    tree before is still there ([downloadFolder_delivered]). *)

From S2P Require Import Prelude JsString Regex Parser Path Fs World Extract Unpack Download.

(** ** The tree when the loop starts *)

Section ready.
Context (ev : env) (repoUrl subfolder : jstring) (target : option jstring).

Local Abbreviation cwd := (env_cwd ev).
Local Abbreviation tmp := (fs_segs (env_cwd ev) (tempDirOf ev)).
Local Abbreviation out :=
  (fs_segs (env_cwd ev) (outputDirOf ev subfolder target)).

(** The tree when the loop starts: well formed, with the two
    directories, both empty. *)
Record fresh (t : tree) : Prop := Fresh {
  fresh_wf : wf t;
  fresh_out : node_at t out = Some Dir;
  fresh_out_empty : children t out = [];
  fresh_tmp : node_at t tmp = Some Dir;
  fresh_tmp_empty : children t tmp = []
}.

Context (Hcwd : isAbsolute (env_cwd ev) = true).
Context (Hto : ¬ tmp `prefix_of` out) (Hot : ¬ out `prefix_of` tmp).

Lemma outputDirOf_abs : isAbsolute (outputDirOf ev subfolder target) = true.
Proof.
  unfold outputDirOf.
  by destruct (resolve_abs cwd [cwd; or_str target (defaultDirName subfolder)]
                 Hcwd) as [-> _].
Qed.

Lemma out_segs_paramsOf r b : out_segs (paramsOf ev r b subfolder target) = out.
Proof. symmetry. apply fs_segs_abs, outputDirOf_abs. Qed.

Lemma not_in_dirs_of (a b : list jstring) s :
  ¬ b `prefix_of` a → dirs_of [] a !! (b ++ [s]) = None.
Proof.
  intros Hba. destruct (dirs_of [] a !! (b ++ [s])) eqn:E; [|done].
  apply dirs_of_lookup in E as (_ & k & _ & Hk). simpl in Hk. destruct Hba.
  exists (s :: drop k a). by rewrite <-(take_drop k a), <-Hk, <-(assoc (++)) at 1.
Qed.

Lemma ready_fresh w r b res t2 :
  wf (w_tree w) → node_at (w_tree w) tmp = None →
  ready ev repoUrl subfolder target w r b res t2 → fresh t2.
Proof.
  intros Hwf Htmp [_ _ _ _ _ Hc (t1 & H1%lift_errno_Val & H2%lift_errno_Val)].
  apply checkTarget_Proceed in Hc; [|done].
  assert (wf t1) as Hwf1 by (by eapply (mkdirs_wf (w_tree w) [])).
  assert (∀ s, t2 !! (out ++ [s]) = None ∧ t2 !! (tmp ++ [s]) = None) as Hnone.
  { intros s.
    rewrite !(mkdirs_lookup _ _ _ _ _ H2), !(mkdirs_lookup _ _ _ _ _ H1).
    rewrite (wf_below_absent _ tmp) by done.
    rewrite (not_in_dirs_of tmp out), (not_in_dirs_of out tmp) by done.
    rewrite !dirs_of_longer by (rewrite !length_app; simpl; lia).
    destruct Hc as [[_ Hc]|[Hn _]];
      [by rewrite (proj1 (children_nil _ _) Hc)|].
    by rewrite (wf_below_absent _ out). }
  split.
  - by eapply (mkdirs_wf t1 []).
  - by apply (mkdirs_dir t1 [] out).
  - apply children_nil. intros s. apply Hnone.
  - eapply node_at_weaken; [by eapply mkdirs_subseteq|].
    by apply (mkdirs_dir (w_tree w) [] tmp).
  - apply children_nil. intros s. apply Hnone.
Qed.

End ready.

(** ** The tree when the call ends *)

Section delivery.
Context (ev : env) (repoUrl subfolder : jstring) (target : option jstring).

Local Abbreviation tmp := (fs_segs (env_cwd ev) (tempDirOf ev)).
Local Abbreviation out :=
  (fs_segs (env_cwd ev) (outputDirOf ev subfolder target)).

Context (Hcwd : isAbsolute (env_cwd ev) = true).
Context (Hto : ¬ tmp `prefix_of` out) (Hot : ¬ out `prefix_of` tmp).
Context (w : world) (Hwf : wf (w_tree w)).
Context (Htmp : node_at (w_tree w) tmp = None).
Context (r : repo_ref) (b : option jstring) (res : response) (t2 : tree).
Context (Hready : ready ev repoUrl subfolder target w r b res t2).

Local Abbreviation pr := (paramsOf ev r b subfolder target).
Local Abbreviation es := (a_entries (r_archive res)).

(** The archive came whole, holds the sub-folder and is coherent. *)
Definition sound_archive : Prop :=
  a_error (r_archive res) = None ∧ existsb (scoped pr) es = true ∧
  coherent pr es.

(** The state in which the loop ends. *)
Definition loop_end : world * counters :=
  extract_all ev pr es (prepared ev r b t2 w) (Counters 0 false).

Lemma downloadFolder_sound :
  sound_archive →
  downloadFolder ev repoUrl subfolder target w =
  emit (SpinnerSucceed
          (success_text ev subfolder (outputDirOf ev subfolder target)
             (filesExtracted loop_end.2))) loop_end.1.
Proof.
  intros (He & Hs & _). rewrite (downloadFolder_ready ev _ _ _ _ _ _ _ _ Hready).
  rewrite extractAndReport_cases, He. fold pr. by rewrite Hs.
Qed.

Lemma loop_end_unpack :
  sound_archive →
  w_tree loop_end.1 = unpack pr es t2 ∧
  filesExtracted loop_end.2
  = length (filter (λ e, scoped_file pr e = true) es).
Proof.
  intros (_ & _ & Hco).
  destruct (ready_fresh ev repoUrl subfolder target Hto Hot w r b res t2)
    as [Hwf2 Hout Hempty _ _]; [done..|].
  destruct (extract_all_unpack pr ev
              (outputDirOf_abs ev subfolder target Hcwd) es
              (prepared ev r b t2 w) (Counters 0 false)) as (Ht & _ & Hc);
    [done| |].
  - apply coherent_all_fit; rewrite ?out_segs_paramsOf; try done.
    apply (outputDirOf_abs ev subfolder target Hcwd).
  - unfold loop_end. by rewrite Ht, Hc, count_all.
Qed.

(** The tree when the loop starts holds what the tree held before. *)
Lemma ready_subseteq : w_tree w ⊆ t2.
Proof.
  destruct Hready as [_ _ _ _ _ _ (t1 & H1%lift_errno_Val & H2%lift_errno_Val)].
  etrans; by eapply mkdirs_subseteq.
Qed.

(** The loop loses nothing of it. *)
Lemma loop_end_keeps : sound_archive → w_tree w ⊆ w_tree loop_end.1.
Proof.
  intros (_ & _ & [Htame _]). apply map_subseteq_spec. intros p n Hp.
  eapply lookup_weaken in Hp; [|apply ready_subseteq].
  destruct (ready_fresh ev repoUrl subfolder target Hto Hot w r b res t2)
    as [Hwf2 Hout Hempty _ _]; [done..|].
  pose proof (extract_all_steps ev pr es
                (prepared ev r b t2 w, Counters 0 false)) as Hs.
  apply (steps_confined ev pr (outputDirOf_abs ev subfolder target Hcwd) t2)
    in Hs as (_ & Hout' & Hframe); [|done|].
  2: { rewrite out_segs_paramsOf by done. by apply confined_refl. }
  rewrite out_segs_paramsOf in Hout', Hframe by done. cbn [fst] in *.
  destruct (decide (out `prefix_of` p)) as [[q ->]|Hnp];
    [|by unfold loop_end; rewrite Hframe].
  destruct (decide (q = [])) as [->|Hq].
  - rewrite app_nil_r in *. destruct out; [by apply wf_not_root in Hp|].
    unfold loop_end. simpl in *. congruence.
  - by rewrite (wf_below_empty t2 out q) in Hp.
Qed.
End delivery.

(** ** The call *)

(** When the phases before the loop succeed and the archive is
    complete, holds the sub-folder and is coherent, the call ends with
    the success line, which counts the file entries of the sub-folder;
    below the output directory a file stands at a path, with some
    content, exactly when the last file entry of the archive that goes
    to that path has this content; and whatever was in the tree before
    the call is there after it.  The working directory is absolute, the
    scratch directory is new and neither it nor the output directory
    lies in the other. *)
Lemma downloadFolder_delivered ev repoUrl subfolder target w r b res t2 :
  let tmp := fs_segs (env_cwd ev) (tempDirOf ev) in
  let out := fs_segs (env_cwd ev) (outputDirOf ev subfolder target) in
  let pr := paramsOf ev r b subfolder target in
  let es := a_entries (r_archive res) in
  isAbsolute (env_cwd ev) = true →
  ¬ tmp `prefix_of` out → ¬ out `prefix_of` tmp →
  wf (w_tree w) → node_at (w_tree w) tmp = None →
  ready ev repoUrl subfolder target w r b res t2 →
  sound_archive ev subfolder target r b res →
  let w' := downloadFolder ev repoUrl subfolder target w in
  last_event w'
  = Some (SpinnerSucceed
            (success_text ev subfolder (outputDirOf ev subfolder target)
               (length (filter (λ e, scoped_file pr e = true) es)))) ∧
  (∀ p content, below pr p →
     w_tree w' !! p = Some (File content) ↔ written pr es p = Some content) ∧
  w_tree w ⊆ w_tree w'.
Proof.
  intros tmp out pr es Hcwd Hto Hot Hwf Htmp Hready Hsound w'.
  unfold w'. rewrite (downloadFolder_sound ev repoUrl subfolder target w r b
                        res t2 Hready Hsound).
  destruct (loop_end_unpack ev repoUrl subfolder target Hcwd Hto Hot w Hwf Htmp
              r b res t2 Hready Hsound) as [Ht Hc].
  destruct (ready_fresh ev repoUrl subfolder target Hto Hot w r b res t2)
    as [Hwf2 Hout Hempty _ _]; [done..|].
  cbn [last_event emit w_events head w_tree]. rewrite Hc. split_and!; [done| |].
  - intros p content Hb. rewrite Ht. unfold pr in *.
    apply unpack_coherent_file; rewrite ?out_segs_paramsOf by done; done.
  - by eapply loop_end_keeps.
Qed.
