(* ===== verification/Footprint.v ===== *)
(** * The footprint of a run

    What a call of [downloadFolder] may change in the file tree,
    however it ends: the output directory and the scratch directory
    with what lies below them, and the directories on the way to them
    that were missing.  Everything else is as it was.

    The relation [clobbers] says that two trees differ in this way.  It
    is a preorder, each operation on the tree that the run performs is
    in it, and so is every configuration that a run of the machine of
    [Machine] meets, by induction on the rules ([footprint_reachable]).

    Theorems: a call leaves every path outside of the two directories
    as it was, or makes it a directory when it was missing and lies on
    the way to one of them ([downloadFolder_footprint]).  The archive
    must not hold an entry that climbs with [..]: such an entry is
    written where its path leads ([Extract.extract_escapes]). *)

From S2P Require Import Prelude JsString Regex Parser Path Fs World Extract.
From S2P Require Import Unpack Download Machine Delivery.
From stdpp Require Import relations.

(** ** Trees that differ in a region *)

Section clobbers.
Context (out tmp : list jstring).

(** The paths at the two directories and below them. *)
Definition region (p : list jstring) : Prop := under out p ∨ under tmp p.

(** The paths on the way to the two directories. *)
Definition way (p : list jstring) : Prop :=
  p `prefix_of` out ∨ p `prefix_of` tmp.

(** [t'] is [t] but for the region and for new directories on the way
    to it. *)
Definition clobbers (t t' : tree) : Prop :=
  ∀ p, ¬ region p →
       t' !! p = t !! p ∨ (way p ∧ t !! p = None ∧ t' !! p = Some Dir).

#[global] Instance clobbers_preorder : PreOrder clobbers.
Proof.
  split; [by left|]. intros t1 t2 t3 H12 H23 p Hp.
  destruct (H12 p Hp) as [E1|(Hw & E1 & E1')],
    (H23 p Hp) as [E2|(Hw' & E2 & E2')].
  - left. by rewrite E2.
  - right. by rewrite <-E1.
  - right. by rewrite E2.
  - congruence.
Qed.

Lemma clobbers_frame t t' :
  (∀ p, ¬ region p → t' !! p = t !! p) → clobbers t t'.
Proof. intros H p Hp. left. by apply H. Qed.

(** Making the directories down to a path at the region, or on the way
    to it. *)
Lemma mkdirs_clobbers t segs t' :
  region segs ∨ way segs → mkdirs t [] segs = Val t' → clobbers t t'.
Proof.
  intros Hs Hm p Hp. rewrite (mkdirs_lookup _ _ _ _ _ Hm).
  destruct (t !! p) eqn:Et; [by left|].
  destruct (dirs_of [] segs !! p) as [n|] eqn:Ed; [|by left].
  right. apply dirs_of_lookup in Ed as (-> & k & _ & ->). cbn [app] in *.
  split; [|done]. pose proof (prefix_take segs k) as Hk.
  destruct Hs as [[Hs|Hs]|[Hs|Hs]].
  - destruct (prefix_weak_total _ _ _ Hs Hk) as [H|H]; [|by left].
    destruct Hp. by left.
  - destruct (prefix_weak_total _ _ _ Hs Hk) as [H|H]; [|by right].
    destruct Hp. by right.
  - left. by etrans.
  - right. by etrans.
Qed.

Lemma remove_clobbers t : clobbers t (remove_tree t tmp).
Proof.
  apply clobbers_frame. intros p Hp. apply remove_tree_frame.
  intros H. apply Hp. by right.
Qed.

(** A tree confined to the output directory. *)
Lemma confined_clobbers t t' : confined out t t' → clobbers t t'.
Proof.
  intros (_ & _ & H). apply clobbers_frame. intros p Hp. apply H.
  intros Ho. apply Hp. by left.
Qed.
End clobbers.

(** ** The configurations of a run *)

Section footprint.
Context (ev : env) (repoUrl subfolder : jstring) (target : option jstring).
Context (Hcwd : isAbsolute (env_cwd ev) = true).

Local Abbreviation tmp := (fs_segs (env_cwd ev) (tempDirOf ev)).
Local Abbreviation out :=
  (fs_segs (env_cwd ev) (outputDirOf ev subfolder target)).
Local Abbreviation pr := (λ r b, paramsOf ev r b subfolder target).
Local Abbreviation reachable := (reachable ev repoUrl subfolder target).

(** No entry of the archive that the call is answered with climbs out
    of the sub-folder with [..]. *)
Definition tame_archive : Prop :=
  ∀ r b res,
    parseGitHubUrl repoUrl = Val r → resolved ev r = Val b →
    env_fetch ev (zipUrl (owner r) (repo r) b) = Val res →
    Forall (tame (pr r b)) (a_entries (r_archive res)).

Context (Htame : tame_archive).
Context (w0 : world) (Hwf : wf (w_tree w0)).

(** What holds of the tree at every control point: it is well formed
    and differs from the tree of the start in the region only; the
    reference and the branch are those of the call; the entries still
    to come are tame; and in the loop the output directory is there. *)
Definition footprint_inv (x : config) : Prop :=
  wf (w_tree x.2) ∧ clobbers out tmp (w_tree w0) (w_tree x.2) ∧
  match x.1 with
  | ResolvingBranch r => parseGitHubUrl repoUrl = Val r
  | Fetching r b => parseGitHubUrl repoUrl = Val r ∧ resolved ev r = Val b
  | Guarding r b res | Preparing r b res =>
      Forall (tame (pr r b)) (a_entries (r_archive res))
  | Extracting r b res rest c =>
      Forall (tame (pr r b)) rest ∧ node_at (w_tree x.2) out = Some Dir
  | _ => True
  end.

(** The two [ensureDir] calls, as far as they get. *)
Lemma ensureDirs_clobbers w :
  wf (w_tree w) →
  let x := ensureDirs ev (tempDirOf ev) (outputDirOf ev subfolder target) w in
  wf (w_tree x.1) ∧ clobbers out tmp (w_tree w) (w_tree x.1) ∧
  (is_val x.2 = true → node_at (w_tree x.1) out = Some Dir).
Proof.
  intros Hw. cbn zeta. unfold ensureDirs.
  destruct (ensureDir _ _ (tempDirOf ev)) as [t1|] eqn:E1; [|done].
  apply lift_errno_Val in E1.
  assert (wf t1) as Hw1 by by apply (mkdirs_wf (w_tree w) [] tmp).
  assert (clobbers out tmp (w_tree w) t1) as Hc1.
  { eapply mkdirs_clobbers; [|done]. left. by right. }
  destruct (ensureDir _ t1 _) as [t2|] eqn:E2; [|done].
  apply lift_errno_Val in E2. cbn [fst snd set_tree w_tree]. split_and!.
  - by apply (mkdirs_wf t1 [] out).
  - etrans; [done|]. eapply mkdirs_clobbers; [|done]. left. by left.
  - intros _. by apply (mkdirs_dir t1 [] out).
Qed.

(** One entry of the loop. *)
Lemma extract_entry_clobbers r b e w c :
  tame (pr r b) e → wf (w_tree w) → node_at (w_tree w) out = Some Dir →
  let s := extract_entry ev (pr r b) (w, c) e in
  wf (w_tree s.1) ∧ clobbers out tmp (w_tree w) (w_tree s.1) ∧
  node_at (w_tree s.1) out = Some Dir.
Proof.
  intros He Hw Ho. cbn zeta.
  pose proof (outputDirOf_abs ev subfolder target Hcwd) as Habs.
  pose proof (out_segs_paramsOf ev subfolder target Hcwd r b) as Hout.
  destruct (step_confined ev (pr r b) Habs (w_tree w) e (w, c)
              (extract_entry ev (pr r b) (w, c) e) He
              (extract_entry_step ev (pr r b) (w, c) e))
    as (Hw' & Ho' & Hf).
  { apply confined_refl; [done|]. by rewrite Hout. }
  rewrite Hout in *. split_and!; [done| |done].
  by apply confined_clobbers.
Qed.

(** The [catch]. *)
Lemma onError_clobbers d err w :
  wf (w_tree w) → d = None ∨ d = Some (tempDirOf ev) →
  wf (w_tree (onError ev d err w)) ∧
  clobbers out tmp (w_tree w) (w_tree (onError ev d err w)).
Proof.
  intros Hw Hd. rewrite onError_tree.
  destruct Hd as [->| ->]; [done|]. destruct (tempDirOf ev) eqn:E; [done|].
  rewrite <-E. split; [by apply remove_tree_wf|apply remove_clobbers].
Qed.

Lemma footprint_step x y :
  reachable w0 x → footprint_inv x → mstep ev repoUrl subfolder target x y →
  footprint_inv y.
Proof.
  unfold footprint_inv. intros Hx (Hw & Hc & Hk) Hstep.
  destruct Hstep; cbn [fst snd emit w_tree] in *; try done.
  - pose proof (finalBranchOf_snd ev r w) as Hb.
    pose proof (finalBranchOf_tree ev r w) as Ht. rewrite H in Hb, Ht.
    cbn [fst snd] in *. by rewrite Ht.
  - pose proof (finalBranchOf_tree ev r w) as Ht. rewrite H in Ht.
    cbn [fst] in Ht. by rewrite Ht.
  - pose proof (fetchZip_Val ev r b w res) as Hr. rewrite H in Hr.
    destruct (Hr eq_refl) as (Hf & _). apply (f_equal fst) in H.
    rewrite fetchZip_fst in H. cbn [fst] in H. subst w1.
    destruct Hk as [Hp Hb]. split_and!; [done..|]. by apply Htame.
  - apply (f_equal fst) in H. rewrite fetchZip_fst in H. cbn [fst] in H.
    by subst w1.
  - destruct (ensureDirs_clobbers w Hw) as (Hw1 & Hc1 & Ho). rewrite H in *.
    cbn [fst snd] in *. split_and!; [done|by etrans|done|by apply Ho].
  - destruct (ensureDirs_clobbers w Hw) as (Hw1 & Hc1 & _). rewrite H in *.
    cbn [fst snd] in *. split_and!; [done|by etrans|done].
  - destruct Hk as [[He Hes]%Forall_cons Ho].
    destruct (extract_entry_clobbers r b e w c He Hw Ho) as (Hw1 & Hc1 & Ho1).
    split_and!; [done|by etrans|done..].
  - split_and!; [by apply remove_tree_wf| |done].
    etrans; [done|apply remove_clobbers].
  - destruct (onError_clobbers d err w Hw) as [Hw1 Hc1];
      [by eapply failing_tempDir|]. split_and!; [done|by etrans|done].
Qed.

Lemma footprint_reachable x : reachable w0 x → footprint_inv x.
Proof.
  apply reachable_invariant; [|apply footprint_step].
  by split_and!.
Qed.

(** The world that the call ends with is met by the run. *)
Lemma footprint_call :
  let w' := downloadFolder ev repoUrl subfolder target w0 in
  wf (w_tree w') ∧ clobbers out tmp (w_tree w0) (w_tree w').
Proof.
  destruct (footprint_reachable
              (Terminal, downloadFolder ev repoUrl subfolder target w0))
    as (? & ? & _); [|done].
  by apply run_outcome, eq_sym, outcome_idle.
Qed.
End footprint.

(** ** Theorems *)

(** C9: the footprint of a call.  Whatever the reference, the answers
    of the network and the state of the target are, and however the
    call ends, a path that is not the output directory or the scratch
    directory and does not lie below them is after the call what it was
    before, or it was missing, lies on the way to one of the two and is
    now a directory.  The entries of the archive must not climb with
    [..]. *)
Theorem downloadFolder_footprint ev repoUrl subfolder target w :
  isAbsolute (env_cwd ev) = true → wf (w_tree w) →
  tame_archive ev repoUrl subfolder target →
  let w' := downloadFolder ev repoUrl subfolder target w in
  wf (w_tree w') ∧
  clobbers (fs_segs (env_cwd ev) (outputDirOf ev subfolder target))
           (fs_segs (env_cwd ev) (tempDirOf ev)) (w_tree w) (w_tree w').
Proof.
  intros Hcwd Hwf Htame. by apply footprint_call.
Qed.

(** The archive of the example has no entry that climbs. *)
Lemma dl_tame_archive :
  tame_archive dl_env (str "o/repo") (str "keep") None.
Proof.
  intros r b res Hp Hb Hf.
  assert (parseGitHubUrl (str "o/repo") = Val dl_ref) as Hp'
    by (vm_compute; reflexivity).
  assert (r = dl_ref) as -> by congruence.
  assert (resolved dl_env dl_ref = Val (Some (str "main"))) as Hb'
    by (vm_compute; reflexivity).
  assert (b = Some (str "main")) as -> by congruence.
  assert (env_fetch dl_env (zipUrl (owner dl_ref) (repo dl_ref)
                              (Some (str "main")))
          = Val (dl_response (Archive ex_entries None) None)) as Hf'
    by (vm_compute; reflexivity).
  assert (res = dl_response (Archive ex_entries None) None) as ->
    by congruence.
  apply (bool_decide_unpack _). vm_compute. exact I.
Qed.

(** The notes in the home directory of the example are there after the
    call. *)
Lemma downloadFolder_footprint_witness :
  w_tree (downloadFolder dl_env (str "o/repo") (str "keep") None dl_world)
    !! [str "home"; str "u"; str "notes"]
  = Some (File (str "n")).
Proof.
  destruct (downloadFolder_footprint dl_env (str "o/repo") (str "keep") None
              dl_world) as [_ H];
    [reflexivity|apply (bool_decide_unpack _); vm_compute; exact I| |].
  - apply dl_tame_archive.
  - destruct (H [str "home"; str "u"; str "notes"]) as [->|(_ & E & _)];
      [|reflexivity|discriminate E].
    apply (bool_decide_unpack _). vm_compute. exact I.
Defined.

