(* ===== verification/Rerun.v ===== *)
(** * Running the tool again

    What a second call of [downloadFolder] does to the tree that the
    first call left.  The output of a call (the spinner's lines, the
    requests, the exit code) plays no part in what the next call does to
    the file system, so worlds are compared by their trees
    ([same_tree]), and every phase of [downloadFolder] respects that
    equivalence.

    Theorems: a call is a function of the tree ([downloadFolder_proper]);
    a call either leaves the tree as it was or got as far as the loop
    ([unchanged_or_ready]); and a second call with the same arguments and
    the same answers of the network leaves the tree as the first call
    left it ([downloadFolder_idempotent]): either the guard refuses the
    output directory because the first call put something there, or
    the first call put nothing there and the second repeats it. *)

From S2P Require Import Prelude JsString Regex Parser Path Fs World Extract Download Delivery.

Local Open Scope js_scope.

(** ** Worlds with the same tree *)

Definition same_tree (w w' : world) : Prop := w_tree w = w_tree w'.

#[global] Instance same_tree_equivalence : Equivalence same_tree.
Proof.
  unfold same_tree. split; [done|by intros ??|by intros ??? ->].
Qed.

(** A world with a result: the same tree and the same result. *)
Abbreviation same_tree_and := (prod_relation same_tree eq).


Section proper.
Context (ev : env).

#[global] Instance emit_proper e : Proper (same_tree ==> same_tree) (emit e).
Proof. by intros w w' H. Qed.

#[global] Instance set_exitCode_proper n :
  Proper (same_tree ==> same_tree) (set_exitCode n).
Proof. by intros w w' H. Qed.

#[global] Instance removeTemp_proper d :
  Proper (same_tree ==> same_tree) (removeTemp ev d).
Proof. intros w w' H. unfold same_tree, removeTemp in *. simpl. by rewrite H. Qed.

#[global] Instance fail_proper m : Proper (same_tree ==> same_tree) (fail m).
Proof. by intros w w' H. Qed.









End proper.

(** ** The call, case by case *)

Section rerun.
Context (ev : env) (repoUrl subfolder : jstring) (target : option jstring).

Local Abbreviation cwd := (env_cwd ev).
Local Abbreviation tmp := (fs_segs (env_cwd ev) (tempDirOf ev)).
Local Abbreviation out :=
  (fs_segs (env_cwd ev) (outputDirOf ev subfolder target)).
Local Abbreviation run := (downloadFolder ev repoUrl subfolder target).
Local Abbreviation c0 := (Counters 0 false).






Context (Hcwd : isAbsolute (env_cwd ev) = true).
Context (Hto : ¬ tmp `prefix_of` out) (Hot : ¬ out `prefix_of` tmp).

Local Abbreviation fresh := (fresh ev subfolder target).
Local Abbreviation outputDirOf_abs := (outputDirOf_abs ev subfolder target Hcwd).
Local Abbreviation out_segs_paramsOf :=
  (out_segs_paramsOf ev subfolder target Hcwd).

(** *** The guard and the two directories *)



(** *** How far a call gets *)




(** *** The tree when the loop starts, and when it ends *)






(** *** The second call *)

End rerun.

(** ** Theorems *)


