(* ===== verification/Cli.v ===== *)
(** * The command line

    [getVersion], [printHelp] and [main] of index.ts.  [main] reads the
    arguments after the first two of [process.argv], answers [--version]
    and [--help], and otherwise determines the repository, the
    sub-folder and the target from the positional arguments and calls
    [downloadFolder] with the repository printed back in the shorthand
    form.

    A run of [main] ends in one of three ways, the [outcome]:
    it returns, it calls [process.exit], or an exception leaves it. *)

From S2P Require Import Prelude JsString Regex Parser Contract Path Fs World.
From S2P Require Import Extract Download.

Local Open Scope js_scope.

(** ** Definitions *)

Inductive outcome : Type :=
  | Returned
  | Exited (code : nat)
  | Rejected (err : js_error).

(** The status the process ends with: the argument of [process.exit],
    or [process.exitCode] (0 when it was never set) after a return, or
    1 after an exception nothing caught. *)
Definition exit_status (r : world * outcome) : nat :=
  match r.2 with
  | Exited code => code
  | Returned => default 0 (w_exitCode r.1)
  | Rejected _ => 1
  end.

Definition getVersion (ev : env) : exn js_error (option jstring) :=
  match env_app_version ev with
  | Some v => Val (Some v)
  | None => env_pkg_version ev
  end.

Definition nl : jstring := ["010"%char].

Definition programName : jstring := str "github-folder-downloader".

Definition helpText (ev : env) : jstring :=
  nl ++ chalk ev Bold (str "GitHub Folder Downloader") ++ nl
  ++ nl
  ++ str "Usage:" ++ nl
  ++ str "  " ++ chalk ev Cyan programName
  ++ str " <repo> <subfolder> [target-folder]" ++ nl
  ++ nl
  ++ str "Examples:" ++ nl
  ++ str "  " ++ chalk ev Cyan programName
  ++ str " metallicjs/templates saas-lite" ++ nl
  ++ str "  " ++ chalk ev Cyan programName
  ++ str " metallicjs/templates#dev src/components ./my-folder" ++ nl
  ++ str "  " ++ chalk ev Cyan programName
  ++ str " https://github.com/user/repo/tree/main/src/lib ./lib-copy" ++ nl
  ++ nl
  ++ str "Options:" ++ nl
  ++ str "  --help        Show help" ++ nl
  ++ str "  --version     Show version" ++ nl.

Definition printHelp (ev : env) (w : world) : world :=
  emit (ConsoleLog (helpText ev)) w.

(** [`${parsed.owner}/${parsed.repo}${parsed.branch ? `#${parsed.branch}` : ''}`] *)
Definition shorthandOf (r : repo_ref) : jstring :=
  show_opt (owner r) ++ slash :: show_opt (repo r)
  ++ (if truthy (branch r) then str "#" ++ show_opt (branch r) else []).

(** Lines 218 to 221 and 232 to 235. *)
Definition subfolderRequired (ev : env) (w : world) : world :=
  set_exitCode 1
    (printHelp ev
       (emit (ConsoleError (chalk ev Red (str "Subfolder path is required."))) w)).

(** The [catch] of [main]: [console.error] prints its two arguments
    with a space between them. *)
Definition mainError (ev : env) (err : js_error) (w : world) : world :=
  set_exitCode 1
    (emit (ConsoleError (chalk ev Red (str "Error:") ++ str " "
                         ++ err_message err)) w).

(** The [try] of [main], for the arguments [args], of which there is
    at least one. *)
Definition mainBody (ev : env) (args : list jstring) (w : world) : world :=
  match parseGitHubUrl (default [] (args !! 0)) with
  | Throw err => mainError ev err w
  | Val parsed =>
      if negb (truthy (subfolder parsed)) && bool_decide (length args < 2)
      then subfolderRequired ev w
      else
        let (sub, target) :=
          if negb (truthy (subfolder parsed))
          then (args !! 1, args !! 2)
          else (subfolder parsed, args !! 1) in
        if negb (truthy sub) then subfolderRequired ev w
        else downloadFolder ev (shorthandOf parsed) (default [] sub) target w
  end.

Definition main (ev : env) (argv : list jstring) (w : world)
    : world * outcome :=
  let args := drop 2 argv in
  if includes args (str "--version") then
    match getVersion ev with
    | Throw err => (w, Rejected err)
    | Val v =>
        (emit (ConsoleLog (programName ++ str " v" ++ show_opt v)) w, Exited 0)
    end
  else if includes args (str "--help") || bool_decide (length args = 0) then
    (printHelp ev w, Exited 0)
  else (mainBody ev args w, Returned).

(** ** Specification *)

(** The arguments hold none of the two flags. *)
Definition no_flag (args : list jstring) : Prop :=
  ((str "--version") ∉ args) ∧ ((str "--help") ∉ args).

#[global] Instance no_flag_dec args : Decision (no_flag args).
Proof. unfold no_flag. apply _. Defined.

(** What [main] does with positional arguments whose first parses to
    [r]: the sub-folder of a tree URL wins over the second argument,
    and the argument after the sub-folder is the target. *)
Definition dispatch (ev : env) (r : repo_ref) (rest : list jstring)
    (w : world) : world :=
  if truthy (subfolder r) then
    downloadFolder ev (shorthandOf r) (default [] (subfolder r)) (rest !! 0) w
  else if truthy (rest !! 0) then
    downloadFolder ev (shorthandOf r) (default [] (rest !! 0)) (rest !! 1) w
  else subfolderRequired ev w.

(** ** Properties *)

Lemma includes_false args x : includes args x = false ↔ x ∉ args.
Proof. unfold includes. by rewrite bool_decide_eq_false. Qed.

Lemma main_no_flag ev a0 a1 repo rest w :
  no_flag (repo :: rest) →
  main ev (a0 :: a1 :: repo :: rest) w = (mainBody ev (repo :: rest) w, Returned).
Proof.
  intros [Hv Hh]. unfold main. cbn [drop skipn].
  apply includes_false in Hv, Hh. by rewrite Hv, Hh.
Qed.

Lemma mainBody_dispatch ev repo rest w r :
  parseGitHubUrl repo = Val r →
  mainBody ev (repo :: rest) w = dispatch ev r rest w.
Proof.
  intros Hp. unfold mainBody, dispatch.
  change (default [] ((repo :: rest) !! 0)) with repo. rewrite Hp.
  change ((repo :: rest) !! 1) with (rest !! 0).
  change ((repo :: rest) !! 2) with (rest !! 1).
  destruct (truthy (subfolder r)) eqn:Hs; cbn [negb andb].
  - by rewrite Hs.
  - case_bool_decide as Hl.
    + destruct rest; [done|simpl in Hl; lia].
    + by destruct (truthy (rest !! 0)).
Qed.

Lemma subfolderRequired_report ev w :
  last_event (subfolderRequired ev w) = Some (ConsoleLog (helpText ev)) ∧
  w_exitCode (subfolderRequired ev w) = Some 1 ∧
  requests (subfolderRequired ev w) = requests w ∧
  w_tree (subfolderRequired ev w) = w_tree w.
Proof. done. Qed.

(** What the [try] of [main] ends with: the success line and the exit
    code as it was, or some other line and the exit code 1. *)
Lemma mainBody_outcome ev args w :
  let w' := mainBody ev args w in
  (∃ text, last_event w' = Some (SpinnerSucceed text) ∧
           w_exitCode w' = w_exitCode w) ∨
  ((∀ text, last_event w' ≠ Some (SpinnerSucceed text)) ∧
   w_exitCode w' = Some 1).
Proof.
  assert (∀ repoUrl sub target,
    let w' := downloadFolder ev repoUrl sub target w in
    (∃ text, last_event w' = Some (SpinnerSucceed text) ∧
             w_exitCode w' = w_exitCode w) ∨
    ((∀ text, last_event w' ≠ Some (SpinnerSucceed text)) ∧
     w_exitCode w' = Some 1)) as Hd.
  { intros. destruct (downloadFolder_outcome ev repoUrl sub target w)
      as [?|(text & Hl & ?)]; [by left|right].
    split; [|done]. intros ?. subst w'. by rewrite Hl. }
  unfold mainBody. destruct (parseGitHubUrl _) as [r|err]; [|by right].
  destruct (_ && _); [by right|].
  destruct (truthy (subfolder r)) eqn:Hs; cbn [negb]; [rewrite Hs; apply Hd|].
  destruct (truthy (args !! 1)); [apply Hd|by right].
Qed.

(** ** Theorems *)

(** An example: the network and the tree of [Download.dl_env] and
    [Download.dl_world], with the program called as [node cli ...]. *)
Definition cli (args : list jstring) : list jstring :=
  str "node" :: str "cli" :: args.

(** C3: the exit status of the program is 0 exactly when [main] left
    through [process.exit(0)] (the version or the help was asked for)
    or returned after the success line; in every other case (bad
    arguments, a sub-folder that is missing, any failure of the
    download, an exception) it is 1. *)
Theorem main_exit_status ev argv w :
  w_exitCode w = None →
  let r := main ev argv w in
  exit_status r ≤ 1 ∧
  (exit_status r = 0 ↔
   r.2 = Exited 0 ∨
   (r.2 = Returned ∧ ∃ text, last_event r.1 = Some (SpinnerSucceed text))).
Proof.
  intros Hw. unfold main.
  destruct (includes _ (str "--version")).
  { destruct (getVersion ev); cbn; naive_solver. }
  destruct (_ || _); [cbn; naive_solver|].
  unfold exit_status. cbn [fst snd].
  destruct (mainBody_outcome ev (drop 2 argv) w) as [(text & Hl & Hx)|[Hl Hx]];
    rewrite Hx, ?Hw; cbn [default]; naive_solver.
Qed.

Lemma main_exit_status_witness :
  exit_status (main dl_env (cli [str "o/repo"; str "keep"]) dl_world) = 0 ∧
  exit_status (main dl_env (cli [str "o/repo"; str "docs"]) dl_world) = 1.
Proof.
  pose proof (main_exit_status dl_env (cli [str "o/repo"; str "keep"]) dl_world
                eq_refl) as [_ H1].
  pose proof (main_exit_status dl_env (cli [str "o/repo"; str "docs"]) dl_world
                eq_refl) as [H2 H3].
  split.
  - apply H1. right. split; [done|]. eexists. vm_compute. reflexivity.
  - vm_compute. reflexivity.
Defined.

(** Without a flag, [main] parses its first argument and hands
    over to [downloadFolder]: with the sub-folder of a tree URL and the
    second argument as target, or else with the second argument as
    sub-folder and the third as target; when there is no sub-folder
    either way it prints the error and the help and sets the exit code
    1, without a request. *)
Lemma main_dispatch ev a0 a1 repo rest w r :
  no_flag (repo :: rest) → parseGitHubUrl repo = Val r →
  main ev (a0 :: a1 :: repo :: rest) w = (dispatch ev r rest w, Returned).
Proof.
  intros Hf Hp. rewrite main_no_flag by done.
  by rewrite (mainBody_dispatch ev repo rest w r).
Qed.

Lemma main_dispatch_witness :
  main dl_env (cli [str "https://github.com/o/repo/tree/main/keep/sub"; str "out"])
    dl_world
  = (downloadFolder dl_env (str "o/repo#main") (str "keep/sub") (Some (str "out"))
       dl_world, Returned).
Proof.
  unfold cli.
  rewrite (main_dispatch dl_env _ _ _ _ _
             (RepoRef (Some (str "o")) (Some (str "repo")) (Some (str "main"))
                (Some (str "keep/sub")))).
  - vm_compute. reflexivity.
  - apply (bool_decide_unpack _). vm_compute. exact I.
  - vm_compute. reflexivity.
Defined.

(** [--help], or no argument at all, prints the help and leaves
    with status 0; [--version] prints the name and the version and
    leaves with status 0, and wins over [--help].  Neither touches the
    tree or the network. *)
Lemma main_flags ev argv w :
  let args := drop 2 argv in
  ((str "--version") ∈ args → ∀ v, getVersion ev = Val v →
   main ev argv w
   = (emit (ConsoleLog (programName ++ str " v" ++ show_opt v)) w, Exited 0)) ∧
  ((str "--version") ∉ args → (str "--help") ∈ args ∨ args = [] →
   main ev argv w = (printHelp ev w, Exited 0)).
Proof.
  cbn zeta. unfold main. split.
  - intros Hv%includes_In v Hg. by rewrite Hv, Hg.
  - intros Hv%includes_false Hh. rewrite Hv.
    destruct Hh as [Hh%includes_In | ->]; [by rewrite Hh|].
    by rewrite orb_true_r.
Qed.

Lemma main_flags_witness :
  exit_status (main dl_env (cli [str "o/repo"; str "--help"]) dl_world) = 0.
Proof.
  destruct (main_flags dl_env (cli [str "o/repo"; str "--help"]) dl_world)
    as [_ H].
  rewrite H; [reflexivity| |left]; apply (bool_decide_unpack _);
    vm_compute; exact I.
Defined.

(** What [main] prints for a reference with an owner and a repository
    is the shorthand of the contract. *)
Lemma shorthandOf_printed o rp b sub :
  branch_ok b → shorthandOf (RepoRef (Some o) (Some rp) b sub) = printed o rp b.
Proof.
  intros Hb. unfold shorthandOf, printed. cbn [owner repo branch show_opt].
  destruct b as [[|c b]|]; [by destruct Hb|done..].
Qed.

(** So every parser that keeps the contract reads it again as it
    was. *)
Lemma reparse_printed parse `{!RefParser parse} o rp b sub :
  token word_char o → token word_char rp → branch_ok b →
  parse (shorthandOf (RepoRef (Some o) (Some rp) b sub))
  = Val (RepoRef (Some o) (Some rp) b None).
Proof.
  intros Ho Hr Hb. rewrite shorthandOf_printed by done.
  by apply parser_shorthand.
Qed.

(** C29: printing a reference back in the shorthand form and parsing
    it again gives the same owner, repository and branch, when owner
    and repository are made of word characters, dots and dashes: the
    detour [main] takes through [shorthandOf] loses nothing for such
    references. *)
Theorem reparse_shorthand o rp b sub :
  token word_char o → token word_char rp → branch_ok b →
  parseGitHubUrl (shorthandOf (RepoRef (Some o) (Some rp) b sub))
  = Val (RepoRef (Some o) (Some rp) b None).
Proof. apply (reparse_printed parseGitHubUrl). Qed.

Lemma reparse_shorthand_witness :
  parseGitHubUrl
    (shorthandOf (RepoRef (Some (str "metallicjs")) (Some (str "templates"))
                    (Some (str "dev")) (Some (str "src/components"))))
  = Val (RepoRef (Some (str "metallicjs")) (Some (str "templates"))
           (Some (str "dev")) None).
Proof.
  apply reparse_shorthand; apply (bool_decide_unpack _); vm_compute; exact I.
Defined.

