(* ===== verification/Program.v ===== *)
(** * The program, end to end

    [main] composed with everything below it: the command line, the
    parser, the branch resolver, the fetch, the guard and the loop.

    Theorem: called with a reference that parses and a sub-folder, on a
    network that answers and an archive that is complete and coherent,
    the program returns with the exit status 0 after the success line,
    and the files below the output directory are the file entries of
    the sub-folder ([main_delivers]); whatever the arguments are, the
    program calls [downloadFolder] once or not at all ([main_call]) and
    changes the file tree in the two directories of that call only
    ([main_footprint]). *)

From S2P Require Import Prelude JsString Regex Parser Path Fs World.
From S2P Require Import Extract Unpack Download Delivery Footprint Cli.

(** ** Definitions *)

(** The sub-folder and the target that [main] takes from a parsed
    reference and the arguments after it: the sub-folder of a tree URL
    and the next argument, or else the next two arguments. *)
Definition picks (r : repo_ref) (rest : list jstring)
    : option (jstring * option jstring) :=
  if truthy (subfolder r) then Some (default [] (subfolder r), rest !! 0)
  else if truthy (rest !! 0) then Some (default [] (rest !! 0), rest !! 1)
  else None.

(** The call of [downloadFolder] that the arguments lead to, as the
    reference printed back, the sub-folder and the target; there is
    none for the flags, for a reference that does not parse and for a
    missing sub-folder. *)
Definition call_of (argv : list jstring)
    : option (jstring * (jstring * option jstring)) :=
  let args := drop 2 argv in
  if includes args (str "--version") || includes args (str "--help") then None
  else
    match args with
    | repo :: rest =>
        match parseGitHubUrl repo with
        | Val r => pair (shorthandOf r) <$> picks r rest
        | Throw _ => None
        end
    | [] => None
    end.

(** ** Properties *)

Lemma dispatch_picks ev r rest w :
  dispatch ev r rest w =
  match picks r rest with
  | Some (sub, target) => downloadFolder ev (shorthandOf r) sub target w
  | None => subfolderRequired ev w
  end.
Proof.
  unfold dispatch, picks. by destruct (truthy (subfolder r)), (truthy (rest !! 0)).
Qed.

(** A call that ends with the success line leaves the exit code as it
    was. *)
Lemma downloadFolder_succeeded ev repoUrl sub target w text :
  last_event (downloadFolder ev repoUrl sub target w)
  = Some (SpinnerSucceed text) →
  w_exitCode (downloadFolder ev repoUrl sub target w) = w_exitCode w.
Proof.
  intros Hl.
  destruct (downloadFolder_outcome ev repoUrl sub target w)
    as [(? & _ & ?)|(? & Hf & _)]; [done|congruence].
Qed.

(** [main] is the call the arguments lead to, and without one it sends
    no request and leaves the tree as it is. *)
Lemma main_call ev argv w :
  match call_of argv with
  | Some (repoUrl, (sub, target)) =>
      (main ev argv w).1 = downloadFolder ev repoUrl sub target w
  | None =>
      w_tree (main ev argv w).1 = w_tree w ∧
      requests (main ev argv w).1 = requests w
  end.
Proof.
  unfold call_of, main.
  destruct (includes _ (str "--version")); cbn [orb];
    [by destruct (getVersion ev)|].
  destruct (includes _ (str "--help")); cbn [orb]; [done|].
  destruct (drop 2 argv) as [|repo rest]; [done|].
  rewrite bool_decide_false by done. cbn [fst].
  destruct (parseGitHubUrl repo) as [r|err] eqn:Hp.
  - rewrite (mainBody_dispatch ev repo rest w r Hp), dispatch_picks.
    by destruct (picks r rest) as [[sub target]|].
  - unfold mainBody. change (default [] ((repo :: rest) !! 0)) with repo.
    by rewrite Hp.
Qed.

(** ** Theorems *)

(** C6: the program, called with a reference that parses and a
    sub-folder (of a tree URL, or the next argument), when the phases
    before the loop succeed on the reference that [main] prints back
    and the archive is complete, holds the sub-folder and is coherent:
    [main] returns, the exit status is 0, the last line is the success
    line with the number of file entries of the sub-folder, below the
    output directory a file stands at a path exactly when the last file
    entry that goes to that path has its content, and whatever was in
    the tree before is still there. *)
Theorem main_delivers ev a0 a1 repo rest w r sub target r' b res t2 :
  let tmp := fs_segs (env_cwd ev) (tempDirOf ev) in
  let out := fs_segs (env_cwd ev) (outputDirOf ev sub target) in
  let pr := paramsOf ev r' b sub target in
  let es := a_entries (r_archive res) in
  no_flag (repo :: rest) → parseGitHubUrl repo = Val r →
  picks r rest = Some (sub, target) →
  w_exitCode w = None → isAbsolute (env_cwd ev) = true →
  ¬ tmp `prefix_of` out → ¬ out `prefix_of` tmp →
  wf (w_tree w) → node_at (w_tree w) tmp = None →
  ready ev (shorthandOf r) sub target w r' b res t2 →
  sound_archive ev sub target r' b res →
  let x := main ev (a0 :: a1 :: repo :: rest) w in
  x.2 = Returned ∧ exit_status x = 0 ∧
  last_event x.1
  = Some (SpinnerSucceed
            (success_text ev sub (outputDirOf ev sub target)
               (length (filter (λ e, scoped_file pr e = true) es)))) ∧
  (∀ p content, below pr p →
     w_tree x.1 !! p = Some (File content) ↔ written pr es p = Some content) ∧
  w_tree w ⊆ w_tree x.1.
Proof.
  intros tmp out pr es Hf Hp Hpick Hx Hcwd Hto Hot Hwf Htmp Hready Hsound x.
  unfold x. rewrite main_no_flag, (mainBody_dispatch ev repo rest w r) by done.
  rewrite dispatch_picks, Hpick. cbn [fst snd].
  destruct (downloadFolder_delivered ev (shorthandOf r) sub target w r' b res t2)
    as (Hl & Hfiles & Hkeep); [done..|].
  split_and!; [done| |done..].
  unfold exit_status. cbn [fst snd].
  by rewrite (downloadFolder_succeeded _ _ _ _ _ _ Hl), Hx.
Qed.

Lemma main_delivers_witness :
  let pr := paramsOf dl_env dl_ref (Some (str "main")) (str "keep") None in
  let x := main dl_env (cli [str "o/repo"; str "keep"]) dl_world in
  x.2 = Returned ∧ exit_status x = 0 ∧
  last_event x.1
  = Some (SpinnerSucceed
            (success_text dl_env (str "keep")
               (outputDirOf dl_env (str "keep") None)
               (length (filter (λ e, scoped_file pr e = true) ex_entries)))) ∧
  (∀ p content, below pr p →
     w_tree x.1 !! p = Some (File content) ↔
     written pr ex_entries p = Some content) ∧
  w_tree dl_world ⊆ w_tree x.1.
Proof.
  apply (main_delivers dl_env (str "node") (str "cli") (str "o/repo")
           [str "keep"] dl_world dl_ref (str "keep") None dl_ref
           (Some (str "main")) (dl_response (Archive ex_entries None) None)
           (dl_tree (str "keep")));
    try (apply (bool_decide_unpack _); vm_compute; exact I);
    try (vm_compute; reflexivity).
  apply ready_example. by left.
Defined.

(** C10: the footprint of the program.  Whatever the arguments, the
    answers of the network and the file tree are, and however the
    program ends: when the arguments lead to a call of [downloadFolder]
    (no flag, a reference that parses, a sub-folder), a path that is
    not the output directory or the scratch directory of that call and
    does not lie below them is after the run what it was before, or it
    was missing, lies on the way to one of the two and is now a
    directory; in every other case the tree is as it was.  The tree
    stays well formed.  The entries of the archive must not climb with
    [..]. *)
Theorem main_footprint ev argv w :
  isAbsolute (env_cwd ev) = true → wf (w_tree w) →
  (∀ repoUrl sub target, call_of argv = Some (repoUrl, (sub, target)) →
     tame_archive ev repoUrl sub target) →
  let w' := (main ev argv w).1 in
  wf (w_tree w') ∧
  match call_of argv with
  | Some (_, (sub, target)) =>
      clobbers (fs_segs (env_cwd ev) (outputDirOf ev sub target))
               (fs_segs (env_cwd ev) (tempDirOf ev)) (w_tree w) (w_tree w')
  | None => w_tree w' = w_tree w
  end.
Proof.
  intros Hcwd Hwf Htame. cbn zeta. pose proof (main_call ev argv w) as H.
  destruct (call_of argv) as [[repoUrl [sub target]]|].
  - rewrite H. apply footprint_call; [done|by apply Htame|done].
  - destruct H as [-> _]. by split.
Qed.

(** The notes in the home directory of the example are there after the
    program has run. *)
Lemma main_footprint_witness :
  w_tree (main dl_env (cli [str "o/repo"; str "keep"]) dl_world).1
    !! [str "home"; str "u"; str "notes"]
  = Some (File (str "n")).
Proof.
  assert (call_of (cli [str "o/repo"; str "keep"])
          = Some (str "o/repo", (str "keep", None))) as E
    by (vm_compute; reflexivity).
  destruct (main_footprint dl_env (cli [str "o/repo"; str "keep"]) dl_world)
    as [_ H];
    [reflexivity|apply (bool_decide_unpack _); vm_compute; exact I| |].
  - intros repoUrl sub target. rewrite E. intros [= <- <- <-].
    apply dl_tame_archive.
  - rewrite E in H.
    destruct (H [str "home"; str "u"; str "notes"]) as [->|(_ & E' & _)];
      [|reflexivity|discriminate E'].
    apply (bool_decide_unpack _). vm_compute. exact I.
Defined.
