(* ===== verification/Docs.v ===== *)
(** * The documented usage

    What the program says of itself: the usage line, the options and
    the examples of the help text (index.ts, [printHelp]), the forms of
    a repository and the examples of the README (src/unnamed/part_002),
    and the one line of the build configuration (src/unnamed/part_000)
    that the program sees, the constant [__APP_VERSION__].

    Theorems: [main] does what the usage line and the options say, for
    a repository that is no tree URL ([documented_usage]); the forms
    the README lists parse to the repository they name
    ([readme_forms_parse]) and its examples are instances of the usage
    line; the third example of the help text is none
    ([help_example_tree_url]); in a bundle of the build configuration
    [--version] prints the version of package.json without reading the
    file ([define_version]). *)

From S2P Require Import Prelude JsString Regex Parser Path Fs World.
From S2P Require Import Extract Download Cli.

Local Open Scope js_scope.

(** ** Definitions *)

(** README, Usage: [folder-downloader <repo> <subfolder> [target-folder]].
    The help text has the same line. *)
Definition usage (args : list jstring)
    : option (jstring * jstring * option jstring) :=
  match args with
  | [repo; subfolder] => Some (repo, subfolder, None)
  | [repo; subfolder; target] => Some (repo, subfolder, Some target)
  | _ => None
  end.

(** README: "You can use either of the following for <repo>". *)
Definition readme_forms : list jstring :=
  [ str "https://github.com/user/repo"; str "user/repo";
    str "user/repo#branch" ].

(** README, Examples. *)
Definition readme_examples : list (list jstring) :=
  [ [str "metallicjs/templates"; str "saas-lite"];
    [str "https://github.com/metallicjs/templates"; str "saas-lite"];
    [str "metallicjs/templates#main"; str "saas-lite"];
    [str "metallicjs/templates"; str "saas-lite"; str "my-app-folder"] ].

(** The examples of the help text. *)
Definition help_examples : list (list jstring) :=
  [ [str "metallicjs/templates"; str "saas-lite"];
    [str "metallicjs/templates#dev"; str "src/components"; str "./my-folder"];
    [str "https://github.com/user/repo/tree/main/src/lib"; str "./lib-copy"] ].

(** The build configuration, [define]: the bundler puts the version of
    package.json in the place of [__APP_VERSION__]. *)
Definition define (pkg_version : jstring) (ev : env) : env :=
  Env (env_cwd ev) (env_tmpdir ev) (env_now ev) (env_fetch ev) (env_color ev)
      (Some pkg_version) (env_pkg_version ev).

(** ** Specification *)

(** What an example asks for, read by the usage line: the repository,
    the sub-folder and the target. *)
Definition asks (ev : env) (args : list jstring) (w : world) : Prop :=
  ∃ rp sub target r,
    usage args = Some (rp, sub, target) ∧
    parseGitHubUrl rp = Val r ∧
    owner r = Some (str "metallicjs") ∧ repo r = Some (str "templates") ∧
    main ev (str "node" :: str "cli" :: args) w
    = (downloadFolder ev (shorthandOf r) sub target w, Returned).

(** ** Properties *)

Lemma usage_args args repo sub target :
  usage args = Some (repo, sub, target) →
  args = repo :: sub :: option_list target.
Proof.
  destruct args as [|a [|b [|c [|d l]]]]; intros [= <- <- <-]; done.
Qed.

(** The usage line, for a repository that is no tree URL. *)
Lemma usage_dispatch ev a0 a1 args w repo sub target r :
  usage args = Some (repo, sub, target) → no_flag args →
  parseGitHubUrl repo = Val r → subfolder r = None → sub ≠ [] →
  main ev (a0 :: a1 :: args) w
  = (downloadFolder ev (shorthandOf r) sub target w, Returned).
Proof.
  intros ->%usage_args Hf Hp Hs Hsub.
  rewrite (main_dispatch ev a0 a1 repo _ w r) by done.
  unfold dispatch. rewrite Hs. cbn [truthy lookup list_lookup default].
  destruct sub; [done|]. by destruct target.
Qed.

(** The forms of the README name the repository [user/repo]. *)
Lemma readme_forms_parse :
  Forall (λ s, ∃ r, parseGitHubUrl s = Val r ∧ owner r = Some (str "user") ∧
                    repo r = Some (str "repo") ∧ subfolder r = None)
         readme_forms.
Proof. repeat constructor; eexists; vm_compute; done. Qed.

(** The third example of the help text is no instance of the usage
    line: by the usage line its second argument is the sub-folder, and
    [main] takes it for the target. *)
Example help_example_tree_url ev w :
  usage [str "https://github.com/user/repo/tree/main/src/lib"; str "./lib-copy"]
  = Some (str "https://github.com/user/repo/tree/main/src/lib",
          str "./lib-copy", None) ∧
  main ev (str "node" :: str "cli" ::
           [str "https://github.com/user/repo/tree/main/src/lib";
            str "./lib-copy"]) w
  = (downloadFolder ev (str "user/repo#main") (str "src/lib")
       (Some (str "./lib-copy")) w, Returned).
Proof.
  split; [done|].
  rewrite (main_dispatch ev _ _ _ _ w
             (RepoRef (Some (str "user")) (Some (str "repo"))
                (Some (str "main")) (Some (str "src/lib"))));
    [done|apply (bool_decide_unpack _); vm_compute; exact I
    |vm_compute; reflexivity].
Qed.

(** In a bundle, [getVersion] does not read package.json. *)
Lemma define_version v ev : getVersion (define v ev) = Val (Some v).
Proof. done. Qed.

(** ** Theorems *)

(** C35: the program does what its usage line and its options say.  For
    [<repo> <subfolder> [target-folder]] with a repository that parses
    and is no tree URL, [main] calls [downloadFolder] for this
    repository, this sub-folder and this target; [--help] prints the
    help and [--version] the name and the version, both with status 0,
    and in a bundle of the build configuration the version is that of
    package.json whether or not the file can be read. *)
Theorem documented_usage ev a0 a1 args w :
  (∀ repo sub target r,
     usage args = Some (repo, sub, target) → no_flag args →
     parseGitHubUrl repo = Val r → subfolder r = None → sub ≠ [] →
     main ev (a0 :: a1 :: args) w
     = (downloadFolder ev (shorthandOf r) sub target w, Returned)) ∧
  (str "--help" ∈ args → str "--version" ∉ args →
   main ev (a0 :: a1 :: args) w = (printHelp ev w, Exited 0)) ∧
  (str "--version" ∈ args → ∀ v,
   main (define v ev) (a0 :: a1 :: args) w
   = (emit (ConsoleLog (programName ++ str " v" ++ v)) w, Exited 0)).
Proof.
  split_and!.
  - intros repo sub target r. apply usage_dispatch.
  - intros Hh Hv.
    destruct (main_flags ev (a0 :: a1 :: args) w) as [_ H]. apply H; [done|].
    by left.
  - intros Hv v.
    destruct (main_flags (define v ev) (a0 :: a1 :: args) w) as [H _].
    by apply (H Hv (Some v)).
Qed.

(** The examples of the README, and the two of the help text that the
    usage line covers, in the environment of [Download.dl_env]. *)
Lemma documented_usage_witness :
  Forall (λ args, asks dl_env args dl_world)
         (readme_examples ++ take 2 help_examples).
Proof.
  repeat constructor; unfold asks; do 4 eexists;
    (split; [reflexivity|]);
    (split; [vm_compute; reflexivity|]);
    (split; [reflexivity|]); (split; [reflexivity|]);
    eapply (documented_usage dl_env); try reflexivity;
    try (apply (bool_decide_unpack _); vm_compute; exact I);
    try (vm_compute; reflexivity); done.
Defined.
