(* ===== verification/Variant.v ===== *)
(** * The earlier variant

    src/unnamed/part_001 is an earlier state of index.ts.  It differs
    in how it ends and in what it extracts:
    - every failure leaves through [process.exit(1)] and nothing sets
      [process.exitCode];
    - [tempDir] is declared again inside the [try], so the variable the
      [catch] tests is always [null] and the scratch directory is never
      removed;
    - the loop takes the entries whose relative path starts with the
      sub-folder as given and a slash; it keeps [hasErrors] instead of
      [matchedSomething], so a sub-folder that is not in the archive is
      reported as a success with no files, and failed entries turn the
      last line into a warning;
    - the command line takes the three positional arguments as they
      are, and its parser ([Parser.Legacy]) knows no tree URLs.

    The definitions are in the module [Earlier], under the names of
    the source.  What is the same expression in both variants (the
    URLs, the texts, the guard's tests) is taken from [Download] and
    [Extract]. *)

From S2P Require Import Prelude JsString Regex Parser Path Fs World.
From S2P Require Import Extract Download Cli.

Local Open Scope js_scope.

(** ** Definitions *)

Module Earlier.

(** [try { return __APP_VERSION__ } catch (e) { ... pkg.version }]: a
    constant that was not injected is a [ReferenceError]. *)
Definition getVersion (ev : env) : exn js_error (option jstring) :=
  match env_app_version ev with
  | Some v => Val (Some v)
  | None => env_pkg_version ev
  end.

Definition helpText (ev : env) : jstring :=
  nl ++ chalk ev Bold (str "GitHub Folder Downloader") ++ nl
  ++ nl
  ++ str "Usage:" ++ nl
  ++ str "  " ++ chalk ev Cyan programName
  ++ str " <repo> <subfolder> [target-folder]" ++ nl
  ++ nl
  ++ str "Examples:" ++ nl
  ++ str "  " ++ chalk ev Cyan programName
  ++ str " metallicjs/templates saas-lite" ++ nl
  ++ str "  " ++ chalk ev Cyan programName
  ++ str " metallicjs/templates#dev src/components ./my-folder" ++ nl
  ++ str "  " ++ chalk ev Cyan programName
  ++ str " https://github.com/user/repo src/lib ./lib-copy" ++ nl
  ++ nl
  ++ str "Options:" ++ nl
  ++ str "  --help        Show help" ++ nl
  ++ str "  --version     Show version" ++ nl.

Definition printHelp (ev : env) (w : world) : world :=
  emit (ConsoleLog (helpText ev)) w.

Definition getDefaultBranch (ev : env) (owner repo : option jstring)
    (w : world) : world * exn js_error (option jstring) :=
  let (w1, r) := fetch ev (apiUrl owner repo) w in
  (w1,
   let! res := r in
   if negb (r_ok res) then
     Throw (Error (str "Failed to fetch repo metadata: " ++ r_statusText res))
   else r_default_branch res).

(** The variables of the loop. *)
Record counters : Type := Counters {
  filesExtracted : nat;
  hasErrors : bool
}.

(** [relativePath.startsWith(subfolder + '/')] *)
Definition in_scope (subfolder rel : jstring) : bool :=
  startsWith rel (subfolder ++ [slash]).

(** [path.join(outputDir, relativePath.replace(subfolder + '/', ''))] *)
Definition localPath (outputDir subfolder rel : jstring) : jstring :=
  join [outputDir; replace_str rel (subfolder ++ [slash]) []].

(** The body of the [try] of the loop. *)
Definition extract_try (ev : env) (pre subfolder outputDir : jstring)
    (e : entry) (w : world) (c : counters)
    : world * counters * exn js_error unit :=
  let rel := replace_str (e_path e) pre [] in
  if in_scope subfolder rel then
    let lp := localPath outputDir subfolder rel in
    match e_type e with
    | EDirectory =>
        match ensureDir (env_cwd ev) (w_tree w) lp with
        | Throw err => (w, c, Throw err)
        | Val t => (set_tree t w, c, Val ())
        end
    | EFile =>
        match ensureDir (env_cwd ev) (w_tree w) (dirname lp) with
        | Throw err => (w, c, Throw err)
        | Val t =>
            match writeStream (env_cwd ev) t lp (e_content e) with
            | Throw err => (set_tree t w, c, Throw err)
            | Val t' =>
                let c2 := Counters (S (filesExtracted c)) (hasErrors c) in
                (emit (SpinnerText (extracted_text (filesExtracted c2)))
                   (set_tree t' w), c2, Val ())
            end
        end
    end
  else (w, c, Val ()).

(** One iteration: the [try] and its [catch], which sets [hasErrors]. *)
Definition extract_entry (ev : env) (pre subfolder outputDir : jstring)
    (wc : world * counters) (e : entry) : world * counters :=
  match extract_try ev pre subfolder outputDir e wc.1 wc.2 with
  | (w, c, Val _) => (w, c)
  | (w, c, Throw err) =>
      (emit (SpinnerWarn (failed_text e err)) w,
       Counters (filesExtracted c) true)
  end.

Definition extract_all (ev : env) (pre subfolder outputDir : jstring)
    (entries : list entry) (w : world) (c : counters) : world * counters :=
  foldl (extract_entry ev pre subfolder outputDir) (w, c) entries.

Definition some_errors_text : jstring :=
  str "Download completed with some errors. Check output above.".

(** Lines 176 to 180. *)
Definition report (ev : env) (subfolder outputDir : jstring)
    (c : counters) (w : world) : world :=
  if hasErrors c then emit (SpinnerWarn some_errors_text) w
  else emit (SpinnerSucceed
               (success_text ev subfolder outputDir (filesExtracted c))) w.

(** Lines 140 to 180: the directories, the loop and the report. *)
Definition extractAndReport (ev : env) (subfolder outputDir pre : jstring)
    (a : archive) (w : world) : world * exn js_error outcome :=
  match ensureDirs ev (tempDirOf ev) outputDir w with
  | (w1, Throw err) => (w1, Throw err)
  | (w1, Val _) =>
      let (w2, c) :=
        extract_all ev pre subfolder outputDir (a_entries a) w1
          (Counters 0 false) in
      match a_error a with
      | Some err => (w2, Throw err)
      | None => (report ev subfolder outputDir c w2, Val Returned)
      end
  end.

(** Lines 108 to 180.  The guard's tests are those of
    [Download.checkTarget]; a refusal is [process.exit(1)]. *)
Definition downloadBody (ev : env) (r : repo_ref)
    (finalBranch : option jstring) (subfolder : jstring)
    (target : option jstring) (w : world) : world * exn js_error outcome :=
  match fetchZip ev r finalBranch w with
  | (w1, Throw err) => (w1, Throw err)
  | (w1, Val res) =>
      let outputDir := outputDirOf ev subfolder target in
      match checkTarget ev outputDir (w_tree w1) with
      | Refuse message => (emit (SpinnerFail message) w1, Val (Exited 1))
      | Proceed =>
          extractAndReport ev subfolder outputDir
            (prefixOf (repo r) finalBranch) (r_archive res) w1
      end
  end.

(** The [catch]: the [tempDir] it tests is the outer variable, which is
    [null], so nothing is removed. *)
Definition onError (err : js_error) (w : world) : world * outcome :=
  (emit (SpinnerFail (err_message err)) w, Exited 1).

Definition downloadFolder (ev : env) (repoUrl subfolder : jstring)
    (target : option jstring) (w : world) : world * outcome :=
  let w0 := emit (SpinnerStart (str "Preparing download...")) w in
  match Legacy.parseGitHubUrl repoUrl with
  | Throw err => onError err w0
  | Val r =>
      match (if truthy (branch r) then (w0, Val (branch r))
             else getDefaultBranch ev (owner r) (repo r) w0) with
      | (w1, Throw err) => onError err w1
      | (w1, Val finalBranch) =>
          match downloadBody ev r finalBranch subfolder target w1 with
          | (w2, Throw err) => onError err w2
          | (w2, Val o) => (w2, o)
          end
      end
  end.

(** The command line, lines 192 to 212. *)
Definition main (ev : env) (argv : list jstring) (w : world)
    : world * outcome :=
  let args := drop 2 argv in
  if includes args (str "--version") then
    match getVersion ev with
    | Throw err => (w, Rejected err)
    | Val v =>
        (emit (ConsoleLog (str "folder-downloader v" ++ show_opt v)) w,
         Exited 0)
    end
  else if includes args (str "--help") || bool_decide (length args = 0) then
    (printHelp ev w, Exited 0)
  else if negb (truthy (args !! 0)) || negb (truthy (args !! 1)) then
    (printHelp ev
       (emit (ConsoleError (chalk ev Red (str "Missing required arguments.")))
          w), Exited 1)
  else
    downloadFolder ev (default [] (args !! 0)) (default [] (args !! 1))
      (args !! 2) w.

End Earlier.

(** ** Properties *)

Section earlier.
Context (ev : env) (pre subfolder outputDir : jstring).

(** The loop of the earlier variant and the loop of index.ts with the
    same sub-folder do the same to the world and count the same files,
    on an entry that is not the sub-folder itself. *)
Lemma extract_entry_agrees w n h m e :
  replace_str (e_path e) pre [] ≠ subfolder →
  let r1 := Earlier.extract_entry ev pre subfolder outputDir
              (w, Earlier.Counters n h) e in
  let r2 := extract_entry ev (Params pre subfolder outputDir)
              (w, Counters n m) e in
  r1.1 = r2.1 ∧ Earlier.filesExtracted r1.2 = filesExtracted r2.2.
Proof.
  intros Hne. cbn zeta.
  unfold Earlier.extract_entry, Earlier.extract_try, extract_entry, extract_try.
  unfold in_scope, Earlier.in_scope, relativePath, localPath, Earlier.localPath,
    str_eqb.
  cbn [fst snd prefix normalizedSubfolder Extract.outputDir].
  rewrite bool_decide_false by done. cbn [orb].
  destruct (startsWith _ _); [|done].
  destruct (e_type e).
  - destruct (ensureDir _ _ _) as [t|]; [|done].
    by destruct (writeStream _ _ _ _).
  - by destruct (ensureDir _ _ _).
Qed.

(** What an iteration of the earlier loop leaves alone. *)
Lemma earlier_extract_entry_keeps s e :
  let s' := Earlier.extract_entry ev pre subfolder outputDir s e in
  w_exitCode s'.1 = w_exitCode s.1 ∧ requests s'.1 = requests s.1 ∧
  ∀ p, node_at (w_tree s.1) p = Some Dir → node_at (w_tree s'.1) p = Some Dir.
Proof.
  cbn zeta. unfold Earlier.extract_entry, Earlier.extract_try.
  destruct (Earlier.in_scope _ _); [|done].
  destruct (e_type e).
  - destruct (ensureDir _ _ _) as [t|] eqn:H1; [|done].
    apply lift_errno_Val in H1.
    destruct (writeStream _ _ _ _) as [t'|] eqn:H2;
      [apply lift_errno_Val in H2|];
      (split_and!; [done..|]); intros p Hp; cbn [fst emit set_tree w_tree];
      eauto using mkdirs_dir_kept, write_node_dir_kept.
  - destruct (ensureDir _ _ _) as [t|] eqn:H1; [|done].
    apply lift_errno_Val in H1. split_and!; [done..|]. intros p Hp.
    cbn [fst emit set_tree w_tree]. eauto using mkdirs_dir_kept.
Qed.

Lemma earlier_extract_all_keeps es w c :
  let s' := Earlier.extract_all ev pre subfolder outputDir es w c in
  w_exitCode s'.1 = w_exitCode w ∧ requests s'.1 = requests w ∧
  ∀ p, node_at (w_tree w) p = Some Dir → node_at (w_tree s'.1) p = Some Dir.
Proof.
  cbn zeta. unfold Earlier.extract_all.
  change w with (w, c).1 at 2 4 5. generalize (w, c). clear w c.
  induction es as [|e es IH]; intros s; [done|]. cbn [foldl].
  destruct (IH (Earlier.extract_entry ev pre subfolder outputDir s e))
    as (Hx & Hr & Hd).
  destruct (earlier_extract_entry_keeps s e) as (Hx' & Hr' & Hd').
  split_and!; [congruence..|auto].
Qed.

(** Entries out of scope leave the state as it is. *)
Lemma earlier_extract_all_none es w c :
  Forall (λ e, Earlier.in_scope subfolder (replace_str (e_path e) pre []) = false)
    es →
  Earlier.extract_all ev pre subfolder outputDir es w c = (w, c).
Proof.
  unfold Earlier.extract_all. intros H. induction H as [|e es He _ IH]; [done|].
  cbn [foldl]. unfold Earlier.extract_entry at 2, Earlier.extract_try.
  cbn [fst snd]. by rewrite He.
Qed.
End earlier.

Section earlier_download.
Context (ev : env).

Lemma earlier_getDefaultBranch_keeps o r w :
  let x := Earlier.getDefaultBranch ev o r w in
  w_exitCode x.1 = w_exitCode w ∧ w_tree x.1 = w_tree w.
Proof. done. Qed.

Lemma earlier_report_keeps subfolder outputDir c w :
  let w' := Earlier.report ev subfolder outputDir c w in
  w_exitCode w' = w_exitCode w ∧ w_tree w' = w_tree w ∧
  (last_event w' = Some (SpinnerWarn Earlier.some_errors_text) ∨
   ∃ text, last_event w' = Some (SpinnerSucceed text)).
Proof. cbn zeta. unfold Earlier.report. destruct (Earlier.hasErrors c); eauto. Qed.

Lemma ensureDirs_keeps tempDir outputDir w p :
  node_at (w_tree w) p = Some Dir →
  node_at (w_tree (ensureDirs ev tempDir outputDir w).1) p = Some Dir.
Proof.
  unfold ensureDirs. intros Hp.
  destruct (ensureDir _ _ tempDir) as [t1|] eqn:H1; [|done].
  apply lift_errno_Val in H1.
  destruct (ensureDir _ t1 outputDir) as [t2|] eqn:H2;
    [apply lift_errno_Val in H2|]; cbn [fst set_tree w_tree];
    eauto using mkdirs_dir_kept.
Qed.

Lemma ensureDirs_scratch tempDir outputDir w :
  is_val (ensureDirs ev tempDir outputDir w).2 = true →
  node_at (w_tree (ensureDirs ev tempDir outputDir w).1)
    (fs_segs (env_cwd ev) tempDir) = Some Dir.
Proof.
  intros (t1 & H1%lift_errno_Val & H2%lift_errno_Val)%ensureDirs_ready.
  unfold ensureDirs, ensureDir. rewrite H1. cbn [lift_errno]. rewrite H2.
  cbn [lift_errno fst set_tree w_tree].
  eapply mkdirs_dir_kept; [done|].
  by apply (mkdirs_dir (w_tree w) [] (fs_segs (env_cwd ev) tempDir)).
Qed.

(** The directories, the loop and the report of the earlier variant:
    what they keep, and how they end. *)
Lemma earlier_extractAndReport_keeps subfolder outputDir pre a w :
  let x := Earlier.extractAndReport ev subfolder outputDir pre a w in
  w_exitCode x.1 = w_exitCode w ∧
  (∀ p, node_at (w_tree w) p = Some Dir → node_at (w_tree x.1) p = Some Dir) ∧
  (is_val (ensureDirs ev (tempDirOf ev) outputDir w).2 = true →
   node_at (w_tree x.1) (fs_segs (env_cwd ev) (tempDirOf ev)) = Some Dir) ∧
  match x.2 with
  | Val o =>
      o = Returned ∧
      (last_event x.1 = Some (SpinnerWarn Earlier.some_errors_text) ∨
       ∃ text, last_event x.1 = Some (SpinnerSucceed text))
  | Throw _ => True
  end.
Proof.
  cbn zeta. unfold Earlier.extractAndReport.
  pose proof (ensureDirs_fst ev (tempDirOf ev) outputDir w) as [_ Hx].
  pose proof (ensureDirs_keeps (tempDirOf ev) outputDir w) as Hk.
  pose proof (ensureDirs_scratch (tempDirOf ev) outputDir w) as Hs.
  destruct (ensureDirs _ _ _ _) as [w1 [[]|err]]; cbn [fst snd] in *;
    [|by split_and!].
  destruct (earlier_extract_all_keeps ev pre subfolder outputDir (a_entries a)
              w1 (Earlier.Counters 0 false)) as (Hx2 & _ & Hk2).
  destruct (Earlier.extract_all _ _ _ _ _ _ _) as [w2 c]. cbn [fst snd] in *.
  destruct (a_error a); cbn [fst snd].
  - split_and!; [congruence|auto..|done].
  - destruct (earlier_report_keeps subfolder outputDir c w2) as (Hx3 & Ht3 & Hl).
    rewrite Ht3. split_and!; [congruence|auto..].
Qed.

Lemma earlier_downloadBody_keeps r b subfolder target w :
  let x := Earlier.downloadBody ev r b subfolder target w in
  w_exitCode x.1 = w_exitCode w ∧
  (∀ p, node_at (w_tree w) p = Some Dir → node_at (w_tree x.1) p = Some Dir) ∧
  match x.2 with
  | Val Returned =>
      last_event x.1 = Some (SpinnerWarn Earlier.some_errors_text) ∨
      ∃ text, last_event x.1 = Some (SpinnerSucceed text)
  | Val o => o = Exited 1
  | Throw _ => True
  end.
Proof.
  cbn zeta. unfold Earlier.downloadBody.
  pose proof (fetchZip_fst ev r b w) as Hw1.
  destruct (fetchZip ev r b w) as [w1 [res|err]]; cbn [fst snd] in *; subst w1;
    [|done].
  destruct (checkTarget _ _ _); [|done].
  set (w1 := emit (Fetched _) _).
  destruct (earlier_extractAndReport_keeps subfolder
              (outputDirOf ev subfolder target) (prefixOf (repo r) b)
              (r_archive res) w1) as (Hx & Hk & _ & Ho).
  destruct (Earlier.extractAndReport _ _ _ _ _ _) as [w2 [o|err]];
    cbn [fst snd] in *; [|done].
  destruct Ho as [-> Hl]. done.
Qed.

(** Every call of the earlier [downloadFolder] keeps the exit code
    and the directories that were there, and ends by returning after
    the success line or the warning that some entries failed, or by
    [process.exit(1)]. *)
Lemma earlier_downloadFolder_keeps repoUrl subfolder target w :
  let x := Earlier.downloadFolder ev repoUrl subfolder target w in
  w_exitCode x.1 = w_exitCode w ∧
  (∀ p, node_at (w_tree w) p = Some Dir → node_at (w_tree x.1) p = Some Dir) ∧
  ((x.2 = Returned ∧
    (last_event x.1 = Some (SpinnerWarn Earlier.some_errors_text) ∨
     ∃ text, last_event x.1 = Some (SpinnerSucceed text))) ∨
   x.2 = Exited 1).
Proof.
  cbn zeta. unfold Earlier.downloadFolder. set (w0 := emit _ w).
  destruct (Legacy.parseGitHubUrl repoUrl) as [r|err]; [|by split_and!; auto].
  assert (∃ w1 x, (if truthy (branch r) then (w0, Val (branch r))
                   else Earlier.getDefaultBranch ev (owner r) (repo r) w0)
                  = (w1, x) ∧ w_exitCode w1 = w_exitCode w ∧
                  w_tree w1 = w_tree w) as (w1 & x & -> & Hx & Ht).
  { destruct (truthy (branch r)); eexists _, _; split_and!; done. }
  destruct x as [b|err];
    [|cbn [Earlier.onError fst snd emit w_exitCode w_tree];
      split_and!; [done|by intros p ?; rewrite Ht|by right]].
  destruct (earlier_downloadBody_keeps r b subfolder target w1) as (Hx2 & Hk & Ho).
  destruct (Earlier.downloadBody _ _ _ _ _ _) as [w2 [o|err]];
    cbn [fst snd Earlier.onError emit w_tree w_exitCode] in *.
  - split_and!; [congruence|by intros p ?; apply Hk; rewrite Ht|].
    destruct o; auto.
  - split_and!; [congruence|by intros p ?; apply Hk; rewrite Ht|by right].
Qed.
End earlier_download.

(** ** Theorems *)

(** C36: on archives in which no entry is the sub-folder itself, the
    loop of the earlier variant and the loop of index.ts, run with the
    same sub-folder, leave the same world (tree, output, exit code) and
    count the same number of files: the two scope tests differ only on
    the entry that equals the sub-folder. *)
Theorem extract_all_agrees ev pre subfolder outputDir es w n h m :
  Forall (λ e, replace_str (e_path e) pre [] ≠ subfolder) es →
  let r1 := Earlier.extract_all ev pre subfolder outputDir es w
              (Earlier.Counters n h) in
  let r2 := extract_all ev (Params pre subfolder outputDir) es w
              (Counters n m) in
  r1.1 = r2.1 ∧ Earlier.filesExtracted r1.2 = filesExtracted r2.2.
Proof.
  cbn zeta. unfold Earlier.extract_all, extract_all. intros H.
  revert w n h m. induction H as [|e es He _ IH]; intros w n h m; [done|].
  cbn [foldl].
  destruct (extract_entry_agrees ev pre subfolder outputDir w n h m e He)
    as [Hw Hn].
  destruct (Earlier.extract_entry _ _ _ _ _ _) as [w1 [n1 h1]].
  destruct (extract_entry _ _ _ _) as [w2 [n2 m2]].
  cbn [fst snd Earlier.filesExtracted filesExtracted] in Hw, Hn. subst w2 n2.
  apply IH.
Qed.

Lemma extract_all_agrees_witness :
  (Earlier.extract_all ex_env (str "repo-main/") (str "keep")
     (str "/home/u/keep") ex_entries ex_world (Earlier.Counters 0 false)).1
  = (extract_all ex_env ex_params ex_entries ex_world (Counters 0 false)).1.
Proof.
  apply (extract_all_agrees ex_env (str "repo-main/") (str "keep")
           (str "/home/u/keep") ex_entries ex_world 0 false false).
  apply (bool_decide_unpack _). vm_compute. exact I.
Defined.

(** C37: in the earlier variant a sub-folder that is not in the
    archive is a success: when no entry is in scope and the archive is
    complete, the report is the success line with 0 files, and the
    function returns. *)
Theorem earlier_empty_match_succeeds ev subfolder outputDir pre a w :
  is_val (ensureDirs ev (tempDirOf ev) outputDir w).2 = true →
  a_error a = None →
  Forall (λ e, Earlier.in_scope subfolder (replace_str (e_path e) pre []) = false)
    (a_entries a) →
  Earlier.extractAndReport ev subfolder outputDir pre a w =
  (emit (SpinnerSucceed (success_text ev subfolder outputDir 0))
     (ensureDirs ev (tempDirOf ev) outputDir w).1, Val Returned).
Proof.
  intros Hd He Hs. unfold Earlier.extractAndReport.
  destruct (ensureDirs _ _ _ _) as [w1 [[]|err]]; [|done].
  by rewrite earlier_extract_all_none, He.
Qed.

Lemma earlier_empty_match_succeeds_witness :
  (Earlier.extractAndReport dl_env (str "docs") (str "/home/u/docs")
     (str "repo-main/") (Archive ex_entries None) dl_world).2 = Val Returned.
Proof.
  rewrite earlier_empty_match_succeeds; [reflexivity| |reflexivity|].
  - vm_compute. reflexivity.
  - apply (bool_decide_unpack _). vm_compute. exact I.
Defined.

(** C38: the earlier variant never removes a directory, and its
    scratch directory least of all: the [catch] tests a variable that
    is always [null].  Every directory that was there before a call is
    there after it, and once the two directories were created the
    scratch directory is there when the loop and the report are
    through, however they end. *)
Theorem earlier_scratch_stays ev repoUrl subfolder target pre a w p :
  (node_at (w_tree w) p = Some Dir →
   node_at (w_tree (Earlier.downloadFolder ev repoUrl subfolder target w).1) p
   = Some Dir) ∧
  (is_val (ensureDirs ev (tempDirOf ev) (outputDirOf ev subfolder target) w).2
   = true →
   node_at (w_tree (Earlier.extractAndReport ev subfolder
                      (outputDirOf ev subfolder target) pre a w).1)
     (fs_segs (env_cwd ev) (tempDirOf ev)) = Some Dir).
Proof.
  split.
  - destruct (earlier_downloadFolder_keeps ev repoUrl subfolder target w)
      as (_ & H & _). apply H.
  - destruct (earlier_extractAndReport_keeps ev subfolder
                (outputDirOf ev subfolder target) pre a w) as (_ & _ & H & _).
    apply H.
Qed.

Lemma earlier_scratch_stays_witness :
  node_at (w_tree (Earlier.extractAndReport dl_env_broken (str "keep")
                     (outputDirOf dl_env_broken (str "keep") None)
                     (str "repo-main/")
                     (Archive ex_entries (Some (Error (str "FILE_ENDED"))))
                     dl_world).1)
    (fs_segs (env_cwd dl_env_broken) (tempDirOf dl_env_broken)) = Some Dir.
Proof.
  apply (earlier_scratch_stays dl_env_broken (str "o/repo#main") (str "keep")
           None (str "repo-main/")
           (Archive ex_entries (Some (Error (str "FILE_ENDED")))) dl_world []).
  vm_compute. reflexivity.
Defined.

(** The exit status of the earlier program is 0 exactly when it
    left through [process.exit(0)] or [downloadFolder] returned, and
    it returns after the success line or after the warning that some
    entries failed: failed entries do not make the status 1. *)
Lemma earlier_exit_status ev argv w :
  w_exitCode w = None →
  let r := Earlier.main ev argv w in
  exit_status r ≤ 1 ∧
  (exit_status r = 0 ↔
   r.2 = Exited 0 ∨
   (r.2 = Returned ∧
    (last_event r.1 = Some (SpinnerWarn Earlier.some_errors_text) ∨
     ∃ text, last_event r.1 = Some (SpinnerSucceed text)))).
Proof.
  intros Hw. unfold Earlier.main.
  destruct (includes _ (str "--version")).
  { destruct (Earlier.getVersion ev); cbn; naive_solver. }
  destruct (_ || _); [cbn; naive_solver|].
  destruct (_ || _); [cbn; naive_solver|].
  destruct (earlier_downloadFolder_keeps ev (default [] (drop 2 argv !! 0))
              (default [] (drop 2 argv !! 1)) (drop 2 argv !! 2) w)
    as (Hx & _ & [[Ho Hl]|Ho]);
    unfold exit_status; rewrite Ho, ?Hx, ?Hw; cbn [default]; naive_solver.
Qed.

Lemma earlier_exit_status_witness :
  exit_status (Earlier.main dl_env (cli [str "o/repo"; str "keep"]) dl_world) = 0.
Proof.
  destruct (earlier_exit_status dl_env (cli [str "o/repo"; str "keep"]) dl_world
              eq_refl) as [_ H].
  apply H. right. split; [vm_compute; reflexivity|].
  right. eexists. vm_compute. reflexivity.
Defined.
